(** * MetaPhlAn 2 (metaphlan2.py): the taxonomic abundance model

    A shallow embedding of the classes [TaxClade] and [TaxTree] of
    [metaphlan2.py] and of the ordering of the relative-abundance table,
    followed by the properties of the abundance engine.

    Modelling conventions.
    - Python [int] is [Z]; a Python [float] is a rational [Q].  The
      abundances are computed in the exact rationals (no rounding, no
      infinities).  Where a float decides how many markers are trimmed,
      it is the IEEE 754 double of the code: the quantile is the double
      that [float()] makes of the number given for it, and the product
      that [int()] truncates to the trim width is rounded to a double
      ([round_double], [fmul]).  The one float that has no rational
      counterpart, the [nan] that [numpy.mean] and [numpy.median] return
      on an empty list, is the outcome [Raise NotANumber]: the code
      stores and returns the [nan] where the model stops.  An empty list
      reaches them only through a trimmed band that is empty, which no
      quantile in [0, 1/2) gives.
    - A Python exception is the outcome [Raise e] of the [result] monad.
    - The script is one of Python 2 ([cPickle], [with_statement]): a
      [str] is a string of bytes, and [round] rounds a half away from
      zero.
    - A [dict] is an association list with unique keys, in iteration
      order: assigning to an existing key keeps its position, a new key is
      appended.
    - A [TaxClade] object is a node of an inductive tree.  The [father]
      back-reference is the chain of ancestors handed to each method
      (nearest first, the root last); a reference to a clade held in an
      index ([all_clades], [taxa2clades]) is the path of names leading to
      it from the root. *)

From Stdlib Require Import List String Ascii Bool Arith ZArith QArith Qround.
From Stdlib Require Import Qpower Qabs.
From Stdlib Require Import Lia Lqa Permutation Sorted.
Import ListNotations.

Local Open Scope list_scope.

(* ================================================================== *)
(** ** Exceptions *)

Inductive exn : Type :=
| KeyError | IndexError | ValueError | TypeError | AttributeError
| ZeroDivisionError | NotANumber | BadRef.

Inductive result (A : Type) : Type :=
| Ok (a : A)
| Raise (e : exn).

Arguments Ok {A} a.
Arguments Raise {A} e.

Definition bind {A B : Type} (r : result A) (k : A -> result B) : result B :=
  match r with
  | Ok a => k a
  | Raise e => Raise e
  end.

Notation "x <- c ;; k" := (bind c (fun x => k))
  (at level 61, c at next level, right associativity).
Notation "' p <- c ;; k" := (bind c (fun x => match x with p => k end))
  (at level 61, p pattern, c at next level, right associativity).

(** [[f(x) for x in l]] where [f] may raise: left to right, the first
    exception wins. *)
Fixpoint mapM {A B : Type} (f : A -> result B) (l : list A) : result (list B) :=
  match l with
  | [] => Ok []
  | x :: xs => y <- f x ;; ys <- mapM f xs ;; Ok (y :: ys)
  end.

(* ================================================================== *)
(** ** Python strings *)

Module Str.

Definition eqb := String.eqb.

(** [s.startswith(p)] *)
Definition startswith (s p : string) : bool := String.prefix p s.

(** [p in s] *)
Fixpoint contains (p s : string) : bool :=
  String.prefix p s ||
  match s with
  | EmptyString => false
  | String _ s' => contains p s'
  end.

(** [s[0]] *)
Definition first (s : string) : result ascii :=
  match s with
  | EmptyString => Raise IndexError
  | String c _ => Ok c
  end.

(** [s[n:]] *)
Fixpoint drop (n : nat) (s : string) : string :=
  match n, s with
  | O, _ => s
  | S n', EmptyString => EmptyString
  | S n', String _ s' => drop n' s'
  end.

(** [s[:n]] *)
Fixpoint take (n : nat) (s : string) : string :=
  match n, s with
  | O, _ => EmptyString
  | S n', EmptyString => EmptyString
  | S n', String c s' => String c (take n' s')
  end.

(** [s.count(c)] for a one-character [c] *)
Fixpoint count (c : ascii) (s : string) : nat :=
  match s with
  | EmptyString => O
  | String c' s' => (if Ascii.eqb c' c then 1 else 0) + count c s'
  end.

(** [sep.join(l)] *)
Definition join (sep : string) (l : list string) : string := String.concat sep l.

(** [s.split(c)] for a one-character [c]: never empty, [''.split(c)] is
    [['']]. *)
Fixpoint split (c : ascii) (s : string) : list string :=
  match s with
  | EmptyString => [EmptyString]
  | String c' s' =>
      if Ascii.eqb c' c then EmptyString :: split c s'
      else match split c s' with
           | [] => [String c' EmptyString]
           | w :: ws => String c' w :: ws
           end
  end.

(** [s.split(p)[0]]: what precedes the first occurrence of [p]. *)
Fixpoint before (p s : string) : string :=
  if String.prefix p s then EmptyString
  else match s with
       | EmptyString => EmptyString
       | String c s' => String c (before p s')
       end.

(** The whitespace of a byte string, which [strip] removes: the space
    and the characters 9 to 13, as in Python 2. *)
Definition is_space (c : ascii) : bool :=
  let n := nat_of_ascii c in
  (n =? 32)%nat || ((9 <=? n)%nat && (n <=? 13)%nat).

Fixpoint lstrip (s : string) : string :=
  match s with
  | EmptyString => EmptyString
  | String c s' => if is_space c then lstrip s' else s
  end.

Fixpoint rstrip (s : string) : string :=
  match s with
  | EmptyString => EmptyString
  | String c s' =>
      match rstrip s' with
      | EmptyString => if is_space c then EmptyString else String c EmptyString
      | r => String c r
      end
  end.

(** [s.strip()] *)
Definition strip (s : string) : string := rstrip (lstrip s).

End Str.

(* ================================================================== *)
(** ** Python dictionaries with string keys *)

Definition dict (V : Type) : Type := list (string * V).

Fixpoint dict_get {V : Type} (d : dict V) (k : string) : option V :=
  match d with
  | [] => None
  | (k', v) :: d' => if String.eqb k' k then Some v else dict_get d' k
  end.

(** [k in d] *)
Definition dict_mem {V : Type} (d : dict V) (k : string) : bool :=
  match dict_get d k with Some _ => true | None => false end.

(** [d[k]] *)
Definition dict_lookup {V : Type} (d : dict V) (k : string) : result V :=
  match dict_get d k with
  | Some v => Ok v
  | None => Raise KeyError
  end.

(** [d[k] = v] *)
Fixpoint dict_set {V : Type} (d : dict V) (k : string) (v : V) : dict V :=
  match d with
  | [] => [(k, v)]
  | (k', v') :: d' =>
      if String.eqb k' k then (k', v) :: d' else (k', v') :: dict_set d' k v
  end.

(** [dict(l)] for a list of pairs *)
Definition dict_of_list {V : Type} (l : list (string * V)) : dict V :=
  fold_left (fun d kv => dict_set d (fst kv) (snd kv)) l [].

Definition dict_values {V : Type} (d : dict V) : list V := map snd d.
Definition dict_keys {V : Type} (d : dict V) : list string := map fst d.

(* ================================================================== *)
(** ** Python lists and numbers *)

(** [sum] of a list of [int] *)
Definition sumZ (l : list Z) : Z := fold_left Z.add l 0%Z.

(** [sum] of a list of [float] *)
Definition sumQ (l : list Q) : Q := fold_left Qplus l 0%Q.

(** [float(n)] *)
Definition float (n : Z) : Q := inject_Z n.

(** [int(x)] for a float [x]: truncation towards zero *)
Definition int_of_float (x : Q) : Z :=
  if Qle_bool 0 x then Qfloor x else Qceiling x.

Definition Qltb (x y : Q) : bool := negb (Qle_bool y x).

(** *** Doubles

    A double is [m * 2^e] for integers [m] and [e] with [m] of at most
    53 bits.  Rounding is to the nearest double, a tie to the one with
    the even [m]; the exponent range of the format (overflow to an
    infinity, the subnormal numbers below [2^-1022]) is not modelled. *)

(** The integer nearest to [y], a tie to the even one. *)
Definition round_half_even (y : Q) : Z :=
  let f := Qfloor y in
  match (y - inject_Z f ?= 1 # 2)%Q with
  | Lt => f
  | Gt => (f + 1)%Z
  | Eq => if Z.even f then f else (f + 1)%Z
  end.

(** For [x > 0], the exponent [e] of the unit in the last place of [x]:
    [2^(e+52) <= x < 2^(e+53)]. *)
Definition ulp_exponent (x : Q) : Z :=
  let k := (Z.log2 (Qnum x) - Z.log2 (Zpos (Qden x)))%Z in
  if Qle_bool (2 ^ k) x then (k - 52)%Z else (k - 53)%Z.

(** The double nearest to [x]: the value of a float literal, of
    [float(text)] and of the exact result of an arithmetic operation. *)
Definition round_double (x : Q) : Q :=
  if Qeq_bool x 0 then 0
  else
    let e := ulp_exponent (Qabs x) in
    let m := round_half_even (Qabs x / 2 ^ e) in
    let v := (inject_Z m * 2 ^ e)%Q in
    if Qle_bool 0 x then v else (- v)%Q.

(** [a * b] on doubles *)
Definition fmul (a b : Q) : Q := round_double (a * b).

(** [a / b] on floats *)
Definition fdiv (a b : Q) : result Q :=
  if Qeq_bool b 0 then Raise ZeroDivisionError else Ok (a / b)%Q.

(** A slice bound [i] of a list of length [len], as Python clips it. *)
Definition clip (len i : Z) : Z :=
  if (i <? 0)%Z then Z.max 0 (i + len) else Z.min i len.

(** [l[lo:hi]]; [None] is an omitted bound. *)
Definition slice {A : Type} (l : list A) (lo hi : option Z) : list A :=
  let len := Z.of_nat (List.length l) in
  let a := match lo with None => 0%Z | Some i => clip len i end in
  let b := match hi with None => len | Some i => clip len i end in
  firstn (Z.to_nat (b - a)) (skipn (Z.to_nat a) l).

(** [l[i]]; indexing with [None] is a [TypeError]. *)
Definition index {A : Type} (l : list A) (i : option Z) : result A :=
  match i with
  | None => Raise TypeError
  | Some i =>
      let len := Z.of_nat (List.length l) in
      let j := if (i <? 0)%Z then (i + len)%Z else i in
      if (j <? 0)%Z then Raise IndexError
      else match nth_error l (Z.to_nat j) with
           | Some x => Ok x
           | None => Raise IndexError
           end
  end.

(** [[x] * n] *)
Definition replicate {A : Type} (x : A) (n : Z) : list A := repeat x (Z.to_nat n).

(** [sorted(l, key = ...)]: the stable sort; [leb x y] compares the keys
    of [x] and [y] with [<=]. *)
Section Sorted.
Context {A : Type} (leb : A -> A -> bool).

Fixpoint insert_sorted (x : A) (l : list A) : list A :=
  match l with
  | [] => [x]
  | y :: l' => if leb x y then x :: l else y :: insert_sorted x l'
  end.

Definition sorted (l : list A) : list A := fold_right insert_sorted [] l.

End Sorted.

(** [sorted(l, key = ..., reverse = True)]: descending, and elements with
    equal keys keep their original order; [geb x y] compares the keys of
    [x] and [y] with [>=]. *)
Definition sorted_reverse {A : Type} (geb : A -> A -> bool) (l : list A) : list A :=
  sorted geb l.

(** [numpy.mean] *)
Definition np_mean (l : list Q) : result Q :=
  match l with
  | [] => Raise NotANumber
  | _ => Ok (sumQ l / float (Z.of_nat (List.length l)))%Q
  end.

(** [numpy.median] of a list that is already sorted *)
Definition np_median (l : list Q) : result Q :=
  let n := List.length l in
  match l with
  | [] => Raise NotANumber
  | _ =>
      if Nat.even n
      then Ok ((nth (n / 2 - 1) l 0 + nth (n / 2) l 0) / 2)%Q
      else Ok (nth (n / 2) l 0%Q)
  end.

(* ================================================================== *)
(** ** Module-level constants and configuration *)

Definition tax_units : string := "kpcofgst".

Definition markers_to_exclude : list string := ["NC_001782.1"%string].

(** The [--stat] choices. *)
Inductive Stat : Type :=
| avg_g | avg_l | tavg_g | tavg_l | wavg_g | wavg_l | med.

(** The class attributes of [TaxClade] that [set_min_cu_len] and
    [set_stat] assign.  [stat_q] is the number given for the quantile
    ([--stat_q]), of which the attribute [quantile] holds the double. *)
Record Config : Type := mkConfig {
  min_cu_len : Z;
  stat : Stat;
  stat_q : Q;
  avoid_disqm : bool
}.

(** [TaxClade.quantile]: a float, the double nearest to the number
    given. *)
Definition quantile (cfg : Config) : Q := round_double (stat_q cfg).

(** [TaxTree.set_min_cu_len(min_cu_len)] *)
Definition set_min_cu_len (cfg : Config) (min_cu_len' : Z) : Config :=
  mkConfig min_cu_len' (stat cfg) (stat_q cfg) (avoid_disqm cfg).

(** [TaxTree.set_stat(stat, quantile, avoid_disqm)] *)
Definition set_stat (cfg : Config) (stat' : Stat) (quantile' : Q) (avoid_disqm' : bool)
  : Config :=
  mkConfig (min_cu_len cfg) stat' quantile' avoid_disqm'.

(** The class attributes before the setters run; the main program always
    calls both.  ([stat] and [quantile] start as [None]: the fields here
    hold the defaults of [--stat] and [--stat_q].) *)
Definition default_config : Config := mkConfig (-1) tavg_g (1 # 10) false.

(* ================================================================== *)
(** ** class TaxClade *)

(** [children] is the dict from a child's name to the child, in iteration
    order; its key is the child's own [name].  [n_runs] is a ghost field:
    it counts how often the body of [compute_abundance] past the
    memoization test has run on the clade, and nothing reads it. *)
#[local] Unset Elimination Schemes.
Inductive TaxClade : Type := mkTaxClade {
  name : string;
  children : list TaxClade;
  markers2nreads : dict Z;
  uncl : bool;
  subcl_uncl : bool;
  abundance : option Q;
  uncl_abundance : Q;
  n_runs : nat
}.
#[local] Set Elimination Schemes.

(** A reference to a clade object: the names on the way from the root. *)
Definition ref : Type := list string.

(** [TaxClade.__init__(name)] *)
Definition TaxClade_init (nm : string) : TaxClade :=
  mkTaxClade nm [] [] false false None 0 0.

Definition set_children (c : TaxClade) (cs : list TaxClade) : TaxClade :=
  mkTaxClade (name c) cs (markers2nreads c) (uncl c) (subcl_uncl c)
             (abundance c) (uncl_abundance c) (n_runs c).

Definition set_markers2nreads (c : TaxClade) (d : dict Z) : TaxClade :=
  mkTaxClade (name c) (children c) d (uncl c) (subcl_uncl c)
             (abundance c) (uncl_abundance c) (n_runs c).

Fixpoint find_child (cs : list TaxClade) (nm : string) : option TaxClade :=
  match cs with
  | [] => None
  | c :: cs' => if String.eqb (name c) nm then Some c else find_child cs' nm
  end.

(** [children[c.name] = c] *)
Fixpoint put_child (cs : list TaxClade) (c : TaxClade) : list TaxClade :=
  match cs with
  | [] => [c]
  | c' :: cs' =>
      if String.eqb (name c') (name c) then c :: cs' else c' :: put_child cs' c
  end.

(** [self.add_child(name)] *)
Definition add_child (self : TaxClade) (nm : string) : TaxClade :=
  set_children self (put_child (children self) (TaxClade_init nm)).

(** [self.get_terminals()] *)
Fixpoint get_terminals (self : TaxClade) : list TaxClade :=
  match children self with
  | [] => [self]
  | _ :: _ => flat_map get_terminals (children self)
  end.

(** [self.get_full_name()]; [fathers] is the chain [self.father],
    [self.father.father], ... that the loop walks. *)
Definition get_full_name (fathers : list TaxClade) (self : TaxClade) : string :=
  let fullname := fold_left (fun acc cl => name cl :: acc) fathers [name self] in
  Str.join "|" (tl fullname).

(** The loop [while len(cl.children) == 1: cl = list(cl.children.values())[0]]:
    down the chain of only children. *)
Fixpoint descend_unary (fathers : list TaxClade) (cl : TaxClade)
  : list TaxClade * TaxClade :=
  match children cl with
  | [c] => descend_unary (cl :: fathers) c
  | _ => (fathers, cl)
  end.

(** The clade a reference denotes, with its chain of fathers. *)
Fixpoint resolve (fathers : list TaxClade) (cl : TaxClade) (p : ref)
  : option (list TaxClade * TaxClade) :=
  match p with
  | [] => Some (fathers, cl)
  | nm :: p' =>
      match find_child (children cl) nm with
      | Some c => resolve (cl :: fathers) c p'
      | None => None
      end
  end.

(** The reference of a clade, from its chain of fathers. *)
Definition ref_of (fathers : list TaxClade) (cl : TaxClade) : ref :=
  tl (fold_left (fun acc c => name c :: acc) fathers [name cl]).

(** The update of the child that [children[nm]] denotes. *)
Fixpoint modify_child (g : TaxClade -> TaxClade) (nm : string) (cs : list TaxClade)
  : list TaxClade :=
  match cs with
  | [] => []
  | c :: cs' =>
      if String.eqb (name c) nm then g c :: cs' else c :: modify_child g nm cs'
  end.

(** The update of the clade a reference denotes. *)
Fixpoint modify_at (f : TaxClade -> TaxClade) (p : ref) (cl : TaxClade) : TaxClade :=
  match p with
  | [] => f cl
  | nm :: p' => set_children cl (modify_child (modify_at f p') nm (children cl))
  end.

(* ================================================================== *)
(** ** class TaxTree: the fields *)

Record TaxTree : Type := mkTaxTree {
  root : TaxClade;
  all_clades : dict ref;
  markers2lens : dict Z;
  markers2clades : dict string;
  taxa2clades : dict ref;
  markers2exts : dict (list string)
}.

Definition set_root (T : TaxTree) (r : TaxClade) : TaxTree :=
  mkTaxTree r (all_clades T) (markers2lens T) (markers2clades T)
            (taxa2clades T) (markers2exts T).

(** Following an object reference of the tree. *)
Definition deref (T : TaxTree) (p : ref) : result (list TaxClade * TaxClade) :=
  match resolve [] (root T) p with
  | Some x => Ok x
  | None => Raise BadRef
  end.

(* ================================================================== *)
(** ** TaxClade.compute_abundance *)

(** [T] is the tree the clade belongs to: the class attributes
    [markers2lens], [markers2exts] and [taxa2clades] alias its dicts, and
    the marker counts of the related clades are read in its root.  The
    method assigns [abundance], [uncl_abundance] and [subcl_uncl] only,
    never a name, a child or a marker count, so what it reads in [T] is
    what the running program reads in the objects. *)

Section ComputeAbundance.

Variable T : TaxTree.
Variable cfg : Config.

(** [sum([v > 0 for v in m2nr.values()])] *)
Definition count_positive (vs : list Z) : Z :=
  sumZ (map (fun v => if (0 <? v)%Z then 1%Z else 0%Z) vs).

(** The marker counts of the clade that [taxa2clades[e]] collapses to:
    the value of [m2nr] after the [while] loop. *)
Definition ext_m2nr (e : string) : result (dict Z) :=
  r <- dict_lookup (taxa2clades T) e ;;
  ' (fs, toclade) <- deref T r ;;
  let tocladetmp := snd (descend_unary fs toclade) in
  Ok (markers2nreads tocladetmp).

(** The test on one related clade:
    [len(m2nr) and float(nonzeros) / len(m2nr) > 0.33]. *)
Definition ext_hit (m2nr : dict Z) : bool :=
  let nonzeros := count_positive (dict_values m2nr) in
  let len := Z.of_nat (List.length m2nr) in
  negb (len =? 0)%Z && Qltb (33 # 100) (float nonzeros / float len).

(** [for e in self.markers2exts[m]: ...]: [true] when the loop leaves
    through [break] with [misidentified = True]. *)
Fixpoint misidentified_in (exts : list string) : result bool :=
  match exts with
  | [] => Ok false
  | e :: es =>
      m2nr <- ext_m2nr e ;;
      if ext_hit m2nr then Ok true else misidentified_in es
  end.

(** The value of [misidentified] at the end of the body of the loop over
    the markers. *)
Definition misidentified (m : string) : result bool :=
  if avoid_disqm cfg then Ok false
  else exts <- dict_lookup (markers2exts T) m ;; misidentified_in exts.

(** [for m, n in self.markers2nreads.items(): ...]: the lists
    [rat_nreads] and [removed] it builds. *)
Fixpoint split_markers (items : list (string * Z))
  : result (list (Z * Z) * list (Z * Z)) :=
  match items with
  | [] => Ok ([], [])
  | (m, n) :: rest =>
      mis <- misidentified m ;;
      len <- dict_lookup (markers2lens T) m ;;
      ' (rat_nreads, removed) <- split_markers rest ;;
      if mis then Ok (rat_nreads, (len, n) :: removed)
      else Ok ((len, n) :: rat_nreads, removed)
  end.

(** The value of [n_ripr] where it is compared with the number of active
    markers. *)
Definition n_ripr (fathers : list TaxClade) (self : TaxClade) : Z :=
  let n_ripr := 10%Z in
  let n_ripr := if (List.length (get_terminals self) <? 2)%nat then 0%Z else n_ripr in
  let n_ripr :=
    if Str.contains "k__Viruses" (get_full_name fathers self) then 0%Z else n_ripr in
  n_ripr.

(** [if not self.avoid_disqm and len(removed): ...]: [rat_nreads] after
    the removed markers have been given back. *)
Definition restore_removed (fathers : list TaxClade) (self : TaxClade)
    (rat_nreads removed : list (Z * Z)) : list (Z * Z) :=
  if negb (avoid_disqm cfg) && negb (List.length removed =? 0)%nat then
    let n_rat_nreads := float (Z.of_nat (List.length rat_nreads)) in
    let n_removed := float (Z.of_nat (List.length removed)) in
    let n_tot := (n_rat_nreads + n_removed)%Q in
    let n_ripr := n_ripr fathers self in
    if Qltb n_rat_nreads (float n_ripr) && Qltb n_rat_nreads n_tot
    then rat_nreads ++ slice removed None (Some (n_ripr - int_of_float n_rat_nreads)%Z)
    else rat_nreads
  else rat_nreads.

Definition by_count (x y : Z * Z) : bool := (snd x <=? snd y)%Z.

(** [rat_nreads] as it stands after
    [rat_nreads = sorted(rat_nreads, key = lambda x: x[1])]: the active
    (length, count) pairs of the clade.  The first statement of the
    method sorts the pairs of all markers and its list is overwritten
    before it is read; it is kept for the [KeyError] it can raise. *)
Definition active_markers (fathers : list TaxClade) (self : TaxClade)
  : result (list (Z * Z)) :=
  _ <- mapM (fun mn => len <- dict_lookup (markers2lens T) (fst mn) ;; Ok (len, snd mn))
            (markers2nreads self) ;;
  ' (rat_nreads, removed) <- split_markers (markers2nreads self) ;;
  Ok (sorted by_count (restore_removed fathers self rat_nreads removed)).

(** [quant = int(self.quantile * len(rat_nreads))]: the product of the
    double [quantile] and the length is rounded to a double, and [int]
    truncates that double. *)
Definition trim_width (rat_nreads : list (Z * Z)) : Z :=
  int_of_float (fmul (quantile cfg) (float (Z.of_nat (List.length rat_nreads)))).

(** [[float(n) / r for r, n in rat_nreads]] *)
Definition ratios (rat_nreads : list (Z * Z)) : result (list Q) :=
  mapM (fun rn => fdiv (float (snd rn)) (float (fst rn))) rat_nreads.

Definition Stat_eqb (a b : Stat) : bool :=
  match a, b with
  | avg_g, avg_g | avg_l, avg_l | tavg_g, tavg_g | tavg_l, tavg_l
  | wavg_g, wavg_g | wavg_l, wavg_l | med, med => true
  | _, _ => false
  end.

(** [rat = float(sum(rat_v)) or -1.0] *)
Definition total_length (rat_nreads : list (Z * Z)) : Q :=
  let s := float (sumZ (map fst rat_nreads)) in
  if Qeq_bool s 0 then (-1 # 1)%Q else s.

(** [ql, qr, qn = (quant, -quant, quant) if quant else (None, None, 0)] *)
Definition trim_bounds (quant : Z) : option Z * option Z * Z :=
  if (quant =? 0)%Z then (None, None, 0%Z) else (Some quant, Some (- quant)%Z, quant).

(** The chain [if rat < 0.0: ... elif self.stat == ...]: the value of
    [loc_ab] after it. *)
Definition local_abundance (rat_nreads : list (Z * Z)) : result Q :=
  let nreads_v := map snd rat_nreads in
  let rat := total_length rat_nreads in
  let nrawreads := sumZ nreads_v in
  let '(ql, qr, qn) := trim_bounds (trim_width rat_nreads) in
  let st := stat cfg in
  if Qltb rat 0 then Ok 0%Q
  else if Stat_eqb st avg_g
          || ((qn =? 0)%Z && (Stat_eqb st wavg_g || Stat_eqb st tavg_g)) then
    if Qle_bool 0 rat then fdiv (float nrawreads) rat else Ok 0%Q
  else if Stat_eqb st avg_l
          || ((qn =? 0)%Z && (Stat_eqb st wavg_l || Stat_eqb st tavg_l)) then
    rs <- ratios rat_nreads ;; np_mean rs
  else if Stat_eqb st tavg_g then
    ws <- mapM (fun rn => q <- fdiv (float (snd rn)) (float (fst rn)) ;; Ok (q, rn))
               rat_nreads ;;
    let wnreads := sorted (fun x y => Qle_bool (fst x) (fst y)) ws in
    match slice wnreads ql qr with
    | [] => Raise ValueError
    | band =>
        let den := map (fun v => fst (snd v)) band in
        let num := map (fun v => snd (snd v)) band in
        if existsb (fun d => negb (d =? 0)%Z) den
        then fdiv (float (sumZ num)) (float (sumZ den))
        else Ok 0%Q
    end
  else if Stat_eqb st tavg_l then
    rs <- ratios rat_nreads ;;
    np_mean (slice (sorted Qle_bool rs) ql qr)
  else if Stat_eqb st wavg_g then
    vmin <- index nreads_v ql ;;
    vmax <- index nreads_v qr ;;
    let wnreads := replicate vmin qn ++ slice nreads_v ql qr ++ replicate vmax qn in
    fdiv (float (sumZ wnreads)) rat
  else if Stat_eqb st wavg_l then
    rs <- ratios rat_nreads ;;
    let wnreads := sorted Qle_bool rs in
    vmin <- index wnreads ql ;;
    vmax <- index wnreads qr ;;
    np_mean (replicate vmin qn ++ slice wnreads ql qr ++ replicate vmax qn)
  else if Stat_eqb st med then
    rs <- ratios rat_nreads ;;
    np_median (slice (sorted Qle_bool rs) ql qr)
  else Ok 0%Q.

(** The condition of the strain rule:
    [self.name[0] == 't' and (len(self.father.children) > 1 or "_sp" in
    self.father.name or "k__Viruses" in self.get_full_name())]. *)
Definition strain_rule_applies (fathers : list TaxClade) (self : TaxClade)
  : result bool :=
  c <- Str.first (name self) ;;
  if Ascii.eqb c "t" then
    match fathers with
    | [] => Raise AttributeError
    | father :: _ =>
        Ok ((1 <? List.length (children father))%nat
            || Str.contains "_sp" (name father)
            || Str.contains "k__Viruses" (get_full_name fathers self))
    end
  else Ok false.

(** [nreads == 0.0 or non_zeros / nreads < 0.7] *)
Definition too_few_nonzero (rat_nreads : list (Z * Z)) : bool :=
  let non_zeros :=
    float (Z.of_nat (List.length (filter (fun rn => (0 <? snd rn)%Z) rat_nreads))) in
  let nreads := float (Z.of_nat (List.length rat_nreads)) in
  Qeq_bool nreads 0 || Qltb (non_zeros / nreads) (7 # 10).

(** [self.name[0] not in tax_units[-2:]] with [self.children] empty *)
Definition subcl_uncl_of (self : TaxClade) : result bool :=
  match children self with
  | [] =>
      c <- Str.first (name self) ;;
      Ok (negb (Ascii.eqb c "s" || Ascii.eqb c "t"))
  | _ :: _ => Ok false
  end.

(** The body of [compute_abundance] once the children have been computed:
    [self] already holds the computed children, [sum_ab] is the sum of
    what they returned. *)
Definition clade_abundance (fathers : list TaxClade) (self : TaxClade) (sum_ab : Q)
  : result (Q * TaxClade) :=
  rat_nreads <- active_markers fathers self ;;
  let rat := total_length rat_nreads in
  strain <- strain_rule_applies fathers self ;;
  if strain && too_few_nonzero rat_nreads then
    Ok (0%Q, mkTaxClade (name self) (children self) (markers2nreads self) (uncl self)
                        (subcl_uncl self) (Some 0%Q) (uncl_abundance self)
                        (S (n_runs self)))
  else
    loc_ab <- local_abundance rat_nreads ;;
    let has_children := negb (List.length (children self) =? 0)%nat in
    let ab :=
      if Qltb rat (float (min_cu_len cfg)) && has_children then sum_ab
      else if Qltb loc_ab sum_ab then sum_ab
      else loc_ab in
    let uncl_ab :=
      if Qltb sum_ab ab && has_children then (ab - sum_ab)%Q else uncl_abundance self in
    sub <- subcl_uncl_of self ;;
    Ok (ab, mkTaxClade (name self) (children self) (markers2nreads self) (uncl self)
                       sub (Some ab) uncl_ab (S (n_runs self))).

(** [self.compute_abundance()]: the result and the clade with the fields
    it and its descendants were assigned. *)
Fixpoint compute_abundance (fathers : list TaxClade) (self : TaxClade)
  : result (Q * TaxClade) :=
  match abundance self with
  | Some a => Ok (a, self)
  | None =>
      rs <- mapM (compute_abundance (self :: fathers)) (children self) ;;
      let sum_ab := sumQ (map fst rs) in
      clade_abundance fathers (set_children self (map snd rs)) sum_ab
  end.

End ComputeAbundance.

(* ================================================================== *)
(** ** class TaxTree: the methods *)

(** One entry of [mpa_pkl['markers']]. *)
Record Marker : Type := mkMarker {
  len : Z;
  clade : string;
  ext : list string
}.

(** The unpickled marker database. *)
Record MpaPkl : Type := mkMpaPkl {
  taxonomy : list string;
  markers : list (string * Marker)
}.

Definition set_markers2nreads_at (T : TaxTree) (p : ref) (marker : string) (n : Z)
  : TaxTree :=
  set_root T
    (modify_at (fun c => set_markers2nreads c (dict_set (markers2nreads c) marker n))
               p (root T)).

(** [self.add_reads(marker, n, ignore_viruses, ignore_eukaryotes,
    ignore_bacteria, ignore_archaea)]: the string it returns and the tree
    after the call. *)
Definition add_reads (T : TaxTree) (marker : string) (n : Z)
    (ignore_viruses ignore_eukaryotes ignore_bacteria ignore_archaea : bool)
  : result (string * TaxTree) :=
  clade <- dict_lookup (markers2clades T) marker ;;
  r <- dict_lookup (all_clades T) clade ;;
  ' (fs, cl) <- deref T r ;;
  let cn := get_full_name fs cl in
  if (ignore_viruses || ignore_eukaryotes || ignore_bacteria || ignore_archaea)
     && ((ignore_viruses && Str.startswith cn "k__Viruses")
         || (ignore_eukaryotes && Str.startswith cn "k__Eukaryotes")
         || (ignore_archaea && Str.startswith cn "k__Archaea")
         || (ignore_bacteria && Str.startswith cn "k__Bacteria"))
  then Ok (EmptyString, T)
  else
    let '(fs', cl') := descend_unary fs cl in
    Ok (get_full_name fs' cl', set_markers2nreads_at T (ref_of fs' cl') marker n).

(** The body of [for clade_lev in clade]: [father] is the reference held
    by the loop variable of that name. *)
Definition init_level (T : TaxTree) (father : ref) (clade_lev : string)
  : result (TaxTree * ref) :=
  ' (_, fcl) <- deref T father ;;
  let T1 :=
    match find_child (children fcl) clade_lev with
    | Some _ => T
    | None =>
        mkTaxTree (modify_at (fun c => add_child c clade_lev) father (root T))
                  (dict_set (all_clades T) clade_lev (father ++ [clade_lev]))
                  (markers2lens T) (markers2clades T) (taxa2clades T) (markers2exts T)
    end in
  c <- Str.first clade_lev ;;
  let T2 :=
    if Ascii.eqb c "t"
    then mkTaxTree (root T1) (all_clades T1) (markers2lens T1) (markers2clades T1)
                   (dict_set (taxa2clades T1) (Str.drop 3 clade_lev) father)
                   (markers2exts T1)
    else T1 in
  Ok (T2, father ++ [clade_lev]).

Fixpoint init_lineage (T : TaxTree) (father : ref) (clade : list string)
  : result TaxTree :=
  match clade with
  | [] => Ok T
  | clade_lev :: rest =>
      ' (T', father') <- init_level T father clade_lev ;;
      init_lineage T' father' rest
  end.

Fixpoint init_taxonomy (T : TaxTree) (lines : list string) : result TaxTree :=
  match lines with
  | [] => Ok T
  | l :: rest =>
      T' <- init_lineage T [] (Str.split "|" (Str.strip l)) ;;
      init_taxonomy T' rest
  end.

Fixpoint init_markers (T : TaxTree) (items : list (string * Marker)) : result TaxTree :=
  match items with
  | [] => Ok T
  | (k, p) :: rest =>
      if existsb (String.eqb k) markers_to_exclude then init_markers T rest
      else
        let T1 := mkTaxTree (root T) (all_clades T)
                            (dict_set (markers2lens T) k (len p))
                            (dict_set (markers2clades T) k (clade p))
                            (taxa2clades T) (markers2exts T) in
        ' (_, T2) <- add_reads T1 k 0 false false false false ;;
        let T3 := mkTaxTree (root T2) (all_clades T2) (markers2lens T2)
                            (markers2clades T2) (taxa2clades T2)
                            (dict_set (markers2exts T2) k (ext p)) in
        init_markers T3 rest
  end.

(** [TaxTree.__init__(mpa_pkl)] *)
Definition TaxTree_init (mpa_pkl : MpaPkl) : result TaxTree :=
  let T0 := mkTaxTree (TaxClade_init "root") [] [] [] [] [] in
  T1 <- init_taxonomy T0 (taxonomy mpa_pkl) ;;
  init_markers T1 (markers mpa_pkl).

(** A call [v.compute_abundance()] on the clade that the reference [p]
    denotes: the result and the tree after the call. *)
Definition compute_abundance_at (T : TaxTree) (cfg : Config) (p : ref)
  : result (Q * TaxTree) :=
  ' (fs, cl) <- deref T p ;;
  ' (a, cl') <- compute_abundance T cfg fs cl ;;
  Ok (a, set_root T (modify_at (fun _ => cl') p (root T))).

(** [s[i]] for a string [s] and an [int] [i] *)
Definition str_at (s : string) (i : Z) : result ascii :=
  index (list_ascii_of_string s) (Some i).

(** [s.index(c)] *)
Fixpoint str_find (s : string) (c : ascii) : result Z :=
  match s with
  | EmptyString => Raise ValueError
  | String c' s' =>
      if Ascii.eqb c' c then Ok 0%Z else i <- str_find s' c ;; Ok (i + 1)%Z
  end.

(** [self.get_all_abundances()]; the second component is [None] where
    the Python value is. *)
Fixpoint get_all_abundances (self : TaxClade) : result (list (string * option Q)) :=
  let ret := [(name self, abundance self)] in
  ret1 <-
    (if Qltb 0 (uncl_abundance self) then
       c0 <- index (children self) (Some 0%Z) ;;
       let lchild := Str.take 3 (name c0) in
       Ok (ret ++ [((lchild ++ Str.drop 3 (name self) ++ "_unclassified")%string,
                    Some (uncl_abundance self))])
     else Ok ret) ;;
  ret2 <-
    (if subcl_uncl self then
       c <- Str.first (name self) ;;
       if negb (Ascii.eqb c "s") then
         cind <- str_find tax_units c ;;
         u <- str_at tax_units (cind + 1) ;;
         Ok (ret1 ++ [(String u (Str.drop 1 (name self) ++ "_unclassified")%string,
                       abundance self)])
       else Ok ret1
     else Ok ret1) ;;
  subs <- mapM get_all_abundances (children self) ;;
  Ok (ret2 ++ List.concat subs).

(** The name under which [relative_abundances(None)] files an entry
    [cl] of [get_all_abundances]. *)
Definition entry_full_name (T : TaxTree) (cl : string) : result string :=
  if negb (dict_mem (all_clades T) cl) then
    c <- Str.first cl ;;
    to <- str_find tax_units c ;;
    t <- str_at tax_units (to - 1) ;;
    let cl1 := String t (Str.drop 1 (Str.before "_unclassified" cl)) in
    r <- dict_lookup (all_clades T) cl1 ;;
    ' (fs, c1) <- deref T r ;;
    let spl := Str.split "|" (get_full_name fs c1) in
    u <- str_at tax_units to ;;
    last <- index spl (Some (-1)%Z) ;;
    Ok (Str.join "|" (spl ++ [String u (Str.drop 1 last ++ "_unclassified")%string]))
  else
    r <- dict_lookup (all_clades T) cl ;;
    ' (fs, c1) <- deref T r ;;
    Ok (get_full_name fs c1).

(** [not tax_lev] *)
Definition no_tax_lev (tax_lev : option string) : bool :=
  match tax_lev with
  | None => true
  | Some s => String.eqb s EmptyString
  end.

(** [for cl, ab in v.get_all_abundances(): ...] *)
Fixpoint collect_entries (T : TaxTree) (tax_lev : option string)
    (entries : list (string * option Q)) (cl2ab : dict (option Q))
  : result (dict (option Q)) :=
  match entries with
  | [] => Ok cl2ab
  | (cl, ab) :: rest =>
      match tax_lev with
      | Some lev =>
          if no_tax_lev tax_lev then
            cl' <- entry_full_name T cl ;;
            collect_entries T tax_lev rest (dict_set cl2ab cl' ab)
          else if negb (Str.startswith cl lev) then collect_entries T tax_lev rest cl2ab
          else collect_entries T tax_lev rest (dict_set cl2ab cl ab)
      | None =>
          cl' <- entry_full_name T cl ;;
          collect_entries T tax_lev rest (dict_set cl2ab cl' ab)
      end
  end.

(** The first loop of [relative_abundances]:
    [for k, v in cl2ab_n.items(): tot_ab += v.compute_abundance()]. *)
Fixpoint compute_kingdoms (T : TaxTree) (cfg : Config) (vs : list ref) (tot_ab : Q)
  : result (Q * TaxTree) :=
  match vs with
  | [] => Ok (tot_ab, T)
  | v :: rest =>
      ' (a, T') <- compute_abundance_at T cfg v ;;
      compute_kingdoms T' cfg rest (tot_ab + a)%Q
  end.

(** The second loop of [relative_abundances]. *)
Fixpoint collect_kingdoms (T : TaxTree) (tax_lev : option string) (vs : list ref)
    (cl2ab : dict (option Q)) : result (dict (option Q)) :=
  match vs with
  | [] => Ok cl2ab
  | v :: rest =>
      ' (_, cl) <- deref T v ;;
      entries <- get_all_abundances cl ;;
      cl2ab' <- collect_entries T tax_lev entries cl2ab ;;
      collect_kingdoms T tax_lev rest cl2ab'
  end.

(** [[(k, v) for k, v in self.all_clades.items()
      if k.startswith("k__") and not v.uncl]] *)
Fixpoint kingdom_clades (T : TaxTree) (items : list (string * ref)) : result (list ref) :=
  match items with
  | [] => Ok []
  | (k, v) :: rest =>
      if Str.startswith k "k__" then
        ' (_, cl) <- deref T v ;;
        vs <- kingdom_clades T rest ;;
        Ok (if uncl cl then vs else v :: vs)
      else kingdom_clades T rest
  end.

(** [float(v) / tot_ab if tot_ab else 0.0] *)
Definition normalize (tot_ab : Q) (v : option Q) : result Q :=
  if Qeq_bool tot_ab 0 then Ok 0%Q
  else match v with
       | Some x => fdiv x tot_ab
       | None => Raise TypeError
       end.

(** [self.relative_abundances(tax_lev)]: the dict it returns and the tree
    after the call. *)
Definition relative_abundances (T : TaxTree) (cfg : Config) (tax_lev : option string)
  : result (dict Q * TaxTree) :=
  cl2ab_n <- kingdom_clades T (all_clades T) ;;
  ' (tot_ab, T') <- compute_kingdoms T cfg cl2ab_n 0 ;;
  cl2ab <- collect_kingdoms T' tax_lev cl2ab_n [] ;;
  ret_d <- mapM (fun kv => x <- normalize tot_ab (snd kv) ;; Ok (fst kv, x)) cl2ab ;;
  match tax_lev with
  | Some lev =>
      if no_tax_lev tax_lev then Ok (ret_d, T')
      else Ok (dict_set ret_d (lev ++ "unclassified")%string
                        (1 - sumQ (dict_values ret_d))%Q, T')
  | None => Ok (ret_d, T')
  end.

(* ================================================================== *)
(** ** The main program: recording the reads *)

Definition tab : string := String (ascii_of_nat 9) EmptyString.

(** [for marker, reads in markers2reads.items(): ...]: the list [map_out]
    and the tree after the loop. *)
Fixpoint record_reads (T : TaxTree)
    (ignore_viruses ignore_eukaryotes ignore_bacteria ignore_archaea : bool)
    (items : list (string * list string)) (map_out : list string)
  : result (list string * TaxTree) :=
  match items with
  | [] => Ok (map_out, T)
  | (marker, reads) :: rest =>
      if negb (dict_mem (markers2lens T) marker)
      then record_reads T ignore_viruses ignore_eukaryotes ignore_bacteria
                        ignore_archaea rest map_out
      else
        ' (tax_seq, T') <- add_reads T marker (Z.of_nat (List.length reads))
                                     ignore_viruses ignore_eukaryotes
                                     ignore_bacteria ignore_archaea ;;
        let map_out' :=
          if String.eqb tax_seq EmptyString then map_out
          else map_out ++ map (fun r => Str.join tab [r; tax_seq]) reads in
        record_reads T' ignore_viruses ignore_eukaryotes ignore_bacteria
                     ignore_archaea rest map_out'
  end.

(* ================================================================== *)
(** ** The relative-abundance table of the main program *)

(** [round(x, 5)], a half rounded away from zero as Python 2 rounds it. *)
Definition round5 (x : Q) : Q :=
  let scaled := (x * 100000)%Q in
  if Qle_bool 0 scaled then (Qfloor (scaled + (1 # 2)) # 1) / 100000
  else (Qceiling (scaled - (1 # 2)) # 1) / 100000.

(** [outpred = [(k, round(v * 100.0, 5)) for k, v in cl2ab.items() if v > 0.0]] *)
Definition outpred (cl2ab : dict Q) : list (string * Q) :=
  map (fun kv => (fst kv, round5 (snd kv * 100)))
      (filter (fun kv => Qltb 0 (snd kv)) cl2ab).

(** [lambda x: x[1] + (100.0 * (8 - x[0].count("|")))] *)
Definition sort_key (x : string * Q) : Q :=
  (snd x + 100 * float (8 - Z.of_nat (Str.count "|" (fst x))))%Q.

(** The rows written for [-t rel_ab], in the order they are written. *)
Definition rel_ab_rows (cl2ab : dict Q) : list (string * Q) :=
  match outpred cl2ab with
  | [] => [("unclassified"%string, 100%Q)]
  | rows => sorted_reverse (fun x y => Qle_bool (sort_key y) (sort_key x)) rows
  end.

(* ================================================================== *)
(** ** The clade profiles *)

(** [self.get_normalized_counts()] *)
Definition get_normalized_counts (T : TaxTree) (self : TaxClade)
  : result (list (string * Q)) :=
  mapM (fun mn =>
          l <- dict_lookup (markers2lens T) (fst mn) ;;
          q <- fdiv (float (snd mn) * 1000) (float l) ;;
          Ok (fst mn, q))
       (markers2nreads self).

(** [for k, v in self.all_clades.items(): ...] of [clade_profiles] *)
Fixpoint clade_profiles_loop (T : TaxTree) (tax_lev : option string)
    (items : list (string * ref)) (cl2pr : dict (list (string * Q)))
  : result (dict (list (string * Q))) :=
  match items with
  | [] => Ok cl2pr
  | (k, v) :: rest =>
      if negb (no_tax_lev tax_lev)
         && negb (Str.startswith k (match tax_lev with Some lev => lev | None => EmptyString end))
      then clade_profiles_loop T tax_lev rest cl2pr
      else
        ' (fs, cl) <- deref T v ;;
        prof <- get_normalized_counts T cl ;;
        if (List.length prof <? 1)%nat || negb (Qltb 0 (sumQ (map snd prof)))
        then clade_profiles_loop T tax_lev rest cl2pr
        else clade_profiles_loop T tax_lev rest
               (dict_set cl2pr (get_full_name fs cl) prof)
  end.

(** [self.clade_profiles(tax_lev)] *)
Definition clade_profiles (T : TaxTree) (tax_lev : option string)
  : result (dict (list (string * Q))) :=
  clade_profiles_loop T tax_lev (all_clades T) [].

(* ================================================================== *)
(** ** Reading the mapping: [map2bbh] and [guess_input_format]

    The functions are modelled on the lines of the file they read. *)

Definition tab_char : ascii := ascii_of_nat 9.

(** [l.strip().split('\t')] *)
Definition fields (l : string) : list string := Str.split tab_char (Str.strip l).

(** [s[-1]] *)
Definition str_last (s : string) : result ascii :=
  index (list_ascii_of_string s) (Some (-1)%Z).

(** [for r, c in (l.strip().split('\t') for l in inpf): reads2markers[r] = c];
    a line that does not split in two cannot be unpacked. *)
Fixpoint read_bowtie2out (lines : list string) (reads2markers : dict string)
  : result (dict string) :=
  match lines with
  | [] => Ok reads2markers
  | l :: rest =>
      match fields l with
      | [r; c] => read_bowtie2out rest (dict_set reads2markers r c)
      | _ => Raise ValueError
      end
  end.

(** The loop of the input type ['sam']. *)
Fixpoint read_sam (lines : list string) (reads2markers : dict string)
  : result (dict string) :=
  match lines with
  | [] => Ok reads2markers
  | l :: rest =>
      let o := fields l in
      o0 <- index o (Some 0%Z) ;;
      c <- Str.first o0 ;;
      if negb (Ascii.eqb c "@") then
        o2 <- index o (Some 2%Z) ;;
        e <- str_last o2 ;;
        if negb (Ascii.eqb e "*")
        then read_sam rest (dict_set reads2markers o0 o2)
        else read_sam rest reads2markers
      else read_sam rest reads2markers
  end.

(** [s.add(r)] on a set of strings, kept as a list without repetition. *)
Definition set_add (s : list string) (r : string) : list string :=
  if existsb (String.eqb r) s then s else s ++ [r].

(** [for r, m in reads2markers.items(): markers2reads[m].add(r)] on the
    [defaultdict(set)] [markers2reads]. *)
Fixpoint group_reads (items : list (string * string)) (markers2reads : dict (list string))
  : dict (list string) :=
  match items with
  | [] => markers2reads
  | (r, m) :: rest =>
      let s := match dict_get markers2reads m with Some s => s | None => [] end in
      group_reads rest (dict_set markers2reads m (set_add s r))
  end.

(** [map2bbh(blast_outfmt6, input_type)] on the lines of the input. *)
Definition map2bbh (lines : list string) (input_type : string)
  : result (dict (list string)) :=
  reads2markers <-
    (if String.eqb input_type "bowtie2out" then read_bowtie2out lines []
     else if String.eqb input_type "sam" then read_sam lines []
     else Ok []) ;;
  Ok (group_reads reads2markers []).

(** [for i, l in enumerate(inpf): ...] of [guess_input_format] *)
Fixpoint guess_loop (i : nat) (lines : list string) : result (option string) :=
  match lines with
  | [] => Ok None
  | l :: rest =>
      c <- Str.first (Str.strip l) ;;
      if Ascii.eqb c "#" then guess_loop (S i) rest
      else if Ascii.eqb c ">" then Ok (Some "multifasta"%string)
      else if Ascii.eqb c "@" then Ok (Some "multifastq"%string)
      else if (List.length (Str.split tab_char l) =? 2)%nat
           then Ok (Some "bowtie2out"%string)
      else if (20 <? i)%nat then Ok None
      else guess_loop (S i) rest
  end.

(** [guess_input_format(inp_file)] on the lines of the file. *)
Definition guess_input_format (lines : list string) : result (option string) :=
  guess_loop 0 lines.

(* ================================================================== *)
(** ** Predicates used in the statements *)

(** Two clades that differ at most in the fields [compute_abundance]
    assigns: same names, same marker counts, same tree below. *)
#[local] Unset Elimination Schemes.
Inductive same_shape : TaxClade -> TaxClade -> Prop :=
| SameShape : forall c c',
    name c = name c' ->
    markers2nreads c = markers2nreads c' ->
    uncl c = uncl c' ->
    Forall2 same_shape (children c) (children c') ->
    same_shape c c'.
#[local] Set Elimination Schemes.

(** [sum(children abundances)] where every child has one. *)
Fixpoint children_sum (cs : list TaxClade) : option Q :=
  match cs with
  | [] => Some 0%Q
  | c :: cs' =>
      match abundance c, children_sum cs' with
      | Some a, Some s => Some (a + s)%Q
      | _, _ => None
      end
  end.

(** No clade that [compute_abundance] still has to compute, from [self]
    downwards, has a trim width other than 0. *)
Fixpoint trim_free (T : TaxTree) (cfg : Config) (fathers : list TaxClade)
    (self : TaxClade) : bool :=
  match abundance self with
  | Some _ => true
  | None =>
      match active_markers T cfg fathers self with
      | Ok rat_nreads => (trim_width cfg rat_nreads =? 0)%Z
      | Raise _ => true
      end
      && forallb (trim_free T cfg (self :: fathers)) (children self)
  end.

(** The depth of an entry of the relative-abundance table: the number of
    hierarchy separators in its name. *)
Definition depth (row : string * Q) : nat := Str.count "|" (fst row).

(** The order the specification words for the table: descending by
    abundance, entries of equal abundance shallower first. *)
Definition spec_before (x y : string * Q) : Prop :=
  (snd y < snd x)%Q \/ ((snd x == snd y)%Q /\ (depth x <= depth y)%nat).

(** The order the table has: descending by [sort_key]. *)
Definition key_before (x y : string * Q) : Prop := (sort_key y <= sort_key x)%Q.

(** The clade a reference denotes, without its fathers. *)
Definition clade_at (c : TaxClade) (p : ref) : option TaxClade :=
  match resolve [] c p with
  | Some (_, cl) => Some cl
  | None => None
  end.

(** [cl'] is reached from [cl] by going down through only children. *)
Inductive unary_chain : TaxClade -> TaxClade -> Prop :=
| unary_here : forall cl, unary_chain cl cl
| unary_down : forall cl c cl',
    children cl = [c] -> unary_chain c cl' -> unary_chain cl cl'.

(** The full lineage [cn] matches a kingdom that the flags exclude. *)
Definition excluded_kingdom (cn : string)
    (ignore_viruses ignore_eukaryotes ignore_bacteria ignore_archaea : bool) : bool :=
  (ignore_viruses && Str.startswith cn "k__Viruses")
  || (ignore_eukaryotes && Str.startswith cn "k__Eukaryotes")
  || (ignore_archaea && Str.startswith cn "k__Archaea")
  || (ignore_bacteria && Str.startswith cn "k__Bacteria").

(** The names from the root down to [cl]: the list [fullname] that
    [get_full_name] builds, the name of the root included. *)
Definition lineage (fathers : list TaxClade) (cl : TaxClade) : list string :=
  fold_left (fun acc c => name c :: acc) fathers [name cl].

(** [k] out of [n] markers, with [n] not 0, are more than the fraction
    0.33. *)
Definition fraction_exceeds (k : Z) (n : nat) : Prop :=
  n <> 0%nat /\ (33 # 100 < float k / float (Z.of_nat n))%Q.

(** Some clade related to the marker [m] collapses to a clade of whose
    markers more than the fraction 0.33 have a positive count. *)
Definition related_signal (T : TaxTree) (m : string) : Prop :=
  exists exts e m2nr,
    dict_get (markers2exts T) m = Some exts
    /\ In e exts
    /\ ext_m2nr T e = Ok m2nr
    /\ fraction_exceeds (count_positive (dict_values m2nr)) (List.length m2nr).

(** [cl'] is the clade that [cl] collapses to: the end of the chain of
    only children that starts at [cl]. *)
Definition collapses_to (cl cl' : TaxClade) : Prop :=
  unary_chain cl cl' /\ List.length (children cl') <> 1%nat.

(** How many markers of a dict of counts have a positive count. *)
Definition positive_markers (m2nr : dict Z) : nat :=
  List.length (filter (fun kv => (0 <? snd kv)%Z) m2nr).

(** Following the words of the amended claim: some name in the
    extended-clade set of [m] denotes a clade that collapses to a clade
    [cl] that has markers, more than the fraction 0.33 of them with a
    positive count; every marker of [cl] is counted. *)
Definition collapsed_signal (T : TaxTree) (m : string) : Prop :=
  exists exts e r fs toclade cl,
    dict_get (markers2exts T) m = Some exts
    /\ In e exts
    /\ dict_get (taxa2clades T) e = Some r
    /\ resolve [] (root T) r = Some (fs, toclade)
    /\ collapses_to toclade cl
    /\ fraction_exceeds (Z.of_nat (positive_markers (markers2nreads cl)))
                        (List.length (markers2nreads cl)).

(** Following the words of the specification: the markers of a related
    clade other than the marker under test, and how many of them have a
    nonzero count. *)
Definition other_markers (m : string) (m2nr : dict Z) : dict Z :=
  filter (fun kv => negb (String.eqb (fst kv) m)) m2nr.

Definition count_nonzero (vs : list Z) : Z :=
  Z.of_nat (List.length (filter (fun v => negb (v =? 0)%Z) vs)).

Definition spec_related_signal (T : TaxTree) (m : string) : Prop :=
  exists exts e r fs toclade cl,
    dict_get (markers2exts T) m = Some exts
    /\ In e exts
    /\ dict_get (taxa2clades T) e = Some r
    /\ resolve [] (root T) r = Some (fs, toclade)
    /\ collapses_to toclade cl
    /\ fraction_exceeds
         (count_nonzero (dict_values (other_markers m (markers2nreads cl))))
         (List.length (other_markers m (markers2nreads cl))).

(** The markers [items] of a clade, in order, are placed in the removed
    list when they have a related signal and in the active list when
    they have none, as pairs of their length and count. *)
Inductive placement (T : TaxTree)
  : list (string * Z) -> list (Z * Z) -> list (Z * Z) -> Prop :=
| placement_nil : placement T [] [] []
| placement_removed : forall m n l items active removed,
    dict_get (markers2lens T) m = Some l ->
    related_signal T m ->
    placement T items active removed ->
    placement T ((m, n) :: items) active ((l, n) :: removed)
| placement_active : forall m n l items active removed,
    dict_get (markers2lens T) m = Some l ->
    ~ related_signal T m ->
    placement T items active removed ->
    placement T ((m, n) :: items) ((l, n) :: active) removed.

(** The markers [items] of a clade, in order, are placed in the removed
    list when [signal] holds of them and in the active list when it does
    not, as pairs of their length in [m2l] and their count. *)
Inductive placed_by (signal : string -> Prop) (m2l : dict Z)
  : list (string * Z) -> list (Z * Z) -> list (Z * Z) -> Prop :=
| placed_nil : placed_by signal m2l [] [] []
| placed_removed : forall m n l items active removed,
    dict_get m2l m = Some l ->
    signal m ->
    placed_by signal m2l items active removed ->
    placed_by signal m2l ((m, n) :: items) active ((l, n) :: removed)
| placed_active : forall m n l items active removed,
    dict_get m2l m = Some l ->
    ~ signal m ->
    placed_by signal m2l items active removed ->
    placed_by signal m2l ((m, n) :: items) ((l, n) :: active) removed.

(** Following the words of the specification: the removed markers given
    back lowest read count first, until the active list holds [nr]
    markers or none is left. *)
Definition spec_restore (nr : Z) (active removed : list (Z * Z)) : list (Z * Z) :=
  active ++ firstn (Z.to_nat nr - List.length active) (sorted by_count removed).

(** [P] holds of a clade and of every clade below it. *)
#[local] Unset Elimination Schemes.
Inductive throughout (P : TaxClade -> Prop) : TaxClade -> Prop :=
| throughout_intro : forall c,
    P c -> Forall (throughout P) (children c) -> throughout P c.
#[local] Set Elimination Schemes.

(** A clade as [TaxClade.__init__] leaves it, as far as the memoization
    is concerned. *)
Definition fresh (c : TaxClade) : Prop := abundance c = None /\ n_runs c = 0%nat.

(** The body of [compute_abundance] has run at most once on the clade,
    and not at all while the clade has no abundance. *)
Definition run_once (c : TaxClade) : Prop :=
  (n_runs c <= 1)%nat /\ (abundance c = None -> n_runs c = 0%nat).

(** What can happen to a tree once it is built: reads are recorded, a
    count of [markers2nreads] of some clade is assigned directly, or
    [compute_abundance] is called on some clade, under any configuration. *)
Inductive step : TaxTree -> TaxTree -> Prop :=
| step_add_reads : forall T marker n iv ie ib ia s T',
    add_reads T marker n iv ie ib ia = Ok (s, T') -> step T T'
| step_assign : forall T p marker n,
    step T (set_markers2nreads_at T p marker n)
| step_compute : forall T cfg p v T',
    compute_abundance_at T cfg p = Ok (v, T') -> step T T'.

(** The steps that only touch [markers2nreads]. *)
Inductive mutation : TaxTree -> TaxTree -> Prop :=
| mutation_add_reads : forall T marker n iv ie ib ia s T',
    add_reads T marker n iv ie ib ia = Ok (s, T') -> mutation T T'
| mutation_assign : forall T p marker n,
    mutation T (set_markers2nreads_at T p marker n).

(** Any number of steps. *)
Inductive many {A : Type} (R : A -> A -> Prop) : A -> A -> Prop :=
| many_none : forall x, many R x x
| many_more : forall x y z, many R x y -> R y z -> many R x z.

(** Monotonicity at one clade: when the clade has an abundance, so has
    each of its children, and the abundance is at least their sum. *)
Definition monotone (c : TaxClade) : Prop :=
  forall a, abundance c = Some a ->
            exists s, children_sum (children c) = Some s /\ (s <= a)%Q.

(** A clade whose name starts with the letter of the strains has no
    children. *)
Definition strain_leaf (c : TaxClade) : Prop :=
  Str.first (name c) = Ok "t"%char -> children c = [].

(** The name [nm] carries the rank letter number [d] of [tax_units]. *)
Definition letter_ok (d : nat) (nm : string) : bool :=
  match Str.first nm, nth_error (list_ascii_of_string tax_units) d with
  | Ok c, Some c' => Ascii.eqb c c'
  | _, _ => false
  end.

(** A lineage names its ranks in the order of [tax_units], from rank
    number [d] on. *)
Fixpoint valid_lineage (d : nat) (levels : list string) : bool :=
  match levels with
  | [] => true
  | lev :: rest => letter_ok d lev && valid_lineage (S d) rest
  end.

(** The taxonomy of a valid marker database: every line is a lineage
    from the kingdom down, at most to the strain. *)
Definition valid_taxonomy (lines : list string) : bool :=
  forallb (fun l => valid_lineage 0 (Str.split "|" (Str.strip l))) lines.

(** Below a clade at depth [d] the clades carry the rank letters of
    their depths. *)
Fixpoint ranked (d : nat) (c : TaxClade) : bool :=
  forallb (fun ch => letter_ok d (name ch) && ranked (S d) ch) (children c).

(** The marker of the entry [mn] of a [markers2nreads] has a positive
    length. *)
Definition has_positive_length (T : TaxTree) (mn : string * Z) : bool :=
  match dict_get (markers2lens T) (fst mn) with
  | Some l => (0 <? l)%Z
  | None => false
  end.

(** What [compute_abundance] looks up for the clades it still has to
    compute, from [self] downwards, is there: the names are not empty, a
    clade with the letter of the strains has a father, every marker has a
    positive length, and the lookups of the disambiguation succeed. *)
Fixpoint well_formed (T : TaxTree) (cfg : Config) (fathers : list TaxClade)
    (self : TaxClade) : bool :=
  match abundance self with
  | Some _ => true
  | None =>
      match strain_rule_applies fathers self with Ok _ => true | Raise _ => false end
      && match split_markers T cfg (markers2nreads self) with
         | Ok _ => true
         | Raise _ => false
         end
      && forallb (has_positive_length T) (markers2nreads self)
      && forallb (well_formed T cfg (self :: fathers)) (children self)
  end.

(* ================================================================== *)
(** ** Predicates used in the further properties *)

(** Two clades with the same names and the same tree below: they differ
    at most in marker counts and in the fields [compute_abundance]
    assigns. *)
#[local] Unset Elimination Schemes.
Inductive same_skeleton : TaxClade -> TaxClade -> Prop :=
| SameSkeleton : forall c c',
    name c = name c' ->
    Forall2 same_skeleton (children c) (children c') ->
    same_skeleton c c'.
#[local] Set Elimination Schemes.

(** The indexes of two trees are the same. *)
Definition same_indexes (T T' : TaxTree) : Prop :=
  all_clades T' = all_clades T
  /\ markers2lens T' = markers2lens T
  /\ markers2clades T' = markers2clades T
  /\ taxa2clades T' = taxa2clades T
  /\ markers2exts T' = markers2exts T.

(** No reference of the indexes dangles: [all_clades[k]] denotes a clade
    named [k], [taxa2clades[e]] denotes a clade, and the owner of every
    marker that has a length is a key of [all_clades]; the markers with a
    length are those with an owner. *)
Definition refs_ok (T : TaxTree) : Prop :=
  (forall k p, dict_get (all_clades T) k = Some p ->
               exists cl, clade_at (root T) p = Some cl /\ name cl = k)
  /\ (forall e p, dict_get (taxa2clades T) e = Some p ->
                  exists cl, clade_at (root T) p = Some cl)
  /\ (forall m, dict_mem (markers2lens T) m = dict_mem (markers2clades T) m)
  /\ (forall m owner, dict_get (markers2clades T) m = Some owner ->
                      dict_mem (all_clades T) owner = true).

(** The part of [refs_ok] about the references. *)
Definition index_refs_ok (T : TaxTree) : Prop :=
  (forall k p, dict_get (all_clades T) k = Some p ->
               exists cl, clade_at (root T) p = Some cl /\ name cl = k)
  /\ (forall e p, dict_get (taxa2clades T) e = Some p ->
                  exists cl, clade_at (root T) p = Some cl).

(** Every reference that denotes a clade of [c] denotes a clade of the
    same name of [c']. *)
Definition keeps_paths (c c' : TaxClade) : Prop :=
  forall q cq, clade_at c q = Some cq ->
               exists cq', clade_at c' q = Some cq' /\ name cq' = name cq.

(** The steps of the program itself: numbers of reads are recorded with
    [add_reads] and abundances are computed; no count is assigned from
    outside. *)
Inductive run : TaxTree -> TaxTree -> Prop :=
| run_add_reads : forall T marker n iv ie ib ia s T',
    (0 <= n)%Z ->
    add_reads T marker n iv ie ib ia = Ok (s, T') -> run T T'
| run_compute : forall T cfg p v T',
    compute_abundance_at T cfg p = Ok (v, T') -> run T T'.

(** The steps of the program under the quantiles that the specification
    allows: every call of [compute_abundance] has a quantile in
    [0, 1/2).  There no trimmed band is empty, and the [nan] that the
    code stores and returns for an empty band, the outcome
    [Raise NotANumber] of the model, does not arise. *)
Inductive run_in_range : TaxTree -> TaxTree -> Prop :=
| in_range_add_reads : forall T marker n iv ie ib ia s T',
    (0 <= n)%Z ->
    add_reads T marker n iv ie ib ia = Ok (s, T') -> run_in_range T T'
| in_range_compute : forall T cfg p v T',
    (0 <= quantile cfg)%Q -> (quantile cfg < 1 # 2)%Q ->
    compute_abundance_at T cfg p = Ok (v, T') -> run_in_range T T'.

(** Every marker the clade counts has a length in [lens]. *)
Definition counts_known (lens : dict Z) (c : TaxClade) : Prop :=
  forall m, dict_mem (markers2nreads c) m = true -> dict_mem lens m = true.

(** A clade that holds no read and no result. *)
Definition blank (c : TaxClade) : Prop :=
  Forall (fun mn => snd mn = 0%Z) (markers2nreads c)
  /\ abundance c = None
  /\ uncl_abundance c = 0%Q
  /\ subcl_uncl c = false
  /\ uncl c = false.

(** Conservation at one clade: a clade that has children and an
    abundance holds the sum of its children and its unclassified share;
    the unclassified share of a clade without children, or without an
    abundance, is 0. *)
Definition conserved (c : TaxClade) : Prop :=
  (abundance c = None \/ children c = [] -> (uncl_abundance c == 0)%Q)
  /\ (forall a, abundance c = Some a -> children c <> [] ->
        exists s, children_sum (children c) = Some s
                  /\ (a == s + uncl_abundance c)%Q).

(** The unclassified share of one clade, as [compute_abundance] leaves
    it: 0 in a clade without children and in a clade that has no
    abundance yet; in a clade that has children and an abundance, the
    abundance is at least the sum of the abundances of the children and
    the share is the difference [self.abundance - sum_ab], which is 0
    when the two are equal. *)
Definition unclassified_share (c : TaxClade) : Prop :=
  (abundance c = None \/ children c = [] -> (uncl_abundance c == 0)%Q)
  /\ (forall a, abundance c = Some a -> children c <> [] ->
        exists s, children_sum (children c) = Some s
                  /\ (s <= a)%Q
                  /\ (uncl_abundance c == a - s)%Q).

(** The counts of the clade are numbers of reads. *)
Definition counts_nonneg (c : TaxClade) : Prop :=
  Forall (fun mn => (0 <= snd mn)%Z) (markers2nreads c).

(** The results the clade holds are not negative. *)
Definition results_nonneg (c : TaxClade) : Prop :=
  (forall a, abundance c = Some a -> (0 <= a)%Q) /\ (0 <= uncl_abundance c)%Q.

(** Every marker of the database has a positive length. *)
Definition positive_lengths (mpa_pkl : MpaPkl) : bool :=
  forallb (fun kp => (0 <? len (snd kp))%Z) (markers mpa_pkl).

(** The name of the clade is not empty. *)
Definition named (c : TaxClade) : Prop := exists ch, Str.first (name c) = Ok ch.

(** Every taxon that a marker names as related is a key of
    [taxa2clades]. *)
Definition exts_known (T : TaxTree) : bool :=
  forallb (fun kv => forallb (fun e => dict_mem (taxa2clades T) e) (snd kv))
          (markers2exts T).

(** [c'] has the names and the children of [c], and every abundance that
    [c] or a clade below it holds. *)
#[local] Unset Elimination Schemes.
Inductive keeps_results : TaxClade -> TaxClade -> Prop :=
| KeepsResults : forall c c',
    name c = name c' ->
    (forall a, abundance c = Some a -> abundance c' = Some a) ->
    Forall2 keeps_results (children c) (children c') ->
    keeps_results c c'.
#[local] Set Elimination Schemes.

(** [markers2reads[m]] of the [defaultdict(set)] that [map2bbh] returns:
    empty where the marker is no key. *)
Definition reads_of (d : dict (list string)) (m : string) : list string :=
  match dict_get d m with Some s => s | None => [] end.

(** The marker on the last line of a bowtie2out input that names the
    read [r]. *)
Fixpoint last_record (lines : list string) (r : string) : option string :=
  match lines with
  | [] => None
  | l :: rest =>
      match last_record rest r with
      | Some c => Some c
      | None =>
          match fields l with
          | [r'; c] => if String.eqb r' r then Some c else None
          | _ => None
          end
      end
  end.

(** A comment line for [guess_input_format]. *)
Definition comment_line (l : string) : Prop := Str.first (Str.strip l) = Ok "#"%char.

(** A line on which [guess_input_format] decides nothing. *)
Definition undecided_line (l : string) : Prop :=
  exists c, Str.first (Str.strip l) = Ok c
            /\ c <> "#"%char /\ c <> ">"%char /\ c <> "@"%char
            /\ List.length (Str.split tab_char l) <> 2%nat.

(** The name of the clade starts with a letter of [tax_units]. *)
Definition lettered (c : TaxClade) : Prop := exists d, letter_ok d (name c) = true.

(** The flag [subcl_uncl] is set on clades above the species only. *)
Definition subcl_ok (c : TaxClade) : Prop :=
  subcl_uncl c = true ->
  forall ch, Str.first (name c) = Ok ch -> ch <> "s"%char /\ ch <> "t"%char.

(** The clade has an abundance. *)
Definition settled (c : TaxClade) : Prop := abundance c <> None.


(* ================================================================== *)
(** ** Sample databases and samples *)

Local Open Scope string_scope.

(** [n] distinct read identifiers. *)
Definition reads (n : nat) : list string :=
  map (fun i => String (ascii_of_nat (48 + i)) EmptyString) (seq 0 n).

(** The tree of a database after the reads of a sample have been
    recorded, as the main program builds it. *)
Definition sample_tree (mpa_pkl : MpaPkl) (markers2reads : list (string * nat))
  : result TaxTree :=
  T <- TaxTree_init mpa_pkl ;;
  ' (_, T') <- record_reads T false false false false
                 (map (fun mr => (fst mr, reads (snd mr))) markers2reads) [] ;;
  Ok T'.

(** The tree of a run that raised nothing; the empty tree otherwise. *)
Definition tree_of (r : result TaxTree) : TaxTree :=
  match r with
  | Ok T => T
  | Raise _ => mkTaxTree (TaxClade_init "root") [] [] [] [] []
  end.

(** A species with two strains; the species holds two markers, the
    strain [t__X] three. *)
Definition strains_db : MpaPkl :=
  mkMpaPkl
    ["k__K|p__P|c__C|o__O|f__F|g__G|s__S|t__X";
     "k__K|p__P|c__C|o__O|f__F|g__G|s__S|t__Y"]
    [("s1", mkMarker 100 "s__S" []); ("s2", mkMarker 100 "s__S" []);
     ("x1", mkMarker 100 "t__X" []); ("x2", mkMarker 100 "t__X" []);
     ("x3", mkMarker 100 "t__X" []); ("y1", mkMarker 100 "t__Y" [])].

Definition strains_sample : list (string * nat) := [("x1", 1); ("x2", 1); ("x3", 7)]%nat.

Definition strains_tree : TaxTree :=
  tree_of (sample_tree strains_db strains_sample).

Definition species_S : ref := ["k__K"; "p__P"; "c__C"; "o__O"; "f__F"; "g__G"; "s__S"].

Definition strain_Y : ref := (species_S ++ ["t__Y"])%list.

Definition strain_X : ref := (species_S ++ ["t__X"])%list.

(** The tree of [strains_db] as built, and after two counts of the strain
    [t__X] have been assigned. *)
Definition strains_tree0 : TaxTree := tree_of (TaxTree_init strains_db).

Definition strains_tree1 : TaxTree :=
  set_markers2nreads_at (set_markers2nreads_at strains_tree0 strain_X "x3" 7)
                        strain_X "x1" 1.

Definition strains_config (s : Stat) : Config :=
  set_stat (set_min_cu_len default_config 2000) s (4 # 10) true.

(** Two kingdoms, each a single lineage, one marker each. *)
Definition two_kingdoms_db : MpaPkl :=
  mkMpaPkl
    ["k__A|p__A|c__A|o__A|f__A|g__A|s__A|t__A";
     "k__B|p__B|c__B|o__B|f__B|g__B|s__B|t__B"]
    [("a1", mkMarker 100 "k__A" []); ("b1", mkMarker 100 "t__B" [])].

Definition two_kingdoms_sample : list (string * nat) := [("a1", 6); ("b1", 4)]%nat.

Definition two_kingdoms_tree : TaxTree :=
  tree_of (sample_tree two_kingdoms_db two_kingdoms_sample).

Definition strain_A : ref :=
  ["k__A"; "p__A"; "c__A"; "o__A"; "f__A"; "g__A"; "s__A"; "t__A"].

Definition plain_config : Config :=
  set_stat (set_min_cu_len default_config 2000) avg_g (1 # 10) true.

(** What [relative_abundances(None)] returns for the two kingdoms. *)
Definition two_kingdoms_rel_ab : dict Q :=
  match relative_abundances two_kingdoms_tree plain_config None with
  | Ok (d, _) => d
  | Raise _ => []
  end.

(** A species with two strains and three markers of its own; the first
    marker lists the strain [X] of the species among its related taxa. *)
Definition self_ext_db : MpaPkl :=
  mkMpaPkl
    ["k__K|p__P|c__C|o__O|f__F|g__G|s__S|t__X";
     "k__K|p__P|c__C|o__O|f__F|g__G|s__S|t__Y"]
    [("m1", mkMarker 100 "s__S" ["X"]); ("m2", mkMarker 100 "s__S" []);
     ("m3", mkMarker 100 "s__S" [])].

Definition self_ext_tree : TaxTree :=
  tree_of (sample_tree self_ext_db [("m1", 5%nat)]).

Definition disqm_config : Config :=
  set_stat (set_min_cu_len default_config 2000) avg_g (1 # 10) false.

(** A species [s__S] with two strains and eleven markers, each related
    to the strain [Z] of the neighbouring species [s__R]; [s__R] has the
    single strain [Z] and one marker. *)
Definition eleven_db : MpaPkl :=
  mkMpaPkl
    ["k__K|p__P|c__C|o__O|f__F|g__G|s__S|t__X";
     "k__K|p__P|c__C|o__O|f__F|g__G|s__S|t__Y";
     "k__K|p__P|c__C|o__O|f__F|g__G|s__R|t__Z"]
    [("m01", mkMarker 100 "s__S" ["Z"]); ("m02", mkMarker 100 "s__S" ["Z"]);
     ("m03", mkMarker 100 "s__S" ["Z"]); ("m04", mkMarker 100 "s__S" ["Z"]);
     ("m05", mkMarker 100 "s__S" ["Z"]); ("m06", mkMarker 100 "s__S" ["Z"]);
     ("m07", mkMarker 100 "s__S" ["Z"]); ("m08", mkMarker 100 "s__S" ["Z"]);
     ("m09", mkMarker 100 "s__S" ["Z"]); ("m10", mkMarker 100 "s__S" ["Z"]);
     ("m11", mkMarker 100 "s__S" ["Z"]); ("z1", mkMarker 100 "s__R" [])].

Definition eleven_tree : TaxTree :=
  tree_of (sample_tree eleven_db [("m01", 9%nat); ("z1", 1%nat)]).

(** A lineage whose phylum is named [p__unclassified]. *)
Definition collision_db : MpaPkl :=
  mkMpaPkl
    ["k__K|p__unclassified|c__C|o__O|f__F|g__G|s__S|t__X"]
    [("x1", mkMarker 100 "t__X" [])].

Definition collision_tree : TaxTree :=
  tree_of (sample_tree collision_db [("x1", 5%nat)]).

Local Close Scope string_scope.

(** The tree of [strains_db] with reads on the species and on the strain
    [t__X], and the same tree after a call of [compute_abundance] on the
    species. *)
Definition strains_reads_tree : TaxTree :=
  set_markers2nreads_at
    (set_markers2nreads_at
       (set_markers2nreads_at strains_tree1 strain_X "x2" 2)
       species_S "s1" 10)
    species_S "s2" 30.

Definition short_config : Config :=
  set_stat (set_min_cu_len default_config 100) avg_g (1 # 10) true.

Definition strains_tree2 : TaxTree :=
  match compute_abundance_at strains_reads_tree short_config species_S with
  | Ok (_, T) => T
  | Raise _ => strains_reads_tree
  end.

(** The tree of [self_ext_db] as built. *)
Definition self_ext_tree0 : TaxTree := tree_of (TaxTree_init self_ext_db).

(** [strains_tree2] after another count has been assigned to the species
    and [compute_abundance] has been called on the kingdom. *)
Definition strains_tree3 : TaxTree :=
  match compute_abundance_at (set_markers2nreads_at strains_tree2 species_S "s1" 99)
                             short_config ["k__K"%string] with
  | Ok (_, T) => T
  | Raise _ => strains_tree2
  end.

(** A species with one marker of its own and two strains; the marker of
    the strain [t__X] names the strain [Y] as related. *)
Definition leaf_db : MpaPkl :=
  mkMpaPkl
    ["k__K|p__P|c__C|o__O|f__F|g__G|s__S|t__X"%string;
     "k__K|p__P|c__C|o__O|f__F|g__G|s__S|t__Y"%string]
    [("s1"%string, mkMarker 100 "s__S" []);
     ("x1"%string, mkMarker 100 "t__X" ["Y"%string])].

Definition leaf_tree : TaxTree :=
  tree_of (sample_tree leaf_db [("s1"%string, 5%nat); ("x1"%string, 3%nat)]).

(* ================================================================== *)
(** * Properties *)

(** ** The [result] monad *)

Lemma bind_Ok {A B : Type} (r : result A) (k : A -> result B) (b : B) :
  bind r k = Ok b -> exists a, r = Ok a /\ k a = Ok b.
Proof.
  destruct r as [a|e]; simpl; intros H; [exists a; auto | discriminate].
Qed.

Ltac inv_bind H :=
  let a := fresh "a" in
  let Ha := fresh "Ha" in
  apply bind_Ok in H; destruct H as [a [Ha H]].

Lemma mapM_Ok {A B : Type} (f : A -> result B) (l : list A) (ys : list B) :
  mapM f l = Ok ys -> Forall2 (fun x y => f x = Ok y) l ys.
Proof.
  revert ys. induction l as [|x l IH]; simpl; intros ys H.
  - injection H as <-. constructor.
  - inv_bind H. inv_bind H. injection H as <-. constructor; auto.
Qed.

Lemma mapM_length {A B : Type} (f : A -> result B) (l : list A) (ys : list B) :
  mapM f l = Ok ys -> List.length ys = List.length l.
Proof.
  intros H. apply mapM_Ok in H. symmetry. eapply Forall2_length; eauto.
Qed.

Lemma mapM_ext_in {A B : Type} (f g : A -> result B) (l : list A) :
  Forall (fun x => f x = g x) l -> mapM f l = mapM g l.
Proof.
  induction 1 as [|x l Hx _ IH]; simpl; [reflexivity|].
  rewrite Hx, IH. reflexivity.
Qed.

Lemma mapM_Forall2 {A B : Type} (f : A -> result B) (P : A -> B -> Prop)
    (l : list A) (ys : list B) :
  Forall (fun x => forall y, f x = Ok y -> P x y) l ->
  mapM f l = Ok ys -> Forall2 P l ys.
Proof.
  intros Hall H. apply mapM_Ok in H.
  induction H as [|x y l ys Hxy _ IH]; constructor.
  - apply (Forall_inv Hall). exact Hxy.
  - apply IH. exact (Forall_inv_tail Hall).
Qed.

Lemma Forall2_map_snd {A B C : Type} (P : A -> C -> Prop) (l : list A)
    (ys : list (B * C)) :
  Forall2 (fun x y => P x (snd y)) l ys -> Forall2 P l (map snd ys).
Proof. induction 1; simpl; constructor; auto. Qed.

Lemma mapM_total {A B : Type} (f : A -> result B) (l : list A) :
  Forall (fun x => exists y, f x = Ok y) l -> exists ys, mapM f l = Ok ys.
Proof.
  induction 1 as [|x l [y Hy] _ [ys IH]]; simpl.
  - eexists; reflexivity.
  - rewrite Hy, IH. simpl. eexists; reflexivity.
Qed.

(** ** Induction over a clade and the clades below it *)

Lemma TaxClade_forall_ind (P : TaxClade -> Prop) :
  (forall c, Forall P (children c) -> P c) -> forall c, P c.
Proof.
  intros H. fix IH 1. intros c. apply H.
  destruct c as [nm cs m u s a ua r]. simpl.
  induction cs as [|x cs IHcs]; constructor; [apply IH | exact IHcs].
Qed.

Lemma set_children_id (c : TaxClade) : set_children c (children c) = c.
Proof. destruct c; reflexivity. Qed.

(** ** [compute_abundance] keeps the shape of the tree *)

Lemma same_shape_refl (c : TaxClade) : same_shape c c.
Proof.
  induction c as [c IH] using TaxClade_forall_ind.
  constructor; auto.
  induction IH; constructor; auto.
Qed.

Lemma same_shape_terminals (c c' : TaxClade) :
  same_shape c c' ->
  List.length (get_terminals c) = List.length (get_terminals c').
Proof.
  revert c'. induction c as [c IH] using TaxClade_forall_ind.
  intros c' H. inversion H as [? ? _ _ _ Hcs]; subst.
  destruct c as [nm cs m u s a ua r], c' as [nm' cs' m' u' s' a' ua' r'].
  simpl in *.
  destruct Hcs as [|x y cs cs' Hxy Hcs]; [reflexivity|].
  change (List.length (flat_map get_terminals (x :: cs))
          = List.length (flat_map get_terminals (y :: cs'))).
  assert (Hall : Forall2 same_shape (x :: cs) (y :: cs')) by (constructor; auto).
  clear Hxy Hcs H. revert IH.
  induction Hall as [|x0 y0 l l' Hxy0 _ IHl]; intros IH; [reflexivity|].
  simpl. rewrite !length_app.
  f_equal; [apply (Forall_inv IH); exact Hxy0 | apply IHl; exact (Forall_inv_tail IH)].
Qed.

Lemma clade_abundance_shape T cfg fathers self sum_ab v self' :
  clade_abundance T cfg fathers self sum_ab = Ok (v, self') ->
  name self' = name self /\ children self' = children self
  /\ markers2nreads self' = markers2nreads self /\ uncl self' = uncl self
  /\ abundance self' = Some v /\ n_runs self' = S (n_runs self).
Proof.
  unfold clade_abundance. intros H.
  inv_bind H. inv_bind H.
  destruct (a0 && too_few_nonzero a).
  - injection H as <- <-. simpl. auto 10.
  - inv_bind H. inv_bind H. injection H as <- <-. simpl. auto 10.
Qed.

Lemma compute_abundance_shape T cfg :
  forall self fathers v self',
    compute_abundance T cfg fathers self = Ok (v, self') -> same_shape self self'.
Proof.
  induction self as [self IH] using TaxClade_forall_ind.
  intros fathers v self' H.
  destruct self as [nm cs m u s a ua r]. simpl in H.
  destruct a as [a|].
  - injection H as <- <-. apply same_shape_refl.
  - inv_bind H. apply clade_abundance_shape in H. simpl in H.
    destruct H as (Hn & Hc & Hm & Hu & _).
    constructor; simpl; auto.
    rewrite Hc. simpl in IH. apply Forall2_map_snd.
    eapply mapM_Forall2; [|exact Ha].
    eapply Forall_impl; [|exact IH].
    intros x Hx [vy cy] Hy. simpl. eapply Hx; eauto.
Qed.
(* ================================================================== *)
(** ** Rounding to a double *)


Lemma round_half_even_near (y : Q) :
  (y - (1 # 2) <= inject_Z (round_half_even y))%Q
  /\ (inject_Z (round_half_even y) <= y + (1 # 2))%Q.
Proof.
  unfold round_half_even. cbv zeta.
  pose proof (Qfloor_le y) as Hlo. pose proof (Qlt_floor y) as Hhi.
  rewrite inject_Z_plus in Hhi. change (inject_Z 1) with 1%Q in Hhi.
  destruct (y - inject_Z (Qfloor y) ?= 1 # 2)%Q eqn:E.
  - apply Qeq_alt in E.
    destruct (Z.even (Qfloor y)); [|rewrite inject_Z_plus; change (inject_Z 1) with 1%Q];
      split; lra.
  - apply Qlt_alt in E. split; lra.
  - apply Qgt_alt in E. rewrite inject_Z_plus. change (inject_Z 1) with 1%Q.
    split; lra.
Qed.

Lemma round_half_even_ge (y : Q) (N : Z) :
  (inject_Z N <= y)%Q -> (N <= round_half_even y)%Z.
Proof.
  intros H. apply Qfloor_resp_le in H. rewrite Qfloor_Z in H.
  unfold round_half_even. cbv zeta.
  destruct (y - inject_Z (Qfloor y) ?= 1 # 2)%Q; [destruct (Z.even _)| |]; lia.
Qed.

Lemma round_half_even_le (y : Q) (N : Z) :
  (y <= inject_Z N)%Q -> (round_half_even y <= N)%Z.
Proof.
  intros H. pose proof (Qfloor_le y) as Hlo.
  assert (Hf : (Qfloor y <= N)%Z).
  { apply Qfloor_resp_le in H. rewrite Qfloor_Z in H. exact H. }
  destruct (Z.eq_dec (Qfloor y) N) as [E|E].
  - unfold round_half_even. cbv zeta. rewrite E in *.
    assert (Hlt : (y - inject_Z N < 1 # 2)%Q) by lra.
    pose proof (proj1 (Qlt_alt _ _) Hlt) as Hc. rewrite Hc. lia.
  - unfold round_half_even. cbv zeta.
    destruct (y - inject_Z (Qfloor y) ?= 1 # 2)%Q; [destruct (Z.even _)| |]; lia.
Qed.

Lemma two_nonzero : ~ (2 == 0)%Q.
Proof. intros H. discriminate H. Qed.

Lemma pow2_pos (e : Z) : (0 < 2 ^ e)%Q.
Proof. apply Qpower_0_lt. reflexivity. Qed.

Lemma pow2_succ (e : Z) : (2 ^ (e + 1) == 2 * 2 ^ e)%Q.
Proof. rewrite Qpower_plus by exact two_nonzero. rewrite Qpower_1_r. ring. Qed.

Lemma pow2_log2 (a : Z) :
  (0 < a)%Z ->
  (2 ^ Z.log2 a <= inject_Z a)%Q /\ (inject_Z a < 2 * 2 ^ Z.log2 a)%Q.
Proof.
  intros Ha. destruct (Z.log2_spec a Ha) as [H1 H2].
  pose proof (Z.log2_nonneg a) as H0.
  rewrite <- pow2_succ.
  change 2%Q with (inject_Z 2).
  rewrite <- !Zpower_Qpower by lia.
  split; [rewrite <- Zle_Qle; exact H1|].
  rewrite <- Zlt_Qlt. replace (Z.log2 a + 1)%Z with (Z.succ (Z.log2 a)) by lia.
  exact H2.
Qed.

Lemma Qdiv_le_lt (p q r s : Q) :
  (0 < p)%Q -> (0 < s)%Q -> (p <= r)%Q -> (s <= q)%Q -> (p / q <= r / s)%Q.
Proof.
  intros Hp Hs Hpr Hsq.
  assert (Hq : (0 < q)%Q) by lra.
  apply Qle_shift_div_l; [exact Hs|].
  unfold Qdiv. rewrite <- Qmult_assoc, (Qmult_comm (/ q)), Qmult_assoc.
  apply Qle_shift_div_r; [exact Hq|].
  apply Qle_trans with (p * q)%Q.
  - apply Qmult_le_l; [exact Hp | exact Hsq].
  - apply Qmult_le_r; [exact Hq | exact Hpr].
Qed.

Lemma Qdiv_lt_le (p q r s : Q) :
  (0 < p)%Q -> (0 < s)%Q -> (p < r)%Q -> (s <= q)%Q -> (p / q < r / s)%Q.
Proof.
  intros Hp Hs Hpr Hsq.
  assert (Hq : (0 < q)%Q) by lra.
  apply Qlt_shift_div_l; [exact Hs|].
  unfold Qdiv. rewrite <- Qmult_assoc, (Qmult_comm (/ q)), Qmult_assoc.
  apply Qlt_shift_div_r; [exact Hq|].
  apply Qle_lt_trans with (p * q)%Q.
  - apply Qmult_le_l; [exact Hp | exact Hsq].
  - apply Qmult_lt_r; [exact Hq | exact Hpr].
Qed.

(** The exponent found is the one of the unit in the last place. *)
Lemma ulp_exponent_spec (x : Q) :
  (0 < x)%Q ->
  (2 ^ (ulp_exponent x + 52) <= x)%Q /\ (x < 2 ^ (ulp_exponent x + 53))%Q.
Proof.
  intros Hx. unfold ulp_exponent. cbv zeta.
  set (la := Z.log2 (Qnum x)). set (lb := Z.log2 (Z.pos (Qden x))).
  assert (Hnum : (0 < Qnum x)%Z).
  { destruct x as [a b]. unfold Qlt in Hx. simpl in *. lia. }
  destruct (pow2_log2 (Qnum x) Hnum) as [Ha1 Ha2]. fold la in Ha1, Ha2.
  destruct (pow2_log2 (Z.pos (Qden x)) eq_refl) as [Hb1 Hb2]. fold lb in Hb1, Hb2.
  pose proof (pow2_pos la) as Pa. pose proof (pow2_pos lb) as Pb.
  assert (Ex : (x == inject_Z (Qnum x) / inject_Z (Z.pos (Qden x)))%Q).
  { destruct x as [a b]. simpl. apply Qmake_Qdiv. }
  assert (Hden : (0 < inject_Z (Z.pos (Qden x)))%Q) by lra.
  assert (Hnum' : (0 < inject_Z (Qnum x))%Q) by lra.
  destruct (Qle_bool (2 ^ (la - lb)) x) eqn:Hb.
  - apply Qle_bool_iff in Hb.
    replace (la - lb - 52 + 52)%Z with (la - lb)%Z by lia.
    replace (la - lb - 52 + 53)%Z with ((la + 1) - lb)%Z by lia.
    split; [exact Hb|].
    rewrite Qpower_minus by exact two_nonzero. rewrite pow2_succ.
    rewrite Ex. apply Qdiv_lt_le; lra.
  - assert (Hlt : (x < 2 ^ (la - lb))%Q).
    { apply Qnot_le_lt. intros H. apply Qle_bool_iff in H. congruence. }
    replace (la - lb - 53 + 53)%Z with (la - lb)%Z by lia.
    replace (la - lb - 53 + 52)%Z with (la - (lb + 1))%Z by lia.
    split; [|exact Hlt].
    rewrite Qpower_minus by exact two_nonzero. rewrite pow2_succ.
    rewrite Ex. apply Qdiv_le_lt; lra.
Qed.

Lemma Qabs_pos_eq (x : Q) : (0 < x)%Q -> Qabs x = x.
Proof.
  destruct x as [a b]. unfold Qlt. simpl. intros H.
  unfold Qabs. f_equal. apply Z.abs_eq. lia.
Qed.

Lemma pow2_52 (e : Z) : (2 ^ (e + 52) == 4503599627370496 * 2 ^ e)%Q.
Proof. rewrite Qpower_plus by exact two_nonzero.
  assert (H : (2 ^ 52 == 4503599627370496)%Q) by reflexivity. rewrite H. ring. Qed.

Lemma pow2_53 (e : Z) : (2 ^ (e + 53) == 9007199254740992 * 2 ^ e)%Q.
Proof. rewrite Qpower_plus by exact two_nonzero.
  assert (H : (2 ^ 53 == 9007199254740992)%Q) by reflexivity. rewrite H. ring. Qed.

(** A positive number rounds to [m * 2^e] with [m] of 53 bits. *)
Lemma round_double_pos (x : Q) :
  (0 < x)%Q ->
  exists (m e : Z),
    round_double x = (inject_Z m * 2 ^ e)%Q
    /\ (2 ^ 52 <= m <= 2 ^ 53)%Z
    /\ (4503599627370496 * 2 ^ e <= x)%Q
    /\ (inject_Z m * 2 ^ e <= x + (1 # 2) * 2 ^ e)%Q.
Proof.
  intros Hx. unfold round_double.
  assert (E0 : Qeq_bool x 0 = false).
  { destruct (Qeq_bool x 0) eqn:E; [|reflexivity].
    apply Qeq_bool_eq in E. lra. }
  assert (E1 : Qle_bool 0 x = true) by (apply Qle_bool_iff; lra).
  rewrite E0, E1, (Qabs_pos_eq x Hx). cbv zeta.
  set (e := ulp_exponent x).
  destruct (ulp_exponent_spec x Hx) as [Hlo Hhi]. fold e in Hlo, Hhi.
  rewrite pow2_52 in Hlo. rewrite pow2_53 in Hhi.
  pose proof (pow2_pos e) as P.
  set (y := (x / 2 ^ e)%Q).
  assert (Ey : (y * 2 ^ e == x)%Q).
  { subst y. field. lra. }
  assert (Hy1 : (4503599627370496 <= y)%Q).
  { subst y. apply Qle_shift_div_l; [exact P | exact Hlo]. }
  assert (Hy2 : (y <= 9007199254740992)%Q).
  { subst y. apply Qle_shift_div_r; [exact P | lra]. }
  exists (round_half_even y), e. split; [reflexivity|]. split.
  - split.
    + apply round_half_even_ge. exact Hy1.
    + apply round_half_even_le. exact Hy2.
  - split; [exact Hlo|].
    destruct (round_half_even_near y) as [_ Hn].
    apply Qle_trans with ((y + (1 # 2)) * 2 ^ e)%Q.
    + apply Qmult_le_r; [exact P | exact Hn].
    + rewrite Qmult_plus_distr_l, Ey. apply Qle_refl.
Qed.

Lemma round_double_nonneg (x : Q) : (0 <= x)%Q -> (0 <= round_double x)%Q.
Proof.
  intros Hx. destruct (Qeq_bool x 0) eqn:E.
  - unfold round_double. rewrite E. apply Qle_refl.
  - assert (Hpos : (0 < x)%Q).
    { apply Qle_lteq in Hx. destruct Hx as [H|H]; [exact H|].
      symmetry in H. apply Qeq_eq_bool in H. congruence. }
    destruct (round_double_pos x Hpos) as (m & e & -> & [Hm _] & _).
    apply Qmult_le_0_compat; [|apply Qlt_le_weak, pow2_pos].
    change 0%Q with (inject_Z 0). rewrite <- Zle_Qle.
    assert (0 < 2 ^ 52)%Z by reflexivity. lia.
Qed.

(** The relative error of rounding is at most [2^-53]. *)
Lemma round_double_error (x : Q) :
  (0 <= x)%Q -> (round_double x <= x + x * (1 # 9007199254740992))%Q.
Proof.
  intros Hx. destruct (Qeq_bool x 0) eqn:E.
  - unfold round_double. rewrite E. 
    apply Qeq_bool_eq in E. rewrite E. lra.
  - assert (Hpos : (0 < x)%Q).
    { apply Qle_lteq in Hx. destruct Hx as [H|H]; [exact H|].
      symmetry in H. apply Qeq_eq_bool in H. congruence. }
    destruct (round_double_pos x Hpos) as (m & e & -> & _ & Hlo & Hhi).
    pose proof (pow2_pos e) as P. lra.
Qed.

(** The doubles below 1/2 are at most [1/2 - 2^-54]. *)
Lemma round_double_below_half (x : Q) :
  (round_double x < 1 # 2)%Q ->
  (round_double x <= (1 # 2) - (1 # 18014398509481984))%Q.
Proof.
  intros H.
  destruct (Qlt_le_dec 0 x) as [Hpos|Hneg].
  - destruct (round_double_pos x Hpos) as (m & e & E & [Hm1 Hm2] & _).
    rewrite E in *. clear E.
    pose proof (pow2_pos e) as P.
    assert (M1 : (4503599627370496 <= inject_Z m)%Q).
    { change 4503599627370496%Q with (inject_Z (2 ^ 52)).
      rewrite <- Zle_Qle. exact Hm1. }
    assert (M2 : (inject_Z m <= 9007199254740992)%Q).
    { change 9007199254740992%Q with (inject_Z (2 ^ 53)).
      rewrite <- Zle_Qle. exact Hm2. }
    assert (He : (e <= -54)%Z).
    { destruct (Z_le_gt_dec e (-54)) as [L|G]; [exact L|exfalso].
      assert (Hp : (2 ^ (-53) <= 2 ^ e)%Q).
      { apply Qpower_le_compat_l; [lia | discriminate]. }
      assert (Hc : (2 ^ (-53) == 1 # 9007199254740992)%Q) by reflexivity.
      rewrite Hc in Hp.
      assert (Hq : (4503599627370496 * 2 ^ e <= inject_Z m * 2 ^ e)%Q).
      { apply Qmult_le_r; [exact P | exact M1]. }
      lra. }
    destruct (Z.eq_dec e (-54)) as [-> | Hne].
    + assert (Hc : (2 ^ (-54) == 1 # 18014398509481984)%Q) by reflexivity.
      rewrite Hc in *.
      assert (Hm3 : (m < 2 ^ 53)%Z).
      { apply Z.le_lteq in Hm2. destruct Hm2 as [L|Eq]; [exact L|exfalso].
        rewrite Eq in H. vm_compute in H. discriminate H. }
      assert (M3 : (inject_Z m <= 9007199254740991)%Q).
      { change 9007199254740991%Q with (inject_Z (2 ^ 53 - 1)).
        rewrite <- Zle_Qle. lia. }
      lra.
    + assert (Hp : (2 ^ e <= 2 ^ (-55))%Q).
      { apply Qpower_le_compat_l; [lia | discriminate]. }
      assert (Hc : (2 ^ (-55) == 1 # 36028797018963968)%Q) by reflexivity.
      rewrite Hc in Hp.
      assert (Hq : (inject_Z m * 2 ^ e <= 9007199254740992 * 2 ^ e)%Q).
      { apply Qmult_le_r; [exact P | exact M2]. }
      lra.
  - assert (Hle : (round_double x <= 0)%Q).
    { unfold round_double. destruct (Qeq_bool x 0) eqn:E0; [apply Qle_refl|].
      cbv zeta. destruct (Qle_bool 0 x) eqn:E1.
      - apply Qle_bool_iff in E1. assert (E : (x == 0)%Q) by lra.
        apply Qeq_eq_bool in E. congruence.
      - assert (Hx : (0 < - x)%Q).
        { destruct (Qlt_le_dec x 0) as [L|G]; [lra|].
          apply Qle_bool_iff in G. congruence. }
        assert (Ea : Qabs x = (- x)%Q).
        { destruct x as [a b]. unfold Qlt in Hx. simpl in Hx.
          unfold Qabs, Qopp. simpl. f_equal. lia. }
        rewrite Ea.
        pose proof (round_double_nonneg (- x) (Qlt_le_weak _ _ Hx)) as Hn.
        unfold round_double in Hn.
        assert (E2 : Qeq_bool (- x) 0 = false).
        { destruct (Qeq_bool (- x) 0) eqn:E; [|reflexivity].
          apply Qeq_bool_eq in E. lra. }
        assert (E3 : Qle_bool 0 (- x) = true) by (apply Qle_bool_iff; lra).
        rewrite E2, E3, (Qabs_pos_eq _ Hx) in Hn. cbv zeta in Hn. lra. }
    lra.
Qed.

(** ** Sums and the stable sort *)

Lemma fold_left_Zadd (l : list Z) (a : Z) :
  fold_left Z.add l a = (a + fold_left Z.add l 0)%Z.
Proof.
  revert a. induction l as [|y l IH]; intros a; simpl; [lia|].
  rewrite (IH (a + y)%Z), (IH y). lia.
Qed.

Lemma sumZ_cons (x : Z) (l : list Z) : sumZ (x :: l) = (x + sumZ l)%Z.
Proof. unfold sumZ. simpl. apply fold_left_Zadd. Qed.

Lemma sumZ_app (l1 l2 : list Z) : sumZ (l1 ++ l2) = (sumZ l1 + sumZ l2)%Z.
Proof.
  induction l1 as [|x l1 IH].
  - unfold sumZ. simpl. lia.
  - change ((x :: l1) ++ l2) with (x :: (l1 ++ l2)).
    rewrite !sumZ_cons, IH. lia.
Qed.

Lemma sumZ_perm (l1 l2 : list Z) : Permutation l1 l2 -> sumZ l1 = sumZ l2.
Proof.
  induction 1; rewrite ?sumZ_cons; lia.
Qed.

Lemma sumZ_pos (l : list Z) :
  l <> [] -> Forall (fun x => (0 < x)%Z) l -> (0 < sumZ l)%Z.
Proof.
  intros Hne H. induction H as [|x l Hx Hl IH]; [congruence|].
  rewrite sumZ_cons. destruct l as [|y l].
  - unfold sumZ. simpl. lia.
  - assert (0 < sumZ (y :: l))%Z by (apply IH; discriminate). lia.
Qed.

Lemma sumQ_cons (x : Q) (l : list Q) : (sumQ (x :: l) == x + sumQ l)%Q.
Proof.
  unfold sumQ. simpl.
  assert (H : forall l a b, (fold_left Qplus l (a + b) == b + fold_left Qplus l a)%Q).
  { clear. induction l as [|y l IH]; intros a b; simpl; [ring|].
    rewrite <- (IH (a + y)%Q b).
    assert (E : forall l u v, (u == v)%Q -> (fold_left Qplus l u == fold_left Qplus l v)%Q).
    { clear. induction l as [|z l IH]; intros u v Huv; simpl; [exact Huv|].
      apply IH. rewrite Huv. reflexivity. }
    apply E. ring. }
  apply H.
Qed.

Section SortedFacts.
Context {A : Type} (leb : A -> A -> bool).

Lemma insert_sorted_perm (x : A) (l : list A) :
  Permutation (insert_sorted leb x l) (x :: l).
Proof.
  induction l as [|y l IH]; simpl; [reflexivity|].
  destruct (leb x y); [reflexivity|].
  rewrite IH. apply perm_swap.
Qed.

Lemma sorted_perm (l : list A) : Permutation (sorted leb l) l.
Proof.
  induction l as [|x l IH]; simpl; [reflexivity|].
  rewrite insert_sorted_perm. constructor. exact IH.
Qed.

Lemma sorted_length (l : list A) : List.length (sorted leb l) = List.length l.
Proof. apply Permutation_length, sorted_perm. Qed.

Hypothesis leb_total : forall x y, leb x y = true \/ leb y x = true.
Hypothesis leb_trans : forall x y z, leb x y = true -> leb y z = true -> leb x z = true.

Lemma insert_sorted_sorted (x : A) (l : list A) :
  StronglySorted (fun a b => leb a b = true) l ->
  StronglySorted (fun a b => leb a b = true) (insert_sorted leb x l).
Proof.
  induction 1 as [|y l Hl IH Hy]; simpl.
  - repeat constructor.
  - destruct (leb x y) eqn:E.
    + constructor; [constructor; assumption|].
      constructor; [exact E|].
      eapply Forall_impl; [|exact Hy]. intros z Hz. eapply leb_trans; eauto.
    + constructor; [exact IH|].
      assert (Hyx : leb y x = true) by (destruct (leb_total x y); congruence).
      eapply Permutation_Forall; [symmetry; apply insert_sorted_perm|].
      constructor; assumption.
Qed.

Lemma sorted_sorted (l : list A) :
  StronglySorted (fun a b => leb a b = true) (sorted leb l).
Proof.
  induction l as [|x l IH]; simpl; [constructor|].
  apply insert_sorted_sorted, IH.
Qed.

End SortedFacts.

Lemma map_perm_sum_fst (l1 l2 : list (Z * Z)) :
  Permutation l1 l2 -> sumZ (map fst l1) = sumZ (map fst l2).
Proof. intros H. apply sumZ_perm, Permutation_map, H. Qed.

Lemma map_perm_sum_snd (l1 l2 : list (Z * Z)) :
  Permutation l1 l2 -> sumZ (map snd l1) = sumZ (map snd l2).
Proof. intros H. apply sumZ_perm, Permutation_map, H. Qed.

(** ** Comparisons on [Q] *)

Lemma Qltb_true (x y : Q) : Qltb x y = true <-> (x < y)%Q.
Proof.
  unfold Qltb. rewrite negb_true_iff. split.
  - intros H. apply Qnot_le_lt. intros Hle. apply Qle_bool_iff in Hle. congruence.
  - intros H. destruct (Qle_bool y x) eqn:E; [|reflexivity].
    apply Qle_bool_iff in E. exfalso. apply (Qlt_not_le _ _ H E).
Qed.

Lemma Qltb_false (x y : Q) : Qltb x y = false <-> (y <= x)%Q.
Proof.
  unfold Qltb. rewrite negb_false_iff. apply Qle_bool_iff.
Qed.

Lemma Qeq_bool_false (x y : Q) : Qeq_bool x y = false <-> ~ (x == y)%Q.
Proof.
  split.
  - intros H E. apply Qeq_bool_iff in E. congruence.
  - intros H. destruct (Qeq_bool x y) eqn:E; [|reflexivity].
    apply Qeq_bool_iff in E. contradiction.
Qed.

Lemma float_lt (a b : Z) : (a < b)%Z <-> (float a < float b)%Q.
Proof. unfold float. rewrite <- Zlt_Qlt. reflexivity. Qed.

Lemma float_le (a b : Z) : (a <= b)%Z <-> (float a <= float b)%Q.
Proof. unfold float. rewrite <- Zle_Qle. reflexivity. Qed.

Lemma float_eq0 (a : Z) : Qeq_bool (float a) 0 = (a =? 0)%Z.
Proof.
  unfold Qeq_bool, float. simpl. rewrite Z.mul_1_r. reflexivity.
Qed.

Lemma float_minus (a b : Z) : float (a - b) = (float a - float b)%Q.
Proof.
  unfold float, Z.sub, Qminus. rewrite inject_Z_plus, inject_Z_opp. reflexivity.
Qed.

(** ** References into the tree *)

Lemma lineage_acc (fathers : list TaxClade) (acc : list string) :
  fold_left (fun acc c => name c :: acc) fathers acc
  = rev (map name fathers) ++ acc.
Proof.
  revert acc. induction fathers as [|f fs IH]; intros acc; simpl; [reflexivity|].
  rewrite IH, <- app_assoc. reflexivity.
Qed.

Lemma lineage_step (fathers : list TaxClade) (cl c : TaxClade) :
  lineage (cl :: fathers) c = lineage fathers cl ++ [name c].
Proof.
  unfold lineage. simpl. rewrite !lineage_acc, <- app_assoc. reflexivity.
Qed.

Lemma find_child_name (cs : list TaxClade) (nm : string) (c : TaxClade) :
  find_child cs nm = Some c -> name c = nm /\ In c cs.
Proof.
  induction cs as [|x cs IH]; simpl; [discriminate|].
  destruct (String.eqb_spec (name x) nm) as [E|_].
  - intros H. injection H as <-. auto.
  - intros H. destruct (IH H). auto.
Qed.

Lemma resolve_lineage (p : ref) :
  forall fs0 c0 fs cl,
    resolve fs0 c0 p = Some (fs, cl) -> lineage fs cl = lineage fs0 c0 ++ p.
Proof.
  induction p as [|nm p IH]; simpl; intros fs0 c0 fs cl H.
  - injection H as <- <-. rewrite app_nil_r. reflexivity.
  - destruct (find_child (children c0) nm) as [c|] eqn:E; [|discriminate].
    apply IH in H. rewrite H, lineage_step, <- app_assoc.
    apply find_child_name in E. destruct E as [-> _]. reflexivity.
Qed.

(** A reference obtained from the root is the reference of the clade it
    denotes. *)
Lemma resolve_ref_of (r : TaxClade) (p : ref) (fs : list TaxClade) (cl : TaxClade) :
  resolve [] r p = Some (fs, cl) -> ref_of fs cl = p.
Proof.
  intros H. apply resolve_lineage in H. unfold ref_of.
  change (fold_left (fun acc c => name c :: acc) fs [name cl]) with (lineage fs cl).
  rewrite H. reflexivity.
Qed.

Lemma resolve_app (p p' : ref) :
  forall fs0 c0 fs cl,
    resolve fs0 c0 p = Some (fs, cl) ->
    resolve fs0 c0 (p ++ p') = resolve fs cl p'.
Proof.
  induction p as [|nm p IH]; simpl; intros fs0 c0 fs cl H.
  - injection H as <- <-. reflexivity.
  - destruct (find_child (children c0) nm) as [c|]; [|discriminate].
    apply IH. exact H.
Qed.

Lemma resolve_fathers (p : ref) :
  forall fs0 fs0' c0 fs cl,
    resolve fs0 c0 p = Some (fs, cl) ->
    exists fs', resolve fs0' c0 p = Some (fs', cl).
Proof.
  induction p as [|nm p IH]; simpl; intros fs0 fs0' c0 fs cl H.
  - injection H as _ <-. eexists; reflexivity.
  - destruct (find_child (children c0) nm) as [c|]; [|discriminate].
    eapply IH. exact H.
Qed.

Lemma clade_at_resolve (c0 : TaxClade) (p : ref) (fs0 fs : list TaxClade) (cl : TaxClade) :
  resolve fs0 c0 p = Some (fs, cl) -> clade_at c0 p = Some cl.
Proof.
  intros H. unfold clade_at.
  destruct (resolve_fathers p fs0 [] c0 fs cl H) as [fs' ->]. reflexivity.
Qed.

Lemma clade_at_nil (c : TaxClade) : clade_at c [] = Some c.
Proof. reflexivity. Qed.

Lemma clade_at_cons (c0 : TaxClade) (nm : string) (p : ref) :
  clade_at c0 (nm :: p)
  = match find_child (children c0) nm with
    | Some c => clade_at c p
    | None => None
    end.
Proof.
  unfold clade_at. simpl.
  destruct (find_child (children c0) nm) as [c|]; [|reflexivity].
  destruct (resolve [c0] c p) as [[fs cl]|] eqn:E.
  - destruct (resolve_fathers p [c0] [] c fs cl E) as [fs' ->]. reflexivity.
  - destruct (resolve [] c p) as [[fs cl]|] eqn:E'; [|reflexivity].
    destruct (resolve_fathers p [] [c0] c fs cl E') as [fs' E'']. congruence.
Qed.

(** ** Going down the chain of only children *)

Lemma descend_unary_chain :
  forall cl fs fs' cl',
    descend_unary fs cl = (fs', cl') ->
    unary_chain cl cl' /\ List.length (children cl') <> 1%nat
    /\ exists p, resolve fs cl p = Some (fs', cl').
Proof.
  induction cl as [cl IH] using TaxClade_forall_ind.
  intros fs fs' cl' H.
  destruct cl as [nm cs m u s a ua r]. simpl in *.
  destruct cs as [|c [|c2 cs]].
  - injection H as <- <-. split; [constructor|]. split; [simpl; lia|].
    exists []. reflexivity.
  - apply (Forall_inv IH) in H. destruct H as (Hc & Hl & p & Hp).
    split; [econstructor 2; [reflexivity | exact Hc]|]. split; [exact Hl|].
    exists (name c :: p). simpl. rewrite String.eqb_refl. exact Hp.
  - injection H as <- <-. split; [constructor|]. split; [simpl; lia|].
    exists []. reflexivity.
Qed.

(** ** Updating the clade a reference denotes *)

Section ModifyAt.
Variable f : TaxClade -> TaxClade.
Hypothesis f_name : forall c, name (f c) = name c.

Lemma modify_at_name (p : ref) (c : TaxClade) : name (modify_at f p c) = name c.
Proof. destruct p; simpl; [apply f_name | reflexivity]. Qed.

Lemma find_child_modify_same (g : TaxClade -> TaxClade) (nm : string)
    (cs : list TaxClade) :
  (forall c, name (g c) = name c) ->
  find_child (modify_child g nm cs) nm = option_map g (find_child cs nm).
Proof.
  intros Hg. induction cs as [|x cs IH]; simpl; [reflexivity|].
  destruct (String.eqb_spec (name x) nm) as [E|E]; simpl.
  - rewrite Hg, E, String.eqb_refl. reflexivity.
  - destruct (String.eqb_spec (name x) nm); [contradiction|]. exact IH.
Qed.

Lemma find_child_modify_other (g : TaxClade -> TaxClade) (nm nm' : string)
    (cs : list TaxClade) :
  (forall c, name (g c) = name c) -> nm' <> nm ->
  find_child (modify_child g nm cs) nm' = find_child cs nm'.
Proof.
  intros Hg Hne. induction cs as [|x cs IH]; simpl; [reflexivity|].
  destruct (String.eqb_spec (name x) nm) as [E|E]; simpl.
  - rewrite Hg. destruct (String.eqb_spec (name x) nm') as [E'|_]; [congruence|].
    reflexivity.
  - destruct (String.eqb_spec (name x) nm'); [reflexivity | exact IH].
Qed.

(** The reference still denotes the clade, now updated. *)
Lemma clade_at_modify_same (p : ref) :
  forall c0 cl, clade_at c0 p = Some cl -> clade_at (modify_at f p c0) p = Some (f cl).
Proof.
  induction p as [|nm p IH]; intros c0 cl H.
  - rewrite clade_at_nil in H. injection H as <-. reflexivity.
  - rewrite clade_at_cons in *. simpl.
    rewrite find_child_modify_same by (intros; apply modify_at_name).
    destruct (find_child (children c0) nm) as [c|]; [|discriminate].
    simpl. apply IH. exact H.
Qed.

Hypothesis f_children : forall c, children (f c) = children c.

(** Every other reference denotes a clade with the marker counts it had. *)
Lemma clade_at_modify_other (p : ref) :
  forall q c0 cq,
    q <> p -> clade_at c0 q = Some cq ->
    exists cq', clade_at (modify_at f p c0) q = Some cq'
                /\ markers2nreads cq' = markers2nreads cq
                /\ abundance cq' = abundance cq
                /\ n_runs cq' = n_runs cq.
Proof.
  induction p as [|nm p IH]; intros q c0 cq Hne H.
  - destruct q as [|nm' q]; [congruence|].
    rewrite clade_at_cons in *. simpl. rewrite f_children.
    destruct (find_child (children c0) nm') as [c|]; [|discriminate].
    exists cq. auto.
  - destruct q as [|nm' q].
    + rewrite clade_at_nil in *. injection H as <-.
      eexists. split; [reflexivity|]. simpl. auto.
    + rewrite clade_at_cons in *. simpl.
      destruct (String.eqb_spec nm' nm) as [->|Hnm].
      * rewrite find_child_modify_same by (intros; apply modify_at_name).
        destruct (find_child (children c0) nm) as [c|]; [|discriminate].
        simpl. apply IH; [congruence | exact H].
      * rewrite find_child_modify_other
          by (try (intros; apply modify_at_name); exact Hnm).
        destruct (find_child (children c0) nm') as [c|]; [|discriminate].
        exists cq. auto.
Qed.

End ModifyAt.

(** ** Properties of every clade of a tree *)

Lemma throughout_inv (P : TaxClade -> Prop) (c : TaxClade) :
  throughout P c -> P c /\ Forall (throughout P) (children c).
Proof. intros H. inversion H; subst. auto. Qed.

Lemma throughout_impl (P Q : TaxClade -> Prop) :
  (forall c, P c -> Q c) -> forall c, throughout P c -> throughout Q c.
Proof.
  intros HPQ. induction c as [c IH] using TaxClade_forall_ind.
  intros H. apply throughout_inv in H. destruct H as [Hc Hcs].
  constructor; [auto|].
  rewrite Forall_forall in *. auto.
Qed.

Lemma throughout_clade_at (P : TaxClade -> Prop) (p : ref) :
  forall c cl, throughout P c -> clade_at c p = Some cl -> throughout P cl.
Proof.
  induction p as [|nm p IH]; intros c cl Hc H.
  - rewrite clade_at_nil in H. injection H as <-. exact Hc.
  - rewrite clade_at_cons in H.
    destruct (find_child (children c) nm) as [x|] eqn:E; [|discriminate].
    apply find_child_name in E. destruct E as [_ Hin].
    apply throughout_inv in Hc. destruct Hc as [_ Hcs].
    rewrite Forall_forall in Hcs. eapply IH; eauto.
Qed.

Lemma modify_child_length (g : TaxClade -> TaxClade) (nm : string) (cs : list TaxClade) :
  List.length (modify_child g nm cs) = List.length cs.
Proof.
  induction cs as [|x cs IH]; simpl; [reflexivity|].
  destruct (String.eqb (name x) nm); simpl; congruence.
Qed.

Lemma Forall_modify_child (Q : TaxClade -> Prop) (g : TaxClade -> TaxClade)
    (nm : string) (cs : list TaxClade) :
  Forall Q cs ->
  (forall x, find_child cs nm = Some x -> Q (g x)) ->
  Forall Q (modify_child g nm cs).
Proof.
  induction 1 as [|x cs Hx Hcs IH]; simpl; intros Hg; [constructor|].
  destruct (String.eqb (name x) nm).
  - constructor; [apply Hg; reflexivity | exact Hcs].
  - constructor; [exact Hx | apply IH; exact Hg].
Qed.

(** A property that looks at the children of a clade at most through
    their number survives the update of the clade a reference denotes,
    when the updated clade has it throughout. *)
Lemma throughout_modify_at (P : TaxClade -> Prop) (f : TaxClade -> TaxClade) :
  (forall c cs, P c -> List.length cs = List.length (children c) ->
                P (set_children c cs)) ->
  forall p c,
    throughout P c ->
    (forall cl, clade_at c p = Some cl -> throughout P (f cl)) ->
    throughout P (modify_at f p c).
Proof.
  intros HP. induction p as [|nm p IH]; intros c Hc Hf.
  - simpl. apply Hf. reflexivity.
  - simpl. apply throughout_inv in Hc. destruct Hc as [Hc Hcs].
    constructor.
    + apply HP; [exact Hc | apply modify_child_length].
    + simpl. apply Forall_modify_child; [exact Hcs|].
      intros x Hx. apply IH.
      * apply find_child_name in Hx. destruct Hx as [_ Hin].
        rewrite Forall_forall in Hcs. auto.
      * intros cl Hcl. apply Hf. rewrite clade_at_cons, Hx. exact Hcl.
Qed.

Lemma modify_child_id (g : TaxClade -> TaxClade) (nm : string) (cs : list TaxClade) :
  (forall x, find_child cs nm = Some x -> g x = x) -> modify_child g nm cs = cs.
Proof.
  induction cs as [|x cs IH]; simpl; intros Hg; [reflexivity|].
  destruct (String.eqb (name x) nm).
  - rewrite Hg; reflexivity.
  - rewrite IH; [reflexivity | exact Hg].
Qed.

(** Putting back the clade a reference denotes changes nothing. *)
Lemma modify_at_id (p : ref) :
  forall c cl, clade_at c p = Some cl -> modify_at (fun _ => cl) p c = c.
Proof.
  induction p as [|nm p IH]; intros c cl H.
  - rewrite clade_at_nil in H. injection H as <-. reflexivity.
  - simpl. rewrite clade_at_cons in H.
    rewrite modify_child_id; [apply set_children_id|].
    intros x Hx. rewrite Hx in H. apply IH. exact H.
Qed.

Lemma set_root_id (T : TaxTree) : set_root T (root T) = T.
Proof. destruct T; reflexivity. Qed.

Lemma deref_clade_at (T : TaxTree) (p : ref) (fs : list TaxClade) (cl : TaxClade) :
  deref T p = Ok (fs, cl) -> clade_at (root T) p = Some cl.
Proof.
  unfold deref. destruct (resolve [] (root T) p) as [[fs' cl']|] eqn:E; [|discriminate].
  intros H. injection H as <- <-. eapply clade_at_resolve; eauto.
Qed.

Lemma clade_at_deref (T : TaxTree) (p : ref) (cl : TaxClade) :
  clade_at (root T) p = Some cl -> exists fs, deref T p = Ok (fs, cl).
Proof.
  unfold clade_at, deref.
  destruct (resolve [] (root T) p) as [[fs cl']|]; [|discriminate].
  intros H. injection H as <-. eexists; reflexivity.
Qed.

(** What [add_reads] does to the tree. *)
Lemma add_reads_tree (T : TaxTree) (marker : string) (n : Z) (iv ie ib ia : bool)
    (s : string) (T' : TaxTree) :
  add_reads T marker n iv ie ib ia = Ok (s, T') ->
  T' = T \/ exists p, T' = set_markers2nreads_at T p marker n.
Proof.
  unfold add_reads. intros H.
  inv_bind H. inv_bind H. inv_bind H. destruct a1 as [fs cl].
  destruct (_ && _).
  - injection H as _ <-. left. reflexivity.
  - destruct (descend_unary fs cl) as [fs' cl'].
    injection H as _ <-. right. eexists. reflexivity.
Qed.

Lemma mutation_tree (T T' : TaxTree) :
  mutation T T' -> T' = T \/ exists p marker n, T' = set_markers2nreads_at T p marker n.
Proof.
  intros [T0 marker n iv ie ib ia s T1 H | T0 p marker n].
  - apply add_reads_tree in H. destruct H as [-> | [p ->]]; eauto.
  - eauto.
Qed.

(* ================================================================== *)
(** ** The statistic [avg_g] *)

Lemma total_length_pos (rat_nreads : list (Z * Z)) :
  (0 < sumZ (map fst rat_nreads))%Z ->
  total_length rat_nreads = float (sumZ (map fst rat_nreads))
  /\ (0 < total_length rat_nreads)%Q.
Proof.
  intros H. unfold total_length. cbv zeta.
  rewrite float_eq0.
  destruct (Z.eqb_spec (sumZ (map fst rat_nreads)) 0) as [E|_]; [lia|].
  split; [reflexivity|]. exact (proj1 (float_lt 0 _) H).
Qed.

Lemma fdiv_nonzero (a b : Q) : ~ (b == 0)%Q -> fdiv a b = Ok (a / b)%Q.
Proof.
  intros H. unfold fdiv. apply Qeq_bool_false in H. rewrite H. reflexivity.
Qed.

(** With a positive total marker length, the first branch of the chain
    divides the total count by the total length. *)
Lemma local_abundance_global (cfg : Config) (rat_nreads : list (Z * Z)) :
  stat cfg = avg_g ->
  (0 < sumZ (map fst rat_nreads))%Z ->
  local_abundance cfg rat_nreads
  = Ok (float (sumZ (map snd rat_nreads)) / float (sumZ (map fst rat_nreads)))%Q.
Proof.
  intros Hst Hpos. unfold local_abundance. cbv zeta.
  destruct (trim_bounds (trim_width cfg rat_nreads)) as [[ql qr] qn].
  destruct (total_length_pos _ Hpos) as [Hrat Hlt].
  rewrite Hst. simpl Stat_eqb. simpl orb.
  assert (H1 : Qltb (total_length rat_nreads) 0 = false).
  { apply Qltb_false. apply Qlt_le_weak. exact Hlt. }
  assert (H2 : Qle_bool 0 (total_length rat_nreads) = true).
  { apply Qle_bool_iff. apply Qlt_le_weak. exact Hlt. }
  rewrite H1, H2. rewrite fdiv_nonzero.
  - rewrite Hrat. reflexivity.
  - intros E. rewrite E in Hlt. apply (Qlt_irrefl 0). exact Hlt.
Qed.

(** C6.  In mode [avg_g], for every nonempty active set of
    (length, count) pairs whose lengths sum to a positive number, the
    local abundance estimate computed from the set, sorted by count as
    [compute_abundance] does, is the sum of the counts divided by the sum
    of the lengths; for the lengths 100, 100, 100, 100 and the counts 0, 2,
    4, 10 it is 16/400, that is 0.04. *)
Theorem avg_g_is_total_reads_over_total_length :
  (forall (cfg : Config) (active : list (Z * Z)),
      stat cfg = avg_g ->
      active <> [] ->
      (0 < sumZ (map fst active))%Z ->
      local_abundance cfg (sorted by_count active)
      = Ok (float (sumZ (map snd active)) / float (sumZ (map fst active)))%Q)
  /\ (forall cfg : Config,
         stat cfg = avg_g ->
         local_abundance cfg
           (sorted by_count [(100, 0); (100, 2); (100, 4); (100, 10)]%Z)
         = Ok (16 # 400)%Q
         /\ (16 # 400 == 4 # 100)%Q).
Proof.
  assert (G : forall (cfg : Config) (active : list (Z * Z)),
             stat cfg = avg_g ->
             active <> [] ->
             (0 < sumZ (map fst active))%Z ->
             local_abundance cfg (sorted by_count active)
             = Ok (float (sumZ (map snd active)) / float (sumZ (map fst active)))%Q).
  { intros cfg active Hst _ Hpos.
    pose proof (sorted_perm by_count active) as Hp.
    rewrite local_abundance_global.
    - rewrite (map_perm_sum_fst _ _ Hp), (map_perm_sum_snd _ _ Hp). reflexivity.
    - exact Hst.
    - rewrite (map_perm_sum_fst _ _ Hp). exact Hpos. }
  split; [exact G|].
  intros cfg Hst. split; [|reflexivity].
  rewrite G; [reflexivity | exact Hst | discriminate | reflexivity].
Qed.

Lemma avg_g_is_total_reads_over_total_length_witness :
  local_abundance (mkConfig 2000 avg_g (1 # 10) false)
    (sorted by_count [(100, 0); (100, 2); (100, 4); (100, 10)]%Z)
  = Ok (float (sumZ [0; 2; 4; 10]%Z) / float (sumZ [100; 100; 100; 100]%Z))%Q.
Proof.
  apply (proj1 avg_g_is_total_reads_over_total_length
           (mkConfig 2000 avg_g (1 # 10) false)
           [(100, 0); (100, 2); (100, 4); (100, 10)]%Z).
  - reflexivity.
  - discriminate.
  - reflexivity.
Defined.

(* ================================================================== *)
(** ** The trimmed and winsorized modes without trimming *)

Lemma misidentified_cfg T (c1 c2 : Config) (m : string) :
  avoid_disqm c1 = avoid_disqm c2 -> misidentified T c1 m = misidentified T c2 m.
Proof. intros H. unfold misidentified. rewrite H. reflexivity. Qed.

Lemma split_markers_cfg T (c1 c2 : Config) (items : list (string * Z)) :
  avoid_disqm c1 = avoid_disqm c2 -> split_markers T c1 items = split_markers T c2 items.
Proof.
  intros H. induction items as [|[m n] items IH]; simpl; [reflexivity|].
  rewrite (misidentified_cfg T c1 c2 m H), IH. reflexivity.
Qed.

Lemma active_markers_cfg T (c1 c2 : Config) fathers self :
  avoid_disqm c1 = avoid_disqm c2 ->
  active_markers T c1 fathers self = active_markers T c2 fathers self.
Proof.
  intros H. unfold active_markers, restore_removed.
  rewrite (split_markers_cfg T c1 c2 _ H), H. reflexivity.
Qed.

Lemma active_markers_shape T cfg fathers (c c' : TaxClade) :
  same_shape c c' ->
  active_markers T cfg fathers c = active_markers T cfg fathers c'.
Proof.
  intros H. pose proof (same_shape_terminals _ _ H) as Ht.
  inversion H as [? ? Hn Hm _ _]; subst.
  unfold active_markers, restore_removed, n_ripr, get_full_name.
  rewrite Hm, Hn, Ht. reflexivity.
Qed.

Lemma same_shape_set_children (c : TaxClade) (cs : list TaxClade) :
  Forall2 same_shape (children c) cs -> same_shape c (set_children c cs).
Proof. intros H. constructor; simpl; auto. Qed.

Lemma computed_children_shape T cfg fathers (cs : list TaxClade)
    (rs : list (Q * TaxClade)) :
  mapM (compute_abundance T cfg fathers) cs = Ok rs ->
  Forall2 same_shape cs (map snd rs).
Proof.
  intros H. apply Forall2_map_snd. eapply mapM_Forall2; [|exact H].
  apply Forall_forall. intros x _ [v c'] Hy. simpl.
  eapply compute_abundance_shape; eauto.
Qed.

(** With a trim width of 0 the chain takes the branch of [avg_g] for
    [tavg_g] and [wavg_g], and that of [avg_l] for [tavg_l] and [wavg_l]. *)
Lemma local_abundance_untrimmed (cfg : Config) (q : Q) (a : bool) (s s' : Stat)
    (rat_nreads : list (Z * Z)) :
  ((s = tavg_g \/ s = wavg_g) /\ s' = avg_g)
  \/ ((s = tavg_l \/ s = wavg_l) /\ s' = avg_l) ->
  trim_width (set_stat cfg s q a) rat_nreads = 0%Z ->
  local_abundance (set_stat cfg s q a) rat_nreads
  = local_abundance (set_stat cfg s' q a) rat_nreads.
Proof.
  intros Hs Hw. unfold local_abundance.
  change (trim_width (set_stat cfg s' q a) rat_nreads)
    with (trim_width (set_stat cfg s q a) rat_nreads).
  rewrite Hw. simpl.
  destruct Hs as [[[-> | ->] ->] | [[-> | ->] ->]]; reflexivity.
Qed.

Lemma clade_abundance_untrimmed T (cfg : Config) (q : Q) (a : bool) (s s' : Stat)
    fathers self sum_ab :
  ((s = tavg_g \/ s = wavg_g) /\ s' = avg_g)
  \/ ((s = tavg_l \/ s = wavg_l) /\ s' = avg_l) ->
  (forall r, active_markers T (set_stat cfg s q a) fathers self = Ok r ->
             trim_width (set_stat cfg s q a) r = 0%Z) ->
  clade_abundance T (set_stat cfg s q a) fathers self sum_ab
  = clade_abundance T (set_stat cfg s' q a) fathers self sum_ab.
Proof.
  intros Hs Hw. unfold clade_abundance.
  rewrite (active_markers_cfg T (set_stat cfg s' q a) (set_stat cfg s q a))
    by reflexivity.
  destruct (active_markers T (set_stat cfg s q a) fathers self) as [r|e] eqn:E;
    [|reflexivity].
  simpl bind at 1. simpl bind at 3.
  rewrite (local_abundance_untrimmed cfg q a s s' r Hs (Hw r eq_refl)).
  reflexivity.
Qed.

(** C10 (amended).  For every clade such that it and every clade below
    it that is still to be computed have trim width 0,
    [compute_abundance] in mode [tavg_g] or [wavg_g] returns exactly
    what it returns in mode [avg_g], and in mode [tavg_l] or [wavg_l]
    exactly what it returns in mode [avg_l], value and fields assigned,
    all other inputs being equal.  The trim width is the one the code
    computes, [int(quantile * active-marker-count)] with the product
    rounded to a double, which can be 1 more or less than the floor of
    the exact product ([trim_width_rounds_the_product]). *)
Theorem untrimmed_modes_agree T (cfg : Config) (q : Q) (a : bool) (s s' : Stat) :
  ((s = tavg_g \/ s = wavg_g) /\ s' = avg_g)
  \/ ((s = tavg_l \/ s = wavg_l) /\ s' = avg_l) ->
  forall (self : TaxClade) (fathers : list TaxClade),
    trim_free T (set_stat cfg s q a) fathers self = true ->
    compute_abundance T (set_stat cfg s q a) fathers self
    = compute_abundance T (set_stat cfg s' q a) fathers self.
Proof.
  intros Hs. induction self as [self IH] using TaxClade_forall_ind.
  intros fathers Hfree.
  destruct self as [nm cs m u sb ab ua r]. simpl in *.
  destruct ab as [v|]; [reflexivity|].
  apply andb_true_iff in Hfree. destruct Hfree as [Hw Hcs].
  rewrite forallb_forall in Hcs.
  set (self := mkTaxClade nm cs m u sb None ua r) in *.
  assert (Hmap : mapM (compute_abundance T (set_stat cfg s q a) (self :: fathers)) cs
                 = mapM (compute_abundance T (set_stat cfg s' q a) (self :: fathers)) cs).
  { apply mapM_ext_in. rewrite Forall_forall in IH |- *.
    intros x Hx. apply IH; auto. }
  rewrite <- Hmap.
  destruct (mapM (compute_abundance T (set_stat cfg s q a) (self :: fathers)) cs)
    as [rs|e] eqn:E; [|reflexivity].
  simpl bind.
  apply clade_abundance_untrimmed; [exact Hs|].
  intros rat_nreads Hr.
  rewrite <- (active_markers_shape T _ fathers self) in Hr.
  - rewrite Hr in Hw. apply Z.eqb_eq. exact Hw.
  - apply (same_shape_set_children self). simpl.
    eapply computed_children_shape; eauto.
Qed.

Lemma untrimmed_modes_agree_witness :
  exists T fs cl v cl',
    sample_tree strains_db strains_sample = Ok T
    /\ deref T species_S = Ok (fs, cl)
    /\ trim_free T (set_stat default_config tavg_g (1 # 10) true) fs cl = true
    /\ compute_abundance T (set_stat default_config tavg_g (1 # 10) true) fs cl
       = compute_abundance T (set_stat default_config avg_g (1 # 10) true) fs cl
    /\ compute_abundance T (set_stat default_config avg_g (1 # 10) true) fs cl
       = Ok (v, cl')
    /\ (v == 3 # 100)%Q.
Proof.
  do 5 eexists.
  split; [vm_compute; reflexivity|].
  split; [vm_compute; reflexivity|].
  split; [vm_compute; reflexivity|].
  split.
  - apply (untrimmed_modes_agree _ default_config (1 # 10) true tavg_g avg_g).
    + left. split; [left|]; reflexivity.
    + vm_compute. reflexivity.
  - split; [vm_compute; reflexivity|]. vm_compute. reflexivity.
Defined.

(** C10 as stated fails: the species [s__S] has trim width 0 (two
    markers, quantile 0.4) but its strain [t__X] has three markers and
    trim width 1, so the abundance of the strain, and with it what
    [compute_abundance] returns for the species, differs between [tavg_g]
    and [avg_g]. *)
Lemma untrimmed_clade_trimmed_child :
  exists T fs cl r v1 v2 T1 T2,
    sample_tree strains_db strains_sample = Ok T
    /\ deref T species_S = Ok (fs, cl)
    /\ active_markers T (strains_config tavg_g) fs cl = Ok r
    /\ trim_width (strains_config tavg_g) r = 0%Z
    /\ compute_abundance_at T (strains_config tavg_g) species_S = Ok (v1, T1)
    /\ compute_abundance_at T (strains_config avg_g) species_S = Ok (v2, T2)
    /\ ~ (v1 == v2)%Q.
Proof.
  do 8 eexists.
  split; [vm_compute; reflexivity|].
  split; [vm_compute; reflexivity|].
  split; [vm_compute; reflexivity|].
  split; [vm_compute; reflexivity|].
  split; [vm_compute; reflexivity|].
  split; [vm_compute; reflexivity|].
  intros H. vm_compute in H. discriminate H.
Qed.

(** The trim width follows the doubles.  With the quantile
    0.3333333333333333 and the three markers of the strain [t__X] (1, 3
    and 30 reads) the exact product is below 1 but the double product
    is 1.0: the trim width is 1, one marker is trimmed at each end, and
    [tavg_g] returns 3/100 where [avg_g] returns 34/300.  With the
    quantile 0.29 and 100 markers the double product is below 29 and
    the trim width is 28. *)
Lemma trim_width_rounds_the_product :
  exists T fs cl r v1 v2 T1 T2,
    sample_tree strains_db
      [("x1"%string, 1%nat); ("x2"%string, 3%nat); ("x3"%string, 30%nat)] = Ok T
    /\ deref T strain_X = Ok (fs, cl)
    /\ active_markers T (set_stat default_config tavg_g
                           (3333333333333333 # 10000000000000000) true) fs cl
       = Ok r
    /\ Qfloor ((3333333333333333 # 10000000000000000)
               * float (Z.of_nat (List.length r))) = 0%Z
    /\ trim_width (set_stat default_config tavg_g
                     (3333333333333333 # 10000000000000000) true) r = 1%Z
    /\ compute_abundance_at T (set_stat default_config tavg_g
                                 (3333333333333333 # 10000000000000000) true)
                            strain_X = Ok (v1, T1)
    /\ (v1 == 3 # 100)%Q
    /\ compute_abundance_at T (set_stat default_config avg_g
                                 (3333333333333333 # 10000000000000000) true)
                            strain_X = Ok (v2, T2)
    /\ (v2 == 34 # 300)%Q
    /\ trim_width (set_stat default_config tavg_g (29 # 100) true)
                  (repeat (100, 0)%Z 100) = 28%Z.
Proof.
  do 8 eexists.
  split; [vm_compute; reflexivity|].
  split; [vm_compute; reflexivity|].
  split; [vm_compute; reflexivity|].
  split; [vm_compute; reflexivity|].
  split; [vm_compute; reflexivity|].
  split; [vm_compute; reflexivity|].
  split; [vm_compute; reflexivity|].
  split; [vm_compute; reflexivity|].
  split; vm_compute; reflexivity.
Qed.

(* ================================================================== *)
(** ** The order of the relative-abundance table *)

Lemma StronglySorted_before {A : Type} (R : A -> A -> Prop) (l1 l2 l3 : list A) (x y : A) :
  StronglySorted R (l1 ++ x :: l2 ++ y :: l3) -> R x y.
Proof.
  induction l1 as [|z l1 IH]; simpl; intros H.
  - apply StronglySorted_inv in H. destruct H as [_ H].
    rewrite Forall_forall in H. apply H. apply in_or_app. right. left. reflexivity.
  - apply StronglySorted_inv in H. apply IH. apply H.
Qed.

Lemma StronglySorted_weaken {A : Type} (R R' : A -> A -> Prop) (l : list A) :
  (forall x y, R x y -> R' x y) -> StronglySorted R l -> StronglySorted R' l.
Proof.
  intros HR. induction 1 as [|x l _ IH Hx]; constructor; [exact IH|].
  eapply Forall_impl; [|exact Hx]. intros y. apply HR.
Qed.

Lemma sort_key_depth (x : string * Q) :
  (sort_key x == snd x + 800 - 100 * float (Z.of_nat (depth x)))%Q.
Proof.
  unfold sort_key, depth. rewrite float_minus.
  change (float 8) with 8%Q. ring.
Qed.

Lemma rel_ab_rows_sorted (cl2ab : dict Q) :
  StronglySorted key_before (rel_ab_rows cl2ab).
Proof.
  unfold rel_ab_rows. destruct (outpred cl2ab) as [|r rows].
  - repeat constructor.
  - unfold sorted_reverse.
    eapply StronglySorted_weaken;
      [|apply (sorted_sorted (fun x y => Qle_bool (sort_key y) (sort_key x)))].
    + intros x y H. apply Qle_bool_iff in H. exact H.
    + intros x y. rewrite !Qle_bool_iff.
      destruct (Qlt_le_dec (sort_key x) (sort_key y)) as [H|H];
        [right; apply Qlt_le_weak; exact H | left; exact H].
    + intros x y z. rewrite !Qle_bool_iff. intros H1 H2.
      eapply Qle_trans; eauto.
Qed.

(** C9 (amended).  The rows of the relative-abundance table are the
    entries of positive abundance, ordered descending by the key
    percentage + 100 * (8 - depth), where depth is the number of '|' in the
    name of the entry.  Hence among entries of equal depth the order is
    descending by abundance, and among entries of equal abundance a
    shallower entry precedes a deeper one; a deeper row never precedes a
    shallower one unless its percentage is larger by 100 per level. *)
Theorem rel_ab_rows_order (cl2ab : dict Q) :
  StronglySorted key_before (rel_ab_rows cl2ab)
  /\ (outpred cl2ab <> [] -> Permutation (rel_ab_rows cl2ab) (outpred cl2ab))
  /\ (forall l1 l2 l3 x y,
         rel_ab_rows cl2ab = l1 ++ x :: l2 ++ y :: l3 ->
         (depth x = depth y -> (snd y <= snd x)%Q)
         /\ ((snd x == snd y)%Q -> (depth x <= depth y)%nat)
         /\ ((depth y < depth x)%nat ->
             (snd y + 100 * float (Z.of_nat (depth x - depth y)) <= snd x)%Q)).
Proof.
  split; [apply rel_ab_rows_sorted|]. split.
  - intros Hne. unfold rel_ab_rows.
    destruct (outpred cl2ab) as [|r rows]; [congruence|].
    apply sorted_perm.
  - intros l1 l2 l3 x y Hrows.
    pose proof (rel_ab_rows_sorted cl2ab) as Hs. rewrite Hrows in Hs.
    apply StronglySorted_before in Hs. unfold key_before in Hs.
    rewrite !sort_key_depth in Hs.
    split; [|split].
    + intros Hd. rewrite Hd in Hs. lra.
    + intros He. rewrite He in Hs.
      assert (H : (float (Z.of_nat (depth x)) <= float (Z.of_nat (depth y)))%Q) by lra.
      apply float_le in H. lia.
    + intros Hlt. rewrite Nat2Z.inj_sub by lia.
      rewrite float_minus. lra.
Qed.

Lemma rel_ab_rows_order_witness :
  (depth ("k__A"%string, 6000000 # 100000) = depth ("k__B"%string, 4000000 # 100000) ->
   (4000000 # 100000 <= 6000000 # 100000)%Q)
  /\ ((6000000 # 100000 == 6000000 # 100000)%Q ->
      (depth ("k__A"%string, 6000000 # 100000)
       <= depth ("k__A|p__A"%string, 6000000 # 100000))%nat).
Proof.
  split.
  - refine (proj1 (proj2 (proj2 (rel_ab_rows_order two_kingdoms_rel_ab))
                     [] [] (skipn 2 (rel_ab_rows two_kingdoms_rel_ab))
                     ("k__A"%string, 6000000 # 100000)
                     ("k__B"%string, 4000000 # 100000) _)).
    vm_compute. reflexivity.
  - refine (proj1 (proj2 (proj2 (proj2 (rel_ab_rows_order two_kingdoms_rel_ab))
                     [] [("k__B"%string, 4000000 # 100000)]
                     (skipn 3 (rel_ab_rows two_kingdoms_rel_ab))
                     ("k__A"%string, 6000000 # 100000)
                     ("k__A|p__A"%string, 6000000 # 100000) _))).
    vm_compute. reflexivity.
Defined.

(** C9 as stated fails: with two kingdoms at 60% and 40%, each a single
    lineage, the row of the kingdom at 40% precedes the row of the phylum
    at 60%; the table is not in descending order of abundance. *)
Lemma rel_ab_rows_not_descending :
  exists T d T',
    sample_tree two_kingdoms_db two_kingdoms_sample = Ok T
    /\ relative_abundances T plain_config None = Ok (d, T')
    /\ firstn 3 (rel_ab_rows d)
       = [("k__A"%string, 6000000 # 100000); ("k__B"%string, 4000000 # 100000);
          ("k__A|p__A"%string, 6000000 # 100000)]
    /\ ~ Sorted spec_before (rel_ab_rows d).
Proof.
  do 3 eexists.
  split; [vm_compute; reflexivity|].
  split; [vm_compute; reflexivity|].
  split; [vm_compute; reflexivity|].
  intros H.
  match type of H with Sorted _ ?l => let l' := eval vm_compute in l in
    change (Sorted spec_before l') in H end.
  apply Sorted_inv in H. destruct H as [H _].
  apply Sorted_inv in H. destruct H as [_ H].
  apply HdRel_inv in H.
  destruct H as [H | [H _]]; vm_compute in H; discriminate H.
Qed.

(* ================================================================== *)
(** ** Recording reads *)

Lemma dict_get_set_same {V : Type} (d : dict V) (k : string) (v : V) :
  dict_get (dict_set d k v) k = Some v.
Proof.
  induction d as [|[k' v'] d IH]; simpl.
  - rewrite String.eqb_refl. reflexivity.
  - destruct (String.eqb_spec k' k) as [E|E]; simpl.
    + rewrite E, String.eqb_refl. reflexivity.
    + destruct (String.eqb_spec k' k); [contradiction | exact IH].
Qed.

Lemma dict_get_set_other {V : Type} (d : dict V) (k k' : string) (v : V) :
  k' <> k -> dict_get (dict_set d k v) k' = dict_get d k'.
Proof.
  intros Hne. induction d as [|[k0 v0] d IH]; simpl.
  - destruct (String.eqb_spec k k'); [congruence | reflexivity].
  - destruct (String.eqb_spec k0 k) as [E|E]; simpl.
    + destruct (String.eqb_spec k0 k'); [congruence | reflexivity].
    + destruct (String.eqb_spec k0 k'); [reflexivity | exact IH].
Qed.

Lemma add_reads_guard (cn : string) (iv ie ib ia : bool) :
  (iv || ie || ib || ia)
  && ((iv && Str.startswith cn "k__Viruses")
      || (ie && Str.startswith cn "k__Eukaryotes")
      || (ia && Str.startswith cn "k__Archaea")
      || (ib && Str.startswith cn "k__Bacteria"))
  = excluded_kingdom cn iv ie ib ia.
Proof.
  unfold excluded_kingdom. destruct iv, ie, ib, ia; simpl; try reflexivity;
    rewrite ?orb_false_r; reflexivity.
Qed.

(** C7.  Let [marker] be owned by the clade [cl].  When the full lineage
    of [cl] matches a kingdom that the flags exclude, [add_reads] returns
    the empty string and the tree as it was.  Otherwise it goes down from
    [cl] through only children to the clade [cl'] that has no single
    child, sets the count of [marker] on [cl'] to [n] whatever it was,
    leaves the other counts of [cl'] and the counts of every other clade
    as they were, and returns the full name of [cl'], its lineage joined
    with '|'. *)
Theorem add_reads_records_on_collapsed_clade
    (T : TaxTree) (marker : string) (n : Z) (iv ie ib ia : bool)
    (owner : string) (r : ref) (fs : list TaxClade) (cl : TaxClade) :
  dict_get (markers2clades T) marker = Some owner ->
  dict_get (all_clades T) owner = Some r ->
  resolve [] (root T) r = Some (fs, cl) ->
  if excluded_kingdom (get_full_name fs cl) iv ie ib ia
  then add_reads T marker n iv ie ib ia = Ok (EmptyString, T)
  else
    exists (cl' : TaxClade) (target : ref) (T' : TaxTree),
      unary_chain cl cl'
      /\ List.length (children cl') <> 1%nat
      /\ clade_at (root T) target = Some cl'
      /\ add_reads T marker n iv ie ib ia = Ok (Str.join "|" target, T')
      /\ (exists cl'',
             clade_at (root T') target = Some cl''
             /\ dict_get (markers2nreads cl'') marker = Some n
             /\ forall m, m <> marker ->
                          dict_get (markers2nreads cl'') m
                          = dict_get (markers2nreads cl') m)
      /\ (forall q cq,
             q <> target -> clade_at (root T) q = Some cq ->
             exists cq', clade_at (root T') q = Some cq'
                         /\ markers2nreads cq' = markers2nreads cq)
      /\ all_clades T' = all_clades T /\ markers2clades T' = markers2clades T
      /\ markers2lens T' = markers2lens T.
Proof.
  intros Hm Hc Hr. unfold add_reads, dict_lookup, deref.
  rewrite Hm. simpl bind. rewrite Hc. simpl bind. rewrite Hr. simpl bind.
  rewrite add_reads_guard.
  destruct (excluded_kingdom (get_full_name fs cl) iv ie ib ia); [reflexivity|].
  destruct (descend_unary fs cl) as [fs' cl'] eqn:Hd.
  destruct (descend_unary_chain _ _ _ _ Hd) as (Hchain & Hlen & p & Hp).
  assert (Hres : resolve [] (root T) (r ++ p) = Some (fs', cl')).
  { rewrite (resolve_app r p [] (root T) fs cl Hr). exact Hp. }
  pose proof (resolve_ref_of _ _ _ _ Hres) as Href.
  pose proof (clade_at_resolve _ _ _ _ _ Hres) as Hat.
  set (f := fun c => set_markers2nreads c (dict_set (markers2nreads c) marker n)).
  exists cl', (ref_of fs' cl'), (set_markers2nreads_at T (ref_of fs' cl') marker n).
  rewrite Href in *.
  split; [exact Hchain|]. split; [exact Hlen|]. split; [exact Hat|].
  split.
  { unfold get_full_name. f_equal. f_equal.
    change (tl (fold_left (fun acc c => name c :: acc) fs' [name cl']))
      with (ref_of fs' cl').
    rewrite (resolve_ref_of _ _ _ _ Hres). reflexivity. }
  split.
  { exists (f cl'). split.
    - apply (clade_at_modify_same f); [reflexivity | exact Hat].
    - split; [apply dict_get_set_same|].
      intros m Hne. apply dict_get_set_other. exact Hne. }
  split.
  { intros q cq Hq Hcq.
    destruct (clade_at_modify_other f (fun _ => eq_refl) (fun _ => eq_refl)
                (r ++ p) q (root T) cq Hq Hcq) as (cq' & H1 & H2 & _).
    exists cq'. auto. }
  auto.
Qed.

Lemma add_reads_records_on_collapsed_clade_witness :
  exists fs cl,
    resolve [] (root two_kingdoms_tree) ["k__A"%string] = Some (fs, cl)
    /\ if excluded_kingdom (get_full_name fs cl) false false true false
       then add_reads two_kingdoms_tree "a1" 9 false false true false
            = Ok (EmptyString, two_kingdoms_tree)
       else
         exists cl' target T',
           unary_chain cl cl'
           /\ List.length (children cl') <> 1%nat
           /\ clade_at (root two_kingdoms_tree) target = Some cl'
           /\ add_reads two_kingdoms_tree "a1" 9 false false true false
              = Ok (Str.join "|" target, T')
           /\ (exists cl'',
                  clade_at (root T') target = Some cl''
                  /\ dict_get (markers2nreads cl'') "a1" = Some 9%Z
                  /\ forall m, m <> "a1"%string ->
                               dict_get (markers2nreads cl'') m
                               = dict_get (markers2nreads cl') m)
           /\ (forall q cq,
                  q <> target -> clade_at (root two_kingdoms_tree) q = Some cq ->
                  exists cq', clade_at (root T') q = Some cq'
                              /\ markers2nreads cq' = markers2nreads cq)
           /\ all_clades T' = all_clades two_kingdoms_tree
           /\ markers2clades T' = markers2clades two_kingdoms_tree
           /\ markers2lens T' = markers2lens two_kingdoms_tree.
Proof.
  eexists. eexists. split; [vm_compute; reflexivity|].
  apply (add_reads_records_on_collapsed_clade two_kingdoms_tree "a1" 9
           false false true false "k__A" ["k__A"%string]).
  - vm_compute. reflexivity.
  - vm_compute. reflexivity.
  - vm_compute. reflexivity.
Defined.

(* ================================================================== *)
(** ** Quasi-marker disambiguation: which markers are removed *)

Lemma ext_hit_exceeds (m2nr : dict Z) :
  ext_hit m2nr = true
  <-> fraction_exceeds (count_positive (dict_values m2nr)) (List.length m2nr).
Proof.
  unfold ext_hit, fraction_exceeds. cbv zeta.
  rewrite andb_true_iff, negb_true_iff, Qltb_true, Z.eqb_neq.
  split; intros [H1 H2]; (split; [lia | exact H2]).
Qed.

Lemma misidentified_in_hit T (exts : list string) (b : bool) :
  misidentified_in T exts = Ok b ->
  (b = true <-> exists e m2nr, In e exts /\ ext_m2nr T e = Ok m2nr
                               /\ ext_hit m2nr = true).
Proof.
  revert b. induction exts as [|e es IH]; simpl; intros b H.
  - injection H as <-. split; [discriminate|]. intros (e & _ & [] & _).
  - destruct (ext_m2nr T e) as [m2nr|x] eqn:E; simpl in H; [|discriminate].
    destruct (ext_hit m2nr) eqn:Hhit.
    + injection H as <-. split; [|reflexivity]. intros _.
      exists e, m2nr. auto.
    + specialize (IH b H). rewrite IH. split.
      * intros (e' & m' & Hin & He' & Hh). exists e', m'. auto.
      * intros (e' & m' & [<- | Hin] & He' & Hh).
        -- rewrite E in He'. injection He' as <-. congruence.
        -- exists e', m'. auto.
Qed.

Lemma misidentified_signal T cfg (m : string) (b : bool) :
  avoid_disqm cfg = false ->
  misidentified T cfg m = Ok b -> (b = true <-> related_signal T m).
Proof.
  intros Hd H. unfold misidentified in H. rewrite Hd in H.
  unfold dict_lookup in H.
  destruct (dict_get (markers2exts T) m) as [exts|] eqn:E; simpl in H;
    [|discriminate].
  rewrite (misidentified_in_hit T exts b H). unfold related_signal. split.
  - intros (e & m2nr & Hin & He & Hh). exists exts, e, m2nr.
    rewrite <- ext_hit_exceeds. auto.
  - intros (exts' & e & m2nr & Hx & Hin & He & Hh).
    rewrite E in Hx. injection Hx as <-. exists e, m2nr.
    rewrite ext_hit_exceeds. auto.
Qed.

(** The loop over the markers places each marker by its flag, in the
    order in which it meets them. *)
Lemma split_markers_placement T cfg :
  avoid_disqm cfg = false ->
  forall items active removed,
    split_markers T cfg items = Ok (active, removed) ->
    placement T items active removed.
Proof.
  intros Hd.
  induction items as [|[m n] items IH]; simpl; intros active removed H.
  - injection H as <- <-. constructor.
  - destruct (misidentified T cfg m) as [b|] eqn:Hb; simpl in H; [|discriminate].
    unfold dict_lookup in H.
    destruct (dict_get (markers2lens T) m) as [l|] eqn:Hl; simpl in H;
      [|discriminate].
    destruct (split_markers T cfg items) as [[a r]|] eqn:Hs; simpl in H;
      [|discriminate].
    pose proof (misidentified_signal T cfg m b Hd Hb) as Hiff.
    destruct b; injection H as <- <-.
    + apply placement_removed; auto. apply Hiff. reflexivity.
    + apply placement_active; auto. intros Hsig. apply Hiff in Hsig. discriminate.
Qed.

Lemma misidentified_in_total T (exts : list string) :
  (forall e, In e exts -> exists m2nr, ext_m2nr T e = Ok m2nr) ->
  exists b, misidentified_in T exts = Ok b.
Proof.
  induction exts as [|e es IH]; simpl; intros H.
  - eexists; reflexivity.
  - destruct (H e (or_introl eq_refl)) as [m2nr ->]. simpl.
    destruct (ext_hit m2nr); [eexists; reflexivity|].
    apply IH. intros e' He'. apply H. right. exact He'.
Qed.

(** A chain of only children has one end. *)
Lemma collapses_to_unique (cl c1 c2 : TaxClade) :
  collapses_to cl c1 -> collapses_to cl c2 -> c1 = c2.
Proof.
  intros [H1 L1] [H2 L2]. induction H1 as [cl | cl c c1 Hc H1 IH].
  - destruct H2 as [cl | cl c c2 Hc H2]; [reflexivity|].
    rewrite Hc in L1. simpl in L1. lia.
  - destruct H2 as [cl | cl c' c2 Hc' H2].
    + rewrite Hc in L2. simpl in L2. lia.
    + rewrite Hc in Hc'. injection Hc' as <-. apply IH; assumption.
Qed.

(** The [while] loop of the code stops on the clade [toclade] collapses
    to. *)
Lemma collapses_to_descend (fs : list TaxClade) (cl cl' : TaxClade) :
  collapses_to cl cl' <-> snd (descend_unary fs cl) = cl'.
Proof.
  destruct (descend_unary fs cl) as [fs' c] eqn:Hd. simpl.
  destruct (descend_unary_chain _ _ _ _ Hd) as (Hchain & Hlen & _).
  split.
  - intros H. apply (collapses_to_unique cl); [split; assumption | exact H].
  - intros <-. split; assumption.
Qed.

(** [sum([v > 0 for v in m2nr.values()])] is the number of markers with
    a positive count. *)
Lemma count_positive_markers (m2nr : dict Z) :
  count_positive (dict_values m2nr) = Z.of_nat (positive_markers m2nr).
Proof.
  unfold count_positive, positive_markers, dict_values.
  induction m2nr as [|[k v] d IH]; [reflexivity|].
  cbn [map filter snd]. rewrite sumZ_cons, IH.
  destruct (0 <? v)%Z; cbn [List.length]; lia.
Qed.

Lemma ext_m2nr_collapsed T (e : string) (m2nr : dict Z) :
  ext_m2nr T e = Ok m2nr
  <-> exists r fs toclade cl,
        dict_get (taxa2clades T) e = Some r
        /\ resolve [] (root T) r = Some (fs, toclade)
        /\ collapses_to toclade cl
        /\ m2nr = markers2nreads cl.
Proof.
  unfold ext_m2nr, dict_lookup, deref. split.
  - intros H.
    destruct (dict_get (taxa2clades T) e) as [r|] eqn:Er; simpl in H;
      [|discriminate].
    destruct (resolve [] (root T) r) as [[fs toclade]|] eqn:Es; simpl in H;
      [|discriminate].
    injection H as <-.
    exists r, fs, toclade, (snd (descend_unary fs toclade)).
    split; [reflexivity|]. split; [exact Es|].
    split; [apply (collapses_to_descend fs)|]; reflexivity.
  - intros (r & fs & toclade & cl & Hr & Hs & Hc & ->).
    rewrite Hr. simpl. rewrite Hs. simpl.
    apply (collapses_to_descend fs) in Hc. rewrite Hc. reflexivity.
Qed.

Lemma related_signal_collapsed T (m : string) :
  related_signal T m <-> collapsed_signal T m.
Proof.
  unfold related_signal, collapsed_signal. split.
  - intros (exts & e & m2nr & Hx & Hin & He & Hf).
    apply ext_m2nr_collapsed in He.
    destruct He as (r & fs & toclade & cl & Hr & Hs & Hc & ->).
    rewrite count_positive_markers in Hf.
    exists exts, e, r, fs, toclade, cl. auto 7.
  - intros (exts & e & r & fs & toclade & cl & Hx & Hin & Hr & Hs & Hc & Hf).
    exists exts, e, (markers2nreads cl).
    split; [exact Hx|]. split; [exact Hin|]. split.
    + apply ext_m2nr_collapsed. exists r, fs, toclade, cl. auto.
    + rewrite count_positive_markers. exact Hf.
Qed.

Lemma placement_placed_by T (items : list (string * Z)) (active removed : list (Z * Z)) :
  placement T items active removed ->
  placed_by (collapsed_signal T) (markers2lens T) items active removed.
Proof.
  induction 1 as [| m n l items active removed Hl Hsig _ IH
                  | m n l items active removed Hl Hsig _ IH].
  - constructor.
  - apply placed_removed; [exact Hl | | exact IH].
    apply related_signal_collapsed. exact Hsig.
  - apply placed_active; [exact Hl | | exact IH].
    intros Hc. apply Hsig. apply related_signal_collapsed. exact Hc.
Qed.

(** C3 (amended).  With disambiguation enabled, a marker of a clade is
    flagged misidentified, and placed in the removed list instead of the
    active list, if and only if for some clade in the extended-clade set
    of the marker, collapsed down its chain of only children, the clade
    has markers and the fraction of all the markers assigned to it that
    have a positive read count exceeds 0.33; the marker under test is
    counted in that fraction when it is itself assigned to the collapsed
    clade.  The test yields a flag whenever the extended-clade set and
    its clades are found. *)
Theorem misidentified_iff_related_signal (T : TaxTree) (cfg : Config) :
  avoid_disqm cfg = false ->
  (forall m b, misidentified T cfg m = Ok b -> (b = true <-> collapsed_signal T m))
  /\ (forall items active removed,
         split_markers T cfg items = Ok (active, removed) ->
         placed_by (collapsed_signal T) (markers2lens T) items active removed)
  /\ (forall m exts,
         dict_get (markers2exts T) m = Some exts ->
         (forall e, In e exts ->
                    exists r fs toclade,
                      dict_get (taxa2clades T) e = Some r
                      /\ resolve [] (root T) r = Some (fs, toclade)) ->
         exists b, misidentified T cfg m = Ok b).
Proof.
  intros Hd. split; [|split].
  - intros m b H. rewrite <- related_signal_collapsed.
    apply (misidentified_signal T cfg m b Hd H).
  - intros items active removed H. apply placement_placed_by.
    apply (split_markers_placement T cfg Hd). exact H.
  - intros m exts Hx Hall. unfold misidentified, dict_lookup.
    rewrite Hd, Hx. simpl. apply misidentified_in_total.
    intros e He. destruct (Hall e He) as (r & fs & toclade & Hr & Hs).
    exists (markers2nreads (snd (descend_unary fs toclade))).
    apply ext_m2nr_collapsed. exists r, fs, toclade, (snd (descend_unary fs toclade)).
    split; [exact Hr|]. split; [exact Hs|].
    split; [apply (collapses_to_descend fs)|]; reflexivity.
Qed.

(** In the tree of [eleven_db] the marker m01 of [s__S] names the strain
    [Z]: its species [s__R] has that one strain and collapses to it, the
    strain holds the one marker z1, which has a read, and m01 is removed
    ([s__R] itself holds no count).  In the tree of [self_ext_db] the
    marker m1 names a strain of its own species, which has two strains
    and stays as it is; one of its three markers has a positive count
    and m1 is removed, while m2 names no clade and stays active. *)
Lemma misidentified_iff_related_signal_witness :
  (true = true <-> collapsed_signal eleven_tree "m01")
  /\ (true = true <-> collapsed_signal self_ext_tree "m1")
  /\ (false = true <-> collapsed_signal self_ext_tree "m2")
  /\ placed_by (collapsed_signal self_ext_tree) (markers2lens self_ext_tree)
               [("m1"%string, 5%Z); ("m2"%string, 0%Z); ("m3"%string, 0%Z)]
               [(100, 0); (100, 0)]%Z [(100, 5)]%Z.
Proof.
  destruct (misidentified_iff_related_signal eleven_tree disqm_config eq_refl)
    as (H0 & _ & _).
  destruct (misidentified_iff_related_signal self_ext_tree disqm_config eq_refl)
    as (H1 & H2 & _).
  split; [|split; [|split]].
  - apply H0. vm_compute. reflexivity.
  - apply H1. vm_compute. reflexivity.
  - apply H1. vm_compute. reflexivity.
  - apply H2. vm_compute. reflexivity.
Defined.

(** C3 as stated fails: the species [s__S] holds the markers m1 (5 reads),
    m2 and m3 (no reads), and m1 lists a strain of [s__S] among its
    related taxa.  The code counts m1 itself, finds 1 of 3 markers
    positive and flags m1; of the other markers of the clade none has a
    nonzero count. *)
Lemma misidentified_counts_marker_itself :
  misidentified self_ext_tree disqm_config "m1" = Ok true
  /\ split_markers self_ext_tree disqm_config
       [("m1"%string, 5%Z); ("m2"%string, 0%Z); ("m3"%string, 0%Z)]
     = Ok ([(100, 0); (100, 0)]%Z, [(100, 5)]%Z)
  /\ clade_at (root self_ext_tree) species_S
     = Some (mkTaxClade "s__S"
               [mkTaxClade "t__X" [] [] false false None 0 0;
                mkTaxClade "t__Y" [] [] false false None 0 0]
               [("m1"%string, 5%Z); ("m2"%string, 0%Z); ("m3"%string, 0%Z)]
               false false None 0 0)
  /\ ~ spec_related_signal self_ext_tree "m1".
Proof.
  split; [vm_compute; reflexivity|].
  split; [vm_compute; reflexivity|].
  split; [vm_compute; reflexivity|].
  intros (exts & e & r & fs & toclade & cl & Hx & Hin & Hr & Hs & Hc & Hf).
  vm_compute in Hx. injection Hx as <-.
  destruct Hin as [<- | []].
  vm_compute in Hr. injection Hr as <-.
  vm_compute in Hs. injection Hs as <- <-.
  apply (collapses_to_descend []) in Hc. vm_compute in Hc. subst cl.
  destruct Hf as [_ Hf]. vm_compute in Hf. discriminate Hf.
Qed.

(* ================================================================== *)
(** ** Quasi-marker disambiguation: which markers are given back *)

Lemma int_of_float_nat (n : nat) : int_of_float (float (Z.of_nat n)) = Z.of_nat n.
Proof.
  unfold int_of_float, float.
  destruct (Qle_bool 0 (inject_Z (Z.of_nat n))); [apply Qfloor_Z | apply Qceiling_Z].
Qed.

Lemma firstn_min_length {A : Type} (k : nat) (l : list A) :
  firstn (Nat.min k (List.length l)) l = firstn k l.
Proof.
  destruct (Nat.le_gt_cases k (List.length l)) as [H|H].
  - rewrite Nat.min_l by exact H. reflexivity.
  - rewrite Nat.min_r by lia. rewrite firstn_all, firstn_all2 by lia. reflexivity.
Qed.

(** [l[:k]] for a positive [k] *)
Lemma slice_prefix {A : Type} (l : list A) (k : Z) :
  (0 <= k)%Z -> slice l None (Some k) = firstn (Z.to_nat k) l.
Proof.
  intros Hk. unfold slice, clip. cbv zeta.
  destruct (Z.ltb_spec k 0) as [H|_]; [lia|].
  rewrite Z.sub_0_r. simpl skipn.
  rewrite <- (firstn_min_length (Z.to_nat k) l). f_equal. lia.
Qed.

Lemma n_ripr_value (fathers : list TaxClade) (self : TaxClade) :
  n_ripr fathers self
  = if (List.length (get_terminals self) <? 2)%nat
       || Str.contains "k__Viruses" (get_full_name fathers self)
    then 0%Z else 10%Z.
Proof.
  unfold n_ripr. cbv zeta.
  destruct (List.length (get_terminals self) <? 2)%nat,
           (Str.contains "k__Viruses" (get_full_name fathers self)); reflexivity.
Qed.

Lemma n_ripr_nonneg (fathers : list TaxClade) (self : TaxClade) :
  (0 <= n_ripr fathers self)%Z.
Proof.
  rewrite n_ripr_value. destruct (_ || _); lia.
Qed.

Lemma restore_removed_prefix cfg fathers self (active removed : list (Z * Z)) :
  avoid_disqm cfg = false ->
  removed <> [] ->
  restore_removed cfg fathers self active removed
  = active ++ firstn (Z.to_nat (n_ripr fathers self) - List.length active) removed.
Proof.
  intros Hd Hne. unfold restore_removed. rewrite Hd. cbv zeta.
  assert (Hlen : (0 < List.length removed)%nat).
  { destruct removed; [congruence | simpl; lia]. }
  destruct (Nat.eqb_spec (List.length removed) 0) as [E|_]; [lia|].
  change (negb false && negb false) with true. cbv iota.
  pose proof (n_ripr_nonneg fathers self) as Hnr.
  set (nr := n_ripr fathers self) in *.
  destruct (Qltb (float (Z.of_nat (List.length active))) (float nr)) eqn:E1.
  - apply Qltb_true in E1. apply float_lt in E1.
    assert (E2 : Qltb (float (Z.of_nat (List.length active)))
                      (float (Z.of_nat (List.length active))
                       + float (Z.of_nat (List.length removed))) = true).
    { apply Qltb_true.
      assert (H : (0 < float (Z.of_nat (List.length removed)))%Q).
      { apply (proj1 (float_lt 0 _)). lia. }
      lra. }
    rewrite E2. change (true && true) with true. cbv iota.
    rewrite int_of_float_nat.
    rewrite slice_prefix by lia. f_equal. f_equal. lia.
  - apply Qltb_false in E1. apply float_le in E1.
    change (false && _) with false. cbv iota.
    replace (Z.to_nat nr - List.length active)%nat with 0%nat by lia.
    simpl. rewrite app_nil_r. reflexivity.
Qed.

Lemma split_markers_lens T cfg (items : list (string * Z)) (x : list (Z * Z) * list (Z * Z)) :
  split_markers T cfg items = Ok x ->
  exists ys,
    mapM (fun mn => len <- dict_lookup (markers2lens T) (fst mn) ;; Ok (len, snd mn))
         items = Ok ys.
Proof.
  revert x. induction items as [|[m n] items IH]; simpl; intros x H.
  - eexists; reflexivity.
  - inv_bind H. inv_bind H. rewrite Ha0. simpl.
    inv_bind H. destruct (IH _ Ha1) as [ys ->]. simpl. eexists; reflexivity.
Qed.

(** C4 (amended).  With disambiguation enabled and at least one marker
    removed, [n_ripr] is 10, except that it is 0 when the clade has fewer
    than two terminal leaves or its full name contains the viral kingdom;
    when fewer than [n_ripr] markers are active, removed markers are given
    back to the active list in the order in which the loop over
    [markers2nreads] met them (not by read count), until the active list
    holds [n_ripr] markers or no removed marker is left; the active list
    is then sorted by count. *)
Theorem removed_markers_restored_in_loop_order
    (T : TaxTree) (cfg : Config) (fathers : list TaxClade) (self : TaxClade)
    (active removed : list (Z * Z)) :
  avoid_disqm cfg = false ->
  split_markers T cfg (markers2nreads self) = Ok (active, removed) ->
  removed <> [] ->
  let nr := n_ripr fathers self in
  let restored := restore_removed cfg fathers self active removed in
  nr = (if (List.length (get_terminals self) <? 2)%nat
           || Str.contains "k__Viruses" (get_full_name fathers self)
        then 0%Z else 10%Z)
  /\ placement T (markers2nreads self) active removed
  /\ restored = active ++ firstn (Z.to_nat nr - List.length active) removed
  /\ List.length restored
     = Nat.max (List.length active)
               (Nat.min (Z.to_nat nr) (List.length active + List.length removed))
  /\ active_markers T cfg fathers self = Ok (sorted by_count restored).
Proof.
  intros Hd Hs Hne. cbv zeta.
  split; [apply n_ripr_value|].
  split; [apply (split_markers_placement T cfg Hd); exact Hs|].
  split; [apply restore_removed_prefix; assumption|].
  split.
  - rewrite restore_removed_prefix by assumption.
    rewrite length_app, length_firstn. lia.
  - unfold active_markers.
    destruct (split_markers_lens T cfg _ _ Hs) as [ys ->]. simpl bind.
    rewrite Hs. reflexivity.
Qed.

Lemma removed_markers_restored_in_loop_order_witness :
  exists fs cl,
    resolve [] (root eleven_tree) species_S = Some (fs, cl)
    /\ active_markers eleven_tree disqm_config fs cl
       = Ok [(100, 0); (100, 0); (100, 0); (100, 0); (100, 0); (100, 0);
             (100, 0); (100, 0); (100, 0); (100, 9)]%Z.
Proof.
  eexists. eexists. split; [vm_compute; reflexivity|].
  refine (eq_trans
            (proj2 (proj2 (proj2 (proj2
               (removed_markers_restored_in_loop_order eleven_tree disqm_config _ _
                  [] ((100, 9) :: repeat (100, 0) 10)%Z eq_refl _ _))))) _).
  - vm_compute. reflexivity.
  - discriminate.
  - vm_compute. reflexivity.
Defined.

(** C4 as stated fails: the eleven markers of [s__S] are all removed, the
    first of them with 9 reads and the others with none.  The code gives
    back the first ten in the order of the loop, the marker with 9 reads
    among them; lowest read count first would give back ten markers
    without reads. *)
Lemma removed_markers_not_restored_by_count :
  exists fs cl removed,
    resolve [] (root eleven_tree) species_S = Some (fs, cl)
    /\ split_markers eleven_tree disqm_config (markers2nreads cl) = Ok ([], removed)
    /\ n_ripr fs cl = 10%Z
    /\ restore_removed disqm_config fs cl [] removed
       = ((100, 9) :: repeat (100, 0) 9)%Z
    /\ spec_restore 10 [] removed = repeat (100, 0)%Z 10
    /\ active_markers eleven_tree disqm_config fs cl
       <> Ok (sorted by_count (spec_restore 10 [] removed)).
Proof.
  do 3 eexists.
  split; [vm_compute; reflexivity|].
  split; [vm_compute; reflexivity|].
  split; [vm_compute; reflexivity|].
  split; [vm_compute; reflexivity|].
  split; [vm_compute; reflexivity|].
  vm_compute. discriminate.
Qed.

(* ================================================================== *)
(** ** The strain rule *)

Lemma prefix_contains (p s : string) :
  String.prefix p s = true -> Str.contains p s = true.
Proof. intros H. destruct s; cbn [Str.contains]; rewrite H; reflexivity. Qed.

Lemma count_positive_le_nonzero (rat_nreads : list (Z * Z)) :
  (List.length (filter (fun rn => (0 <? snd rn)%Z) rat_nreads)
   <= List.length (filter (fun v => negb (v =? 0)%Z) (map snd rat_nreads)))%nat.
Proof.
  induction rat_nreads as [|[r n] l IH]; simpl; [lia|].
  destruct (Z.ltb_spec 0 n), (Z.eqb_spec n 0); simpl; lia.
Qed.

Lemma too_few_nonzero_spec (rat_nreads : list (Z * Z)) :
  rat_nreads = []
  \/ (float (count_nonzero (map snd rat_nreads))
      / float (Z.of_nat (List.length rat_nreads)) < 7 # 10)%Q ->
  too_few_nonzero rat_nreads = true.
Proof.
  intros H. unfold too_few_nonzero. cbv zeta. apply orb_true_iff.
  destruct rat_nreads as [|x l]; [left; reflexivity|].
  destruct H as [H|H]; [discriminate|]. right.
  apply Qltb_true. eapply Qle_lt_trans; [|exact H].
  unfold Qdiv. apply Qmult_le_compat_r.
  - apply (proj1 (float_le _ _)). unfold count_nonzero. apply inj_le.
    apply count_positive_le_nonzero.
  - apply Qinv_le_0_compat. apply (proj1 (float_le 0 _)). lia.
Qed.

(** C5.  Let the clade [self], not computed yet, have a name that starts
    with 't', and let its father have more than one child, or a name that
    contains "_sp", or let the full lineage of [self] start with the viral
    kingdom.  If fewer than 70% of the active markers of [self] have a
    nonzero count, or there is no active marker, then [compute_abundance]
    returns 0 and sets the abundance of the clade to 0, whatever the
    counts, the statistic mode and the other settings. *)
Theorem strain_rule_zeroes_abundance
    (T : TaxTree) (cfg : Config) (father : TaxClade) (ancestors : list TaxClade)
    (self : TaxClade) (rs : list (Q * TaxClade)) (rat_nreads : list (Z * Z)) :
  abundance self = None ->
  Str.first (name self) = Ok "t"%char ->
  (1 < List.length (children father))%nat
  \/ Str.contains "_sp" (name father) = true
  \/ Str.startswith (get_full_name (father :: ancestors) self) "k__Viruses" = true ->
  mapM (compute_abundance T cfg (self :: father :: ancestors)) (children self) = Ok rs ->
  active_markers T cfg (father :: ancestors) self = Ok rat_nreads ->
  rat_nreads = []
  \/ (float (count_nonzero (map snd rat_nreads))
      / float (Z.of_nat (List.length rat_nreads)) < 7 # 10)%Q ->
  exists self',
    compute_abundance T cfg (father :: ancestors) self = Ok (0%Q, self')
    /\ abundance self' = Some 0%Q.
Proof.
  intros Hab Hname Hcond Hrs Hact Hfew.
  destruct self as [nm cs m u sb ab ua r]. simpl in Hab. subst ab.
  set (self := mkTaxClade nm cs m u sb None ua r) in *.
  change (compute_abundance T cfg (father :: ancestors) self)
    with (rs <- mapM (compute_abundance T cfg (self :: father :: ancestors)) cs ;;
          clade_abundance T cfg (father :: ancestors)
            (set_children self (map snd rs)) (sumQ (map fst rs))).
  change cs with (children self) at 1. rewrite Hrs. simpl bind.
  unfold clade_abundance.
  rewrite <- (active_markers_shape T cfg (father :: ancestors) self)
    by (apply same_shape_set_children; eapply computed_children_shape; eauto).
  rewrite Hact. simpl bind.
  unfold strain_rule_applies.
  change (name (set_children self (map snd rs))) with (name self).
  rewrite Hname. simpl bind. change (Ascii.eqb "t" "t") with true. cbv iota.
  assert (Hc : ((1 <? List.length (children father))%nat
                || Str.contains "_sp" (name father)
                || Str.contains "k__Viruses"
                     (get_full_name (father :: ancestors)
                        (set_children self (map snd rs)))) = true).
  { destruct Hcond as [H | [H | H]].
    - apply Nat.ltb_lt in H. rewrite H. reflexivity.
    - rewrite H. rewrite orb_true_r. reflexivity.
    - apply prefix_contains in H.
      change (get_full_name (father :: ancestors) (set_children self (map snd rs)))
        with (get_full_name (father :: ancestors) self).
      rewrite H. rewrite orb_true_r. reflexivity. }
  rewrite Hc. rewrite (too_few_nonzero_spec _ Hfew). simpl.
  eexists. split; reflexivity.
Qed.

Lemma strain_rule_zeroes_abundance_witness :
  exists fs cl,
    resolve [] (root strains_tree) strain_Y = Some (fs, cl)
    /\ exists self',
         compute_abundance strains_tree (strains_config avg_g) fs cl = Ok (0%Q, self')
         /\ abundance self' = Some 0%Q.
Proof.
  eexists. eexists. split; [vm_compute; reflexivity|].
  eapply (strain_rule_zeroes_abundance strains_tree (strains_config avg_g)
            _ _ _ [] [(100, 0)]%Z).
  - reflexivity.
  - reflexivity.
  - left. simpl. lia.
  - reflexivity.
  - vm_compute. reflexivity.
  - right. vm_compute. reflexivity.
Defined.

(* ================================================================== *)
(** ** The residual entry of [relative_abundances] *)

Lemma sumQ_dict_set (d : dict Q) (k : string) (x : Q) :
  (sumQ (dict_values (dict_set d k x))
   == sumQ (dict_values d)
      - match dict_get d k with Some v => v | None => 0 end
      + x)%Q.
Proof.
  induction d as [|[k' v'] d IH].
  - simpl. unfold sumQ. simpl. ring.
  - simpl. destruct (String.eqb k' k).
    + unfold dict_values. simpl map. rewrite !sumQ_cons. ring.
    + unfold dict_values in *. simpl map. rewrite !sumQ_cons, IH. ring.
Qed.

(** What [relative_abundances] returns for a rank filter: the kept
    entries with the residual assigned under the key of the filter.  When
    no kept entry has that key the values sum to 1; when one has, with
    value [v], the residual replaces it and the values sum to [1 - v]. *)
Lemma relative_abundances_residual (T : TaxTree) (cfg : Config) (lev : string)
    (d : dict Q) (T' : TaxTree) :
  lev <> EmptyString ->
  relative_abundances T cfg (Some lev) = Ok (d, T') ->
  exists kept : dict Q,
    d = dict_set kept (lev ++ "unclassified")%string (1 - sumQ (dict_values kept))%Q
    /\ (dict_get kept (lev ++ "unclassified")%string = None ->
        (sumQ (dict_values d) == 1)%Q)
    /\ (forall v, dict_get kept (lev ++ "unclassified")%string = Some v ->
                  (sumQ (dict_values d) == 1 - v)%Q).
Proof.
  intros Hlev H. unfold relative_abundances in H.
  inv_bind H. inv_bind H. destruct a0 as [tot_ab T1].
  inv_bind H. inv_bind H. rename a1 into kept.
  unfold no_tax_lev in H.
  destruct (String.eqb_spec lev EmptyString) as [E|_]; [contradiction|].
  injection H as <- <-.
  exists kept. split; [reflexivity|]. split.
  - intros Hnone. rewrite sumQ_dict_set, Hnone. ring.
  - intros v Hv. rewrite sumQ_dict_set, Hv. ring.
Qed.

(** C8 at the failing input: the phylum of the only lineage is named
    [p__unclassified], the key under which the residual for the filter
    [p__] is stored.  The kept entry, 1, is overwritten by the residual
    1 - 1, and the values of the mapping returned sum to 0, not to 1. *)
Theorem relative_abundances_key_collision :
  exists d T',
    relative_abundances collision_tree plain_config (Some "p__"%string) = Ok (d, T')
    /\ dict_keys d = ["p__unclassified"%string]
    /\ (sumQ (dict_values d) == 0)%Q
    /\ ~ (sumQ (dict_values d) == 1)%Q.
Proof.
  do 2 eexists.
  split; [vm_compute; reflexivity|].
  split; [vm_compute; reflexivity|].
  split; [vm_compute; reflexivity|].
  intros H. vm_compute in H. discriminate H.
Qed.

(* ================================================================== *)
(** ** Memoization *)

Lemma compute_abundance_cached T cfg fathers (self : TaxClade) (a : Q) :
  abundance self = Some a -> compute_abundance T cfg fathers self = Ok (a, self).
Proof. intros H. destruct self; simpl in *. rewrite H. reflexivity. Qed.

Lemma compute_abundance_uncached T cfg fathers (self : TaxClade) :
  abundance self = None ->
  compute_abundance T cfg fathers self
  = (rs <- mapM (compute_abundance T cfg (self :: fathers)) (children self) ;;
     clade_abundance T cfg fathers (set_children self (map snd rs)) (sumQ (map fst rs))).
Proof. intros H. destruct self; simpl in *. rewrite H. reflexivity. Qed.

(** The value returned is the abundance stored. *)
Lemma compute_abundance_stored T cfg fathers (self : TaxClade) (v : Q) (self' : TaxClade) :
  compute_abundance T cfg fathers self = Ok (v, self') -> abundance self' = Some v.
Proof.
  destruct (abundance self) as [a|] eqn:E.
  - rewrite (compute_abundance_cached _ _ _ _ _ E). intros H.
    injection H as <- <-. exact E.
  - rewrite (compute_abundance_uncached _ _ _ _ E). intros H.
    inv_bind H. apply clade_abundance_shape in H. apply H.
Qed.

Lemma mapM_Forall_snd {A B C : Type} (f : A -> result (B * C)) (Q : C -> Prop)
    (l : list A) (rs : list (B * C)) :
  Forall (fun x => forall y, f x = Ok y -> Q (snd y)) l ->
  mapM f l = Ok rs -> Forall Q (map snd rs).
Proof.
  intros Hall H.
  assert (F : Forall2 (fun _ y => Q (snd y)) l rs)
    by (eapply mapM_Forall2; eauto).
  clear - F. induction F; simpl; constructor; auto.
Qed.

Lemma compute_abundance_run_once T cfg :
  forall self fathers v self',
    throughout run_once self ->
    compute_abundance T cfg fathers self = Ok (v, self') ->
    throughout run_once self'.
Proof.
  induction self as [self IH] using TaxClade_forall_ind.
  intros fathers v self' Hinv H.
  destruct (abundance self) as [a|] eqn:E.
  - rewrite (compute_abundance_cached _ _ _ _ _ E) in H.
    injection H as _ <-. exact Hinv.
  - rewrite (compute_abundance_uncached _ _ _ _ E) in H.
    inv_bind H. rename a into rs.
    apply clade_abundance_shape in H. simpl in H.
    destruct H as (_ & Hc & _ & _ & Hab & Hn).
    apply throughout_inv in Hinv. destruct Hinv as [[_ H0] Hcs].
    constructor.
    + split; [rewrite Hn, (H0 E); lia | rewrite Hab; discriminate].
    + rewrite Hc. eapply mapM_Forall_snd; [|exact Ha].
      rewrite Forall_forall in *. intros x Hx [vy cy] Hy. simpl.
      eapply IH; eauto.
Qed.

Lemma find_child_modify_found (g : TaxClade -> TaxClade) (nm : string)
    (cs : list TaxClade) (x : TaxClade) :
  find_child cs nm = Some x -> name (g x) = nm ->
  find_child (modify_child g nm cs) nm = Some (g x).
Proof.
  induction cs as [|y cs IH]; simpl; [discriminate|].
  destruct (String.eqb_spec (name y) nm) as [E|E]; intros H Hg.
  - injection H as <-. simpl. rewrite Hg, String.eqb_refl. reflexivity.
  - simpl. destruct (String.eqb_spec (name y) nm); [contradiction|]. auto.
Qed.

(** After the clade a reference denotes has been replaced by a clade of
    the same name, the reference denotes the replacement. *)
Lemma clade_at_replace (cl' : TaxClade) (p : ref) :
  forall c cl,
    clade_at c p = Some cl -> name cl' = name cl ->
    clade_at (modify_at (fun _ => cl') p c) p = Some cl'.
Proof.
  induction p as [|nm p IH]; intros c cl H Hn; [reflexivity|].
  rewrite clade_at_cons in *. simpl.
  destruct (find_child (children c) nm) as [x|] eqn:E; [|discriminate].
  rewrite (find_child_modify_found _ nm _ x E).
  - eapply IH; eauto.
  - destruct p; simpl.
    + rewrite clade_at_nil in H. injection H as ->.
      rewrite Hn. apply find_child_name in E. apply E.
    + apply find_child_name in E. apply E.
Qed.

Lemma same_shape_name (c c' : TaxClade) : same_shape c c' -> name c' = name c.
Proof. intros H. inversion H; subst. auto. Qed.

(** After a call the clade holds the value returned. *)
Lemma compute_abundance_at_stored T cfg (p : ref) (v : Q) (T1 : TaxTree) :
  compute_abundance_at T cfg p = Ok (v, T1) ->
  exists cl', clade_at (root T1) p = Some cl' /\ abundance cl' = Some v.
Proof.
  unfold compute_abundance_at. intros H.
  inv_bind H. destruct a as [fs cl]. inv_bind H. destruct a as [v' cl'].
  injection H as <- <-. exists cl'. split.
  - simpl. apply (clade_at_replace cl' p (root T) cl).
    + eapply deref_clade_at; eauto.
    + eapply same_shape_name, compute_abundance_shape; eauto.
  - eapply compute_abundance_stored; eauto.
Qed.

(** A call on a clade that holds a value returns it and changes nothing. *)
Lemma compute_abundance_at_cached T cfg (p : ref) (cl : TaxClade) (v : Q) :
  clade_at (root T) p = Some cl -> abundance cl = Some v ->
  compute_abundance_at T cfg p = Ok (v, T).
Proof.
  intros Hat Hab. unfold compute_abundance_at.
  destruct (clade_at_deref _ _ _ Hat) as [fs ->]. simpl bind.
  rewrite (compute_abundance_cached _ _ _ _ _ Hab). simpl bind.
  rewrite (modify_at_id p _ _ Hat), set_root_id. reflexivity.
Qed.

Lemma memo_survives_mutation (T T' : TaxTree) (p : ref) (cl : TaxClade) (v : Q) :
  mutation T T' ->
  clade_at (root T) p = Some cl -> abundance cl = Some v ->
  exists cl', clade_at (root T') p = Some cl' /\ abundance cl' = Some v.
Proof.
  intros Hm Hat Hab. apply mutation_tree in Hm.
  destruct Hm as [-> | (q & marker & n & ->)]; [eauto|].
  unfold set_markers2nreads_at. simpl.
  set (f := fun c => set_markers2nreads c (dict_set (markers2nreads c) marker n)).
  destruct (list_eq_dec string_dec p q) as [<- | Hne].
  - exists (f cl). split; [|exact Hab].
    apply (clade_at_modify_same f); [reflexivity | exact Hat].
  - destruct (clade_at_modify_other f (fun _ => eq_refl) (fun _ => eq_refl)
                q p (root T) cl Hne Hat) as (cl' & H1 & _ & H2 & _).
    exists cl'. split; [exact H1 | congruence].
Qed.

Lemma memo_survives_mutations (T T' : TaxTree) (p : ref) (v : Q) :
  many mutation T T' ->
  (exists cl, clade_at (root T) p = Some cl /\ abundance cl = Some v) ->
  exists cl', clade_at (root T') p = Some cl' /\ abundance cl' = Some v.
Proof.
  induction 1 as [|T T1 T2 _ IH Hm]; intros H; [exact H|].
  destruct (IH H) as (cl1 & H1 & H2).
  eapply memo_survives_mutation; eauto.
Qed.

(** *** The tree as built is fresh, and every step keeps [run_once] *)

Lemma fresh_run_once (c : TaxClade) : fresh c -> run_once c.
Proof. intros [H1 H2]. split; [lia | auto]. Qed.

Lemma Forall_put_child (Q : TaxClade -> Prop) (cs : list TaxClade) (c : TaxClade) :
  Forall Q cs -> Q c -> Forall Q (put_child cs c).
Proof.
  induction 1 as [|x cs Hx Hcs IH]; simpl; intros Hc; [repeat constructor; auto|].
  destruct (String.eqb (name x) (name c)); constructor; auto.
Qed.

Lemma set_markers2nreads_at_throughout (P : TaxClade -> Prop) T p marker n :
  (forall c cs, P c -> P (set_children c cs)) ->
  (forall c d, P c -> P (set_markers2nreads c d)) ->
  throughout P (root T) ->
  throughout P (root (set_markers2nreads_at T p marker n)).
Proof.
  intros H1 H2 H. unfold set_markers2nreads_at. simpl.
  apply throughout_modify_at; [intros; apply H1; assumption | exact H |].
  intros cl Hcl. pose proof (throughout_clade_at P p _ _ H Hcl) as Hth.
  apply throughout_inv in Hth. destruct Hth as [Hc Hcs].
  constructor; [apply H2; exact Hc | exact Hcs].
Qed.

Lemma add_reads_throughout (P : TaxClade -> Prop) T marker n iv ie ib ia s T' :
  (forall c cs, P c -> P (set_children c cs)) ->
  (forall c d, P c -> P (set_markers2nreads c d)) ->
  add_reads T marker n iv ie ib ia = Ok (s, T') ->
  throughout P (root T) -> throughout P (root T').
Proof.
  intros H1 H2 H Hth. apply add_reads_tree in H.
  destruct H as [-> | [p ->]]; [exact Hth|].
  apply set_markers2nreads_at_throughout; assumption.
Qed.

Lemma init_level_fresh T father lev T' father' :
  init_level T father lev = Ok (T', father') ->
  throughout fresh (root T) -> throughout fresh (root T').
Proof.
  unfold init_level. intros H Hth.
  inv_bind H. destruct a as [fs fcl]. inv_bind H.
  injection H as <- _.
  assert (H1 : throughout fresh
                 (root match find_child (children fcl) lev with
                       | Some _ => T
                       | None =>
                           mkTaxTree (modify_at (fun c => add_child c lev) father (root T))
                                     (dict_set (all_clades T) lev (father ++ [lev]))
                                     (markers2lens T) (markers2clades T)
                                     (taxa2clades T) (markers2exts T)
                       end)).
  { destruct (find_child (children fcl) lev); [exact Hth|]. simpl.
    apply throughout_modify_at; [intros c cs Hc _; exact Hc | exact Hth |].
    intros cl Hcl. pose proof (throughout_clade_at fresh father _ _ Hth Hcl) as Hcl'.
    apply throughout_inv in Hcl'. destruct Hcl' as [Hc Hcs].
    constructor; [exact Hc|]. simpl.
    apply Forall_put_child; [exact Hcs|].
    constructor; [split; reflexivity | constructor]. }
  destruct (Ascii.eqb _ _); exact H1.
Qed.

Lemma init_lineage_fresh (levels : list string) :
  forall T father T',
    init_lineage T father levels = Ok T' ->
    throughout fresh (root T) -> throughout fresh (root T').
Proof.
  induction levels as [|lev levels IH]; simpl; intros T father T' H Hth.
  - injection H as <-. exact Hth.
  - inv_bind H. destruct a as [T1 father1].
    eapply IH; [exact H|]. eapply init_level_fresh; eauto.
Qed.

Lemma init_taxonomy_fresh (lines : list string) :
  forall T T',
    init_taxonomy T lines = Ok T' ->
    throughout fresh (root T) -> throughout fresh (root T').
Proof.
  induction lines as [|l lines IH]; simpl; intros T T' H Hth.
  - injection H as <-. exact Hth.
  - inv_bind H. eapply IH; [exact H|]. eapply init_lineage_fresh; eauto.
Qed.

Lemma init_markers_fresh (items : list (string * Marker)) :
  forall T T',
    init_markers T items = Ok T' ->
    throughout fresh (root T) -> throughout fresh (root T').
Proof.
  induction items as [|[k p] items IH]; simpl; intros T T' H Hth.
  - injection H as <-. exact Hth.
  - destruct (_ || _); [eapply IH; eauto|].
    inv_bind H. destruct a as [s T2].
    eapply IH; [exact H|]. simpl.
    eapply (add_reads_throughout fresh); [| |exact Ha|exact Hth]; auto.
Qed.

Lemma TaxTree_init_fresh (mpa_pkl : MpaPkl) (T : TaxTree) :
  TaxTree_init mpa_pkl = Ok T -> throughout fresh (root T).
Proof.
  unfold TaxTree_init. intros H. inv_bind H.
  eapply init_markers_fresh; [exact H|].
  eapply init_taxonomy_fresh; [exact Ha|].
  simpl. constructor; [split; reflexivity | constructor].
Qed.

Lemma step_run_once (T T' : TaxTree) :
  step T T' -> throughout run_once (root T) -> throughout run_once (root T').
Proof.
  intros [T0 marker n iv ie ib ia s T1 H | T0 p marker n | T0 cfg p v T1 H] Hth.
  - eapply (add_reads_throughout run_once); [| |exact H|exact Hth]; auto.
  - apply set_markers2nreads_at_throughout; auto.
  - unfold compute_abundance_at in H.
    inv_bind H. destruct a as [fs cl]. inv_bind H. destruct a as [v' cl'].
    injection H as _ <-. simpl.
    apply throughout_modify_at; [intros c cs Hc _; exact Hc | exact Hth |].
    intros cl0 Hcl0.
    rewrite (deref_clade_at _ _ _ _ Ha) in Hcl0. injection Hcl0 as <-.
    eapply compute_abundance_run_once; [|exact Ha0].
    eapply throughout_clade_at; [exact Hth|]. eapply deref_clade_at; eauto.
Qed.

(** C2.  In every state of a tree instance, built by [TaxTree.__init__]
    and then subject to any recording of reads, assignment of marker
    counts and calls of [compute_abundance]: the body of
    [compute_abundance] past the memoization test has run at most once on
    each clade; and once a call on a clade has returned a value, a second
    call on the same clade returns exactly that value and changes
    nothing, also after any mutation of the [markers2nreads] of any clade
    in between, and under any configuration. *)
Theorem compute_abundance_memoized (mpa_pkl : MpaPkl) (T0 T : TaxTree) :
  TaxTree_init mpa_pkl = Ok T0 ->
  many step T0 T ->
  throughout (fun c => (n_runs c <= 1)%nat) (root T)
  /\ forall cfg p v T1,
       compute_abundance_at T cfg p = Ok (v, T1) ->
       forall T2, many mutation T1 T2 ->
       forall cfg2, compute_abundance_at T2 cfg2 p = Ok (v, T2).
Proof.
  intros Hinit Hsteps. split.
  - apply (throughout_impl run_once); [intros c [H _]; exact H|].
    induction Hsteps as [|T0 T1 T2 _ IH Hs].
    + apply (throughout_impl fresh); [apply fresh_run_once|].
      eapply TaxTree_init_fresh; eauto.
    + eapply step_run_once; eauto.
  - intros cfg p v T1 Hc T2 Hm cfg2.
    apply compute_abundance_at_stored in Hc.
    destruct (memo_survives_mutations _ _ _ _ Hm Hc) as (cl2 & H1 & H2).
    eapply compute_abundance_at_cached; eauto.
Qed.

Lemma compute_abundance_memoized_witness :
  exists T0 T1,
    TaxTree_init strains_db = Ok T0
    /\ compute_abundance_at T0 (strains_config tavg_g) species_S = Ok (0%Q, T1)
    /\ compute_abundance_at
         (set_markers2nreads_at T1 (species_S ++ ["t__X"%string]) "x1" 50)
         (strains_config avg_g) species_S
       = Ok (0%Q, set_markers2nreads_at T1 (species_S ++ ["t__X"%string]) "x1" 50).
Proof.
  do 2 eexists.
  split; [vm_compute; reflexivity|].
  split; [vm_compute; reflexivity|].
  refine (proj2 (compute_abundance_memoized strains_db _ _ _ (many_none _ _))
                (strains_config tavg_g) species_S 0%Q _ _ _ _ (strains_config avg_g)).
  - vm_compute. reflexivity.
  - vm_compute. reflexivity.
  - eapply many_more; [apply many_none|]. apply mutation_assign.
Defined.

(* ================================================================== *)
(** ** [compute_abundance] returns a value *)

Section Total.

Variable cfg : Config.
Hypothesis quantile_nonneg : (0 <= quantile cfg)%Q.
Hypothesis quantile_below_half : (quantile cfg < 1 # 2)%Q.

Lemma trim_width_bounds (rat_nreads : list (Z * Z)) :
  rat_nreads <> [] ->
  (0 <= trim_width cfg rat_nreads)%Z
  /\ (2 * trim_width cfg rat_nreads < Z.of_nat (List.length rat_nreads))%Z.
Proof.
  intros Hne. unfold trim_width, fmul.
  set (n := Z.of_nat (List.length rat_nreads)).
  assert (Hn : (0 < n)%Z) by (destruct rat_nreads; [congruence | subst n; simpl; lia]).
  assert (Hn' : (0 < float n)%Q) by (exact (proj1 (float_lt 0 n) Hn)).
  pose proof (round_double_below_half (stat_q cfg) quantile_below_half) as Hq.
  fold (quantile cfg) in Hq.
  set (x := (quantile cfg * float n)%Q).
  assert (Hx0 : (0 <= x)%Q) by (subst x; apply Qmult_le_0_compat; lra).
  assert (Hx1 : (x <= ((1 # 2) - (1 # 18014398509481984)) * float n)%Q).
  { subst x. apply Qmult_le_compat_r; [exact Hq | lra]. }
  pose proof (round_double_nonneg x Hx0) as Hr0.
  pose proof (round_double_error x Hx0) as Hr1.
  set (y := round_double x) in *.
  unfold int_of_float. apply Qle_bool_iff in Hr0 as Hb. rewrite Hb.
  pose proof (Qfloor_le y) as Hf.
  pose proof (Qfloor_resp_le 0 y Hr0) as Hf0. change (Qfloor 0) with 0%Z in Hf0.
  split; [exact Hf0|].
  apply float_lt. unfold float in *. rewrite inject_Z_mult.
  change (inject_Z 2) with 2%Q. lra.
Qed.

Lemma ratios_total (rat_nreads : list (Z * Z)) :
  Forall (fun rn => (0 < fst rn)%Z) rat_nreads ->
  exists rs, ratios rat_nreads = Ok rs /\ List.length rs = List.length rat_nreads.
Proof.
  intros H. unfold ratios.
  destruct (mapM_total (fun rn => fdiv (float (snd rn)) (float (fst rn))) rat_nreads)
    as [rs Hrs].
  - eapply Forall_impl; [|exact H]. intros [r n] Hr. simpl in *.
    eexists. apply fdiv_nonzero. intros E.
    apply (proj1 (float_lt 0 r)) in Hr. rewrite E in Hr.
    apply (Qlt_irrefl 0). exact Hr.
  - exists rs. split; [exact Hrs | eapply mapM_length; eauto].
Qed.

Lemma Forall_firstn {A : Type} (P : A -> Prop) (n : nat) (l : list A) :
  Forall P l -> Forall P (firstn n l).
Proof.
  intros H. rewrite <- (firstn_skipn n l) in H. apply Forall_app in H. apply H.
Qed.

Lemma Forall_skipn {A : Type} (P : A -> Prop) (n : nat) (l : list A) :
  Forall P l -> Forall P (skipn n l).
Proof.
  intros H. rewrite <- (firstn_skipn n l) in H. apply Forall_app in H. apply H.
Qed.

Lemma Forall_slice {A : Type} (P : A -> Prop) (l : list A) (lo hi : option Z) :
  Forall P l -> Forall P (slice l lo hi).
Proof. intros H. unfold slice. cbv zeta. apply Forall_firstn, Forall_skipn, H. Qed.

Lemma slice_all {A : Type} (l : list A) : slice l None None = l.
Proof.
  unfold slice. cbv zeta. rewrite Z.sub_0_r, Nat2Z.id. simpl skipn.
  apply firstn_all.
Qed.

Lemma slice_band_length {A : Type} (l : list A) (q : Z) :
  (0 < q)%Z -> (2 * q < Z.of_nat (List.length l))%Z ->
  List.length (slice l (Some q) (Some (- q)%Z))
  = Z.to_nat (Z.of_nat (List.length l) - 2 * q).
Proof.
  intros Hq Hl. unfold slice, clip. cbv zeta.
  destruct (Z.ltb_spec q 0); [lia|].
  destruct (Z.ltb_spec (- q) 0); [|lia].
  rewrite length_firstn, length_skipn. lia.
Qed.

Lemma index_front {A : Type} (l : list A) (q : Z) :
  (0 <= q)%Z -> (q < Z.of_nat (List.length l))%Z -> exists x, index l (Some q) = Ok x.
Proof.
  intros Hq Hl. unfold index. cbv zeta.
  destruct (Z.ltb_spec q 0); [lia|].
  destruct (Z.ltb_spec q 0); [lia|].
  destruct (nth_error l (Z.to_nat q)) as [x|] eqn:E; [eexists; reflexivity|].
  apply nth_error_None in E. lia.
Qed.

Lemma index_back {A : Type} (l : list A) (q : Z) :
  (0 < q)%Z -> (q <= Z.of_nat (List.length l))%Z ->
  exists x, index l (Some (- q)%Z) = Ok x.
Proof.
  intros Hq Hl. unfold index. cbv zeta.
  destruct (Z.ltb_spec (- q) 0); [|lia].
  destruct (Z.ltb_spec (- q + Z.of_nat (List.length l)) 0); [lia|].
  destruct (nth_error l (Z.to_nat (- q + Z.of_nat (List.length l)))) as [x|] eqn:E;
    [eexists; reflexivity|].
  apply nth_error_None in E. lia.
Qed.

Lemma np_mean_total (l : list Q) : l <> [] -> exists q, np_mean l = Ok q.
Proof. destruct l; [congruence|]. intros _. eexists. reflexivity. Qed.

Lemma np_median_total (l : list Q) : l <> [] -> exists q, np_median l = Ok q.
Proof.
  destruct l; [congruence|]. intros _. unfold np_median. cbv zeta.
  destruct (Nat.even _); eexists; reflexivity.
Qed.

Lemma nonempty_length {A : Type} (l : list A) : (0 < List.length l)%nat -> l <> [].
Proof. destruct l; simpl; [lia | discriminate]. Qed.

(** With positive marker lengths and a quantile in [0, 1/2) every branch
    of the chain yields a number. *)
Lemma local_abundance_total (rat_nreads : list (Z * Z)) :
  Forall (fun rn => (0 < fst rn)%Z) rat_nreads ->
  exists q, local_abundance cfg rat_nreads = Ok q.
Proof.
  intros Hpos. unfold local_abundance. cbv zeta.
  destruct rat_nreads as [|x l] eqn:El.
  { destruct (trim_bounds _) as [[ql qr] qn]. eexists. reflexivity. }
  rewrite <- El in *.
  assert (Hne : rat_nreads <> []) by (rewrite El; discriminate).
  clear El x l.
  assert (Hsum : (0 < sumZ (map fst rat_nreads))%Z).
  { apply sumZ_pos; [destruct rat_nreads; [congruence | discriminate]|].
    apply Forall_map. exact Hpos. }
  destruct (total_length_pos _ Hsum) as [Hrat Hlt].
  assert (H1 : Qltb (total_length rat_nreads) 0 = false)
    by (apply Qltb_false, Qlt_le_weak; exact Hlt).
  assert (H2 : Qle_bool 0 (total_length rat_nreads) = true)
    by (apply Qle_bool_iff, Qlt_le_weak; exact Hlt).
  assert (H3 : ~ (total_length rat_nreads == 0)%Q).
  { intros E. rewrite E in Hlt. apply (Qlt_irrefl 0). exact Hlt. }
  destruct (trim_width_bounds rat_nreads Hne) as [Hq0 Hq2].
  destruct (ratios_total rat_nreads Hpos) as (rs & Hrs & Hrl).
  assert (Hn : (0 < List.length rat_nreads)%nat)
    by (destruct rat_nreads; [congruence | simpl; lia]).
  unfold trim_bounds.
  set (quant := trim_width cfg rat_nreads) in *.
  rewrite H1.
  assert (Hglobal : exists q,
             (if Qle_bool 0 (total_length rat_nreads)
              then fdiv (float (sumZ (map snd rat_nreads))) (total_length rat_nreads)
              else Ok 0%Q) = Ok q).
  { rewrite H2, fdiv_nonzero by exact H3. eexists. reflexivity. }
  assert (Hlocal : exists q, (rs <- ratios rat_nreads ;; np_mean rs) = Ok q).
  { rewrite Hrs. cbn [bind]. apply np_mean_total, nonempty_length. lia. }
  destruct (Z.eqb_spec quant 0) as [Hz|Hz].
  - (* no trimming *)
    change (0 =? 0)%Z with true.
    destruct (stat cfg); cbn [Stat_eqb orb andb]; try exact Hglobal; try exact Hlocal.
    rewrite Hrs. cbn [bind]. rewrite slice_all.
    apply np_median_total, nonempty_length. rewrite sorted_length. lia.
  - assert (Hq : (0 < quant)%Z) by lia.
    destruct (Z.eqb_spec quant 0) as [|_]; [contradiction|].
    destruct (stat cfg); cbn [Stat_eqb orb andb]; try exact Hglobal; try exact Hlocal.
    + (* tavg_g *)
      destruct (mapM_total
                  (fun rn => q <- fdiv (float (snd rn)) (float (fst rn)) ;; Ok (q, rn))
                  rat_nreads) as [ws Hws].
      { eapply Forall_impl; [|exact Hpos]. intros [r n] Hr. simpl in *.
        rewrite fdiv_nonzero; [eexists; reflexivity|].
        intros E. apply (proj1 (float_lt 0 r)) in Hr. rewrite E in Hr.
        apply (Qlt_irrefl 0). exact Hr. }
      rewrite Hws. cbn [bind].
      set (wnreads := sorted (fun x y => Qle_bool (fst x) (fst y)) ws).
      assert (Hwl : List.length wnreads = List.length rat_nreads).
      { subst wnreads. rewrite sorted_length. eapply mapM_length; eauto. }
      assert (Hwpos : Forall (fun v => (0 < fst (snd v))%Z) wnreads).
      { subst wnreads.
        eapply Permutation_Forall; [symmetry; apply sorted_perm|].
        apply mapM_Ok in Hws. clear - Hws Hpos.
        induction Hws as [|x y l l' Hxy _ IH]; constructor.
        - inv_bind Hxy. injection Hxy as <-. simpl. exact (Forall_inv Hpos).
        - apply IH. exact (Forall_inv_tail Hpos). }
      pose proof (slice_band_length wnreads quant Hq) as Hbl.
      rewrite Hwl in Hbl. specialize (Hbl Hq2).
      assert (Hbpos : Forall (fun v => (0 < fst (snd v))%Z)
                             (slice wnreads (Some quant) (Some (- quant)%Z))).
      { apply Forall_slice. exact Hwpos. }
      destruct (slice wnreads (Some quant) (Some (- quant)%Z)) as [|b band] eqn:Eb.
      { cbn [List.length] in Hbl. lia. }
      assert (Hden : (0 < sumZ (map (fun v => fst (snd v)) (b :: band)))%Z).
      { apply sumZ_pos; [discriminate|].
        apply Forall_map. exact Hbpos. }
      assert (Hex : existsb (fun d => negb (d =? 0)%Z)
                            (map (fun v => fst (snd v)) (b :: band)) = true).
      { simpl. apply orb_true_iff. left.
        pose proof (Forall_inv Hbpos) as Hb0. simpl in Hb0.
        destruct (Z.eqb_spec (fst (snd b)) 0); [lia | reflexivity]. }
      cbv zeta. rewrite Hex.
      rewrite fdiv_nonzero; [eexists; reflexivity|].
      intros E. apply (proj1 (float_lt 0 _)) in Hden. rewrite E in Hden.
      apply (Qlt_irrefl 0). exact Hden.
    + (* tavg_l *)
      rewrite Hrs. cbn [bind]. apply np_mean_total, nonempty_length.
      rewrite slice_band_length; rewrite ?sorted_length; lia.
    + (* wavg_g *)
      destruct (index_front (map snd rat_nreads) quant) as [vmin ->];
        rewrite ?length_map; try lia.
      destruct (index_back (map snd rat_nreads) quant) as [vmax ->];
        rewrite ?length_map; try lia.
      cbn [bind]. rewrite fdiv_nonzero by exact H3. eexists. reflexivity.
    + (* wavg_l *)
      rewrite Hrs. cbn [bind].
      destruct (index_front (sorted Qle_bool rs) quant) as [vmin ->];
        rewrite ?sorted_length; try lia.
      destruct (index_back (sorted Qle_bool rs) quant) as [vmax ->];
        rewrite ?sorted_length; try lia.
      cbn [bind]. apply np_mean_total, nonempty_length.
      rewrite !length_app. unfold replicate. rewrite !repeat_length. lia.
    + (* med *)
      rewrite Hrs. cbn [bind]. apply np_median_total, nonempty_length.
      rewrite slice_band_length; rewrite ?sorted_length; lia.
Qed.

Variable T : TaxTree.

Lemma split_markers_positive (items : list (string * Z)) (active removed : list (Z * Z)) :
  split_markers T cfg items = Ok (active, removed) ->
  forallb (has_positive_length T) items = true ->
  Forall (fun rn => (0 < fst rn)%Z) active /\ Forall (fun rn => (0 < fst rn)%Z) removed.
Proof.
  revert active removed.
  induction items as [|[m n] items IH]; simpl; intros active removed H Hpos.
  - injection H as <- <-. split; constructor.
  - apply andb_true_iff in Hpos. destruct Hpos as [Hm Hpos].
    inv_bind H. rename a into mis. inv_bind H. rename a into l.
    inv_bind H. destruct a as [a r].
    destruct (IH a r Ha1 Hpos) as [Hact Hrem].
    unfold has_positive_length, dict_lookup in *. simpl in Hm.
    destruct (dict_get (markers2lens T) m) as [l'|]; [|discriminate].
    injection Ha0 as ->. apply Z.ltb_lt in Hm.
    destruct mis; injection H as <- <-; split; auto.
Qed.

Lemma restore_removed_positive fathers self (active removed : list (Z * Z)) :
  Forall (fun rn => (0 < fst rn)%Z) active ->
  Forall (fun rn => (0 < fst rn)%Z) removed ->
  Forall (fun rn => (0 < fst rn)%Z) (restore_removed cfg fathers self active removed).
Proof.
  intros Ha Hr. unfold restore_removed. cbv zeta.
  destruct (_ && _); [|exact Ha].
  destruct (_ && _); [|exact Ha].
  apply Forall_app. split; [exact Ha | apply Forall_slice; exact Hr].
Qed.

Lemma active_markers_total fathers self :
  (exists x, split_markers T cfg (markers2nreads self) = Ok x) ->
  forallb (has_positive_length T) (markers2nreads self) = true ->
  exists rat_nreads,
    active_markers T cfg fathers self = Ok rat_nreads
    /\ Forall (fun rn => (0 < fst rn)%Z) rat_nreads.
Proof.
  intros [[a r] Hs] Hpos. unfold active_markers.
  destruct (split_markers_lens T cfg _ _ Hs) as [ys ->]. cbn [bind].
  rewrite Hs. cbn [bind]. eexists. split; [reflexivity|].
  destruct (split_markers_positive _ _ _ Hs Hpos) as [Ha Hr].
  eapply Permutation_Forall; [symmetry; apply sorted_perm|].
  apply restore_removed_positive; assumption.
Qed.

Lemma clade_abundance_total fathers self (sum_ab : Q) :
  (exists b, strain_rule_applies fathers self = Ok b) ->
  (exists x, split_markers T cfg (markers2nreads self) = Ok x) ->
  forallb (has_positive_length T) (markers2nreads self) = true ->
  exists v self', clade_abundance T cfg fathers self sum_ab = Ok (v, self').
Proof.
  intros [b Hb] Hs Hpos. unfold clade_abundance.
  destruct (active_markers_total fathers self Hs Hpos) as (r & -> & Hr). cbn [bind].
  rewrite Hb. cbn [bind].
  destruct (b && too_few_nonzero r); [do 2 eexists; reflexivity|].
  destruct (local_abundance_total r Hr) as [loc ->]. cbn [bind].
  assert (Hsub : exists sb, subcl_uncl_of self = Ok sb).
  { unfold subcl_uncl_of. destruct (children self); [|eexists; reflexivity].
    unfold strain_rule_applies in Hb.
    destruct (Str.first (name self)); [eexists; reflexivity | discriminate]. }
  destruct Hsub as [sb ->]. cbn [bind]. do 2 eexists. reflexivity.
Qed.

(** With a quantile in [0, 1/2), on a clade that is well formed with the
    clades below it, [compute_abundance] raises nothing. *)
Lemma compute_abundance_total :
  forall self fathers,
    well_formed T cfg fathers self = true ->
    exists v self', compute_abundance T cfg fathers self = Ok (v, self').
Proof.
  induction self as [self IH] using TaxClade_forall_ind.
  intros fathers Hwf.
  destruct (abundance self) as [a|] eqn:E.
  - rewrite (compute_abundance_cached _ _ _ _ _ E). do 2 eexists. reflexivity.
  - rewrite (compute_abundance_uncached _ _ _ _ E).
    destruct self as [nm cs m u sb ab ua r]. simpl in E. subst ab.
    simpl in Hwf.
    apply andb_true_iff in Hwf. destruct Hwf as [Hwf Hcs].
    apply andb_true_iff in Hwf. destruct Hwf as [Hwf Hpos].
    apply andb_true_iff in Hwf. destruct Hwf as [Hstrain Hsplit].
    set (self := mkTaxClade nm cs m u sb None ua r) in *.
    destruct (mapM_total (compute_abundance T cfg (self :: fathers)) cs) as [rs Hrs].
    { simpl in IH. rewrite forallb_forall in Hcs. rewrite Forall_forall in *.
      intros x Hx. destruct (IH x Hx (self :: fathers) (Hcs x Hx)) as (v & x' & H).
      eexists. exact H. }
    change (children self) with cs. rewrite Hrs. cbn [bind].
    apply clade_abundance_total.
    + change (strain_rule_applies fathers (set_children self (map snd rs)))
        with (strain_rule_applies fathers self).
      destruct (strain_rule_applies fathers self); [eexists; reflexivity | discriminate].
    + simpl. destruct (split_markers T cfg m); [eexists; reflexivity | discriminate].
    + exact Hpos.
Qed.

End Total.

(* ================================================================== *)
(** ** Monotonicity *)

(** *** The strains of a valid taxonomy are leaves *)

Lemma forallb_put_child (Q : TaxClade -> bool) (cs : list TaxClade) (c : TaxClade) :
  forallb Q cs = true -> Q c = true -> forallb Q (put_child cs c) = true.
Proof.
  induction cs as [|x cs IH]; simpl; intros H Hc.
  - rewrite Hc. reflexivity.
  - apply andb_true_iff in H. destruct H as [Hx Hcs].
    destruct (String.eqb (name x) (name c)); simpl.
    + rewrite Hc, Hcs. reflexivity.
    + rewrite Hx, IH; auto.
Qed.

Lemma forallb_modify_child (Q : TaxClade -> bool) (g : TaxClade -> TaxClade)
    (nm : string) (cs : list TaxClade) :
  forallb Q cs = true ->
  (forall x, find_child cs nm = Some x -> Q x = true -> Q (g x) = true) ->
  forallb Q (modify_child g nm cs) = true.
Proof.
  induction cs as [|x cs IH]; simpl; intros H Hg; [reflexivity|].
  apply andb_true_iff in H. destruct H as [Hx Hcs].
  destruct (String.eqb (name x) nm); simpl.
  - rewrite Hg, Hcs; auto.
  - rewrite Hx, IH; auto.
Qed.

Lemma ranked_unfold (d : nat) (c : TaxClade) :
  ranked d c
  = forallb (fun ch => letter_ok d (name ch) && ranked (S d) ch) (children c).
Proof. destruct c; reflexivity. Qed.

(** An update that keeps names and ranks keeps the ranks of the tree. *)
Lemma ranked_modify_at (f : TaxClade -> TaxClade) (p : ref) :
  (forall c, name (f c) = name c) ->
  forall d c,
    (forall cl, clade_at c p = Some cl ->
                ranked (d + List.length p) cl = true ->
                ranked (d + List.length p) (f cl) = true) ->
    ranked d c = true -> ranked d (modify_at f p c) = true.
Proof.
  intros Hname. induction p as [|nm p IH]; intros d c Hf H.
  - simpl. rewrite <- (Nat.add_0_r d). apply Hf; [reflexivity|].
    rewrite Nat.add_0_r. exact H.
  - simpl. rewrite ranked_unfold in *. simpl.
    apply forallb_modify_child; [exact H|].
    intros x Hfind Hx. apply andb_true_iff in Hx. destruct Hx as [Hl Hr].
    rewrite (modify_at_name f Hname), Hl. simpl.
    apply IH; [|exact Hr].
    intros cl Hcl Hrk.
    replace (S d + List.length p)%nat with (d + List.length (nm :: p))%nat in *
      by (simpl; lia).
    apply Hf; [|exact Hrk].
    rewrite clade_at_cons, Hfind. exact Hcl.
Qed.

Lemma letter_ok_strain (d : nat) (nm : string) :
  letter_ok d nm = true -> Str.first nm = Ok "t"%char -> d = 7%nat.
Proof.
  unfold letter_ok. intros H Ht. rewrite Ht in H.
  do 8 (destruct d as [|d]; [simpl in H; try discriminate H; reflexivity|]).
  destruct d; simpl in H; discriminate H.
Qed.

Lemma letter_ok_depth (d : nat) (nm : string) : letter_ok d nm = true -> (d < 8)%nat.
Proof.
  unfold letter_ok. intros H. destruct (Str.first nm); [|discriminate].
  do 8 (destruct d as [|d]; [lia|]).
  destruct d; simpl in H; discriminate H.
Qed.

Lemma ranked_strain_leaves :
  forall c d,
    ranked d c = true ->
    Forall (fun ch => letter_ok d (name ch) = true /\ throughout strain_leaf ch)
           (children c).
Proof.
  induction c as [c IH] using TaxClade_forall_ind.
  intros d H. rewrite ranked_unfold in H. rewrite forallb_forall in H.
  rewrite Forall_forall in *. intros ch Hin.
  specialize (H ch Hin). apply andb_true_iff in H. destruct H as [Hl Hr].
  split; [exact Hl|].
  specialize (IH ch Hin (S d) Hr). constructor.
  - intros Ht. pose proof (letter_ok_strain _ _ Hl Ht) as ->.
    destruct (children ch) as [|g gs] eqn:E; [reflexivity|].
    apply Forall_inv in IH. destruct IH as [H8 _].
    apply letter_ok_depth in H8. lia.
  - eapply Forall_impl; [|exact IH]. intros x [_ Hx]. exact Hx.
Qed.

Lemma root_strain_leaves (r : TaxClade) :
  name r = "root"%string -> ranked 0 r = true -> throughout strain_leaf r.
Proof.
  intros Hn H. constructor.
  - unfold strain_leaf. rewrite Hn. simpl. discriminate.
  - eapply Forall_impl; [|apply (ranked_strain_leaves r 0 H)].
    intros x [_ Hx]. exact Hx.
Qed.

(** *** [TaxTree.__init__] builds a ranked tree *)

Lemma init_level_ranked T father lev T' father' :
  init_level T father lev = Ok (T', father') ->
  letter_ok (List.length father) lev = true ->
  ranked 0 (root T) = true ->
  ranked 0 (root T') = true /\ name (root T') = name (root T)
  /\ father' = father ++ [lev].
Proof.
  unfold init_level. intros H Hl Hr.
  inv_bind H. destruct a as [fs fcl]. inv_bind H.
  injection H as <- <-.
  assert (H1 : let T1 := match find_child (children fcl) lev with
                         | Some _ => T
                         | None =>
                             mkTaxTree
                               (modify_at (fun c => add_child c lev) father (root T))
                               (dict_set (all_clades T) lev (father ++ [lev]))
                               (markers2lens T) (markers2clades T)
                               (taxa2clades T) (markers2exts T)
                         end in
               ranked 0 (root T1) = true /\ name (root T1) = name (root T)).
  { destruct (find_child (children fcl) lev); simpl; [auto|]. split.
    - apply ranked_modify_at; [reflexivity | | exact Hr].
      simpl. intros cl _ Hcl. rewrite ranked_unfold in *. simpl.
      apply forallb_put_child; [exact Hcl|].
      simpl. rewrite Hl. reflexivity.
    - apply modify_at_name. reflexivity. }
  cbv zeta in H1. destruct H1 as [H1 H2].
  destruct (Ascii.eqb _ _); simpl; auto.
Qed.

Lemma init_lineage_ranked (levels : list string) :
  forall T father T',
    init_lineage T father levels = Ok T' ->
    valid_lineage (List.length father) levels = true ->
    ranked 0 (root T) = true ->
    ranked 0 (root T') = true /\ name (root T') = name (root T).
Proof.
  induction levels as [|lev levels IH]; simpl; intros T father T' H Hv Hr.
  - injection H as <-. auto.
  - inv_bind H. destruct a as [T1 father1].
    apply andb_true_iff in Hv. destruct Hv as [Hl Hv].
    destruct (init_level_ranked _ _ _ _ _ Ha Hl Hr) as (Hr1 & Hn1 & ->).
    destruct (IH _ _ _ H) as [Hr2 Hn2].
    + rewrite length_app. simpl. rewrite Nat.add_1_r. exact Hv.
    + exact Hr1.
    + split; [exact Hr2 | congruence].
Qed.

Lemma init_taxonomy_ranked (lines : list string) :
  forall T T',
    init_taxonomy T lines = Ok T' ->
    valid_taxonomy lines = true ->
    ranked 0 (root T) = true ->
    ranked 0 (root T') = true /\ name (root T') = name (root T).
Proof.
  induction lines as [|l lines IH]; simpl; intros T T' H Hv Hr.
  - injection H as <-. auto.
  - inv_bind H. apply andb_true_iff in Hv. destruct Hv as [Hl Hv].
    destruct (init_lineage_ranked _ _ _ _ Ha Hl Hr) as [Hr1 Hn1].
    destruct (IH _ _ H Hv Hr1) as [Hr2 Hn2].
    split; [exact Hr2 | congruence].
Qed.

Lemma set_markers2nreads_at_ranked T p marker n :
  ranked 0 (root T) = true ->
  ranked 0 (root (set_markers2nreads_at T p marker n)) = true
  /\ name (root (set_markers2nreads_at T p marker n)) = name (root T).
Proof.
  intros H. unfold set_markers2nreads_at. simpl. split.
  - apply ranked_modify_at; [reflexivity | | exact H].
    intros cl _ Hcl. rewrite ranked_unfold in *. exact Hcl.
  - apply modify_at_name. reflexivity.
Qed.

Lemma init_markers_ranked (items : list (string * Marker)) :
  forall T T',
    init_markers T items = Ok T' ->
    ranked 0 (root T) = true ->
    ranked 0 (root T') = true /\ name (root T') = name (root T).
Proof.
  induction items as [|[k p] items IH]; simpl; intros T T' H Hr.
  - injection H as <-. auto.
  - destruct (_ || _); [eapply IH; eauto|].
    inv_bind H. destruct a as [s T2].
    apply add_reads_tree in Ha.
    assert (H2 : ranked 0 (root T2) = true /\ name (root T2) = name (root T)).
    { destruct Ha as [-> | [q ->]]; [auto|].
      apply (set_markers2nreads_at_ranked
               (mkTaxTree (root T) (all_clades T)
                          (dict_set (markers2lens T) k (len p))
                          (dict_set (markers2clades T) k (clade p))
                          (taxa2clades T) (markers2exts T))).
      exact Hr. }
    destruct H2 as [Hr2 Hn2].
    destruct (IH _ _ H) as [Hr3 Hn3]; [exact Hr2|].
    split; [exact Hr3|]. simpl in Hn3. congruence.
Qed.

Lemma TaxTree_init_strain_leaves (mpa_pkl : MpaPkl) (T : TaxTree) :
  valid_taxonomy (taxonomy mpa_pkl) = true ->
  TaxTree_init mpa_pkl = Ok T ->
  throughout strain_leaf (root T).
Proof.
  intros Hv H. unfold TaxTree_init in H. inv_bind H.
  destruct (init_taxonomy_ranked _ _ _ Ha Hv eq_refl) as [Hr1 Hn1].
  destruct (init_markers_ranked _ _ _ H Hr1) as [Hr2 Hn2].
  apply root_strain_leaves; [|exact Hr2].
  rewrite Hn2, Hn1. reflexivity.
Qed.

(** *** Every step keeps the strains leaves *)

Lemma same_shape_strain_leaves :
  forall c c', same_shape c c' -> throughout strain_leaf c -> throughout strain_leaf c'.
Proof.
  induction c as [c IH] using TaxClade_forall_ind.
  intros c' Hs Hth. inversion Hs as [? ? Hn _ _ Hcs]; subst.
  apply throughout_inv in Hth. destruct Hth as [Hc Hall].
  constructor.
  - unfold strain_leaf in *. rewrite <- Hn. intros Ht.
    rewrite (Hc Ht) in Hcs. inversion Hcs. reflexivity.
  - clear Hc Hs Hn. induction Hcs as [|x y l l' Hxy _ IHl]; constructor.
    + apply (Forall_inv IH); [exact Hxy | exact (Forall_inv Hall)].
    + apply IHl; [exact (Forall_inv_tail IH) | exact (Forall_inv_tail Hall)].
Qed.

Lemma strain_leaf_set_children (c : TaxClade) (cs : list TaxClade) :
  strain_leaf c -> List.length cs = List.length (children c) ->
  strain_leaf (set_children c cs).
Proof.
  unfold strain_leaf. simpl. intros H Hl Ht. rewrite (H Ht) in Hl.
  destruct cs; [reflexivity | discriminate].
Qed.

Lemma step_strain_leaves (T T' : TaxTree) :
  step T T' -> throughout strain_leaf (root T) -> throughout strain_leaf (root T').
Proof.
  assert (Hset : forall T p marker n,
             throughout strain_leaf (root T) ->
             throughout strain_leaf (root (set_markers2nreads_at T p marker n))).
  { intros T0 p marker n Hth. unfold set_markers2nreads_at. simpl.
    apply throughout_modify_at; [apply strain_leaf_set_children | exact Hth |].
    intros cl Hcl. pose proof (throughout_clade_at _ p _ _ Hth Hcl) as H.
    apply throughout_inv in H. destruct H as [Hc Hcs].
    constructor; [exact Hc | exact Hcs]. }
  intros [T0 marker n iv ie ib ia s T1 H | T0 p marker n | T0 cfg p v T1 H] Hth.
  - apply add_reads_tree in H. destruct H as [-> | [p ->]]; auto.
  - auto.
  - unfold compute_abundance_at in H.
    inv_bind H. destruct a as [fs cl]. inv_bind H. destruct a as [v' cl'].
    injection H as _ <-. simpl.
    apply throughout_modify_at; [apply strain_leaf_set_children | exact Hth |].
    intros cl0 Hcl0.
    rewrite (deref_clade_at _ _ _ _ Ha) in Hcl0. injection Hcl0 as <-.
    eapply same_shape_strain_leaves; [eapply compute_abundance_shape; eauto|].
    eapply throughout_clade_at; [exact Hth|]. eapply deref_clade_at; eauto.
Qed.

(** *** [compute_abundance] establishes monotonicity *)

Lemma children_sum_computed (rs : list (Q * TaxClade)) :
  Forall (fun r => abundance (snd r) = Some (fst r)) rs ->
  exists s, children_sum (map snd rs) = Some s /\ (s == sumQ (map fst rs))%Q.
Proof.
  induction 1 as [|[v c] rs Hr _ [s [Hs Hq]]]; simpl.
  - exists 0%Q. split; reflexivity.
  - simpl in Hr. rewrite Hr, Hs. eexists. split; [reflexivity|].
    rewrite sumQ_cons, Hq. reflexivity.
Qed.

Lemma strain_rule_applies_name (fathers : list TaxClade) (self : TaxClade) :
  strain_rule_applies fathers self = Ok true -> Str.first (name self) = Ok "t"%char.
Proof.
  unfold strain_rule_applies. destruct (Str.first (name self)) as [c|]; simpl;
    [|discriminate].
  destruct (Ascii.eqb_spec c "t") as [->|_]; [reflexivity | discriminate].
Qed.

(** The value stored is never below the sum over the children, provided
    that sum is at most 0 for a clade with the letter of the strains. *)
Lemma clade_abundance_ge T cfg fathers self (sum_ab v : Q) (self' : TaxClade) :
  clade_abundance T cfg fathers self sum_ab = Ok (v, self') ->
  (Str.first (name self) = Ok "t"%char -> (sum_ab <= 0)%Q) ->
  (sum_ab <= v)%Q.
Proof.
  unfold clade_abundance. intros H Hleaf.
  inv_bind H. rename a into rat_nreads. inv_bind H. rename a into strain.
  destruct (strain && too_few_nonzero rat_nreads) eqn:E.
  - injection H as <- _. apply andb_true_iff in E. destruct E as [-> _].
    apply Hleaf. eapply strain_rule_applies_name; eauto.
  - inv_bind H. rename a into loc_ab. inv_bind H. injection H as <- _.
    destruct (Qltb (total_length rat_nreads) (float (min_cu_len cfg))
              && negb (List.length (children self) =? 0)%nat).
    + apply Qle_refl.
    + destruct (Qltb loc_ab sum_ab) eqn:E2; [apply Qle_refl|].
      apply Qltb_false. exact E2.
Qed.

Lemma compute_abundance_monotone T cfg :
  forall self fathers v self',
    throughout strain_leaf self ->
    throughout monotone self ->
    compute_abundance T cfg fathers self = Ok (v, self') ->
    throughout monotone self'.
Proof.
  induction self as [self IH] using TaxClade_forall_ind.
  intros fathers v self' Hleaf Hmono H.
  destruct (abundance self) as [a|] eqn:E.
  - rewrite (compute_abundance_cached _ _ _ _ _ E) in H.
    injection H as _ <-. exact Hmono.
  - rewrite (compute_abundance_uncached _ _ _ _ E) in H.
    inv_bind H. rename a into rs.
    pose proof (clade_abundance_shape _ _ _ _ _ _ _ H) as Hshape. simpl in Hshape.
    destruct Hshape as (_ & Hc & _ & _ & Hab & _).
    apply throughout_inv in Hleaf. destruct Hleaf as [Hleaf Hleaves].
    apply throughout_inv in Hmono. destruct Hmono as [_ Hmonos].
    assert (Hstored : Forall (fun r => abundance (snd r) = Some (fst r)) rs).
    { apply mapM_Ok in Ha. clear - Ha.
      induction Ha as [|x [vy cy] l l' Hxy _ IHl]; constructor; [|exact IHl].
      simpl. eapply compute_abundance_stored; eauto. }
    destruct (children_sum_computed rs Hstored) as (s & Hs & Hq).
    constructor.
    + intros a Ha'. rewrite Hab in Ha'. injection Ha' as <-.
      rewrite Hc. exists s. split; [exact Hs|]. rewrite Hq.
      eapply clade_abundance_ge; [exact H|].
      simpl. intros Ht. rewrite (Hleaf Ht) in Ha. simpl in Ha.
      injection Ha as <-. apply Qle_refl.
    + rewrite Hc. eapply mapM_Forall_snd; [|exact Ha].
      rewrite Forall_forall in *. intros x Hx [vy cy] Hy. simpl.
      eapply IH; eauto.
Qed.

(** *** Every step keeps monotonicity *)

Lemma children_sum_modify_child (g : TaxClade -> TaxClade) (nm : string)
    (cs : list TaxClade) (s : Q) :
  children_sum cs = Some s ->
  (forall x a, find_child cs nm = Some x -> abundance x = Some a ->
               abundance (g x) = Some a) ->
  children_sum (modify_child g nm cs) = Some s.
Proof.
  revert s. induction cs as [|x cs IH]; simpl; intros s H Hg; [exact H|].
  destruct (abundance x) as [a|] eqn:Ea; [|discriminate].
  destruct (children_sum cs) as [s'|] eqn:Es; [|discriminate].
  destruct (String.eqb (name x) nm); simpl.
  - rewrite (Hg x a eq_refl Ea), Es. exact H.
  - rewrite Ea. rewrite (IH s' eq_refl Hg). exact H.
Qed.

Lemma monotone_modify_at (f : TaxClade -> TaxClade) (p : ref) :
  forall c,
    throughout monotone c ->
    (forall cl, clade_at c p = Some cl ->
                throughout monotone (f cl)
                /\ forall a, abundance cl = Some a -> abundance (f cl) = Some a) ->
    throughout monotone (modify_at f p c)
    /\ forall a, abundance c = Some a -> abundance (modify_at f p c) = Some a.
Proof.
  induction p as [|nm p IH]; intros c Hc Hf.
  - simpl. apply Hf. reflexivity.
  - simpl. split; [|auto].
    apply throughout_inv in Hc. destruct Hc as [Hc Hcs].
    assert (Hsub : forall x, find_child (children c) nm = Some x ->
                     throughout monotone (modify_at f p x)
                     /\ forall a, abundance x = Some a ->
                                  abundance (modify_at f p x) = Some a).
    { intros x Hx. apply IH.
      - apply find_child_name in Hx. destruct Hx as [_ Hin].
        rewrite Forall_forall in Hcs. auto.
      - intros cl Hcl. apply Hf. rewrite clade_at_cons, Hx. exact Hcl. }
    constructor.
    + intros a Ha. simpl in Ha. destruct (Hc a Ha) as (s & Hs & Hle).
      exists s. split; [|exact Hle]. simpl.
      apply children_sum_modify_child; [exact Hs|].
      intros x a' Hx Hax. apply (Hsub x Hx). exact Hax.
    + simpl. apply Forall_modify_child; [exact Hcs|].
      intros x Hx. apply (Hsub x Hx).
Qed.

Lemma step_monotone (T T' : TaxTree) :
  step T T' ->
  throughout strain_leaf (root T) ->
  throughout monotone (root T) -> throughout monotone (root T').
Proof.
  assert (Hset : forall T p marker n,
             throughout monotone (root T) ->
             throughout monotone (root (set_markers2nreads_at T p marker n))).
  { intros T0 p marker n Hth. unfold set_markers2nreads_at. simpl.
    apply monotone_modify_at; [exact Hth|].
    intros cl Hcl. split; [|auto].
    pose proof (throughout_clade_at _ p _ _ Hth Hcl) as H.
    apply throughout_inv in H. destruct H as [Hc Hcs].
    constructor; [exact Hc | exact Hcs]. }
  intros [T0 marker n iv ie ib ia s T1 H | T0 p marker n | T0 cfg p v T1 H] Hleaf Hth.
  - apply add_reads_tree in H. destruct H as [-> | [p ->]]; auto.
  - auto.
  - unfold compute_abundance_at in H.
    inv_bind H. destruct a as [fs cl]. inv_bind H. destruct a as [v' cl'].
    injection H as _ <-. simpl.
    apply monotone_modify_at; [exact Hth|].
    intros cl0 Hcl0.
    rewrite (deref_clade_at _ _ _ _ Ha) in Hcl0. injection Hcl0 as <-.
    split.
    + eapply compute_abundance_monotone; [| |exact Ha0].
      * eapply throughout_clade_at; [exact Hleaf|]. eapply deref_clade_at; eauto.
      * eapply throughout_clade_at; [exact Hth|]. eapply deref_clade_at; eauto.
    + intros a Hab. rewrite (compute_abundance_cached _ _ _ _ _ Hab) in Ha0.
      injection Ha0 as _ <-. exact Hab.
Qed.

(** C1.  In every state of a tree built by [TaxTree.__init__] from a
    marker database whose taxonomy is valid, and then subject to any
    recording of reads and any calls of [compute_abundance], in any of the
    seven statistic modes and with either setting of the disambiguation
    toggle: every clade on which [compute_abundance] has been called, that
    is every clade that has an abundance, has children that all have one,
    and its abundance is at least the sum of theirs.  A call returns a
    value whenever the quantile lies in [0, 1/2) and the clade is well
    formed with the clades below it. *)
Theorem abundance_monotone (mpa_pkl : MpaPkl) (T0 T : TaxTree) :
  valid_taxonomy (taxonomy mpa_pkl) = true ->
  TaxTree_init mpa_pkl = Ok T0 ->
  many step T0 T ->
  throughout monotone (root T)
  /\ (forall cfg p v T',
       compute_abundance_at T cfg p = Ok (v, T') ->
       exists cl s,
         clade_at (root T') p = Some cl
         /\ abundance cl = Some v
         /\ children_sum (children cl) = Some s
         /\ (s <= v)%Q)
  /\ (forall cfg p fs cl,
         (0 <= quantile cfg)%Q -> (quantile cfg < 1 # 2)%Q ->
         deref T p = Ok (fs, cl) ->
         well_formed T cfg fs cl = true ->
         exists v T', compute_abundance_at T cfg p = Ok (v, T')).
Proof.
  intros Hv Hinit Hsteps.
  assert (Hinv : forall T, many step T0 T ->
                   throughout strain_leaf (root T) /\ throughout monotone (root T)).
  { clear T Hsteps. intros T Hsteps.
    induction Hsteps as [|T0 T1 T2 _ IH Hs].
    - split; [eapply TaxTree_init_strain_leaves; eauto|].
      apply (throughout_impl fresh); [|eapply TaxTree_init_fresh; eauto].
      intros c [Hab _] a Ha. congruence.
    - destruct (IH Hinit) as [H1 H2].
      split; [eapply step_strain_leaves; eauto | eapply step_monotone; eauto]. }
  split; [apply Hinv; exact Hsteps|]. split.
  - intros cfg p v T' Hc.
    destruct (Hinv T' (many_more _ _ _ _ Hsteps (step_compute _ _ _ _ _ Hc)))
      as [_ Hmono].
    destruct (compute_abundance_at_stored _ _ _ _ _ Hc) as (cl & Hat & Hab).
    pose proof (throughout_clade_at _ _ _ _ Hmono Hat) as Hcl.
    apply throughout_inv in Hcl. destruct Hcl as [Hcl _].
    destruct (Hcl v Hab) as (s & Hs & Hle).
    exists cl, s. auto.
  - intros cfg p fs cl Hq0 Hq1 Hd Hwf. unfold compute_abundance_at.
    rewrite Hd. cbn [bind].
    destruct (compute_abundance_total cfg Hq0 Hq1 T cl fs Hwf) as (v & cl' & ->).
    cbn [bind]. do 2 eexists. reflexivity.
Qed.

Lemma abundance_monotone_witness :
  throughout monotone (root strains_tree1)
  /\ exists v T1 cl s,
       compute_abundance_at strains_tree1 (strains_config med) species_S = Ok (v, T1)
       /\ clade_at (root T1) species_S = Some cl
       /\ abundance cl = Some v
       /\ children_sum (children cl) = Some s
       /\ (s <= v)%Q.
Proof.
  assert (Hsteps : many step strains_tree0 strains_tree1).
  { eapply many_more; [eapply many_more; [apply many_none|]|]; apply step_assign. }
  assert (Hv : valid_taxonomy (taxonomy strains_db) = true)
    by (vm_compute; reflexivity).
  assert (Hi : TaxTree_init strains_db = Ok strains_tree0)
    by (vm_compute; reflexivity).
  pose proof (abundance_monotone strains_db strains_tree0 strains_tree1
                Hv Hi Hsteps) as (H1 & H2 & H3).
  split; [exact H1|].
  assert (Hc : exists v T1,
             compute_abundance_at strains_tree1 (strains_config med) species_S
             = Ok (v, T1)).
  { assert (Hd : exists fs cl,
               deref strains_tree1 species_S = Ok (fs, cl)
               /\ well_formed strains_tree1 (strains_config med) fs cl = true)
      by (do 2 eexists; split; vm_compute; reflexivity).
    destruct Hd as (fs & cl & Hd & Hwf).
    apply (H3 (strains_config med) species_S fs cl); try assumption.
    - vm_compute. discriminate.
    - vm_compute. reflexivity. }
  destruct Hc as (v & T1 & Hc).
  destruct (H2 _ _ _ _ Hc) as (cl & s & Ha & Hb & Hd & He).
  exists v, T1, cl, s. auto 10.
Defined.

(* ================================================================== *)
(** * Further properties *)

(** ** What no operation changes: names, children, indexes *)

Lemma same_skeleton_refl (c : TaxClade) : same_skeleton c c.
Proof.
  induction c as [c IH] using TaxClade_forall_ind.
  constructor; [reflexivity|].
  induction IH; constructor; auto.
Qed.

Lemma same_skeleton_trans :
  forall c1 c2 c3, same_skeleton c1 c2 -> same_skeleton c2 c3 -> same_skeleton c1 c3.
Proof.
  induction c1 as [c1 IH] using TaxClade_forall_ind.
  intros c2 c3 H12 H23.
  inversion H12 as [? ? Hn12 Hc12]; subst. inversion H23 as [? ? Hn23 Hc23]; subst.
  constructor; [congruence|].
  clear H12 H23 Hn12 Hn23.
  revert IH Hc23. generalize (children c3) as l3.
  induction Hc12 as [|x y l1 l2 Hxy _ IHl]; intros l3 IH Hc23.
  - inversion Hc23; subst. constructor.
  - inversion Hc23 as [|? z ? l3' Hyz Hl]; subst. constructor.
    + eapply (Forall_inv IH); eauto.
    + apply IHl; [exact (Forall_inv_tail IH) | exact Hl].
Qed.

Lemma same_shape_skeleton : forall c c', same_shape c c' -> same_skeleton c c'.
Proof.
  induction c as [c IH] using TaxClade_forall_ind.
  intros c' H. inversion H as [? ? Hn _ _ Hcs]; subst.
  constructor; [exact Hn|].
  induction Hcs as [|x y l l' Hxy _ IHl]; constructor.
  - apply (Forall_inv IH). exact Hxy.
  - apply IHl. exact (Forall_inv_tail IH).
Qed.

Lemma skeleton_find_child (cs cs' : list TaxClade) (nm : string) :
  Forall2 same_skeleton cs cs' ->
  match find_child cs nm with
  | Some x => exists x', find_child cs' nm = Some x' /\ same_skeleton x x'
  | None => find_child cs' nm = None
  end.
Proof.
  induction 1 as [|x y l l' Hxy _ IH]; simpl; [reflexivity|].
  inversion Hxy as [? ? Hn _]; subst. rewrite <- Hn.
  destruct (String.eqb (name x) nm); [eauto | exact IH].
Qed.

Lemma skeleton_clade_at (q : ref) :
  forall c c' x,
    same_skeleton c c' -> clade_at c q = Some x ->
    exists x', clade_at c' q = Some x' /\ same_skeleton x x'.
Proof.
  induction q as [|nm q IH]; intros c c' x Hs H.
  - rewrite clade_at_nil in *. injection H as <-. eauto.
  - rewrite clade_at_cons in *. inversion Hs as [? ? _ Hcs]; subst.
    pose proof (skeleton_find_child _ _ nm Hcs) as Hf.
    destruct (find_child (children c) nm) as [y|]; [|discriminate].
    destruct Hf as (y' & -> & Hy). eapply IH; eauto.
Qed.

Lemma Forall2_modify_child (R : TaxClade -> TaxClade -> Prop) (g : TaxClade -> TaxClade)
    (nm : string) (cs : list TaxClade) :
  (forall x, R x x) ->
  (forall x, find_child cs nm = Some x -> R x (g x)) ->
  Forall2 R cs (modify_child g nm cs).
Proof.
  intros Hrefl. induction cs as [|x cs IH]; simpl; intros Hg; [constructor|].
  destruct (String.eqb (name x) nm).
  - constructor; [apply Hg; reflexivity|].
    clear - Hrefl. induction cs; constructor; auto.
  - constructor; [apply Hrefl | apply IH; exact Hg].
Qed.

Lemma skeleton_modify_at (f : TaxClade -> TaxClade) (p : ref) :
  forall c,
    (forall cl, clade_at c p = Some cl -> same_skeleton cl (f cl)) ->
    same_skeleton c (modify_at f p c).
Proof.
  induction p as [|nm p IH]; intros c Hf.
  - simpl. apply Hf. reflexivity.
  - simpl. constructor; [reflexivity|]. simpl.
    apply Forall2_modify_child; [apply same_skeleton_refl|].
    intros x Hx. apply IH. intros cl Hcl. apply Hf.
    rewrite clade_at_cons, Hx. exact Hcl.
Qed.

Lemma same_indexes_refl (T : TaxTree) : same_indexes T T.
Proof. repeat split. Qed.

Lemma same_indexes_trans (T1 T2 T3 : TaxTree) :
  same_indexes T1 T2 -> same_indexes T2 T3 -> same_indexes T1 T3.
Proof.
  intros (a1 & a2 & a3 & a4 & a5) (b1 & b2 & b3 & b4 & b5).
  repeat split; congruence.
Qed.

Lemma set_markers2nreads_at_skeleton T p marker n :
  same_skeleton (root T) (root (set_markers2nreads_at T p marker n))
  /\ same_indexes T (set_markers2nreads_at T p marker n).
Proof.
  split; [|repeat split].
  unfold set_markers2nreads_at. simpl. apply skeleton_modify_at.
  intros cl _. constructor; [reflexivity|]. simpl.
  clear. induction (children cl); constructor; auto using same_skeleton_refl.
Qed.

Lemma step_skeleton (T T' : TaxTree) :
  step T T' -> same_skeleton (root T) (root T') /\ same_indexes T T'.
Proof.
  intros [T0 marker n iv ie ib ia s T1 H | T0 p marker n | T0 cfg p v T1 H].
  - apply add_reads_tree in H. destruct H as [-> | [p ->]].
    + split; [apply same_skeleton_refl | apply same_indexes_refl].
    + apply set_markers2nreads_at_skeleton.
  - apply set_markers2nreads_at_skeleton.
  - unfold compute_abundance_at in H.
    inv_bind H. destruct a as [fs cl]. inv_bind H. destruct a as [v' cl'].
    injection H as _ <-. split; [|repeat split]. simpl.
    apply skeleton_modify_at. intros cl0 Hcl0.
    rewrite (deref_clade_at _ _ _ _ Ha) in Hcl0. injection Hcl0 as <-.
    eapply same_shape_skeleton, compute_abundance_shape; eauto.
Qed.

(** X1.  Whatever reads are recorded, whatever marker counts are
    assigned and whatever abundances are computed: the names of the
    clades, the children of every clade and the five indexes of the tree
    stay as they were. *)
Theorem steps_keep_skeleton_and_indexes (T T' : TaxTree) :
  many step T T' ->
  same_skeleton (root T) (root T') /\ same_indexes T T'.
Proof.
  induction 1 as [|T T1 T2 _ [IH1 IH2] Hs].
  - split; [apply same_skeleton_refl | apply same_indexes_refl].
  - destruct (step_skeleton _ _ Hs) as [H1 H2]. split.
    + eapply same_skeleton_trans; eauto.
    + eapply same_indexes_trans; eauto.
Qed.

Lemma steps_keep_skeleton_and_indexes_witness :
  same_skeleton (root strains_tree0) (root strains_tree1)
  /\ same_indexes strains_tree0 strains_tree1.
Proof.
  apply steps_keep_skeleton_and_indexes.
  eapply many_more; [eapply many_more; [apply many_none|]|]; apply step_assign.
Defined.

(** ** No reference dangles *)

Lemma find_child_put_child_new (cs : list TaxClade) (c : TaxClade) (nm : string) :
  name c = nm ->
  find_child cs nm = None -> find_child (put_child cs c) nm = Some c.
Proof.
  intros <-. induction cs as [|x cs IH]; simpl.
  - intros _. rewrite String.eqb_refl. reflexivity.
  - destruct (String.eqb (name x) (name c)) eqn:E; [discriminate|].
    intros H. simpl. rewrite E. apply IH. exact H.
Qed.

Lemma find_child_put_child_other (cs : list TaxClade) (c : TaxClade) (nm : string) :
  nm <> name c -> find_child (put_child cs c) nm = find_child cs nm.
Proof.
  intros Hne. induction cs as [|x cs IH]; simpl.
  - destruct (String.eqb_spec (name c) nm); [congruence | reflexivity].
  - destruct (String.eqb_spec (name x) (name c)) as [E|E]; simpl.
    + destruct (String.eqb_spec (name c) nm); [congruence|].
      destruct (String.eqb_spec (name x) nm); [congruence | reflexivity].
    + destruct (String.eqb_spec (name x) nm); [reflexivity | exact IH].
Qed.

Lemma add_child_name (lev : string) (c : TaxClade) : name (add_child c lev) = name c.
Proof. destruct c. reflexivity. Qed.

Lemma add_child_children (lev : string) (c : TaxClade) :
  children (add_child c lev) = put_child (children c) (TaxClade_init lev).
Proof. destruct c. reflexivity. Qed.

Lemma modify_at_children_cons (f : TaxClade -> TaxClade) (nm : string) (p : ref)
    (c : TaxClade) :
  children (modify_at f (nm :: p) c) = modify_child (modify_at f p) nm (children c).
Proof. destruct c. reflexivity. Qed.

(** Adding a child where there is none of the name: the new reference
    denotes the new clade, and every reference that denoted a clade
    denotes a clade of the same name. *)
Lemma clade_at_add_child (lev : string) (father : ref) :
  forall c fcl,
    clade_at c father = Some fcl ->
    find_child (children fcl) lev = None ->
    clade_at (modify_at (fun x => add_child x lev) father c) (father ++ [lev])
    = Some (TaxClade_init lev)
    /\ forall q cq,
         clade_at c q = Some cq ->
         exists cq', clade_at (modify_at (fun x => add_child x lev) father c) q = Some cq'
                     /\ name cq' = name cq.
Proof.
  assert (Hname : forall p y, name (modify_at (fun x => add_child x lev) p y) = name y)
    by (intros; apply modify_at_name; intros; apply add_child_name).
  induction father as [|nm father IH]; intros c fcl Hf Hnone.
  - rewrite clade_at_nil in Hf. injection Hf as <-.
    cbn [modify_at app]. split.
    + rewrite clade_at_cons, add_child_children.
      rewrite (find_child_put_child_new (children c) (TaxClade_init lev) lev eq_refl Hnone).
      apply clade_at_nil.
    + intros [|nm' q] cq Hq.
      * rewrite clade_at_nil in *. injection Hq as <-.
        eexists. split; [reflexivity | apply add_child_name].
      * rewrite clade_at_cons in *. rewrite add_child_children.
        destruct (find_child (children c) nm') as [x|] eqn:E; [|discriminate].
        rewrite find_child_put_child_other.
        -- rewrite E. eauto.
        -- intros Heq. cbn in Heq. subst nm'. congruence.
  - rewrite clade_at_cons in Hf.
    destruct (find_child (children c) nm) as [x|] eqn:E; [|discriminate].
    destruct (IH x fcl Hf Hnone) as [IHa IHb].
    split.
    + rewrite <- app_comm_cons, clade_at_cons, modify_at_children_cons.
      rewrite find_child_modify_same by apply Hname.
      rewrite E. exact IHa.
    + intros [|nm' q] cq Hq.
      * rewrite clade_at_nil in *. injection Hq as <-.
        eexists. split; [reflexivity | apply Hname].
      * rewrite clade_at_cons in *. rewrite modify_at_children_cons.
        destruct (String.eqb_spec nm' nm) as [->|Hne].
        -- rewrite E in Hq.
           rewrite find_child_modify_same by apply Hname.
           rewrite E. apply IHb. exact Hq.
        -- rewrite find_child_modify_other by (try apply Hname; exact Hne).
           destruct (find_child (children c) nm') as [y|]; [|discriminate].
           eauto.
Qed.

Lemma same_skeleton_name (c c' : TaxClade) : same_skeleton c c' -> name c' = name c.
Proof. intros H. inversion H; subst. auto. Qed.

Lemma index_refs_transfer (T T' : TaxTree) :
  same_skeleton (root T) (root T') ->
  all_clades T' = all_clades T -> taxa2clades T' = taxa2clades T ->
  index_refs_ok T -> index_refs_ok T'.
Proof.
  intros Hs Ha Ht [H1 H2]. split.
  - intros k p Hk. rewrite Ha in Hk. destruct (H1 k p Hk) as (cl & Hcl & Hn).
    destruct (skeleton_clade_at p _ _ _ Hs Hcl) as (cl' & Hcl' & Hsk).
    exists cl'. split; [exact Hcl'|]. rewrite (same_skeleton_name _ _ Hsk). exact Hn.
  - intros e p He. rewrite Ht in He. destruct (H2 e p He) as (cl & Hcl).
    destruct (skeleton_clade_at p _ _ _ Hs Hcl) as (cl' & Hcl' & _). eauto.
Qed.

Lemma init_level_refs T father lev T' father' :
  init_level T father lev = Ok (T', father') ->
  index_refs_ok T ->
  index_refs_ok T'
  /\ markers2lens T' = markers2lens T /\ markers2clades T' = markers2clades T.
Proof.
  unfold init_level. intros H [H1 H2].
  inv_bind H. destruct a as [fs fcl]. inv_bind H. rename a into c0.
  injection H as <- _.
  apply deref_clade_at in Ha.
  set (T1 := match find_child (children fcl) lev with
             | Some _ => T
             | None =>
                 mkTaxTree (modify_at (fun c => add_child c lev) father (root T))
                           (dict_set (all_clades T) lev (father ++ [lev]))
                           (markers2lens T) (markers2clades T)
                           (taxa2clades T) (markers2exts T)
             end).
  assert (HT1 : index_refs_ok T1
                /\ (exists cl, clade_at (root T1) father = Some cl)
                /\ markers2lens T1 = markers2lens T
                /\ markers2clades T1 = markers2clades T).
  { subst T1. destruct (find_child (children fcl) lev) eqn:E.
    - repeat split; eauto.
    - destruct (clade_at_add_child lev father (root T) fcl Ha E) as [Hnew Hold].
      simpl. repeat split.
      + intros k p Hk. simpl in Hk.
        destruct (string_dec k lev) as [->|Hne].
        * rewrite dict_get_set_same in Hk. injection Hk as <-.
          eexists. split; [exact Hnew | reflexivity].
        * rewrite dict_get_set_other in Hk by exact Hne.
          destruct (H1 k p Hk) as (cl & Hcl & Hn).
          destruct (Hold p cl Hcl) as (cl' & Hcl' & Hn').
          exists cl'. split; [exact Hcl' | congruence].
      + intros e p He. simpl in He. destruct (H2 e p He) as (cl & Hcl).
        destruct (Hold p cl Hcl) as (cl' & Hcl' & _). eauto.
      + destruct (Hold father fcl Ha) as (cl' & Hcl' & _). eauto. }
  destruct HT1 as ([H1' H2'] & Hfather & Hl & Hc).
  destruct (Ascii.eqb c0 "t"); [|repeat split; assumption].
  repeat split; simpl; try assumption.
  intros e p He.
  destruct (string_dec e (Str.drop 3 lev)) as [->|Hne].
  - rewrite dict_get_set_same in He. injection He as <-. exact Hfather.
  - rewrite dict_get_set_other in He by exact Hne. eapply H2'; eauto.
Qed.

Lemma init_lineage_refs (levels : list string) :
  forall T father T',
    init_lineage T father levels = Ok T' ->
    index_refs_ok T ->
    index_refs_ok T'
    /\ markers2lens T' = markers2lens T /\ markers2clades T' = markers2clades T.
Proof.
  induction levels as [|lev levels IH]; simpl; intros T father T' H Hr.
  - injection H as <-. auto.
  - inv_bind H. destruct a as [T1 father1].
    destruct (init_level_refs _ _ _ _ _ Ha Hr) as (Hr1 & Hl1 & Hc1).
    destruct (IH _ _ _ H Hr1) as (Hr2 & Hl2 & Hc2).
    repeat split; [apply Hr2 | apply Hr2 | congruence | congruence].
Qed.

Lemma init_taxonomy_refs (lines : list string) :
  forall T T',
    init_taxonomy T lines = Ok T' ->
    index_refs_ok T ->
    index_refs_ok T'
    /\ markers2lens T' = markers2lens T /\ markers2clades T' = markers2clades T.
Proof.
  induction lines as [|l lines IH]; simpl; intros T T' H Hr.
  - injection H as <-. auto.
  - inv_bind H.
    destruct (init_lineage_refs _ _ _ _ Ha Hr) as (Hr1 & Hl1 & Hc1).
    destruct (IH _ _ H Hr1) as (Hr2 & Hl2 & Hc2).
    repeat split; [apply Hr2 | apply Hr2 | congruence | congruence].
Qed.

Lemma dict_mem_set {V : Type} (d : dict V) (k k' : string) (v : V) :
  dict_mem (dict_set d k v) k' = String.eqb k k' || dict_mem d k'.
Proof.
  unfold dict_mem. destruct (String.eqb_spec k k') as [->|Hne].
  - rewrite dict_get_set_same. reflexivity.
  - rewrite dict_get_set_other by congruence. reflexivity.
Qed.

(** What a call of [add_reads] that returns has found. *)
Lemma add_reads_found T marker n iv ie ib ia s T' :
  add_reads T marker n iv ie ib ia = Ok (s, T') ->
  exists owner r,
    dict_get (markers2clades T) marker = Some owner
    /\ dict_get (all_clades T) owner = Some r.
Proof.
  unfold add_reads, dict_lookup. intros H.
  destruct (dict_get (markers2clades T) marker) as [owner|] eqn:Eo; [|discriminate].
  simpl in H.
  destruct (dict_get (all_clades T) owner) as [r|] eqn:Er; [|discriminate].
  exists owner, r. split; [reflexivity | exact Er].
Qed.

Lemma add_reads_skeleton T marker n iv ie ib ia s T' :
  add_reads T marker n iv ie ib ia = Ok (s, T') ->
  same_skeleton (root T) (root T') /\ same_indexes T T'.
Proof.
  intros H. apply (step_skeleton T T'). econstructor 1. exact H.
Qed.

Lemma init_markers_refs (items : list (string * Marker)) :
  forall T T', init_markers T items = Ok T' -> refs_ok T -> refs_ok T'.
Proof.
  induction items as [|[k p] items IH]; simpl; intros T T' H Hr.
  - injection H as <-. exact Hr.
  - destruct (_ || _); [eapply IH; eauto|].
    inv_bind H. destruct a as [s T2].
    eapply IH; [exact H|]. clear H IH.
    destruct Hr as (H1 & H2 & H3 & H4).
    destruct (add_reads_found _ _ _ _ _ _ _ _ _ Ha) as (owner & r & Ho & Hr).
    destruct (add_reads_skeleton _ _ _ _ _ _ _ _ _ Ha) as (Hsk & Ha1 & Ha2 & Ha3 & Ha4 & Ha5).
    simpl in *.
    assert (Hidx : index_refs_ok T2).
    { apply (index_refs_transfer T); try assumption. split; assumption. }
    destruct Hidx as [H1' H2'].
    repeat split; simpl.
    + exact H1'.
    + exact H2'.
    + intros m. rewrite Ha2, Ha3, !dict_mem_set, H3. reflexivity.
    + intros m ow Hm. rewrite Ha3 in Hm. rewrite Ha1.
      destruct (string_dec m k) as [->|Hne].
      * rewrite dict_get_set_same in Hm, Ho. injection Hm as <-. injection Ho as <-.
        unfold dict_mem. rewrite Hr. reflexivity.
      * rewrite dict_get_set_other in Hm by exact Hne. eapply H4; eauto.
Qed.

Lemma TaxTree_init_refs (mpa_pkl : MpaPkl) (T : TaxTree) :
  TaxTree_init mpa_pkl = Ok T -> refs_ok T.
Proof.
  unfold TaxTree_init. intros H. inv_bind H.
  assert (H0 : index_refs_ok (mkTaxTree (TaxClade_init "root") [] [] [] [] []))
    by (split; intros ? ? Hx; discriminate Hx).
  destruct (init_taxonomy_refs _ _ _ Ha H0) as ([H1 H2] & Hl & Hc).
  eapply init_markers_refs; [exact H|].
  repeat split; try assumption.
  - intros m. rewrite Hl, Hc. reflexivity.
  - intros m owner Hm. rewrite Hc in Hm. discriminate Hm.
Qed.

Lemma step_refs (T T' : TaxTree) : step T T' -> refs_ok T -> refs_ok T'.
Proof.
  intros Hs (H1 & H2 & H3 & H4).
  destruct (step_skeleton _ _ Hs) as (Hsk & Ha1 & Ha2 & Ha3 & Ha4 & Ha5).
  destruct (index_refs_transfer T T' Hsk Ha1 Ha4 (conj H1 H2)) as [H1' H2'].
  repeat split; try assumption.
  - intros m. rewrite Ha2, Ha3. apply H3.
  - intros m owner Hm. rewrite Ha3 in Hm. rewrite Ha1. eapply H4; eauto.
Qed.

Lemma steps_refs (T T' : TaxTree) : many step T T' -> refs_ok T -> refs_ok T'.
Proof. induction 1; intros Hr; [exact Hr | eapply step_refs; eauto]. Qed.

(** X2.  In a tree built by [TaxTree.__init__], and in every later state
    of it, no reference of the indexes dangles: [all_clades[k]] denotes a
    clade of the tree whose name is [k], [taxa2clades[e]] denotes a clade
    of the tree, the markers that have a length are the markers that have
    an owner, and every owner is a key of [all_clades]. *)
Theorem built_tree_has_no_dangling_reference (mpa_pkl : MpaPkl) (T0 T : TaxTree) :
  TaxTree_init mpa_pkl = Ok T0 -> many step T0 T -> refs_ok T.
Proof.
  intros Hinit Hsteps. eapply steps_refs; [exact Hsteps|].
  eapply TaxTree_init_refs; eauto.
Qed.

Lemma built_tree_has_no_dangling_reference_witness : refs_ok strains_tree1.
Proof.
  apply (built_tree_has_no_dangling_reference strains_db strains_tree0).
  - vm_compute. reflexivity.
  - eapply many_more; [eapply many_more; [apply many_none|]|]; apply step_assign.
Defined.

(** ** Recording reads on a built tree *)

Lemma add_reads_known T marker n iv ie ib ia :
  refs_ok T ->
  dict_mem (markers2lens T) marker = true ->
  exists s T', add_reads T marker n iv ie ib ia = Ok (s, T').
Proof.
  intros (H1 & _ & H3 & H4) Hm. rewrite H3 in Hm. unfold dict_mem in Hm.
  destruct (dict_get (markers2clades T) marker) as [owner|] eqn:Eo; [|discriminate].
  pose proof (H4 _ _ Eo) as Hown. unfold dict_mem in Hown.
  destruct (dict_get (all_clades T) owner) as [r|] eqn:Er; [|discriminate].
  destruct (H1 _ _ Er) as (cl & Hcl & _).
  destruct (clade_at_deref _ _ _ Hcl) as [fs Hd].
  unfold add_reads, dict_lookup. rewrite Eo. cbn [bind]. rewrite Er. cbn [bind].
  rewrite Hd. cbn [bind].
  destruct (_ && _); [do 2 eexists; reflexivity|].
  destruct (descend_unary fs cl). do 2 eexists. reflexivity.
Qed.

Lemma add_reads_unknown T marker n iv ie ib ia :
  refs_ok T ->
  dict_mem (markers2lens T) marker = false ->
  add_reads T marker n iv ie ib ia = Raise KeyError.
Proof.
  intros (_ & _ & H3 & _) Hm. rewrite H3 in Hm. unfold dict_mem in Hm.
  unfold add_reads, dict_lookup.
  destruct (dict_get (markers2clades T) marker); [discriminate | reflexivity].
Qed.

(** X3.  On a tree built by [TaxTree.__init__], in any later state,
    [add_reads] returns for exactly the markers of the database: for a
    marker that has a length it raises nothing, whatever the count and
    the flags, and for any other marker it raises [KeyError]. *)
Theorem add_reads_raises_only_for_unknown_markers
    (mpa_pkl : MpaPkl) (T0 T : TaxTree) (marker : string) (n : Z) (iv ie ib ia : bool) :
  TaxTree_init mpa_pkl = Ok T0 ->
  many step T0 T ->
  if dict_mem (markers2lens T) marker
  then exists s T', add_reads T marker n iv ie ib ia = Ok (s, T')
  else add_reads T marker n iv ie ib ia = Raise KeyError.
Proof.
  intros Hinit Hsteps.
  assert (Hr : refs_ok T)
    by (eapply steps_refs; [exact Hsteps | eapply TaxTree_init_refs; eauto]).
  destruct (dict_mem (markers2lens T) marker) eqn:E.
  - apply add_reads_known; assumption.
  - apply add_reads_unknown; assumption.
Qed.

Lemma add_reads_raises_only_for_unknown_markers_witness :
  (exists s T', add_reads strains_tree1 "x2" 3 false false false true = Ok (s, T'))
  /\ add_reads strains_tree1 "nomarker" 3 false false false true = Raise KeyError.
Proof.
  assert (Hi : TaxTree_init strains_db = Ok strains_tree0) by (vm_compute; reflexivity).
  assert (Hs : many step strains_tree0 strains_tree1).
  { eapply many_more; [eapply many_more; [apply many_none|]|]; apply step_assign. }
  split.
  - exact (add_reads_raises_only_for_unknown_markers strains_db strains_tree0
             strains_tree1 "x2" 3 false false false true Hi Hs).
  - exact (add_reads_raises_only_for_unknown_markers strains_db strains_tree0
             strains_tree1 "nomarker" 3 false false false true Hi Hs).
Defined.

Lemma many_first {A : Type} (R : A -> A -> Prop) (x y z : A) :
  R x y -> many R y z -> many R x z.
Proof.
  intros Hxy H. induction H as [|y z w _ IH Hzw].
  - eapply many_more; [apply many_none | exact Hxy].
  - eapply many_more; [apply IH; exact Hxy | exact Hzw].
Qed.

Lemma mutation_step (T T' : TaxTree) : mutation T T' -> step T T'.
Proof.
  intros [T0 marker n iv ie ib ia s T1 H | T0 p marker n].
  - econstructor 1. exact H.
  - constructor 2.
Qed.

Lemma record_reads_total (items : list (string * list string)) :
  forall T iv ie ib ia map_out,
    refs_ok T ->
    exists map_out' T',
      record_reads T iv ie ib ia items map_out = Ok (map_out', T')
      /\ many mutation T T'
      /\ exists added, map_out' = map_out ++ added.
Proof.
  induction items as [|[marker reads] items IH]; intros T iv ie ib ia map_out Hr; simpl.
  - exists map_out, T. split; [reflexivity|]. split; [apply many_none|].
    exists []. rewrite app_nil_r. reflexivity.
  - destruct (dict_mem (markers2lens T) marker) eqn:E; simpl.
    + destruct (add_reads_known T marker (Z.of_nat (List.length reads)) iv ie ib ia Hr E)
        as (s & T1 & Hadd).
      rewrite Hadd. cbn [bind].
      assert (Hm : mutation T T1) by (econstructor 1; exact Hadd).
      assert (Hr1 : refs_ok T1) by (eapply step_refs; [apply mutation_step|]; eauto).
      destruct (IH T1 iv ie ib ia
                  (if String.eqb s EmptyString then map_out
                   else map_out ++ map (fun r => Str.join tab [r; s]) reads) Hr1)
        as (mo & T' & Hrec & Hmany & added & Hadded).
      exists mo, T'. split; [exact Hrec|]. split; [eapply many_first; eauto|].
      destruct (String.eqb s EmptyString).
      * exists added. exact Hadded.
      * eexists. rewrite Hadded, <- app_assoc. reflexivity.
    + apply IH. exact Hr.
Qed.

(** X4.  On a tree built by [TaxTree.__init__], in any later state, the
    loop of the main program that records the reads raises nothing,
    whatever the markers of the mapping and the flags: markers that are
    not in the database are passed over, the others are recorded.  The
    tree it leaves differs from the one it found by assignments of marker
    counts only, and the lines for the reads map are added after those
    that were there. *)
Theorem record_reads_never_raises
    (mpa_pkl : MpaPkl) (T0 T : TaxTree) (iv ie ib ia : bool)
    (items : list (string * list string)) (map_out : list string) :
  TaxTree_init mpa_pkl = Ok T0 ->
  many step T0 T ->
  exists map_out' T',
    record_reads T iv ie ib ia items map_out = Ok (map_out', T')
    /\ many mutation T T'
    /\ exists added, map_out' = map_out ++ added.
Proof.
  intros Hinit Hsteps. apply record_reads_total.
  eapply steps_refs; [exact Hsteps | eapply TaxTree_init_refs; eauto].
Qed.

Lemma record_reads_never_raises_witness :
  exists map_out' T',
    record_reads strains_tree0 true false false false
      [("x1"%string, reads 2); ("nomarker"%string, reads 3)] [] = Ok (map_out', T')
    /\ many mutation strains_tree0 T'
    /\ exists added, map_out' = [] ++ added.
Proof.
  apply (record_reads_never_raises strains_db strains_tree0 strains_tree0).
  - vm_compute. reflexivity.
  - apply many_none.
Defined.

(** ** Full names *)

Lemma deref_full_name (T : TaxTree) (p : ref) (fs : list TaxClade) (cl : TaxClade) :
  deref T p = Ok (fs, cl) -> get_full_name fs cl = Str.join "|" p.
Proof.
  unfold deref. destruct (resolve [] (root T) p) as [[fs' cl']|] eqn:E; [|discriminate].
  intros H. injection H as <- <-.
  apply resolve_lineage in E. unfold get_full_name.
  change (fold_left (fun acc c => name c :: acc) fs' [name cl']) with (lineage fs' cl').
  rewrite E. reflexivity.
Qed.

(** X5.  The full name of the clade that a reference denotes is the
    reference joined with the separator of the ranks, whatever the name
    of the root: [get_full_name] leaves the root out. *)
Theorem get_full_name_joins_reference
    (T : TaxTree) (p : ref) (fs : list TaxClade) (cl : TaxClade) :
  deref T p = Ok (fs, cl) ->
  get_full_name fs cl = Str.join "|" p /\ ref_of fs cl = p.
Proof.
  intros H. split; [eapply deref_full_name; exact H|].
  unfold deref in H.
  destruct (resolve [] (root T) p) as [x|] eqn:E; [|discriminate].
  injection H as ->. eapply resolve_ref_of. exact E.
Qed.

Lemma get_full_name_joins_reference_witness :
  exists fs cl,
    deref strains_tree species_S = Ok (fs, cl)
    /\ get_full_name fs cl = Str.join "|" species_S /\ ref_of fs cl = species_S.
Proof.
  eexists. eexists. split; [vm_compute; reflexivity|].
  apply (get_full_name_joins_reference strains_tree). vm_compute. reflexivity.
Defined.

Lemma split_nonempty (c : ascii) (s : string) : Str.split c s <> [].
Proof.
  destruct s as [|c' s]; simpl; [discriminate|].
  destruct (Ascii.eqb c' c); [discriminate|].
  destruct (Str.split c s); discriminate.
Qed.

Lemma join_split (c : ascii) (s : string) :
  Str.join (String c EmptyString) (Str.split c s) = s.
Proof.
  unfold Str.join. induction s as [|c' s IH]; [reflexivity|].
  simpl. destruct (Ascii.eqb_spec c' c) as [->|Hne].
  - pose proof (split_nonempty c s) as Hn.
    destruct (Str.split c s) as [|w ws]; [contradiction|].
    simpl in *. rewrite IH. reflexivity.
  - destruct (Str.split c s) as [|w ws] eqn:E.
    + exfalso. eapply split_nonempty; eauto.
    + simpl in *. destruct ws; simpl in *; rewrite <- IH; reflexivity.
Qed.

Lemma keeps_paths_refl (c : TaxClade) : keeps_paths c c.
Proof. intros q cq H. eauto. Qed.

Lemma keeps_paths_trans (c1 c2 c3 : TaxClade) :
  keeps_paths c1 c2 -> keeps_paths c2 c3 -> keeps_paths c1 c3.
Proof.
  intros H12 H23 q cq H. destruct (H12 q cq H) as (cq2 & H2 & Hn2).
  destruct (H23 q cq2 H2) as (cq3 & H3 & Hn3). exists cq3. split; [exact H3 | congruence].
Qed.

Lemma skeleton_keeps_paths (c c' : TaxClade) : same_skeleton c c' -> keeps_paths c c'.
Proof.
  intros Hs q cq H. destruct (skeleton_clade_at q _ _ _ Hs H) as (cq' & H' & Hsk).
  exists cq'. split; [exact H' | apply same_skeleton_name; exact Hsk].
Qed.

Lemma clade_at_snoc (c : TaxClade) (p : ref) (nm : string) (cl x : TaxClade) :
  clade_at c p = Some cl -> find_child (children cl) nm = Some x ->
  clade_at c (p ++ [nm]) = Some x.
Proof.
  unfold clade_at. intros H Hx.
  destruct (resolve [] c p) as [[fs cl']|] eqn:E; [|discriminate].
  injection H as ->.
  rewrite (resolve_app p [nm] _ _ _ _ E). simpl. rewrite Hx. reflexivity.
Qed.

Lemma init_level_paths T father lev T' father' :
  init_level T father lev = Ok (T', father') ->
  father' = (father ++ [lev])%list
  /\ (exists cl, clade_at (root T') father' = Some cl)
  /\ keeps_paths (root T) (root T').
Proof.
  unfold init_level. intros H.
  inv_bind H. destruct a as [fs fcl]. inv_bind H. rename a into c0.
  injection H as <- <-.
  apply deref_clade_at in Ha. split; [reflexivity|].
  assert (Hroot : forall T1 : TaxTree,
             root (if Ascii.eqb c0 "t"
                   then mkTaxTree (root T1) (all_clades T1) (markers2lens T1)
                          (markers2clades T1)
                          (dict_set (taxa2clades T1) (Str.drop 3 lev) father)
                          (markers2exts T1)
                   else T1) = root T1)
    by (intros; destruct (Ascii.eqb c0 "t"); reflexivity).
  rewrite Hroot.
  destruct (find_child (children fcl) lev) as [x|] eqn:E.
  - split; [|apply keeps_paths_refl].
    exists x. eapply clade_at_snoc; eauto.
  - destruct (clade_at_add_child lev father (root T) fcl Ha E) as [Hnew Hold].
    simpl. split; [eauto | exact Hold].
Qed.

Lemma init_lineage_paths (levels : list string) :
  forall T father T',
    init_lineage T father levels = Ok T' ->
    (exists cl, clade_at (root T) father = Some cl) ->
    (exists cl, clade_at (root T') (father ++ levels) = Some cl)
    /\ keeps_paths (root T) (root T').
Proof.
  induction levels as [|lev levels IH]; simpl; intros T father T' H Hf.
  - injection H as <-. rewrite app_nil_r. split; [exact Hf | apply keeps_paths_refl].
  - inv_bind H. destruct a as [T1 father1].
    destruct (init_level_paths _ _ _ _ _ Ha) as (-> & Hcl & Hk).
    destruct (IH _ _ _ H Hcl) as (Hcl' & Hk').
    rewrite <- app_assoc in Hcl'. split; [exact Hcl'|].
    eapply keeps_paths_trans; eauto.
Qed.

Lemma init_taxonomy_paths (lines : list string) :
  forall T T',
    init_taxonomy T lines = Ok T' ->
    keeps_paths (root T) (root T')
    /\ forall l, In l lines ->
                 exists cl, clade_at (root T') (Str.split "|" (Str.strip l)) = Some cl.
Proof.
  induction lines as [|l0 lines IH]; simpl; intros T T' H.
  - injection H as <-. split; [apply keeps_paths_refl | intros l []].
  - inv_bind H.
    destruct (init_lineage_paths _ _ _ _ Ha) as (Hcl & Hk).
    { exists (root T). apply clade_at_nil. }
    destruct (IH _ _ H) as (Hk' & Hall).
    split; [eapply keeps_paths_trans; eauto|].
    intros l [<-|Hin]; [|apply Hall; exact Hin].
    destruct Hcl as [cl Hcl]. simpl in Hcl.
    destruct (Hk' _ _ Hcl) as (cl' & Hcl' & _). eauto.
Qed.

Lemma init_markers_skeleton (items : list (string * Marker)) :
  forall T T', init_markers T items = Ok T' -> same_skeleton (root T) (root T').
Proof.
  induction items as [|[k p] items IH]; simpl; intros T T' H.
  - injection H as <-. apply same_skeleton_refl.
  - destruct (_ || _); [eapply IH; eauto|].
    inv_bind H. destruct a as [s T2].
    destruct (add_reads_skeleton _ _ _ _ _ _ _ _ _ Ha) as [Hsk _].
    eapply same_skeleton_trans; [exact Hsk|]. apply (IH _ _ H).
Qed.

Lemma steps_skeleton (T T' : TaxTree) :
  many step T T' -> same_skeleton (root T) (root T').
Proof.
  induction 1 as [|T1 T2 T3 _ IH Hs]; [apply same_skeleton_refl|].
  eapply same_skeleton_trans; [exact IH | apply (step_skeleton _ _ Hs)].
Qed.

(** X6.  Every line of the taxonomy names a clade of the tree that
    [TaxTree.__init__] builds: the line, stripped and split at the
    separator of the ranks, is a reference that denotes a clade, in the
    tree as built and in every later state of it, and the full name of
    that clade is the stripped line again. *)
Theorem taxonomy_lines_are_full_names
    (mpa_pkl : MpaPkl) (T0 T : TaxTree) (l : string) :
  TaxTree_init mpa_pkl = Ok T0 ->
  many step T0 T ->
  In l (taxonomy mpa_pkl) ->
  exists fs cl,
    deref T (Str.split "|" (Str.strip l)) = Ok (fs, cl)
    /\ get_full_name fs cl = Str.strip l.
Proof.
  intros Hinit Hsteps Hin. unfold TaxTree_init in Hinit. inv_bind Hinit.
  destruct (init_taxonomy_paths _ _ _ Ha) as (_ & Hall).
  destruct (Hall l Hin) as (cl1 & Hcl1).
  apply init_markers_skeleton in Hinit. apply steps_skeleton in Hsteps.
  destruct (skeleton_keeps_paths _ _ Hinit _ _ Hcl1) as (cl2 & Hcl2 & _).
  destruct (skeleton_keeps_paths _ _ Hsteps _ _ Hcl2) as (cl3 & Hcl3 & _).
  destruct (clade_at_deref _ _ _ Hcl3) as [fs Hd].
  exists fs, cl3. split; [exact Hd|].
  rewrite (deref_full_name _ _ _ _ Hd). apply (join_split "|").
Qed.

Lemma taxonomy_lines_are_full_names_witness :
  exists fs cl,
    deref strains_tree1 (Str.split "|" (Str.strip "k__K|p__P|c__C|o__O|f__F|g__G|s__S|t__X"))
    = Ok (fs, cl)
    /\ get_full_name fs cl = Str.strip "k__K|p__P|c__C|o__O|f__F|g__G|s__S|t__X".
Proof.
  apply (taxonomy_lines_are_full_names strains_db strains_tree0).
  - vm_compute. reflexivity.
  - eapply many_more; [eapply many_more; [apply many_none|]|]; apply step_assign.
  - vm_compute. auto.
Defined.

(** ** The tree as built *)

Section InitThroughout.

Variable P : TaxClade -> Prop.
Hypothesis P_children : forall c cs, P c -> P (set_children c cs).
Hypothesis P_init : forall nm, P (TaxClade_init nm).

Lemma add_child_throughout (lev : string) (cl : TaxClade) :
  throughout P cl -> throughout P (add_child cl lev).
Proof.
  intros H. apply throughout_inv in H. destruct H as [Hc Hcs].
  constructor; [apply P_children; exact Hc|].
  rewrite add_child_children. apply Forall_put_child; [exact Hcs|].
  constructor; [apply P_init | constructor].
Qed.

Lemma init_level_throughout T father lev T' father' :
  init_level T father lev = Ok (T', father') ->
  throughout P (root T) -> throughout P (root T').
Proof.
  unfold init_level. intros H Hth.
  inv_bind H. destruct a as [fs fcl]. inv_bind H.
  injection H as <- _.
  assert (H1 : throughout P
                 (root match find_child (children fcl) lev with
                       | Some _ => T
                       | None =>
                           mkTaxTree (modify_at (fun c => add_child c lev) father (root T))
                                     (dict_set (all_clades T) lev (father ++ [lev]))
                                     (markers2lens T) (markers2clades T)
                                     (taxa2clades T) (markers2exts T)
                       end)).
  { destruct (find_child (children fcl) lev); [exact Hth|]. simpl.
    apply throughout_modify_at; [intros c cs Hc _; apply P_children; exact Hc | exact Hth |].
    intros cl Hcl. apply add_child_throughout.
    eapply throughout_clade_at; eauto. }
  destruct (Ascii.eqb _ _); exact H1.
Qed.

Lemma init_lineage_throughout (levels : list string) :
  forall T father T',
    init_lineage T father levels = Ok T' ->
    throughout P (root T) -> throughout P (root T').
Proof.
  induction levels as [|lev levels IH]; simpl; intros T father T' H Hth.
  - injection H as <-. exact Hth.
  - inv_bind H. destruct a as [T1 father1].
    eapply IH; [exact H|]. eapply init_level_throughout; eauto.
Qed.

Lemma init_taxonomy_throughout (lines : list string) :
  forall T T',
    init_taxonomy T lines = Ok T' ->
    throughout P (root T) -> throughout P (root T').
Proof.
  induction lines as [|l lines IH]; simpl; intros T T' H Hth.
  - injection H as <-. exact Hth.
  - inv_bind H. eapply IH; [exact H|]. eapply init_lineage_throughout; eauto.
Qed.

(** Assigning a count keeps [P] throughout when it keeps [P] at the
    clade it is assigned in. *)
Lemma set_count_throughout T p marker n :
  (forall c, P c -> P (set_markers2nreads c (dict_set (markers2nreads c) marker n))) ->
  throughout P (root T) ->
  throughout P (root (set_markers2nreads_at T p marker n)).
Proof.
  intros Hset Hth. unfold set_markers2nreads_at.
  destruct T as [r ac ml mc tc me]. simpl in *.
  apply throughout_modify_at; [intros c cs Hc _; apply P_children; exact Hc | exact Hth |].
  intros cl Hcl. pose proof (throughout_clade_at P p _ _ Hth Hcl) as H.
  apply throughout_inv in H. destruct H as [Hc Hcs].
  constructor; [apply Hset; exact Hc | exact Hcs].
Qed.

(** [compute_abundance] keeps [P] throughout when [P] looks at the name,
    the counts and the flag [uncl] only. *)
Hypothesis P_shape :
  forall c c', name c = name c' -> markers2nreads c = markers2nreads c' ->
               uncl c = uncl c' -> P c -> P c'.

Lemma same_shape_throughout :
  forall c c', same_shape c c' -> throughout P c -> throughout P c'.
Proof.
  induction c as [c IH] using TaxClade_forall_ind.
  intros c' Hs Hth. inversion Hs as [? ? Hn Hm Hu Hcs]; subst.
  apply throughout_inv in Hth. destruct Hth as [Hc Hall].
  constructor; [eapply P_shape; eauto|].
  clear Hc Hs Hn Hm Hu. induction Hcs as [|x y l l' Hxy _ IHl]; constructor.
  - apply (Forall_inv IH); [exact Hxy | exact (Forall_inv Hall)].
  - apply IHl; [exact (Forall_inv_tail IH) | exact (Forall_inv_tail Hall)].
Qed.

Lemma compute_abundance_at_throughout T cfg p v T' :
  compute_abundance_at T cfg p = Ok (v, T') ->
  throughout P (root T) -> throughout P (root T').
Proof.
  unfold compute_abundance_at. intros H Hth.
  inv_bind H. destruct a as [fs cl]. inv_bind H. destruct a as [v' cl'].
  injection H as _ <-.
  destruct T as [r ac ml mc tc me]. simpl in *.
  apply throughout_modify_at; [intros c cs Hc _; apply P_children; exact Hc | exact Hth |].
  intros cl0 Hcl0.
  pose proof (deref_clade_at _ _ _ _ Ha) as Hcl. simpl in Hcl.
  rewrite Hcl in Hcl0. injection Hcl0 as <-.
  eapply same_shape_throughout; [eapply compute_abundance_shape; eauto|].
  eapply throughout_clade_at; eauto.
Qed.

End InitThroughout.

Lemma blank_set_children (c : TaxClade) (cs : list TaxClade) :
  blank c -> blank (set_children c cs).
Proof. intros H. exact H. Qed.

Lemma blank_init (nm : string) : blank (TaxClade_init nm).
Proof. repeat split. constructor. Qed.

Lemma Forall_dict_set {V : Type} (P : string * V -> Prop) (d : dict V) (k : string) (v : V) :
  (forall k', P (k', v)) -> Forall P d -> Forall P (dict_set d k v).
Proof.
  intros Hv. induction 1 as [|[k' v'] d Hx Hd IH]; simpl.
  - repeat constructor. apply Hv.
  - destruct (String.eqb k' k); constructor; auto.
Qed.

Lemma init_markers_blank (items : list (string * Marker)) :
  forall T T',
    init_markers T items = Ok T' ->
    throughout blank (root T) -> throughout blank (root T').
Proof.
  induction items as [|[k p] items IH]; simpl; intros T T' H Hth.
  - injection H as <-. exact Hth.
  - destruct (_ || _); [eapply IH; eauto|].
    inv_bind H. destruct a as [s T2].
    eapply IH; [exact H|]. simpl.
    apply add_reads_tree in Ha. destruct Ha as [-> | [q ->]]; [exact Hth|].
    apply set_count_throughout; [apply blank_set_children | | exact Hth].
    intros c (Hz & Hrest). split; [|exact Hrest].
    simpl. apply Forall_dict_set; [reflexivity | exact Hz].
Qed.

(** X7.  The tree that [TaxTree.__init__] builds holds no read and no
    result: in every clade every marker count is 0, [abundance] is
    [None], [uncl_abundance] is 0 and the flags [subcl_uncl] and [uncl]
    are [False]. *)
Theorem built_tree_is_blank (mpa_pkl : MpaPkl) (T : TaxTree) :
  TaxTree_init mpa_pkl = Ok T -> throughout blank (root T).
Proof.
  unfold TaxTree_init. intros H. inv_bind H.
  eapply init_markers_blank; [exact H|].
  eapply (init_taxonomy_throughout blank blank_set_children blank_init); [exact Ha|].
  simpl. constructor; [apply blank_init | constructor].
Qed.

Lemma built_tree_is_blank_witness : throughout blank (root strains_tree0).
Proof.
  apply (built_tree_is_blank strains_db). vm_compute. reflexivity.
Defined.

(** ** The markers that are counted *)

Lemma counts_known_set_children (lens : dict Z) (c : TaxClade) (cs : list TaxClade) :
  counts_known lens c -> counts_known lens (set_children c cs).
Proof. intros H. exact H. Qed.

Lemma counts_known_init (lens : dict Z) (nm : string) :
  counts_known lens (TaxClade_init nm).
Proof. intros m H. discriminate H. Qed.

Lemma counts_known_shape (lens : dict Z) (c c' : TaxClade) :
  name c = name c' -> markers2nreads c = markers2nreads c' -> uncl c = uncl c' ->
  counts_known lens c -> counts_known lens c'.
Proof. intros _ Hm _ H m. rewrite <- Hm. apply H. Qed.

Lemma counts_known_set (lens : dict Z) (marker : string) (n : Z) (c : TaxClade) :
  dict_mem lens marker = true ->
  counts_known lens c ->
  counts_known lens (set_markers2nreads c (dict_set (markers2nreads c) marker n)).
Proof.
  intros Hk H m. simpl. rewrite dict_mem_set.
  destruct (String.eqb_spec marker m) as [<-|_]; [intros _; exact Hk | apply H].
Qed.

Lemma add_reads_counts_known T marker n iv ie ib ia s T' :
  add_reads T marker n iv ie ib ia = Ok (s, T') ->
  (forall m, dict_mem (markers2lens T) m = dict_mem (markers2clades T) m) ->
  throughout (counts_known (markers2lens T)) (root T) ->
  throughout (counts_known (markers2lens T')) (root T').
Proof.
  intros H H3 Hth.
  destruct (add_reads_found _ _ _ _ _ _ _ _ _ H) as (owner & r & Ho & _).
  destruct (add_reads_skeleton _ _ _ _ _ _ _ _ _ H) as (_ & _ & -> & _).
  apply add_reads_tree in H. destruct H as [-> | [q ->]]; [exact Hth|].
  apply set_count_throughout; [apply counts_known_set_children | | exact Hth].
  intros c Hc. apply counts_known_set; [|exact Hc].
  rewrite H3. unfold dict_mem. rewrite Ho. reflexivity.
Qed.

Lemma init_markers_counts_known (items : list (string * Marker)) :
  forall T T',
    init_markers T items = Ok T' ->
    (forall m, dict_mem (markers2lens T) m = dict_mem (markers2clades T) m) ->
    throughout (counts_known (markers2lens T)) (root T) ->
    throughout (counts_known (markers2lens T')) (root T')
    /\ forall k, existsb (String.eqb k) markers_to_exclude = true ->
                 dict_mem (markers2lens T) k = false ->
                 dict_mem (markers2lens T') k = false.
Proof.
  induction items as [|[k p] items IH]; intros T T' H H3 Hth; cbn [init_markers] in H.
  - injection H as <-. auto.
  - destruct (existsb (String.eqb k) markers_to_exclude) eqn:Ek; [eapply IH; eauto|].
    inv_bind H. destruct a as [s T2].
    pose proof (add_reads_skeleton _ _ _ _ _ _ _ _ _ Ha) as (_ & _ & Hl & Hc & _).
    simpl in Hl, Hc.
    destruct (IH _ _ H) as [IH1 IH2]; simpl.
    + intros m. rewrite Hl, Hc, !dict_mem_set, H3. reflexivity.
    + eapply add_reads_counts_known in Ha; [exact Ha | |]; simpl.
      * intros m. rewrite !dict_mem_set, H3. reflexivity.
      * eapply throughout_impl; [|exact Hth].
        intros c Hc0 m Hm. rewrite dict_mem_set. rewrite (Hc0 m Hm). apply orb_true_r.
    + split; [exact IH1|].
      intros k' Hex Hk'. apply IH2; [exact Hex|]. simpl.
      rewrite Hl, dict_mem_set, Hk'.
      destruct (String.eqb_spec k k') as [->|_]; [|reflexivity].
      simpl in Ek, Hex. congruence.
Qed.

Lemma TaxTree_init_counts_known (mpa_pkl : MpaPkl) (T : TaxTree) :
  TaxTree_init mpa_pkl = Ok T ->
  throughout (counts_known (markers2lens T)) (root T)
  /\ forall k, existsb (String.eqb k) markers_to_exclude = true ->
               dict_mem (markers2lens T) k = false.
Proof.
  unfold TaxTree_init. intros H. inv_bind H.
  assert (H0 : index_refs_ok (mkTaxTree (TaxClade_init "root") [] [] [] [] []))
    by (split; intros ? ? Hx; discriminate Hx).
  destruct (init_taxonomy_refs _ _ _ Ha H0) as (_ & Hl & Hc). simpl in Hl, Hc.
  destruct (init_markers_counts_known _ _ _ H) as [H1 H2].
  - intros m. rewrite Hl, Hc. reflexivity.
  - eapply (init_taxonomy_throughout _ (counts_known_set_children _)
              (counts_known_init _)); [exact Ha|].
    simpl. constructor; [apply counts_known_init | constructor].
  - split; [exact H1|]. intros k Hk. apply H2; [exact Hk|]. rewrite Hl. reflexivity.
Qed.

Lemma run_step (T T' : TaxTree) : run T T' -> step T T'.
Proof.
  intros [T0 marker n iv ie ib ia s T1 _ H | T0 cfg p v T1 H].
  - econstructor 1. exact H.
  - econstructor 3. exact H.
Qed.

Lemma runs_steps (T T' : TaxTree) : many run T T' -> many step T T'.
Proof.
  induction 1; [apply many_none | eapply many_more; eauto using run_step].
Qed.

Lemma in_range_run (T T' : TaxTree) : run_in_range T T' -> run T T'.
Proof.
  intros [T0 marker n iv ie ib ia s T1 Hn H | T0 cfg p v T1 _ _ H].
  - eapply run_add_reads; eauto.
  - eapply run_compute; eauto.
Qed.

Lemma in_range_runs (T T' : TaxTree) : many run_in_range T T' -> many run T T'.
Proof.
  induction 1; [apply many_none | eapply many_more; eauto using in_range_run].
Qed.

(** Reads are recorded on the tree of [strains_db] with [add_reads], and
    the abundance of the species is computed. *)
Lemma strains_run : many run_in_range strains_tree0 strains_tree2.
Proof.
  assert (Hc : exists v,
             compute_abundance_at strains_reads_tree short_config species_S
             = Ok (v, strains_tree2)) by (vm_compute; eexists; reflexivity).
  destruct Hc as [v Hc].
  eapply many_more;
    [|eapply (in_range_compute _ short_config); [| |exact Hc];
      vm_compute; [discriminate | reflexivity]].
  unfold strains_reads_tree, strains_tree1.
  assert (Hadd : forall T p m n,
             (0 <= n)%Z ->
             (exists s, add_reads T m n false false false false
                        = Ok (s, set_markers2nreads_at T p m n)) ->
             run_in_range T (set_markers2nreads_at T p m n)).
  { intros T p m n Hn [s Hs]. eapply in_range_add_reads; eauto. }
  do 5 (eapply many_more;
        [|apply Hadd; [lia | vm_compute; eexists; reflexivity]]).
  apply many_none.
Qed.

Lemma run_counts_known (T T' : TaxTree) :
  run T T' -> refs_ok T ->
  throughout (counts_known (markers2lens T)) (root T) ->
  throughout (counts_known (markers2lens T')) (root T').
Proof.
  intros Hr (_ & _ & H3 & _) Hth.
  destruct Hr as [T0 marker n iv ie ib ia s T1 _ H | T0 cfg p v T1 H].
  - eapply add_reads_counts_known; eauto.
  - assert (Hl : markers2lens T1 = markers2lens T0).
    { destruct (step_skeleton T0 T1) as (_ & _ & Hl & _); [econstructor 3; exact H|].
      exact Hl. }
    rewrite Hl.
    eapply (compute_abundance_at_throughout _ (counts_known_set_children _)
              (counts_known_shape _)); eauto.
Qed.

Lemma runs_counts_known (mpa_pkl : MpaPkl) (T0 T : TaxTree) :
  TaxTree_init mpa_pkl = Ok T0 -> many run T0 T ->
  refs_ok T /\ throughout (counts_known (markers2lens T)) (root T)
  /\ markers2lens T = markers2lens T0.
Proof.
  intros Hinit Hruns. induction Hruns as [T0|T0 T1 T2 Hruns IH Hr].
  - split; [eapply TaxTree_init_refs; eauto|].
    split; [apply (TaxTree_init_counts_known _ _ Hinit) | reflexivity].
  - destruct (IH Hinit) as (Hrefs & Hth & Hl).
    split; [eapply step_refs; [apply run_step|]; eauto|].
    split; [eapply run_counts_known; eauto|].
    destruct (step_skeleton T1 T2 (run_step _ _ Hr)) as (_ & _ & Hl' & _). congruence.
Qed.

(** X8.  In a tree built by [TaxTree.__init__], while reads are recorded
    with [add_reads] and abundances are computed, every marker that any
    clade counts in its [markers2nreads] has a length in [markers2lens]:
    the lookups [self.markers2lens[m]] of [compute_abundance] and of
    [get_normalized_counts] find their key. *)
Theorem counted_markers_have_a_length (mpa_pkl : MpaPkl) (T0 T : TaxTree) :
  TaxTree_init mpa_pkl = Ok T0 ->
  many run T0 T ->
  forall p cl,
    clade_at (root T) p = Some cl ->
    exists lens,
      mapM (fun mn => l <- dict_lookup (markers2lens T) (fst mn) ;; Ok (l, snd mn))
           (markers2nreads cl) = Ok lens.
Proof.
  intros Hinit Hruns p cl Hcl.
  destruct (runs_counts_known _ _ _ Hinit Hruns) as (_ & Hth & _).
  pose proof (throughout_clade_at _ p _ _ Hth Hcl) as H.
  apply throughout_inv in H. destruct H as [Hc _].
  unfold counts_known in Hc. revert Hc.
  generalize (markers2lens T). intros lens.
  induction (markers2nreads cl) as [|[m n] d IH]; intros Hc.
  - exists []. reflexivity.
  - assert (Hm : dict_mem lens m = true).
    { apply Hc. unfold dict_mem. simpl. rewrite String.eqb_refl. reflexivity. }
    destruct IH as [ls Hls].
    { intros m' Hm'. apply Hc. unfold dict_mem in *. simpl.
      destruct (String.eqb m m'); [reflexivity | exact Hm']. }
    unfold dict_mem in Hm. cbn [mapM bind fst snd]. unfold dict_lookup at 1.
    destruct (dict_get lens m) as [l|]; [|discriminate].
    cbn [bind]. rewrite Hls. cbn [bind]. eexists. reflexivity.
Qed.

Lemma counted_markers_have_a_length_witness :
  exists cl lens,
    clade_at (root strains_tree0) strain_X = Some cl
    /\ mapM (fun mn => l <- dict_lookup (markers2lens strains_tree0) (fst mn) ;;
                       Ok (l, snd mn))
            (markers2nreads cl) = Ok lens.
Proof.
  assert (Hc : exists cl, clade_at (root strains_tree0) strain_X = Some cl)
    by (vm_compute; eexists; reflexivity).
  destruct Hc as [cl Hc]. exists cl.
  assert (Hi : TaxTree_init strains_db = Ok strains_tree0) by (vm_compute; reflexivity).
  destruct (counted_markers_have_a_length strains_db strains_tree0 strains_tree0
              Hi (many_none _ _) strain_X cl Hc) as [lens Hl].
  exists lens. split; [exact Hc | exact Hl].
Defined.

(** X9.  A marker of [markers_to_exclude] never enters the tree: after
    [TaxTree.__init__], while reads are recorded and abundances are
    computed, it has no length in [markers2lens], no clade counts it, and
    [add_reads] raises [KeyError] for it. *)
Theorem excluded_markers_are_never_counted
    (mpa_pkl : MpaPkl) (T0 T : TaxTree) (k : string) :
  TaxTree_init mpa_pkl = Ok T0 ->
  many run T0 T ->
  In k markers_to_exclude ->
  dict_mem (markers2lens T) k = false
  /\ throughout (fun c => dict_mem (markers2nreads c) k = false) (root T)
  /\ forall n iv ie ib ia, add_reads T k n iv ie ib ia = Raise KeyError.
Proof.
  intros Hinit Hruns Hin.
  destruct (runs_counts_known _ _ _ Hinit Hruns) as (Hrefs & Hth & Hl).
  assert (Hk : dict_mem (markers2lens T) k = false).
  { rewrite Hl. apply (TaxTree_init_counts_known _ _ Hinit).
    apply existsb_exists. exists k. split; [exact Hin | apply String.eqb_refl]. }
  split; [exact Hk|]. split.
  - eapply throughout_impl; [|exact Hth].
    intros c Hc. destruct (dict_mem (markers2nreads c) k) eqn:E; [|reflexivity].
    rewrite (Hc k E) in Hk. discriminate Hk.
  - intros. apply add_reads_unknown; assumption.
Qed.

Lemma excluded_markers_are_never_counted_witness :
  dict_mem (markers2lens (tree_of (TaxTree_init
     (mkMpaPkl (taxonomy strains_db)
               (("NC_001782.1"%string, mkMarker 100 "s__S" []) :: markers strains_db)))))
     "NC_001782.1" = false
  /\ throughout (fun c => dict_mem (markers2nreads c) "NC_001782.1" = false)
       (root (tree_of (TaxTree_init
          (mkMpaPkl (taxonomy strains_db)
                    (("NC_001782.1"%string, mkMarker 100 "s__S" []) :: markers strains_db)))))
  /\ forall n iv ie ib ia,
       add_reads (tree_of (TaxTree_init
          (mkMpaPkl (taxonomy strains_db)
                    (("NC_001782.1"%string, mkMarker 100 "s__S" []) :: markers strains_db))))
         "NC_001782.1" n iv ie ib ia = Raise KeyError.
Proof.
  apply (excluded_markers_are_never_counted
           (mkMpaPkl (taxonomy strains_db)
                     (("NC_001782.1"%string, mkMarker 100 "s__S" []) :: markers strains_db))
           (tree_of (TaxTree_init
              (mkMpaPkl (taxonomy strains_db)
                        (("NC_001782.1"%string, mkMarker 100 "s__S" []) :: markers strains_db))))).
  - vm_compute. reflexivity.
  - apply many_none.
  - simpl. auto.
Defined.

(** ** The unclassified share *)

Section SumInvariant.

Variable P : TaxClade -> Prop.
Hypothesis P_children :
  forall c cs,
    List.length cs = List.length (children c) ->
    (forall s, children_sum (children c) = Some s -> children_sum cs = Some s) ->
    P c -> P (set_children c cs).

(** A property that looks at the children through their number and the
    sum of their abundances survives an update that keeps the abundances
    that are there. *)
Lemma sum_invariant_modify_at (f : TaxClade -> TaxClade) (p : ref) :
  forall c,
    throughout P c ->
    (forall cl, clade_at c p = Some cl ->
                throughout P (f cl)
                /\ forall a, abundance cl = Some a -> abundance (f cl) = Some a) ->
    throughout P (modify_at f p c)
    /\ forall a, abundance c = Some a -> abundance (modify_at f p c) = Some a.
Proof.
  induction p as [|nm p IH]; intros c Hc Hf.
  - simpl. apply Hf. reflexivity.
  - simpl. split; [|auto].
    apply throughout_inv in Hc. destruct Hc as [Hc Hcs].
    assert (Hsub : forall x, find_child (children c) nm = Some x ->
                     throughout P (modify_at f p x)
                     /\ forall a, abundance x = Some a ->
                                  abundance (modify_at f p x) = Some a).
    { intros x Hx. apply IH.
      - apply find_child_name in Hx. destruct Hx as [_ Hin].
        rewrite Forall_forall in Hcs. auto.
      - intros cl Hcl. apply Hf. rewrite clade_at_cons, Hx. exact Hcl. }
    constructor.
    + apply P_children; [apply modify_child_length | | exact Hc].
      intros s Hs. apply children_sum_modify_child; [exact Hs|].
      intros x a' Hx Hax. apply (Hsub x Hx). exact Hax.
    + simpl. apply Forall_modify_child; [exact Hcs|].
      intros x Hx. apply (Hsub x Hx).
Qed.

Hypothesis P_counts : forall c d, P c -> P (set_markers2nreads c d).

Lemma sum_invariant_set_count T p marker n :
  throughout P (root T) ->
  throughout P (root (set_markers2nreads_at T p marker n)).
Proof.
  intros Hth. unfold set_markers2nreads_at.
  destruct T as [r ac ml mc tc me]. simpl in *.
  apply sum_invariant_modify_at; [exact Hth|].
  intros cl Hcl. split; [|auto].
  pose proof (throughout_clade_at _ p _ _ Hth Hcl) as H.
  apply throughout_inv in H. destruct H as [Hc Hcs].
  constructor; [apply P_counts; exact Hc | exact Hcs].
Qed.

Hypothesis P_compute :
  forall T cfg self fathers v self',
    throughout strain_leaf self -> throughout P self ->
    compute_abundance T cfg fathers self = Ok (v, self') ->
    throughout P self'.

Lemma sum_invariant_step (T T' : TaxTree) :
  step T T' ->
  throughout strain_leaf (root T) ->
  throughout P (root T) -> throughout P (root T').
Proof.
  intros [T0 marker n iv ie ib ia s T1 H | T0 p marker n | T0 cfg p v T1 H] Hleaf Hth.
  - apply add_reads_tree in H. destruct H as [-> | [p ->]];
      [exact Hth | apply sum_invariant_set_count; exact Hth].
  - apply sum_invariant_set_count; exact Hth.
  - unfold compute_abundance_at in H.
    inv_bind H. destruct a as [fs cl]. inv_bind H. destruct a as [v' cl'].
    injection H as _ <-.
    pose proof (deref_clade_at _ _ _ _ Ha) as Hcl.
    destruct T0 as [r ac ml mc tc me]. simpl in *.
    apply sum_invariant_modify_at; [exact Hth|].
    intros cl0 Hcl0. rewrite Hcl in Hcl0. injection Hcl0 as <-.
    split.
    + eapply P_compute; [| |exact Ha0]; eapply throughout_clade_at; eauto.
    + intros a Hab. rewrite (compute_abundance_cached _ _ _ _ _ Hab) in Ha0.
      injection Ha0 as _ <-. exact Hab.
Qed.

End SumInvariant.

Lemma conserved_set_children (c : TaxClade) (cs : list TaxClade) :
  List.length cs = List.length (children c) ->
  (forall s, children_sum (children c) = Some s -> children_sum cs = Some s) ->
  conserved c -> conserved (set_children c cs).
Proof.
  intros Hl Hs [H1 H2].
  assert (Hnil : cs = [] <-> children c = []).
  { destruct cs, (children c); simpl in Hl; split; intros; try reflexivity;
      discriminate. }
  split; simpl.
  - intros [Hn | Hc]; apply H1; [left; exact Hn | right; apply Hnil; exact Hc].
  - intros a Ha Hne. destruct (H2 a Ha) as (s & Hcs & Hq).
    + intros Hc. apply Hne. apply Hnil. exact Hc.
    + exists s. split; [apply Hs; exact Hcs | exact Hq].
Qed.

(** What the body of [compute_abundance] assigns to [uncl_abundance]. *)
Lemma clade_abundance_uncl T cfg fathers self (sum_ab v : Q) (self' : TaxClade) :
  clade_abundance T cfg fathers self sum_ab = Ok (v, self') ->
  (Str.first (name self) = Ok "t"%char -> children self = []) ->
  (children self = [] -> uncl_abundance self' = uncl_abundance self)
  /\ (children self <> [] ->
      (Qltb sum_ab v = true /\ uncl_abundance self' = (v - sum_ab)%Q)
      \/ ((v <= sum_ab)%Q /\ uncl_abundance self' = uncl_abundance self)).
Proof.
  unfold clade_abundance. intros H Hleaf.
  inv_bind H. rename a into rat_nreads. inv_bind H. rename a into strain.
  destruct (strain && too_few_nonzero rat_nreads) eqn:E.
  - injection H as <- <-. simpl. split; [reflexivity|].
    apply andb_true_iff in E. destruct E as [-> _].
    intros Hne. exfalso. apply Hne, Hleaf.
    eapply strain_rule_applies_name; eauto.
  - inv_bind H. rename a into loc_ab. inv_bind H. injection H as <- <-. simpl.
    split.
    + intros ->. simpl. rewrite andb_false_r. reflexivity.
    + intros Hne.
      assert (Hc : negb (List.length (children self) =? 0)%nat = true)
        by (destruct (children self); [contradiction | reflexivity]).
      rewrite Hc, !andb_true_r.
      match goal with |- context [Qltb sum_ab ?ab] => destruct (Qltb sum_ab ab) eqn:E2 end.
      * left. split; reflexivity.
      * right. split; [apply Qltb_false; exact E2 | reflexivity].
Qed.

Lemma compute_abundance_conserved T cfg :
  forall self fathers v self',
    throughout strain_leaf self ->
    throughout conserved self ->
    compute_abundance T cfg fathers self = Ok (v, self') ->
    throughout conserved self'.
Proof.
  induction self as [self IH] using TaxClade_forall_ind.
  intros fathers v self' Hleaf Hcons H.
  destruct (abundance self) as [a|] eqn:E.
  - rewrite (compute_abundance_cached _ _ _ _ _ E) in H.
    injection H as _ <-. exact Hcons.
  - rewrite (compute_abundance_uncached _ _ _ _ E) in H.
    inv_bind H. rename a into rs.
    pose proof (clade_abundance_shape _ _ _ _ _ _ _ H) as Hshape. simpl in Hshape.
    destruct Hshape as (_ & Hc & _ & _ & Hab & _).
    apply throughout_inv in Hleaf. destruct Hleaf as [Hleaf Hleaves].
    apply throughout_inv in Hcons. destruct Hcons as [[Hzero _] Hconss].
    assert (Hstored : Forall (fun r => abundance (snd r) = Some (fst r)) rs).
    { apply mapM_Ok in Ha. clear - Ha.
      induction Ha as [|x [vy cy] l l' Hxy _ IHl]; constructor; [|exact IHl].
      simpl. eapply compute_abundance_stored; eauto. }
    destruct (children_sum_computed rs Hstored) as (s & Hs & Hq).
    assert (Hlen : List.length rs = List.length (children self))
      by (eapply mapM_length; exact Ha).
    assert (Hnil : map snd rs = [] <-> children self = []).
    { destruct rs, (children self); simpl in Hlen; split; intros; try reflexivity;
        discriminate. }
    assert (Hleaf' : Str.first (name self) = Ok "t"%char -> map snd rs = [])
      by (intros Ht; apply Hnil, Hleaf, Ht).
    pose proof (clade_abundance_ge _ _ _ _ _ _ _ H) as Hge. simpl in Hge.
    destruct (clade_abundance_uncl _ _ _ _ _ _ _ H Hleaf') as [Hu1 Hu2].
    simpl in Hu1, Hu2.
    constructor.
    + split.
      * intros [Hn | Hcs]; [congruence|].
        rewrite Hc in Hcs. rewrite (Hu1 Hcs). apply Hzero. left. exact E.
      * intros a Ha' Hne. rewrite Hab in Ha'. injection Ha' as <-.
        rewrite Hc in Hne |- *. exists s. split; [exact Hs|]. rewrite Hq.
        destruct (Hu2 Hne) as [[_ ->] | [Hle ->]]; [ring|].
        rewrite (Hzero (or_introl E)).
        assert (Hge' : (sumQ (map fst rs) <= v)%Q).
        { apply Hge. intros Ht. exfalso. apply Hne, Hleaf', Ht. }
        rewrite Qplus_0_r. apply Qle_antisym; assumption.
    + rewrite Hc. eapply mapM_Forall_snd; [|exact Ha].
      rewrite Forall_forall in *. intros x Hx [vy cy] Hy. simpl.
      eapply IH; eauto.
Qed.

Lemma fresh_conserved (c : TaxClade) : blank c -> conserved c.
Proof.
  intros (_ & Hab & Hu & _). split.
  - intros _. rewrite Hu. reflexivity.
  - intros a Ha. congruence.
Qed.

Lemma steps_conserved (mpa_pkl : MpaPkl) (T0 T : TaxTree) :
  valid_taxonomy (taxonomy mpa_pkl) = true ->
  TaxTree_init mpa_pkl = Ok T0 ->
  many step T0 T ->
  throughout strain_leaf (root T)
  /\ throughout conserved (root T) /\ throughout monotone (root T).
Proof.
  intros Hv Hinit Hsteps.
  induction Hsteps as [|T0 T1 T2 _ IH Hs].
  - split; [eapply TaxTree_init_strain_leaves; eauto|]. split.
    + apply (throughout_impl blank); [apply fresh_conserved|].
      unfold TaxTree_init in Hinit. inv_bind Hinit.
      eapply init_markers_blank; [exact Hinit|].
      eapply (init_taxonomy_throughout blank blank_set_children blank_init); [exact Ha|].
      simpl. constructor; [apply blank_init | constructor].
    + apply (throughout_impl fresh); [|eapply TaxTree_init_fresh; eauto].
      intros c [Hab _] a Ha. congruence.
  - destruct (IH Hinit) as (H1 & H2 & H3).
    split; [eapply step_strain_leaves; eauto|]. split.
    + apply (sum_invariant_step conserved conserved_set_children
               (fun c d Hc => Hc)
               (fun T' cfg => compute_abundance_conserved T' cfg) T1 T2);
        assumption.
    + eapply step_monotone; eauto.
Qed.

Lemma throughout_both (P Q R : TaxClade -> Prop) :
  (forall c, P c -> Q c -> R c) ->
  forall c, throughout P c -> throughout Q c -> throughout R c.
Proof.
  intros HR. induction c as [c IH] using TaxClade_forall_ind.
  intros HP HQ.
  apply throughout_inv in HP. destruct HP as [Pc Pcs].
  apply throughout_inv in HQ. destruct HQ as [Qc Qcs].
  constructor; [auto|].
  rewrite Forall_forall in *. auto.
Qed.

Lemma conserved_monotone_share (c : TaxClade) :
  conserved c -> monotone c -> unclassified_share c.
Proof.
  intros [Hzero Hsum] Hmono. split; [exact Hzero|].
  intros a Ha Hne.
  destruct (Hsum a Ha Hne) as (s & Hs & Hq).
  destruct (Hmono a Ha) as (s' & Hs' & Hle).
  rewrite Hs in Hs'. injection Hs' as <-.
  exists s. split; [exact Hs|]. split; [exact Hle|].
  rewrite Hq. ring.
Qed.

(** X10.  The unclassified share.  In every state of a tree built by
    [TaxTree.__init__] from a valid taxonomy, while numbers of reads are
    recorded with [add_reads] and abundances are computed with a
    quantile in [0, 1/2): [uncl_abundance] is 0 in a clade without
    children and in a clade that has no abundance yet; a clade that has
    children and an abundance holds at least the sum of the abundances
    of its children, and its [uncl_abundance] is the difference
    [abundance - sum_ab] that line 415 assigns, 0 when the two are
    equal.  (The difference is exact in the model; the code rounds it to
    a double, so that adding it back to the sum need not give the
    abundance again.) *)
Theorem unclassified_share_is_the_difference (mpa_pkl : MpaPkl) (T0 T : TaxTree) :
  valid_taxonomy (taxonomy mpa_pkl) = true ->
  TaxTree_init mpa_pkl = Ok T0 ->
  many run_in_range T0 T ->
  throughout unclassified_share (root T).
Proof.
  intros Hv Hinit Hruns.
  apply in_range_runs, runs_steps in Hruns.
  destruct (steps_conserved _ _ _ Hv Hinit Hruns) as (_ & Hc & Hm).
  apply (throughout_both conserved monotone); [|exact Hc | exact Hm].
  apply conserved_monotone_share.
Qed.

(** On the tree of [strains_db] with 10 and 30 reads on the markers of
    the species and 1, 2 and 7 on those of the strain [t__X], after the
    abundance of the species has been computed: the species holds
    40/200, its strains 10/300 and 0, and its unclassified share is
    40/200 - 10/300. *)
Lemma unclassified_share_is_the_difference_witness :
  throughout unclassified_share (root strains_tree2)
  /\ exists cl,
       clade_at (root strains_tree2) species_S = Some cl
       /\ abundance cl = Some (40 # 200)%Q
       /\ children_sum (children cl) = Some (10 # 300)%Q
       /\ uncl_abundance cl = ((40 # 200) - (10 # 300))%Q.
Proof.
  split.
  - apply (unclassified_share_is_the_difference strains_db strains_tree0).
    + vm_compute. reflexivity.
    + vm_compute. reflexivity.
    + exact strains_run.
  - eexists. split; [vm_compute; reflexivity|].
    split; [vm_compute; reflexivity|].
    split; vm_compute; reflexivity.
Defined.

(** ** No abundance is negative *)

Lemma sumZ_nonneg (l : list Z) : Forall (fun x => (0 <= x)%Z) l -> (0 <= sumZ l)%Z.
Proof.
  induction 1 as [|x l Hx _ IH]; [reflexivity|]. rewrite sumZ_cons. lia.
Qed.

Lemma Qplus_nonneg (a b : Q) : (0 <= a)%Q -> (0 <= b)%Q -> (0 <= a + b)%Q.
Proof.
  intros Ha Hb. apply Qle_trans with (0 + 0)%Q; [apply Qle_refl|].
  apply Qplus_le_compat; assumption.
Qed.

Lemma sumQ_nonneg (l : list Q) : Forall (fun x => (0 <= x)%Q) l -> (0 <= sumQ l)%Q.
Proof.
  induction 1 as [|x l Hx _ IH]; [apply Qle_refl|]. rewrite sumQ_cons.
  apply Qplus_nonneg; assumption.
Qed.

Lemma Qdiv_nonneg (a b : Q) : (0 <= a)%Q -> (0 <= b)%Q -> (0 <= a / b)%Q.
Proof.
  intros Ha Hb. unfold Qdiv. apply Qmult_le_0_compat; [exact Ha|].
  apply Qinv_le_0_compat. exact Hb.
Qed.

Lemma fdiv_nonneg (a b q : Q) :
  fdiv a b = Ok q -> (0 <= a)%Q -> (0 <= b)%Q -> (0 <= q)%Q.
Proof.
  unfold fdiv. destruct (Qeq_bool b 0); [discriminate|].
  intros H. injection H as <-. apply Qdiv_nonneg.
Qed.

Lemma float_nonneg (n : Z) : (0 <= n)%Z -> (0 <= float n)%Q.
Proof. intros H. exact (proj1 (float_le 0 n) H). Qed.

Lemma ratios_nonneg (rat_nreads : list (Z * Z)) (rs : list Q) :
  Forall (fun rn => (0 < fst rn)%Z /\ (0 <= snd rn)%Z) rat_nreads ->
  ratios rat_nreads = Ok rs -> Forall (fun x => (0 <= x)%Q) rs.
Proof.
  unfold ratios. intros Hall H. apply mapM_Ok in H.
  induction H as [|x y l l' Hxy _ IH]; constructor.
  - destruct (Forall_inv Hall) as [Hl Hn].
    eapply fdiv_nonneg; [exact Hxy | |]; apply float_nonneg; lia.
  - apply IH. exact (Forall_inv_tail Hall).
Qed.

Lemma np_mean_nonneg (l : list Q) (q : Q) :
  Forall (fun x => (0 <= x)%Q) l -> np_mean l = Ok q -> (0 <= q)%Q.
Proof.
  intros Hall. unfold np_mean. destruct l as [|x l]; [discriminate|].
  intros H. injection H as <-. apply Qdiv_nonneg.
  - apply sumQ_nonneg. exact Hall.
  - apply float_nonneg. lia.
Qed.

Lemma nth_nonneg (l : list Q) (i : nat) :
  Forall (fun x => (0 <= x)%Q) l -> (0 <= nth i l 0)%Q.
Proof.
  intros Hall. revert i. induction Hall as [|x l Hx _ IH]; intros [|i]; simpl;
    try apply Qle_refl; [exact Hx | apply IH].
Qed.

Lemma Ok_inj {A : Type} (a b : A) : Ok a = Ok b -> a = b.
Proof. intros H. injection H as ->. reflexivity. Qed.

Lemma np_median_nonneg (l : list Q) (q : Q) :
  Forall (fun x => (0 <= x)%Q) l -> np_median l = Ok q -> (0 <= q)%Q.
Proof.
  intros Hall. unfold np_median. destruct l as [|x l']; [discriminate|].
  set (l := x :: l') in *. cbv zeta.
  destruct (Nat.even _); intros H; apply Ok_inj in H; subst q.
  - apply Qdiv_nonneg; [|discriminate].
    apply Qplus_nonneg; apply nth_nonneg; exact Hall.
  - apply nth_nonneg. exact Hall.
Qed.

Lemma index_In {A : Type} (l : list A) (i : option Z) (x : A) :
  index l i = Ok x -> In x l.
Proof.
  unfold index. destruct i as [i|]; [|discriminate].
  destruct (_ <? 0)%Z; [discriminate|].
  destruct (nth_error l _) as [y|] eqn:E; [|discriminate].
  intros H. injection H as <-. eapply nth_error_In; eauto.
Qed.

Lemma Forall_sorted {A : Type} (leb : A -> A -> bool) (P : A -> Prop) (l : list A) :
  Forall P l -> Forall P (sorted leb l).
Proof.
  intros H. eapply Permutation_Forall; [symmetry; apply sorted_perm | exact H].
Qed.

Lemma Forall_replicate {A : Type} (P : A -> Prop) (x : A) (n : Z) :
  P x -> Forall P (replicate x n).
Proof.
  intros H. unfold replicate. induction (Z.to_nat n); simpl; constructor; auto.
Qed.

Lemma Forall_winsorized {A : Type} (P : A -> Prop) (l : list A) (ql qr : option Z)
    (qn : Z) (vmin vmax : A) :
  Forall P l -> index l ql = Ok vmin -> index l qr = Ok vmax ->
  Forall P (replicate vmin qn ++ slice l ql qr ++ replicate vmax qn).
Proof.
  intros Hall Hmin Hmax.
  assert (Hin : forall x, In x l -> P x) by (apply Forall_forall; exact Hall).
  apply Forall_app. split; [|apply Forall_app; split].
  - apply Forall_replicate, Hin. eapply index_In; exact Hmin.
  - apply Forall_slice. exact Hall.
  - apply Forall_replicate, Hin. eapply index_In; exact Hmax.
Qed.

(** The value of [loc_ab], where the chain yields one, is not negative
    in any of the statistic modes. *)
Lemma local_abundance_nonneg (cfg : Config) (rat_nreads : list (Z * Z)) (q : Q) :
  Forall (fun rn => (0 < fst rn)%Z /\ (0 <= snd rn)%Z) rat_nreads ->
  local_abundance cfg rat_nreads = Ok q -> (0 <= q)%Q.
Proof.
  intros Hall. unfold local_abundance. cbv zeta.
  destruct (trim_bounds (trim_width cfg rat_nreads)) as [[ql qr] qn].
  assert (Hn : Forall (fun n => (0 <= n)%Z) (map snd rat_nreads)).
  { apply Forall_map. eapply Forall_impl; [|exact Hall]. intros rn [_ H]. exact H. }
  assert (Hrs : forall rs, ratios rat_nreads = Ok rs -> Forall (fun x => (0 <= x)%Q) rs)
    by (intros rs; apply ratios_nonneg; exact Hall).
  destruct (Qltb (total_length rat_nreads) 0) eqn:E1.
  { intros H. injection H as <-. apply Qle_refl. }
  assert (Hrat : (0 <= total_length rat_nreads)%Q) by (apply Qltb_false; exact E1).
  assert (Hglobal : forall q,
             (if Qle_bool 0 (total_length rat_nreads)
              then fdiv (float (sumZ (map snd rat_nreads))) (total_length rat_nreads)
              else Ok 0%Q) = Ok q -> (0 <= q)%Q).
  { intros q0. destruct (Qle_bool 0 (total_length rat_nreads)).
    - intros H. eapply fdiv_nonneg; [exact H | | exact Hrat].
      apply float_nonneg, sumZ_nonneg, Hn.
    - intros H. injection H as <-. apply Qle_refl. }
  assert (Hlocal : forall q, (rs <- ratios rat_nreads ;; np_mean rs) = Ok q -> (0 <= q)%Q).
  { intros q0 H. inv_bind H. eapply np_mean_nonneg; [|exact H]. apply Hrs. exact Ha. }
  destruct (stat cfg); destruct (qn =? 0)%Z; cbn [Stat_eqb orb andb];
    try exact (Hglobal q); try exact (Hlocal q); intros H.
  - (* tavg_g *)
    inv_bind H. rename a into ws.
    assert (Hws : Forall (fun v => (0 < fst (snd v))%Z /\ (0 <= snd (snd v))%Z)
                         (sorted (fun x y => Qle_bool (fst x) (fst y)) ws)).
    { apply Forall_sorted. apply mapM_Ok in Ha. clear - Ha Hall.
      induction Ha as [|x y l l' Hxy _ IH]; constructor.
      - inv_bind Hxy. injection Hxy as <-. simpl. exact (Forall_inv Hall).
      - apply IH. exact (Forall_inv_tail Hall). }
    apply (Forall_slice _ _ ql qr) in Hws.
    destruct (slice _ ql qr) as [|b band]; [discriminate|].
    destruct (existsb _ _).
    + eapply fdiv_nonneg; [exact H | |]; apply float_nonneg, sumZ_nonneg, Forall_map;
        (eapply Forall_impl; [|exact Hws]); intros v [H1 H2]; simpl; lia.
    + injection H as <-. apply Qle_refl.
  - (* tavg_l *)
    inv_bind H. eapply np_mean_nonneg; [|exact H].
    apply Forall_slice, Forall_sorted, Hrs. exact Ha.
  - (* wavg_g *)
    inv_bind H. inv_bind H.
    eapply fdiv_nonneg; [exact H | | exact Hrat].
    apply float_nonneg, sumZ_nonneg. eapply Forall_winsorized; eauto.
  - (* wavg_l *)
    inv_bind H. inv_bind H. inv_bind H.
    eapply np_mean_nonneg; [|exact H].
    eapply Forall_winsorized; eauto. apply Forall_sorted, Hrs. exact Ha.
  - (* med *)
    inv_bind H. eapply np_median_nonneg; [|exact H].
    apply Forall_slice, Forall_sorted, Hrs. exact Ha.
  - inv_bind H. eapply np_median_nonneg; [|exact H].
    apply Forall_slice, Forall_sorted, Hrs. exact Ha.
Qed.

Section ActiveMarkers.

Variable T : TaxTree.
Variable cfg : Config.
Variable Q : Z * Z -> Prop.

Lemma split_markers_Forall (items : list (string * Z)) :
  forall active removed,
    split_markers T cfg items = Ok (active, removed) ->
    (forall m n l, In (m, n) items -> dict_get (markers2lens T) m = Some l -> Q (l, n)) ->
    Forall Q active /\ Forall Q removed.
Proof.
  induction items as [|[m n] items IH]; intros active removed H HQ.
  - simpl in H. injection H as <- <-. split; constructor.
  - cbn [split_markers] in H. inv_bind H. rename a into mis.
    inv_bind H. rename a into l. inv_bind H. destruct a as [act rem].
    destruct (IH act rem Ha1) as [H1 H2].
    { intros m' n' l' Hin. apply HQ. right. exact Hin. }
    assert (Hl : Q (l, n)).
    { apply (HQ m n l); [left; reflexivity|].
      unfold dict_lookup in Ha0. destruct (dict_get (markers2lens T) m); [|discriminate].
      injection Ha0 as ->. reflexivity. }
    destruct mis; injection H as <- <-; split; try constructor; assumption.
Qed.

Lemma restore_removed_Forall fathers self (active removed : list (Z * Z)) :
  Forall Q active -> Forall Q removed ->
  Forall Q (restore_removed cfg fathers self active removed).
Proof.
  intros H1 H2. unfold restore_removed. cbv zeta.
  destruct (_ && _); [|exact H1].
  destruct (_ && _); [|exact H1].
  apply Forall_app. split; [exact H1 | apply Forall_slice; exact H2].
Qed.

Lemma active_markers_Forall fathers self (rat_nreads : list (Z * Z)) :
  active_markers T cfg fathers self = Ok rat_nreads ->
  (forall m n l, In (m, n) (markers2nreads self) ->
                 dict_get (markers2lens T) m = Some l -> Q (l, n)) ->
  Forall Q rat_nreads.
Proof.
  unfold active_markers. intros H HQ.
  inv_bind H. inv_bind H. destruct a0 as [active removed]. injection H as <-.
  destruct (split_markers_Forall _ _ _ Ha0 HQ) as [H1 H2].
  apply Forall_sorted, restore_removed_Forall; assumption.
Qed.

End ActiveMarkers.

Lemma clade_abundance_nonneg T cfg fathers self (sum_ab v : Q) (self' : TaxClade) :
  (forall m l, dict_get (markers2lens T) m = Some l -> (0 < l)%Z) ->
  counts_nonneg self ->
  (0 <= uncl_abundance self)%Q ->
  (0 <= sum_ab)%Q ->
  clade_abundance T cfg fathers self sum_ab = Ok (v, self') ->
  (0 <= v)%Q /\ results_nonneg self'.
Proof.
  intros Hlens Hcounts Huncl Hsum. unfold clade_abundance. intros H.
  inv_bind H. rename a into rat_nreads. inv_bind H. rename a into strain.
  assert (Hall : Forall (fun rn => (0 < fst rn)%Z /\ (0 <= snd rn)%Z) rat_nreads).
  { eapply active_markers_Forall; [exact Ha|].
    intros m n l Hin Hl. simpl. split; [eapply Hlens; eauto|].
    unfold counts_nonneg in Hcounts. rewrite Forall_forall in Hcounts.
    apply (Hcounts (m, n) Hin). }
  destruct (strain && too_few_nonzero rat_nreads).
  - injection H as <- <-. split; [apply Qle_refl|]. split; simpl.
    + intros a E. injection E as <-. apply Qle_refl.
    + exact Huncl.
  - inv_bind H. rename a into loc_ab. inv_bind H.
    pose proof (local_abundance_nonneg _ _ _ Hall Ha1) as Hloc.
    set (ab := if Qltb (total_length rat_nreads) (float (min_cu_len cfg))
                  && negb (List.length (children self) =? 0)%nat
               then sum_ab
               else if Qltb loc_ab sum_ab then sum_ab else loc_ab) in *.
    assert (Hab : (0 <= ab)%Q).
    { subst ab. destruct (_ && _); [exact Hsum|].
      destruct (Qltb loc_ab sum_ab); assumption. }
    injection H as <- <-. split; [exact Hab|]. split; simpl.
    + intros a0 E. injection E as <-. exact Hab.
    + destruct (Qltb sum_ab ab && _) eqn:E; [|exact Huncl].
      apply andb_true_iff in E. destruct E as [E _].
      apply Qltb_true in E. apply Qlt_le_weak in E.
      unfold Qminus. rewrite <- (Qplus_opp_r sum_ab).
      apply Qplus_le_compat; [exact E | apply Qle_refl].
Qed.

Lemma compute_abundance_nonneg T cfg :
  (forall m l, dict_get (markers2lens T) m = Some l -> (0 < l)%Z) ->
  forall self fathers v self',
    throughout counts_nonneg self ->
    throughout results_nonneg self ->
    compute_abundance T cfg fathers self = Ok (v, self') ->
    (0 <= v)%Q /\ throughout results_nonneg self'.
Proof.
  intros Hlens.
  induction self as [self IH] using TaxClade_forall_ind.
  intros fathers v self' Hcounts Hres H.
  destruct (abundance self) as [a|] eqn:E.
  - rewrite (compute_abundance_cached _ _ _ _ _ E) in H.
    apply Ok_inj in H. injection H as <- <-. split; [|exact Hres].
    apply throughout_inv in Hres. destruct Hres as [[Hr _] _]. apply Hr. exact E.
  - rewrite (compute_abundance_uncached _ _ _ _ E) in H.
    inv_bind H. rename a into rs.
    apply throughout_inv in Hcounts. destruct Hcounts as [Hc Hcs].
    apply throughout_inv in Hres. destruct Hres as [[_ Hu] Hrs].
    assert (Hsub : Forall (fun r => (0 <= fst r)%Q /\ throughout results_nonneg (snd r)) rs).
    { apply mapM_Ok in Ha. clear - Ha IH Hcs Hrs.
      induction Ha as [|x [vy cy] l l' Hxy _ IHl]; constructor.
      - simpl. exact (Forall_inv IH _ _ _ (Forall_inv Hcs) (Forall_inv Hrs) Hxy).
      - exact (IHl (Forall_inv_tail IH) (Forall_inv_tail Hcs) (Forall_inv_tail Hrs)). }
    pose proof (clade_abundance_shape _ _ _ _ _ _ _ H) as Hshape.
    destruct Hshape as (_ & Hch & _).
    assert (Hsum : (0 <= sumQ (map fst rs))%Q).
    { apply sumQ_nonneg, Forall_map. eapply Forall_impl; [|exact Hsub].
      intros r [Hr _]. exact Hr. }
    pose proof (clade_abundance_nonneg T cfg fathers
                  (set_children self (map snd rs)) (sumQ (map fst rs)) v self'
                  Hlens Hc Hu Hsum H) as [Hv Hself'].
    split; [exact Hv|]. constructor; [exact Hself'|].
    rewrite Hch. apply Forall_map. eapply Forall_impl; [|exact Hsub].
    intros r [_ Hr]. exact Hr.
Qed.

Lemma init_markers_positive (items : list (string * Marker)) :
  forall T T',
    init_markers T items = Ok T' ->
    forallb (fun kp => (0 <? len (snd kp))%Z) items = true ->
    (forall m l, dict_get (markers2lens T) m = Some l -> (0 < l)%Z) ->
    forall m l, dict_get (markers2lens T') m = Some l -> (0 < l)%Z.
Proof.
  induction items as [|[k p] items IH]; intros T T' H Hpos Hl; cbn [init_markers] in H.
  - injection H as <-. exact Hl.
  - cbn [forallb] in Hpos. apply andb_true_iff in Hpos. destruct Hpos as [Hp Hpos].
    destruct (existsb (String.eqb k) markers_to_exclude); [eapply IH; eauto|].
    inv_bind H. destruct a as [s T2].
    pose proof (add_reads_skeleton _ _ _ _ _ _ _ _ _ Ha) as (_ & _ & Hl2 & _).
    simpl in Hl2.
    eapply IH; [exact H | exact Hpos|]. simpl. rewrite Hl2.
    intros m l Hm. destruct (string_dec m k) as [->|Hne].
    + rewrite dict_get_set_same in Hm. injection Hm as <-.
      simpl in Hp. apply Z.ltb_lt. exact Hp.
    + rewrite dict_get_set_other in Hm by exact Hne. eapply Hl; eauto.
Qed.

Lemma TaxTree_init_positive (mpa_pkl : MpaPkl) (T : TaxTree) :
  positive_lengths mpa_pkl = true ->
  TaxTree_init mpa_pkl = Ok T ->
  forall m l, dict_get (markers2lens T) m = Some l -> (0 < l)%Z.
Proof.
  unfold TaxTree_init. intros Hpos H. inv_bind H.
  assert (H0 : index_refs_ok (mkTaxTree (TaxClade_init "root") [] [] [] [] []))
    by (split; intros ? ? Hx; discriminate Hx).
  destruct (init_taxonomy_refs _ _ _ Ha H0) as (_ & Hl & _). simpl in Hl.
  eapply init_markers_positive; [exact H | exact Hpos|].
  rewrite Hl. intros m l Hm. discriminate Hm.
Qed.

Lemma blank_nonneg (c : TaxClade) : blank c -> counts_nonneg c /\ results_nonneg c.
Proof.
  intros (Hz & Hab & Hu & _). split.
  - unfold counts_nonneg. eapply Forall_impl; [|exact Hz].
    intros mn Hmn. rewrite Hmn. lia.
  - split; [intros a Ha; congruence | rewrite Hu; apply Qle_refl].
Qed.

Lemma counts_nonneg_shape (c c' : TaxClade) :
  name c = name c' -> markers2nreads c = markers2nreads c' -> uncl c = uncl c' ->
  counts_nonneg c -> counts_nonneg c'.
Proof. unfold counts_nonneg. intros _ <- _ H. exact H. Qed.

Lemma run_nonneg (T T' : TaxTree) :
  run T T' ->
  (forall m l, dict_get (markers2lens T) m = Some l -> (0 < l)%Z) ->
  throughout counts_nonneg (root T) ->
  throughout results_nonneg (root T) ->
  throughout counts_nonneg (root T') /\ throughout results_nonneg (root T').
Proof.
  intros [T0 marker n iv ie ib ia s T1 Hn H | T0 cfg p v T1 H] Hlens Hc Hr.
  - apply add_reads_tree in H. destruct H as [-> | [q ->]]; [auto|]. split.
    + apply set_count_throughout; [intros c cs Hx; exact Hx | | exact Hc].
      intros c Hx. unfold counts_nonneg in *. simpl.
      apply Forall_dict_set; [intros; exact Hn | exact Hx].
    + apply set_count_throughout; [intros c cs Hx; exact Hx | | exact Hr].
      intros c Hx. exact Hx.
  - split.
    + eapply (compute_abundance_at_throughout counts_nonneg); [| |exact H|exact Hc].
      * intros c cs Hx. exact Hx.
      * apply counts_nonneg_shape.
    + unfold compute_abundance_at in H.
      inv_bind H. destruct a as [fs cl]. inv_bind H. destruct a as [v' cl'].
      injection H as _ <-.
      pose proof (deref_clade_at _ _ _ _ Ha) as Hcl.
      destruct T0 as [r ac ml mc tc me]. simpl in *.
      apply throughout_modify_at; [intros c cs Hx _; exact Hx | exact Hr |].
      intros cl0 Hcl0. rewrite Hcl in Hcl0. injection Hcl0 as <-.
      eapply compute_abundance_nonneg; [| | |exact Ha0].
      * exact Hlens.
      * eapply throughout_clade_at; eauto.
      * eapply throughout_clade_at; eauto.
Qed.

Lemma runs_nonneg (mpa_pkl : MpaPkl) (T0 T : TaxTree) :
  positive_lengths mpa_pkl = true ->
  TaxTree_init mpa_pkl = Ok T0 ->
  many run T0 T ->
  (forall m l, dict_get (markers2lens T) m = Some l -> (0 < l)%Z)
  /\ throughout counts_nonneg (root T) /\ throughout results_nonneg (root T).
Proof.
  intros Hpos Hinit Hruns. induction Hruns as [T0|T0 T1 T2 Hruns IH Hr].
  - split; [eapply TaxTree_init_positive; eauto|].
    assert (Hb : throughout blank (root T0)).
    { unfold TaxTree_init in Hinit. inv_bind Hinit.
      eapply init_markers_blank; [exact Hinit|].
      eapply (init_taxonomy_throughout blank blank_set_children blank_init); [exact Ha|].
      simpl. constructor; [apply blank_init | constructor]. }
    split; (eapply throughout_impl; [|exact Hb]); intros c Hc; apply blank_nonneg, Hc.
  - destruct (IH Hinit) as (Hl & Hc & Hres).
    destruct (run_nonneg _ _ Hr Hl Hc Hres) as [Hc' Hres'].
    split; [|split; assumption].
    destruct (step_skeleton T1 T2 (run_step _ _ Hr)) as (_ & _ & Hl' & _).
    rewrite Hl'. exact Hl.
Qed.

(** X11.  No abundance is negative.  In a tree built by
    [TaxTree.__init__] from a database whose markers all have a positive
    length, while numbers of reads are recorded with [add_reads] and
    abundances are computed, in any of the seven statistic modes, with
    either setting of the toggle and for any quantile in [0, 1/2):
    every [abundance] and every [uncl_abundance] of the tree is at least
    0, and so is every value that [compute_abundance] returns for such a
    quantile.  (From the quantile 1/2 on a trimmed band can be empty;
    the code then stores and returns [nan], of which nothing is
    stated.) *)
Theorem abundances_are_never_negative (mpa_pkl : MpaPkl) (T0 T : TaxTree) :
  positive_lengths mpa_pkl = true ->
  TaxTree_init mpa_pkl = Ok T0 ->
  many run_in_range T0 T ->
  throughout results_nonneg (root T)
  /\ forall cfg p v T',
       (0 <= quantile cfg)%Q -> (quantile cfg < 1 # 2)%Q ->
       compute_abundance_at T cfg p = Ok (v, T') -> (0 <= v)%Q.
Proof.
  intros Hpos Hinit Hruns. apply in_range_runs in Hruns.
  destruct (runs_nonneg _ _ _ Hpos Hinit Hruns) as (Hl & Hc & Hres).
  split; [exact Hres|].
  intros cfg p v T' _ _ H. unfold compute_abundance_at in H.
  inv_bind H. destruct a as [fs cl]. inv_bind H. destruct a as [v' cl'].
  injection H as <- _.
  pose proof (deref_clade_at _ _ _ _ Ha) as Hcl.
  eapply compute_abundance_nonneg; [exact Hl | | |exact Ha0];
    eapply throughout_clade_at; eauto.
Qed.

(** On the tree of [strains_db] after reads have been recorded and the
    abundance of the species has been computed, the call on the kingdom
    in mode [tavg_g] with the quantile 0.4 returns 40/200. *)
Lemma abundances_are_never_negative_witness :
  throughout results_nonneg (root strains_tree2)
  /\ exists T',
       compute_abundance_at strains_tree2 (strains_config tavg_g) ["k__K"%string]
       = Ok (40 # 200, T')
       /\ (0 <= 40 # 200)%Q.
Proof.
  destruct (abundances_are_never_negative strains_db strains_tree0 strains_tree2)
    as [H1 H2].
  - vm_compute. reflexivity.
  - vm_compute. reflexivity.
  - exact strains_run.
  - split; [exact H1|].
    assert (Hc : exists T',
               compute_abundance_at strains_tree2 (strains_config tavg_g)
                                    ["k__K"%string]
               = Ok (40 # 200, T')) by (vm_compute; eexists; reflexivity).
    destruct Hc as [T' Hc]. exists T'. split; [exact Hc|].
    apply (H2 (strains_config tavg_g) ["k__K"%string] (40 # 200) T');
      [vm_compute; discriminate | vm_compute; reflexivity | exact Hc].
Defined.

(** ** [compute_abundance] raises nothing on a consistent database *)

Lemma init_level_exts T father lev T' father' :
  init_level T father lev = Ok (T', father') -> markers2exts T' = markers2exts T.
Proof.
  unfold init_level. intros H.
  inv_bind H. destruct a as [fs fcl]. inv_bind H. injection H as <- _.
  destruct (Ascii.eqb _ _); destruct (find_child _ _); reflexivity.
Qed.

Lemma init_lineage_exts (levels : list string) :
  forall T father T',
    init_lineage T father levels = Ok T' -> markers2exts T' = markers2exts T.
Proof.
  induction levels as [|lev levels IH]; simpl; intros T father T' H.
  - injection H as <-. reflexivity.
  - inv_bind H. destruct a as [T1 father1].
    rewrite (IH _ _ _ H). eapply init_level_exts; eauto.
Qed.

Lemma init_taxonomy_exts (lines : list string) :
  forall T T', init_taxonomy T lines = Ok T' -> markers2exts T' = markers2exts T.
Proof.
  induction lines as [|l lines IH]; simpl; intros T T' H.
  - injection H as <-. reflexivity.
  - inv_bind H. rewrite (IH _ _ H). eapply init_lineage_exts; eauto.
Qed.

Lemma init_markers_exts (items : list (string * Marker)) :
  forall T T',
    init_markers T items = Ok T' ->
    (forall m, dict_mem (markers2exts T) m = dict_mem (markers2lens T) m) ->
    forall m, dict_mem (markers2exts T') m = dict_mem (markers2lens T') m.
Proof.
  induction items as [|[k p] items IH]; intros T T' H He; cbn [init_markers] in H.
  - injection H as <-. exact He.
  - destruct (existsb (String.eqb k) markers_to_exclude); [eapply IH; eauto|].
    inv_bind H. destruct a as [s T2].
    pose proof (add_reads_skeleton _ _ _ _ _ _ _ _ _ Ha) as (_ & _ & Hl & _ & _ & Hx).
    simpl in Hl, Hx.
    eapply IH; [exact H|]. simpl. intros m.
    rewrite Hl, Hx, !dict_mem_set, He. reflexivity.
Qed.

Lemma TaxTree_init_exts (mpa_pkl : MpaPkl) (T : TaxTree) :
  TaxTree_init mpa_pkl = Ok T ->
  forall m, dict_mem (markers2exts T) m = dict_mem (markers2lens T) m.
Proof.
  unfold TaxTree_init. intros H. inv_bind H.
  assert (H0 : index_refs_ok (mkTaxTree (TaxClade_init "root") [] [] [] [] []))
    by (split; intros ? ? Hx; discriminate Hx).
  destruct (init_taxonomy_refs _ _ _ Ha H0) as (_ & Hl & _). simpl in Hl.
  pose proof (init_taxonomy_exts _ _ _ Ha) as Hx. simpl in Hx.
  eapply init_markers_exts; [exact H|].
  intros m. rewrite Hl, Hx. reflexivity.
Qed.

Lemma letter_ok_named (d : nat) (c : TaxClade) : letter_ok d (name c) = true -> named c.
Proof.
  unfold letter_ok, named. destruct (Str.first (name c)) as [ch|]; [|discriminate].
  intros _. eexists. reflexivity.
Qed.

Lemma ranked_named :
  forall c d, ranked d c = true -> Forall (throughout named) (children c).
Proof.
  induction c as [c IH] using TaxClade_forall_ind.
  intros d H. rewrite ranked_unfold in H. rewrite forallb_forall in H.
  rewrite Forall_forall in *. intros ch Hin.
  specialize (H ch Hin). apply andb_true_iff in H. destruct H as [Hl Hr].
  constructor; [eapply letter_ok_named; eauto|].
  apply (IH ch Hin (S d) Hr).
Qed.

Lemma TaxTree_init_named (mpa_pkl : MpaPkl) (T : TaxTree) :
  valid_taxonomy (taxonomy mpa_pkl) = true ->
  TaxTree_init mpa_pkl = Ok T ->
  throughout named (root T) /\ name (root T) = "root"%string.
Proof.
  intros Hv H. unfold TaxTree_init in H. inv_bind H.
  destruct (init_taxonomy_ranked _ _ _ Ha Hv eq_refl) as [Hr1 Hn1].
  destruct (init_markers_ranked _ _ _ H Hr1) as [Hr2 Hn2].
  assert (Hn : name (root T) = "root"%string) by (rewrite Hn2, Hn1; reflexivity).
  split; [|exact Hn].
  constructor; [unfold named; rewrite Hn; eexists; reflexivity|].
  eapply ranked_named; eauto.
Qed.

Lemma skeleton_named :
  forall c c', same_skeleton c c' -> throughout named c -> throughout named c'.
Proof.
  induction c as [c IH] using TaxClade_forall_ind.
  intros c' Hs Hth. inversion Hs as [? ? Hn Hcs]; subst.
  apply throughout_inv in Hth. destruct Hth as [Hc Hall].
  constructor; [unfold named in *; rewrite <- Hn; exact Hc|].
  clear Hc Hs Hn. induction Hcs as [|x y l l' Hxy _ IHl]; constructor.
  - apply (Forall_inv IH); [exact Hxy | exact (Forall_inv Hall)].
  - apply IHl; [exact (Forall_inv_tail IH) | exact (Forall_inv_tail Hall)].
Qed.

Lemma In_dict_mem {V : Type} (d : dict V) (k : string) (v : V) :
  In (k, v) d -> dict_mem d k = true.
Proof.
  unfold dict_mem. induction d as [|[k' v'] d IH]; intros Hin; [contradiction|].
  simpl. destruct (String.eqb_spec k' k) as [_|Hne]; [reflexivity|].
  destruct Hin as [E|Hin]; [injection E as -> _; contradiction | apply IH; exact Hin].
Qed.

Lemma dict_get_In {V : Type} (d : dict V) (k : string) (v : V) :
  dict_get d k = Some v -> In (k, v) d.
Proof.
  induction d as [|[k' v'] d IH]; simpl; [discriminate|].
  destruct (String.eqb_spec k' k) as [->|_].
  - intros H. injection H as ->. left. reflexivity.
  - intros H. right. apply IH. exact H.
Qed.

Section WellFormed.

Variable T : TaxTree.
Variable cfg : Config.
Hypothesis T_refs : refs_ok T.
Hypothesis T_lens : forall m l, dict_get (markers2lens T) m = Some l -> (0 < l)%Z.
Hypothesis T_exts : forall m, dict_mem (markers2exts T) m = dict_mem (markers2lens T) m.
Hypothesis T_known : exts_known T = true.

Lemma ext_m2nr_total (e : string) :
  dict_mem (taxa2clades T) e = true -> exists m2nr, ext_m2nr T e = Ok m2nr.
Proof.
  unfold dict_mem, ext_m2nr, dict_lookup. intros He.
  destruct (dict_get (taxa2clades T) e) as [r|] eqn:E; [|discriminate].
  destruct T_refs as (_ & H2 & _). destruct (H2 e r E) as [cl Hcl].
  destruct (clade_at_deref _ _ _ Hcl) as [fs Hd].
  cbn [bind]. rewrite Hd. cbn [bind]. eexists. reflexivity.
Qed.

Lemma misidentified_total (m : string) :
  dict_mem (markers2lens T) m = true -> exists b, misidentified T cfg m = Ok b.
Proof.
  intros Hm. unfold misidentified.
  destruct (avoid_disqm cfg); [eexists; reflexivity|].
  rewrite <- T_exts in Hm. unfold dict_mem in Hm. unfold dict_lookup.
  destruct (dict_get (markers2exts T) m) as [exts|] eqn:E; [|discriminate].
  cbn [bind]. apply misidentified_in_total.
  intros e He. apply ext_m2nr_total.
  unfold exts_known in T_known. rewrite forallb_forall in T_known.
  specialize (T_known (m, exts) (dict_get_In _ _ _ E)). simpl in T_known.
  rewrite forallb_forall in T_known. apply T_known. exact He.
Qed.

Lemma split_markers_total (items : list (string * Z)) :
  (forall m n, In (m, n) items -> dict_mem (markers2lens T) m = true) ->
  exists x, split_markers T cfg items = Ok x.
Proof.
  induction items as [|[m n] items IH]; intros Hall.
  - eexists. reflexivity.
  - cbn [split_markers].
    assert (Hm : dict_mem (markers2lens T) m = true)
      by (apply (Hall m n); left; reflexivity).
    destruct (misidentified_total m Hm) as [b ->]. cbn [bind].
    unfold dict_mem in Hm. unfold dict_lookup.
    destruct (dict_get (markers2lens T) m) as [l|]; [|discriminate]. cbn [bind].
    destruct IH as [[act rem] ->].
    { intros m' n' Hin. apply (Hall m' n'). right. exact Hin. }
    cbn [bind]. destruct b; eexists; reflexivity.
Qed.

(** The clades of a tree that counts only markers of the database, and
    whose names are not empty, are well formed. *)
Lemma well_formed_intro :
  forall self fathers,
    throughout named self ->
    throughout (counts_known (markers2lens T)) self ->
    (fathers = [] -> Str.first (name self) <> Ok "t"%char) ->
    well_formed T cfg fathers self = true.
Proof.
  induction self as [self IH] using TaxClade_forall_ind.
  intros fathers Hnamed Hknown Htop.
  apply throughout_inv in Hnamed. destruct Hnamed as [[ch Hch] Hnamed].
  apply throughout_inv in Hknown. destruct Hknown as [Hk Hknown].
  destruct self as [nm cs m u sb ab ua r]. simpl in *.
  destruct ab as [a|]; [reflexivity|].
  assert (Hmem : forall m0 n, In (m0, n) m -> dict_mem (markers2lens T) m0 = true).
  { intros m0 n Hin. apply Hk. eapply In_dict_mem; eauto. }
  repeat (apply andb_true_iff; split).
  - unfold strain_rule_applies. simpl. rewrite Hch. cbn [bind].
    destruct (Ascii.eqb_spec ch "t") as [->|_]; [|reflexivity].
    destruct fathers; [exfalso; exact (Htop eq_refl Hch) | reflexivity].
  - destruct (split_markers_total m Hmem) as [x ->]. reflexivity.
  - apply forallb_forall. intros [m0 n] Hin. unfold has_positive_length. simpl.
    pose proof (Hmem m0 n Hin) as Hm. unfold dict_mem in Hm.
    destruct (dict_get (markers2lens T) m0) as [l|] eqn:E; [|discriminate].
    apply Z.ltb_lt. eapply T_lens; eauto.
  - apply forallb_forall. intros x Hx.
    rewrite Forall_forall in IH, Hnamed, Hknown.
    apply IH; auto. discriminate.
Qed.

End WellFormed.

Lemma runs_named (mpa_pkl : MpaPkl) (T0 T : TaxTree) :
  valid_taxonomy (taxonomy mpa_pkl) = true ->
  TaxTree_init mpa_pkl = Ok T0 ->
  many run T0 T ->
  throughout named (root T) /\ name (root T) = "root"%string.
Proof.
  intros Hv Hinit Hruns.
  destruct (TaxTree_init_named _ _ Hv Hinit) as [Hn Hr].
  pose proof (steps_skeleton _ _ (runs_steps _ _ Hruns)) as Hs.
  split; [eapply skeleton_named; eauto|].
  rewrite (same_skeleton_name _ _ Hs). exact Hr.
Qed.

Lemma runs_indexes (T0 T : TaxTree) : many run T0 T -> same_indexes T0 T.
Proof.
  induction 1 as [|T0 T1 T2 _ IH Hr]; [apply same_indexes_refl|].
  eapply same_indexes_trans; [exact IH|].
  apply (step_skeleton _ _ (run_step _ _ Hr)).
Qed.

Lemma resolve_top (p : ref) :
  forall fs0 c0 fs cl,
    resolve fs0 c0 p = Some (fs, cl) -> fs = [] -> fs0 = [] /\ cl = c0.
Proof.
  induction p as [|nm p IH]; simpl; intros fs0 c0 fs cl H Hfs.
  - injection H as <- <-. auto.
  - destruct (find_child (children c0) nm) as [c|]; [|discriminate].
    destruct (IH _ _ _ _ H Hfs) as [Hnil _]. discriminate Hnil.
Qed.

Lemma compute_abundance_at_total
    (mpa_pkl : MpaPkl) (T0 T : TaxTree) (cfg : Config) (p : ref) (cl : TaxClade) :
  valid_taxonomy (taxonomy mpa_pkl) = true ->
  positive_lengths mpa_pkl = true ->
  TaxTree_init mpa_pkl = Ok T0 ->
  exts_known T0 = true ->
  many run T0 T ->
  (0 <= quantile cfg)%Q -> (quantile cfg < 1 # 2)%Q ->
  clade_at (root T) p = Some cl ->
  exists v T', compute_abundance_at T cfg p = Ok (v, T').
Proof.
  intros Hv Hpos Hinit Hknown Hruns Hq0 Hq1 Hcl.
  destruct (runs_counts_known _ _ _ Hinit Hruns) as (Hrefs & Hck & Hlens).
  destruct (runs_named _ _ _ Hv Hinit Hruns) as [Hnamed Hroot].
  destruct (runs_indexes _ _ Hruns) as (_ & _ & _ & Htc & Hme).
  destruct (clade_at_deref _ _ _ Hcl) as [fs Hd].
  assert (Hwf : well_formed T cfg fs cl = true).
  { apply well_formed_intro.
    - exact Hrefs.
    - rewrite Hlens. eapply TaxTree_init_positive; eauto.
    - intros m. rewrite Hme, Hlens. eapply TaxTree_init_exts; eauto.
    - unfold exts_known in *. rewrite Htc, Hme. exact Hknown.
    - eapply throughout_clade_at; eauto.
    - eapply throughout_clade_at; eauto.
    - intros Hfs. unfold deref in Hd.
      destruct (resolve [] (root T) p) as [x|] eqn:E; [|discriminate].
      injection Hd as ->. destruct (resolve_top _ _ _ _ _ E Hfs) as [_ ->].
      rewrite Hroot. discriminate. }
  destruct (compute_abundance_total cfg Hq0 Hq1 T cl fs Hwf) as (v & cl' & Hc).
  unfold compute_abundance_at. rewrite Hd. cbn [bind]. rewrite Hc. cbn [bind].
  do 2 eexists. reflexivity.
Qed.

(** X12.  On a consistent database [compute_abundance] raises nothing.
    When the taxonomy is valid, every marker has a positive length and
    every taxon that a marker names as related is one of [taxa2clades],
    then in the tree built by [TaxTree.__init__], while numbers of reads
    are recorded with [add_reads] and abundances are computed, a call of
    [compute_abundance] on any clade of the tree returns a value, in any
    of the seven statistic modes, with either setting of the toggle and
    for any quantile in [0, 1/2); and the tree it leaves is again such a
    tree. *)
Theorem compute_abundance_never_raises
    (mpa_pkl : MpaPkl) (T0 T : TaxTree) (cfg : Config) (p : ref) (cl : TaxClade) :
  valid_taxonomy (taxonomy mpa_pkl) = true ->
  positive_lengths mpa_pkl = true ->
  TaxTree_init mpa_pkl = Ok T0 ->
  exts_known T0 = true ->
  many run T0 T ->
  (0 <= quantile cfg)%Q -> (quantile cfg < 1 # 2)%Q ->
  clade_at (root T) p = Some cl ->
  exists v T', compute_abundance_at T cfg p = Ok (v, T') /\ many run T0 T'.
Proof.
  intros Hv Hpos Hinit Hknown Hruns Hq0 Hq1 Hcl.
  destruct (compute_abundance_at_total _ _ _ cfg p cl Hv Hpos Hinit Hknown Hruns
              Hq0 Hq1 Hcl) as (v & T' & H).
  exists v, T'. split; [exact H|].
  eapply many_more; [exact Hruns | eapply run_compute; exact H].
Qed.

Lemma compute_abundance_never_raises_witness :
  exists v T',
    compute_abundance_at self_ext_tree (strains_config med) species_S = Ok (v, T')
    /\ many run self_ext_tree0 T'.
Proof.
  assert (Hc : exists cl, clade_at (root self_ext_tree) species_S = Some cl)
    by (vm_compute; eexists; reflexivity).
  destruct Hc as [cl Hc].
  assert (Ha : exists s,
             add_reads self_ext_tree0 "m1" 5 false false false false
             = Ok (s, self_ext_tree)) by (vm_compute; eexists; reflexivity).
  destruct Ha as [s Ha].
  apply (compute_abundance_never_raises self_ext_db self_ext_tree0 self_ext_tree
           (strains_config med) species_S cl).
  - vm_compute. reflexivity.
  - vm_compute. reflexivity.
  - vm_compute. reflexivity.
  - vm_compute. reflexivity.
  - eapply many_more; [apply many_none|].
    eapply run_add_reads; [|exact Ha]. lia.
  - vm_compute. discriminate.
  - vm_compute. reflexivity.
  - exact Hc.
Defined.

(** ** Results are kept *)

Lemma keeps_results_refl (c : TaxClade) : keeps_results c c.
Proof.
  induction c as [c IH] using TaxClade_forall_ind.
  constructor; [reflexivity | auto |].
  induction IH; constructor; auto.
Qed.

Lemma keeps_results_trans :
  forall c1 c2 c3, keeps_results c1 c2 -> keeps_results c2 c3 -> keeps_results c1 c3.
Proof.
  induction c1 as [c1 IH] using TaxClade_forall_ind.
  intros c2 c3 H12 H23.
  inversion H12 as [? ? Hn12 Ha12 Hc12]; subst.
  inversion H23 as [? ? Hn23 Ha23 Hc23]; subst.
  constructor; [congruence | auto |].
  clear H12 H23 Hn12 Hn23 Ha12 Ha23.
  revert IH Hc23. generalize (children c3) as l3.
  induction Hc12 as [|x y l1 l2 Hxy _ IHl]; intros l3 IH Hc23.
  - inversion Hc23; subst. constructor.
  - inversion Hc23 as [|? z ? l3' Hyz Hl]; subst. constructor.
    + eapply (Forall_inv IH); eauto.
    + apply IHl; [exact (Forall_inv_tail IH) | exact Hl].
Qed.

Lemma keeps_results_find_child (cs cs' : list TaxClade) (nm : string) :
  Forall2 keeps_results cs cs' ->
  match find_child cs nm with
  | Some x => exists x', find_child cs' nm = Some x' /\ keeps_results x x'
  | None => find_child cs' nm = None
  end.
Proof.
  induction 1 as [|x y l l' Hxy _ IH]; simpl; [reflexivity|].
  inversion Hxy as [? ? Hn _ _]; subst. rewrite <- Hn.
  destruct (String.eqb (name x) nm); [eauto | exact IH].
Qed.

Lemma keeps_results_clade_at (q : ref) :
  forall c c' x,
    keeps_results c c' -> clade_at c q = Some x ->
    exists x', clade_at c' q = Some x' /\ keeps_results x x'.
Proof.
  induction q as [|nm q IH]; intros c c' x Hs H.
  - rewrite clade_at_nil in *. injection H as <-. eauto.
  - rewrite clade_at_cons in *. inversion Hs as [? ? _ _ Hcs]; subst.
    pose proof (keeps_results_find_child _ _ nm Hcs) as Hf.
    destruct (find_child (children c) nm) as [y|]; [|discriminate].
    destruct Hf as (y' & -> & Hy). eapply IH; eauto.
Qed.

Lemma keeps_results_modify_at (f : TaxClade -> TaxClade) (p : ref) :
  forall c,
    (forall cl, clade_at c p = Some cl -> keeps_results cl (f cl)) ->
    keeps_results c (modify_at f p c).
Proof.
  induction p as [|nm p IH]; intros c Hf.
  - simpl. apply Hf. reflexivity.
  - simpl. constructor; [reflexivity | auto |]. simpl.
    apply Forall2_modify_child; [apply keeps_results_refl|].
    intros x Hx. apply IH. intros cl Hcl. apply Hf.
    rewrite clade_at_cons, Hx. exact Hcl.
Qed.

Lemma compute_abundance_keeps_results T cfg :
  forall self fathers v self',
    compute_abundance T cfg fathers self = Ok (v, self') -> keeps_results self self'.
Proof.
  induction self as [self IH] using TaxClade_forall_ind.
  intros fathers v self' H.
  destruct (abundance self) as [a|] eqn:E.
  - rewrite (compute_abundance_cached _ _ _ _ _ E) in H.
    apply Ok_inj in H. injection H as _ <-. apply keeps_results_refl.
  - rewrite (compute_abundance_uncached _ _ _ _ E) in H.
    inv_bind H. rename a into rs.
    apply clade_abundance_shape in H. simpl in H.
    destruct H as (Hn & Hc & _).
    constructor; [congruence | intros a Ha'; congruence |].
    rewrite Hc. apply Forall2_map_snd.
    eapply mapM_Forall2; [|exact Ha].
    eapply Forall_impl; [|exact IH].
    intros x Hx [vy cy] Hy. simpl. eapply Hx; eauto.
Qed.

Lemma step_keeps_results (T T' : TaxTree) :
  step T T' -> keeps_results (root T) (root T').
Proof.
  assert (Hset : forall T p marker n,
             keeps_results (root T) (root (set_markers2nreads_at T p marker n))).
  { intros T0 p marker n. unfold set_markers2nreads_at.
    destruct T0 as [r ac ml mc tc me]. simpl.
    apply keeps_results_modify_at.
    intros cl _. constructor; [reflexivity | auto |]. simpl.
    clear. induction (children cl); constructor; auto using keeps_results_refl. }
  intros [T0 marker n iv ie ib ia s T1 H | T0 p marker n | T0 cfg p v T1 H].
  - apply add_reads_tree in H. destruct H as [-> | [p ->]];
      [apply keeps_results_refl | apply Hset].
  - apply Hset.
  - unfold compute_abundance_at in H.
    inv_bind H. destruct a as [fs cl]. inv_bind H. destruct a as [v' cl'].
    injection H as _ <-.
    pose proof (deref_clade_at _ _ _ _ Ha) as Hcl.
    destruct T0 as [r ac ml mc tc me]. simpl in *.
    apply keeps_results_modify_at. intros cl0 Hcl0.
    rewrite Hcl in Hcl0. injection Hcl0 as <-.
    eapply compute_abundance_keeps_results; eauto.
Qed.

Lemma steps_keep_results (T T' : TaxTree) :
  many step T T' -> keeps_results (root T) (root T').
Proof.
  induction 1 as [|T1 T2 T3 _ IH Hs]; [apply keeps_results_refl|].
  eapply keeps_results_trans; [exact IH | apply step_keeps_results; exact Hs].
Qed.

(** X13.  An abundance, once stored, is never changed nor dropped:
    whatever reads are recorded afterwards, whatever marker counts are
    assigned and whatever abundances are computed, on this clade or on
    any other and under any configuration, the clade that a reference
    denotes keeps the abundance it has. *)
Theorem stored_abundance_is_never_overwritten
    (T T' : TaxTree) (q : ref) (cq : TaxClade) (a : Q) :
  many step T T' ->
  clade_at (root T) q = Some cq ->
  abundance cq = Some a ->
  exists cq', clade_at (root T') q = Some cq' /\ abundance cq' = Some a.
Proof.
  intros Hsteps Hcq Ha.
  destruct (keeps_results_clade_at q _ _ _ (steps_keep_results _ _ Hsteps) Hcq)
    as (cq' & Hcq' & Hk).
  exists cq'. split; [exact Hcq'|].
  inversion Hk as [? ? _ Hab _]; subst. apply Hab. exact Ha.
Qed.

Lemma stored_abundance_is_never_overwritten_witness :
  exists cq',
    clade_at (root strains_tree3) species_S = Some cq'
    /\ abundance cq' = Some (40 # 200)%Q.
Proof.
  assert (Hc : exists cq,
             clade_at (root strains_tree2) species_S = Some cq
             /\ abundance cq = Some (40 # 200)%Q)
    by (vm_compute; eexists; split; reflexivity).
  destruct Hc as (cq & Hcq & Ha).
  assert (Hs : exists v,
             compute_abundance_at
               (set_markers2nreads_at strains_tree2 species_S "s1" 99)
               short_config ["k__K"%string] = Ok (v, strains_tree3))
    by (vm_compute; eexists; reflexivity).
  destruct Hs as [v Hs].
  apply (stored_abundance_is_never_overwritten strains_tree2 strains_tree3
           species_S cq (40 # 200)%Q); [|exact Hcq|exact Ha].
  eapply many_more; [|eapply step_compute; exact Hs].
  eapply many_more; [apply many_none | apply step_assign].
Defined.

(** ** Reading the mapping *)

Lemma set_add_In (s : list string) (r0 r : string) :
  In r (set_add s r0) <-> In r s \/ r = r0.
Proof.
  unfold set_add. destruct (existsb (String.eqb r0) s) eqn:E.
  - split; [auto|]. intros [H | ->]; [exact H|].
    apply existsb_exists in E. destruct E as (x & Hx & Heq).
    apply String.eqb_eq in Heq. subst x. exact Hx.
  - rewrite in_app_iff. simpl. split.
    + intros [H | [H | []]]; auto.
    + intros [H | ->]; auto.
Qed.

Lemma set_add_NoDup (s : list string) (r0 : string) :
  NoDup s -> NoDup (set_add s r0).
Proof.
  intros H. unfold set_add. destruct (existsb (String.eqb r0) s) eqn:E; [exact H|].
  assert (Hout : ~ In r0 s).
  { intros Hin. assert (Ht : existsb (String.eqb r0) s = true).
    { apply existsb_exists. exists r0. split; [exact Hin | apply String.eqb_refl]. }
    congruence. }
  clear E. induction H as [|x s Hx Hs IH]; simpl.
  - constructor; [intros [] | constructor].
  - constructor.
    + rewrite in_app_iff. simpl. intros [Hin | [-> | []]]; [contradiction|].
      apply Hout. left. reflexivity.
    + apply IH. intros Hin. apply Hout. right. exact Hin.
Qed.

Lemma set_add_nonempty (s : list string) (r0 : string) : set_add s r0 <> [].
Proof.
  unfold set_add. destruct (existsb (String.eqb r0) s) eqn:E.
  - destruct s; [discriminate E | discriminate].
  - destruct s; discriminate.
Qed.

Lemma reads_of_set (d : dict (list string)) (m0 m : string) (s : list string) :
  reads_of (dict_set d m0 s) m = if String.eqb m0 m then s else reads_of d m.
Proof.
  unfold reads_of. destruct (String.eqb_spec m0 m) as [->|Hne].
  - rewrite dict_get_set_same. reflexivity.
  - rewrite dict_get_set_other by congruence. reflexivity.
Qed.

Lemma group_reads_In (items : list (string * string)) :
  forall acc r m,
    In r (reads_of (group_reads items acc) m)
    <-> In r (reads_of acc m) \/ In (r, m) items.
Proof.
  induction items as [|[r0 m0] items IH]; intros acc r m; simpl.
  - tauto.
  - rewrite IH, reads_of_set.
    change (match dict_get acc m0 with Some s => s | None => [] end)
      with (reads_of acc m0).
    destruct (String.eqb_spec m0 m) as [->|Hne].
    + rewrite set_add_In. split.
      * intros [[H | ->] | H]; auto.
      * intros [H | [E | H]]; auto. injection E as ->. auto.
    + split.
      * intros [H | H]; auto.
      * intros [H | [E | H]]; auto. injection E as _ E. congruence.
Qed.

Lemma group_reads_sets (items : list (string * string)) :
  forall acc,
    (forall m s, dict_get acc m = Some s -> s <> [] /\ NoDup s) ->
    forall m s, dict_get (group_reads items acc) m = Some s -> s <> [] /\ NoDup s.
Proof.
  induction items as [|[r0 m0] items IH]; intros acc Hacc; simpl; [exact Hacc|].
  apply IH. intros m s Hm.
  destruct (string_dec m m0) as [->|Hne].
  - rewrite dict_get_set_same in Hm. injection Hm as <-.
    split; [apply set_add_nonempty|]. apply set_add_NoDup.
    destruct (dict_get acc m0) as [s0|] eqn:E; [apply (Hacc _ _ E) | constructor].
  - rewrite dict_get_set_other in Hm by exact Hne. eapply Hacc; eauto.
Qed.

Lemma dict_get_unique {V : Type} (d : dict V) (k : string) (v : V) :
  NoDup (dict_keys d) -> (In (k, v) d <-> dict_get d k = Some v).
Proof.
  intros Hnd. split; [|apply dict_get_In].
  induction d as [|[k' v'] d IH]; intros Hin; [contradiction|].
  simpl in *. inversion Hnd as [|? ? Hout Hnd']; subst.
  destruct Hin as [E | Hin].
  - injection E as -> ->. rewrite String.eqb_refl. reflexivity.
  - destruct (String.eqb_spec k' k) as [->|_]; [|apply IH; assumption].
    exfalso. apply Hout. unfold dict_keys. apply in_map_iff. exists (k, v). auto.
Qed.

Lemma dict_set_keys {V : Type} (d : dict V) (k : string) (v : V) :
  NoDup (dict_keys d) -> NoDup (dict_keys (dict_set d k v)).
Proof.
  unfold dict_keys. intros Hnd.
  assert (Hk : forall d : dict V,
             map fst (dict_set d k v) = map fst d
             \/ (~ In k (map fst d) /\ map fst (dict_set d k v) = map fst d ++ [k])).
  { clear. induction d as [|[k' v'] d IH]; simpl.
    - right. split; [intros [] | reflexivity].
    - destruct (String.eqb_spec k' k) as [->|Hne]; simpl; [left; reflexivity|].
      destruct IH as [-> | [Hout ->]]; [left; reflexivity|].
      right. split; [|reflexivity]. intros [E | H]; [congruence | contradiction]. }
  destruct (Hk d) as [-> | [Hout ->]]; [exact Hnd|].
  clear Hk. induction Hnd as [|x l Hx Hl IH]; simpl.
  - constructor; [intros [] | constructor].
  - constructor.
    + rewrite in_app_iff. simpl. intros [H | [-> | []]]; [contradiction|].
      apply Hout. left. reflexivity.
    + apply IH. intros H. apply Hout. right. exact H.
Qed.

Lemma read_bowtie2out_keys (lines : list string) :
  forall acc d,
    read_bowtie2out lines acc = Ok d -> NoDup (dict_keys acc) -> NoDup (dict_keys d).
Proof.
  induction lines as [|l lines IH]; intros acc d H Hnd; cbn [read_bowtie2out] in H.
  - injection H as <-. exact Hnd.
  - destruct (fields l) as [|r [|c [|x xs]]]; try discriminate.
    eapply IH; [exact H|]. apply dict_set_keys. exact Hnd.
Qed.

Lemma read_sam_keys (lines : list string) :
  forall acc d,
    read_sam lines acc = Ok d -> NoDup (dict_keys acc) -> NoDup (dict_keys d).
Proof.
  induction lines as [|l lines IH]; intros acc d H Hnd; cbn [read_sam] in H.
  - injection H as <-. exact Hnd.
  - cbv zeta in H. inv_bind H. inv_bind H.
    destruct (negb (Ascii.eqb a0 "@")); [|eapply IH; eauto].
    inv_bind H. inv_bind H.
    destruct (negb (Ascii.eqb a2 "*")); [|eapply IH; eauto].
    eapply IH; [exact H|]. apply dict_set_keys. exact Hnd.
Qed.

Lemma map2bbh_sets (lines : list string) (d : dict (list string)) :
  map2bbh lines "bowtie2out" = Ok d ->
  exists reads2markers,
    read_bowtie2out lines [] = Ok reads2markers
    /\ forall r m, In r (reads_of d m) <-> dict_get reads2markers r = Some m.
Proof.
  unfold map2bbh. change (String.eqb "bowtie2out" "bowtie2out") with true. cbv iota.
  intros H. inv_bind H. rename a into r2m. injection H as <-.
  exists r2m. split; [exact Ha|].
  assert (Hnd : NoDup (dict_keys r2m))
    by (eapply read_bowtie2out_keys; [exact Ha | constructor]).
  intros r m. rewrite group_reads_In, <- (dict_get_unique r2m r m Hnd).
  unfold reads_of. simpl. tauto.
Qed.

(** X14.  [map2bbh] groups the reads by marker.  In the dict it returns,
    a read is in the set of a marker exactly when the marker is the value
    of the read in [reads2markers]; so every read is in the set of one
    marker only, no set is empty, and no set holds a read twice.  This
    holds for both input types. *)
Theorem map2bbh_groups_reads_by_marker
    (lines : list string) (input_type : string) (d : dict (list string)) :
  map2bbh lines input_type = Ok d ->
  (exists reads2markers,
      (if String.eqb input_type "bowtie2out" then read_bowtie2out lines []
       else if String.eqb input_type "sam" then read_sam lines []
       else Ok []) = Ok reads2markers
      /\ forall r m, In r (reads_of d m) <-> dict_get reads2markers r = Some m)
  /\ (forall r m m', In r (reads_of d m) -> In r (reads_of d m') -> m = m')
  /\ (forall m s, dict_get d m = Some s -> s <> [] /\ NoDup s).
Proof.
  unfold map2bbh. intros H. inv_bind H. rename a into r2m. injection H as <-.
  assert (Hnd : NoDup (dict_keys r2m)).
  { destruct (String.eqb input_type "bowtie2out").
    - eapply read_bowtie2out_keys; [exact Ha | constructor].
    - destruct (String.eqb input_type "sam").
      + eapply read_sam_keys; [exact Ha | constructor].
      + injection Ha as <-. constructor. }
  assert (Hiff : forall r m,
             In r (reads_of (group_reads r2m []) m) <-> dict_get r2m r = Some m).
  { intros r m. rewrite group_reads_In, <- (dict_get_unique r2m r m Hnd).
    unfold reads_of. simpl. tauto. }
  split; [exists r2m; split; [exact Ha | exact Hiff]|]. split.
  - intros r m m' H1 H2. apply Hiff in H1. apply Hiff in H2. congruence.
  - apply group_reads_sets. intros m s Hm. discriminate Hm.
Qed.

Lemma map2bbh_groups_reads_by_marker_witness :
  (exists reads2markers,
      read_bowtie2out ["r1	m1"; "r2	m2"; "r1	m2"; "r3	m1"]%string [] = Ok reads2markers
      /\ forall r m,
           In r (reads_of [("m2", ["r1"; "r2"]); ("m1", ["r3"])]%string m)
           <-> dict_get reads2markers r = Some m)
  /\ (forall r m m',
        In r (reads_of [("m2", ["r1"; "r2"]); ("m1", ["r3"])]%string m) ->
        In r (reads_of [("m2", ["r1"; "r2"]); ("m1", ["r3"])]%string m') -> m = m')
  /\ (forall m s,
        dict_get [("m2", ["r1"; "r2"]); ("m1", ["r3"])]%string m = Some s ->
        s <> [] /\ NoDup s).
Proof.
  apply (map2bbh_groups_reads_by_marker
           ["r1	m1"; "r2	m2"; "r1	m2"; "r3	m1"]%string "bowtie2out").
  vm_compute. reflexivity.
Defined.

Lemma read_bowtie2out_last (lines : list string) :
  forall acc d r,
    read_bowtie2out lines acc = Ok d ->
    dict_get d r = match last_record lines r with
                   | Some c => Some c
                   | None => dict_get acc r
                   end.
Proof.
  induction lines as [|l lines IH]; intros acc d r H;
    cbn [read_bowtie2out last_record] in *.
  - injection H as <-. reflexivity.
  - destruct (fields l) as [|r' [|c [|x xs]]]; try discriminate.
    rewrite (IH _ _ r H).
    destruct (last_record lines r); [reflexivity|].
    destruct (String.eqb_spec r' r) as [->|Hne].
    + apply dict_get_set_same.
    + apply dict_get_set_other. congruence.
Qed.

(** X15.  In a bowtie2out input the last line of a read wins: [map2bbh]
    files a read under a marker exactly when the last line that names the
    read names that marker; earlier lines of the read leave no trace. *)
Theorem bowtie2out_last_line_wins (lines : list string) (d : dict (list string)) :
  map2bbh lines "bowtie2out" = Ok d ->
  forall r m, In r (reads_of d m) <-> last_record lines r = Some m.
Proof.
  intros H.
  destruct (map2bbh_sets lines d H) as (r2m & Hr & Hiff).
  intros r m. rewrite Hiff, (read_bowtie2out_last _ _ _ r Hr). simpl.
  destruct (last_record lines r); split; congruence.
Qed.

Lemma bowtie2out_last_line_wins_witness :
  (In "r1"%string (reads_of [("m2", ["r1"; "r2"]); ("m1", ["r3"])]%string "m2")
   <-> last_record ["r1	m1"; "r2	m2"; "r1	m2"; "r3	m1"]%string "r1" = Some "m2"%string)
  /\ (In "r1"%string (reads_of [("m2", ["r1"; "r2"]); ("m1", ["r3"])]%string "m1")
      <-> last_record ["r1	m1"; "r2	m2"; "r1	m2"; "r3	m1"]%string "r1" = Some "m1"%string).
Proof.
  assert (H : map2bbh ["r1	m1"; "r2	m2"; "r1	m2"; "r3	m1"]%string "bowtie2out"
              = Ok [("m2", ["r1"; "r2"]); ("m1", ["r3"])]%string)
    by (vm_compute; reflexivity).
  split.
  - exact (bowtie2out_last_line_wins _ _ H "r1"%string "m2"%string).
  - exact (bowtie2out_last_line_wins _ _ H "r1"%string "m1"%string).
Defined.

Lemma read_bowtie2out_outcome (lines : list string) :
  forall acc,
    (Forall (fun l => List.length (fields l) = 2%nat) lines ->
     exists d, read_bowtie2out lines acc = Ok d)
    /\ (Exists (fun l => List.length (fields l) <> 2%nat) lines ->
        read_bowtie2out lines acc = Raise ValueError).
Proof.
  induction lines as [|l lines IH]; intros acc; cbn [read_bowtie2out].
  - split; [intros _; eexists; reflexivity | intros H; inversion H].
  - destruct (fields l) as [|r [|c [|x xs]]] eqn:E; simpl.
    + split; [intros H; apply Forall_inv in H; rewrite E in H; discriminate | reflexivity].
    + split; [intros H; apply Forall_inv in H; rewrite E in H; discriminate | reflexivity].
    + split.
      * intros H. apply (IH (dict_set acc r c)). exact (Forall_inv_tail H).
      * intros H. apply (IH (dict_set acc r c)).
        inversion H as [? ? Hl | ? ? Hr]; subst;
          [exfalso; apply Hl; rewrite E; reflexivity | exact Hr].
    + split; [intros H; apply Forall_inv in H; rewrite E in H; discriminate | reflexivity].
Qed.

(** X16.  On a bowtie2out input [map2bbh] raises [ValueError] exactly
    when some line, stripped and split at the tabs, does not give two
    fields (a blank line, a line without a tab, a line with two tabs);
    when every line gives two fields it returns. *)
Theorem bowtie2out_needs_two_fields (lines : list string) :
  (Forall (fun l => List.length (fields l) = 2%nat) lines ->
   exists d, map2bbh lines "bowtie2out" = Ok d)
  /\ (Exists (fun l => List.length (fields l) <> 2%nat) lines ->
      map2bbh lines "bowtie2out" = Raise ValueError).
Proof.
  unfold map2bbh. cbn [String.eqb Ascii.eqb Bool.eqb andb].
  change (String.eqb "bowtie2out" "bowtie2out") with true. cbv iota.
  destruct (read_bowtie2out_outcome lines []) as [H1 H2]. split.
  - intros H. destruct (H1 H) as [d ->]. cbn [bind]. eexists. reflexivity.
  - intros H. rewrite (H2 H). reflexivity.
Qed.

Lemma bowtie2out_needs_two_fields_witness :
  (exists d, map2bbh ["r1	m1"; "r2	m2"]%string "bowtie2out" = Ok d)
  /\ map2bbh ["r1	m1"; "r2"; "r3	m1"]%string "bowtie2out" = Raise ValueError.
Proof.
  split.
  - apply (proj1 (bowtie2out_needs_two_fields ["r1	m1"; "r2	m2"]%string)).
    repeat constructor.
  - apply (proj2 (bowtie2out_needs_two_fields ["r1	m1"; "r2"; "r3	m1"]%string)).
    apply Exists_cons_tl. apply Exists_cons_hd. vm_compute. discriminate.
Defined.

(** ** Guessing the input format *)

Lemma guess_loop_comments (cs rest : list string) :
  Forall comment_line cs ->
  forall i, guess_loop i (cs ++ rest) = guess_loop (i + List.length cs) rest.
Proof.
  induction 1 as [|l cs Hl _ IH]; intros i.
  - simpl. rewrite Nat.add_0_r. reflexivity.
  - cbn [app guess_loop List.length]. unfold comment_line in Hl. rewrite Hl.
    cbn [bind]. change (Ascii.eqb "#" "#") with true. cbv iota.
    rewrite IH. f_equal. lia.
Qed.

Lemma guess_loop_undecided (l : string) (rest : list string) (i : nat) :
  undecided_line l ->
  guess_loop i (l :: rest) = if (20 <? i)%nat then Ok None else guess_loop (S i) rest.
Proof.
  intros (c & Hc & H1 & H2 & H3 & H4). cbn [guess_loop]. rewrite Hc. cbn [bind].
  destruct (Ascii.eqb_spec c "#"); [contradiction|].
  destruct (Ascii.eqb_spec c ">"); [contradiction|].
  destruct (Ascii.eqb_spec c "@"); [contradiction|].
  destruct (Nat.eqb_spec (List.length (Str.split tab_char l)) 2); [contradiction|].
  reflexivity.
Qed.

Lemma guess_loop_undecided_few (pre rest : list string) :
  Forall undecided_line pre ->
  forall i, (i + List.length pre <= 21)%nat ->
            guess_loop i (pre ++ rest) = guess_loop (i + List.length pre) rest.
Proof.
  induction 1 as [|l pre Hl _ IH]; intros i Hi.
  - simpl. rewrite Nat.add_0_r. reflexivity.
  - cbn [app List.length] in *. rewrite (guess_loop_undecided _ _ _ Hl).
    destruct (Nat.ltb_spec 20 i); [lia|].
    rewrite IH by lia. f_equal. lia.
Qed.

Lemma guess_loop_undecided_many (pre rest : list string) :
  Forall undecided_line pre ->
  forall i, (i <= 21)%nat -> (22 <= i + List.length pre)%nat ->
            guess_loop i (pre ++ rest) = Ok None.
Proof.
  induction 1 as [|l pre Hl _ IH]; intros i Hi Hlen.
  - simpl in Hlen. lia.
  - cbn [app List.length] in *. rewrite (guess_loop_undecided _ _ _ Hl).
    destruct (Nat.ltb_spec 20 i); [reflexivity|].
    apply IH; lia.
Qed.

Lemma guess_loop_undecided_all (pre : list string) :
  Forall undecided_line pre -> forall i, guess_loop i pre = Ok None.
Proof.
  induction 1 as [|l pre Hl _ IH]; intros i; [reflexivity|].
  rewrite (guess_loop_undecided _ _ _ Hl).
  destruct (20 <? i)%nat; [reflexivity | apply IH].
Qed.

(** X17.  The first line that is no comment decides the format.  After
    any number of comment lines, with no limit: a line whose first
    character is [>] makes [guess_input_format] return ['multifasta'], a
    line whose first character is [@] makes it return ['multifastq'], any
    other line of two tab-separated fields makes it return
    ['bowtie2out'], and a blank line makes it raise [IndexError]. *)
Theorem first_significant_line_decides (cs : list string) (l : string) (rest : list string) :
  Forall comment_line cs ->
  (Str.first (Str.strip l) = Ok ">"%char ->
   guess_input_format (cs ++ l :: rest) = Ok (Some "multifasta"%string))
  /\ (Str.first (Str.strip l) = Ok "@"%char ->
      guess_input_format (cs ++ l :: rest) = Ok (Some "multifastq"%string))
  /\ (forall c, Str.first (Str.strip l) = Ok c ->
                c <> "#"%char -> c <> ">"%char -> c <> "@"%char ->
                List.length (Str.split tab_char l) = 2%nat ->
                guess_input_format (cs ++ l :: rest) = Ok (Some "bowtie2out"%string))
  /\ (Str.strip l = EmptyString ->
      guess_input_format (cs ++ l :: rest) = Raise IndexError).
Proof.
  intros Hcs. unfold guess_input_format. rewrite (guess_loop_comments _ _ Hcs).
  cbn [guess_loop]. repeat split.
  - intros ->. reflexivity.
  - intros ->. reflexivity.
  - intros c -> H1 H2 H3 H4. cbn [bind].
    destruct (Ascii.eqb_spec c "#"); [contradiction|].
    destruct (Ascii.eqb_spec c ">"); [contradiction|].
    destruct (Ascii.eqb_spec c "@"); [contradiction|].
    rewrite H4. reflexivity.
  - intros ->. reflexivity.
Qed.

Lemma first_significant_line_decides_witness :
  guess_input_format (["# one"%string; "  # two"%string] ++ ">seq1"%string :: ["ACGT"%string])
  = Ok (Some "multifasta"%string).
Proof.
  destruct (first_significant_line_decides
              ["# one"%string; "  # two"%string] ">seq1" ["ACGT"%string])
    as (H & _).
  - repeat constructor.
  - apply H. reflexivity.
Defined.

(** X18.  The format is sought in the first 22 lines.  When the lines
    before a line are neither comments nor decisive, the line still
    decides if at most 21 lines precede it; after 22 such lines
    [guess_input_format] returns [None], whatever follows; and it returns
    [None] for a file that has such lines only. *)
Theorem format_is_sought_in_22_lines (pre : list string) (l : string) (rest : list string) :
  Forall undecided_line pre ->
  ((List.length pre <= 21)%nat ->
   Str.first (Str.strip l) = Ok ">"%char ->
   guess_input_format (pre ++ l :: rest) = Ok (Some "multifasta"%string))
  /\ ((22 <= List.length pre)%nat -> guess_input_format (pre ++ l :: rest) = Ok None)
  /\ guess_input_format pre = Ok None.
Proof.
  intros Hpre. unfold guess_input_format. repeat split.
  - intros Hlen Hl. rewrite (guess_loop_undecided_few _ _ Hpre) by (simpl; lia).
    cbn [guess_loop]. rewrite Hl. reflexivity.
  - intros Hlen. apply (guess_loop_undecided_many _ _ Hpre); simpl; lia.
  - apply guess_loop_undecided_all. exact Hpre.
Qed.

Lemma format_is_sought_in_22_lines_witness :
  guess_input_format (repeat "ACGT"%string 22 ++ ">seq1"%string :: []) = Ok None
  /\ guess_input_format (repeat "ACGT"%string 21 ++ ">seq1"%string :: [])
     = Ok (Some "multifasta"%string).
Proof.
  assert (Hu : undecided_line "ACGT").
  { exists "A"%char. repeat split; try discriminate. }
  assert (Hall : forall n, Forall undecided_line (repeat "ACGT"%string n)).
  { intros n. apply Forall_forall. intros x Hx. apply repeat_spec in Hx.
    subst x. exact Hu. }
  split.
  - destruct (format_is_sought_in_22_lines (repeat "ACGT"%string 22) ">seq1" []
                (Hall 22%nat)) as (_ & H & _).
    apply H. rewrite repeat_length. lia.
  - destruct (format_is_sought_in_22_lines (repeat "ACGT"%string 21) ">seq1" []
                (Hall 21%nat)) as (H & _ & _).
    apply H; [rewrite repeat_length; lia | reflexivity].
Defined.

(** ** Clades that give no marker back *)

Lemma restore_removed_single cfg fathers self (active removed : list (Z * Z)) :
  (List.length (get_terminals self) < 2)%nat
  \/ Str.contains "k__Viruses" (get_full_name fathers self) = true ->
  restore_removed cfg fathers self active removed = active.
Proof.
  intros H. unfold restore_removed. cbv zeta.
  destruct (_ && _); [|reflexivity].
  rewrite n_ripr_value.
  assert (E : (List.length (get_terminals self) <? 2)%nat
              || Str.contains "k__Viruses" (get_full_name fathers self) = true).
  { destruct H as [H | ->]; [|apply orb_true_r].
    apply Nat.ltb_lt in H. rewrite H. reflexivity. }
  rewrite E.
  assert (Hn : Qltb (float (Z.of_nat (List.length active))) (float 0) = false).
  { apply Qltb_false. apply (proj1 (float_le 0 _)). lia. }
  rewrite Hn. reflexivity.
Qed.

(** X21.  A clade with a single terminal, so every leaf, and every clade
    of the viral kingdom gives no marker back: whatever the
    disambiguation removed stays removed, however few markers are left,
    and the active markers of the clade are those that were not removed,
    sorted by count. *)
Theorem single_terminal_gives_no_marker_back
    (T : TaxTree) (cfg : Config) (fathers : list TaxClade) (self : TaxClade)
    (active removed : list (Z * Z)) :
  children self = []
  \/ (List.length (get_terminals self) < 2)%nat
  \/ Str.contains "k__Viruses" (get_full_name fathers self) = true ->
  split_markers T cfg (markers2nreads self) = Ok (active, removed) ->
  restore_removed cfg fathers self active removed = active
  /\ active_markers T cfg fathers self = Ok (sorted by_count active).
Proof.
  intros H Hsplit.
  assert (H' : (List.length (get_terminals self) < 2)%nat
               \/ Str.contains "k__Viruses" (get_full_name fathers self) = true).
  { destruct H as [Hc | H]; [|exact H]. left.
    destruct self as [nm cs m u sb ab ua r]. simpl in Hc. subst cs. simpl. lia. }
  pose proof (restore_removed_single cfg fathers self active removed H') as Hr.
  split; [exact Hr|].
  unfold active_markers.
  destruct (split_markers_lens _ _ _ _ Hsplit) as [ys ->]. cbn [bind].
  rewrite Hsplit. cbn [bind]. rewrite Hr. reflexivity.
Qed.

Lemma single_terminal_gives_no_marker_back_witness :
  exists fs cl,
    resolve [] (root leaf_tree) strain_X = Some (fs, cl)
    /\ split_markers leaf_tree disqm_config (markers2nreads cl) = Ok ([], [(100, 3)]%Z)
    /\ restore_removed disqm_config fs cl [] [(100, 3)]%Z = []
    /\ active_markers leaf_tree disqm_config fs cl = Ok (sorted by_count []).
Proof.
  assert (H : exists fs cl,
             resolve [] (root leaf_tree) strain_X = Some (fs, cl)
             /\ children cl = []
             /\ split_markers leaf_tree disqm_config (markers2nreads cl)
                = Ok ([], [(100, 3)]%Z))
    by (vm_compute; do 2 eexists; repeat split; reflexivity).
  destruct H as (fs & cl & Hres & Hc & Hs).
  exists fs, cl. split; [exact Hres|]. split; [exact Hs|].
  apply (single_terminal_gives_no_marker_back leaf_tree disqm_config fs cl);
    [left; exact Hc | exact Hs].
Defined.

(** ** The clade profiles *)

Lemma clade_profiles_loop_entries (T : TaxTree) (tax_lev : option string)
    (P : string -> list (string * Q) -> Prop) (items : list (string * ref)) :
  (forall k v fs cl prof,
      In (k, v) items ->
      deref T v = Ok (fs, cl) ->
      get_normalized_counts T cl = Ok prof ->
      prof <> [] -> (0 < sumQ (map snd prof))%Q ->
      P (get_full_name fs cl) prof) ->
  forall acc d,
    clade_profiles_loop T tax_lev items acc = Ok d ->
    (forall key prof, dict_get acc key = Some prof -> P key prof) ->
    forall key prof, dict_get d key = Some prof -> P key prof.
Proof.
  induction items as [|[k v] items IH]; intros HP acc d H Hacc;
    cbn [clade_profiles_loop] in H.
  - injection H as <-. exact Hacc.
  - assert (HP' : forall k0 v0 fs cl prof,
               In (k0, v0) items ->
               deref T v0 = Ok (fs, cl) ->
               get_normalized_counts T cl = Ok prof ->
               prof <> [] -> (0 < sumQ (map snd prof))%Q ->
               P (get_full_name fs cl) prof)
      by (intros k0 v0 fs0 cl0 prof0 Hin Hd Hp Hne Hpos;
          apply (HP k0 v0 fs0 cl0 prof0); [right; exact Hin | assumption ..]).
    destruct (_ && _); [eapply IH; eauto|].
    inv_bind H. destruct a as [fs cl]. inv_bind H. rename a into prof.
    destruct ((List.length prof <? 1)%nat || negb (Qltb 0 (sumQ (map snd prof)))) eqn:E;
      [eapply IH; eauto|].
    apply orb_false_iff in E. destruct E as [E1 E2].
    apply negb_false_iff in E2. apply Qltb_true in E2.
    eapply IH; [exact HP' | exact H|].
    intros key prof' Hk.
    destruct (string_dec key (get_full_name fs cl)) as [->|Hne].
    + rewrite dict_get_set_same in Hk. injection Hk as <-.
      eapply (HP k v); eauto; [left; reflexivity|].
      intros ->. discriminate E1.
    + rewrite dict_get_set_other in Hk by exact Hne. apply Hacc. exact Hk.
Qed.

Lemma get_normalized_counts_total (T : TaxTree) (cl : TaxClade) :
  (forall m l, dict_get (markers2lens T) m = Some l -> (0 < l)%Z) ->
  counts_known (markers2lens T) cl ->
  exists prof, get_normalized_counts T cl = Ok prof.
Proof.
  intros Hlens Hk. unfold get_normalized_counts. apply mapM_total.
  apply Forall_forall. intros [m n] Hin. cbn [fst snd].
  pose proof (Hk m (In_dict_mem _ _ _ Hin)) as Hm. unfold dict_mem in Hm.
  unfold dict_lookup. destruct (dict_get (markers2lens T) m) as [l|] eqn:E; [|discriminate].
  cbn [bind]. rewrite fdiv_nonzero.
  - cbn [bind]. eexists. reflexivity.
  - intros E0. pose proof (Hlens m l E) as Hl.
    apply (proj1 (float_lt 0 l)) in Hl. rewrite E0 in Hl.
    apply (Qlt_irrefl 0). exact Hl.
Qed.

Lemma clade_profiles_loop_total (T : TaxTree) (tax_lev : option string)
    (items : list (string * ref)) :
  (forall k v, In (k, v) items ->
               exists fs cl, deref T v = Ok (fs, cl)
                             /\ exists prof, get_normalized_counts T cl = Ok prof) ->
  forall acc, exists d, clade_profiles_loop T tax_lev items acc = Ok d.
Proof.
  induction items as [|[k v] items IH]; intros Hall acc; cbn [clade_profiles_loop].
  - eexists. reflexivity.
  - assert (Hall' : forall k0 v0, In (k0, v0) items ->
               exists fs cl, deref T v0 = Ok (fs, cl)
                             /\ exists prof, get_normalized_counts T cl = Ok prof)
      by (intros k0 v0 Hin; apply (Hall k0 v0); right; exact Hin).
    destruct (_ && _); [apply IH; exact Hall'|].
    destruct (Hall k v (or_introl eq_refl)) as (fs & cl & -> & prof & Hp).
    cbn [bind]. rewrite Hp. cbn [bind].
    destruct (_ || _); apply IH; exact Hall'.
Qed.

(** X19.  What [clade_profiles] returns.  Every profile in the dict is
    the list of normalized counts, 1000 reads per base, of a clade of
    [all_clades] whose name starts with the requested rank, filed under
    the full name of that clade; it is not empty and its counts sum to
    more than 0. *)
Theorem clade_profiles_are_positive
    (T : TaxTree) (tax_lev : option string) (d : dict (list (string * Q)))
    (key : string) (prof : list (string * Q)) :
  clade_profiles T tax_lev = Ok d ->
  dict_get d key = Some prof ->
  prof <> []
  /\ (0 < sumQ (map snd prof))%Q
  /\ exists k v fs cl,
       In (k, v) (all_clades T)
       /\ deref T v = Ok (fs, cl)
       /\ key = get_full_name fs cl
       /\ get_normalized_counts T cl = Ok prof.
Proof.
  unfold clade_profiles. intros H Hk.
  apply (clade_profiles_loop_entries T tax_lev
           (fun key prof =>
              prof <> []
              /\ (0 < sumQ (map snd prof))%Q
              /\ exists k v fs cl,
                   In (k, v) (all_clades T)
                   /\ deref T v = Ok (fs, cl)
                   /\ key = get_full_name fs cl
                   /\ get_normalized_counts T cl = Ok prof)
           (all_clades T)) with (acc := []) (d := d); try assumption.
  - intros k v fs cl prof0 Hin Hd Hp Hne Hpos.
    split; [exact Hne|]. split; [exact Hpos|]. exists k, v, fs, cl. auto.
  - intros key0 prof0 H0. discriminate H0.
Qed.

Lemma clade_profiles_are_positive_witness :
  exists prof,
    dict_get (match clade_profiles strains_reads_tree (Some "t__"%string) with
              | Ok d => d
              | Raise _ => []
              end) "k__K|p__P|c__C|o__O|f__F|g__G|s__S|t__X" = Some prof
    /\ prof <> []
    /\ (0 < sumQ (map snd prof))%Q.
Proof.
  assert (H : exists d prof,
             clade_profiles strains_reads_tree (Some "t__"%string) = Ok d
             /\ dict_get d "k__K|p__P|c__C|o__O|f__F|g__G|s__S|t__X" = Some prof)
    by (vm_compute; do 2 eexists; split; reflexivity).
  destruct H as (d & prof & Hd & Hp).
  destruct (clade_profiles_are_positive _ _ _ _ _ Hd Hp) as (H1 & H2 & _).
  exists prof. rewrite Hd. auto.
Defined.

Lemma init_level_keys T father lev T' father' :
  init_level T father lev = Ok (T', father') ->
  NoDup (dict_keys (all_clades T)) -> NoDup (dict_keys (all_clades T')).
Proof.
  unfold init_level. intros H Hnd.
  inv_bind H. destruct a as [fs fcl]. inv_bind H. injection H as <- _.
  destruct (Ascii.eqb _ _); destruct (find_child _ _); simpl;
    try exact Hnd; apply dict_set_keys; exact Hnd.
Qed.

Lemma init_lineage_keys (levels : list string) :
  forall T father T',
    init_lineage T father levels = Ok T' ->
    NoDup (dict_keys (all_clades T)) -> NoDup (dict_keys (all_clades T')).
Proof.
  induction levels as [|lev levels IH]; simpl; intros T father T' H Hnd.
  - injection H as <-. exact Hnd.
  - inv_bind H. destruct a as [T1 father1].
    eapply IH; [exact H|]. eapply init_level_keys; eauto.
Qed.

Lemma init_taxonomy_keys (lines : list string) :
  forall T T',
    init_taxonomy T lines = Ok T' ->
    NoDup (dict_keys (all_clades T)) -> NoDup (dict_keys (all_clades T')).
Proof.
  induction lines as [|l lines IH]; simpl; intros T T' H Hnd.
  - injection H as <-. exact Hnd.
  - inv_bind H. eapply IH; [exact H|]. eapply init_lineage_keys; eauto.
Qed.

Lemma init_markers_all_clades (items : list (string * Marker)) :
  forall T T', init_markers T items = Ok T' -> all_clades T' = all_clades T.
Proof.
  induction items as [|[k p] items IH]; intros T T' H; cbn [init_markers] in H.
  - injection H as <-. reflexivity.
  - destruct (existsb (String.eqb k) markers_to_exclude); [eapply IH; eauto|].
    inv_bind H. destruct a as [s T2].
    pose proof (add_reads_skeleton _ _ _ _ _ _ _ _ _ Ha) as (_ & Hac & _).
    simpl in Hac. rewrite (IH _ _ H). simpl. exact Hac.
Qed.

Lemma TaxTree_init_keys (mpa_pkl : MpaPkl) (T : TaxTree) :
  TaxTree_init mpa_pkl = Ok T -> NoDup (dict_keys (all_clades T)).
Proof.
  unfold TaxTree_init. intros H. inv_bind H.
  rewrite (init_markers_all_clades _ _ _ H).
  eapply init_taxonomy_keys; [exact Ha|]. constructor.
Qed.

(** X20.  [clade_profiles] raises nothing on a tree built by
    [TaxTree.__init__] from a database whose markers all have a positive
    length, while numbers of reads are recorded with [add_reads] and
    abundances are computed, whatever rank is requested. *)
Theorem clade_profiles_never_raises
    (mpa_pkl : MpaPkl) (T0 T : TaxTree) (tax_lev : option string) :
  positive_lengths mpa_pkl = true ->
  TaxTree_init mpa_pkl = Ok T0 ->
  many run T0 T ->
  exists d, clade_profiles T tax_lev = Ok d.
Proof.
  intros Hpos Hinit Hruns.
  destruct (runs_counts_known _ _ _ Hinit Hruns) as (Hrefs & Hck & Hlens).
  destruct (runs_indexes _ _ Hruns) as (Hac & _).
  assert (Hl : forall m l, dict_get (markers2lens T) m = Some l -> (0 < l)%Z)
    by (rewrite Hlens; eapply TaxTree_init_positive; eauto).
  assert (Hnd : NoDup (dict_keys (all_clades T)))
    by (rewrite Hac; eapply TaxTree_init_keys; eauto).
  unfold clade_profiles. apply clade_profiles_loop_total.
  intros k v Hin. apply (dict_get_unique _ _ _ Hnd) in Hin.
  destruct Hrefs as (H1 & _).
  destruct (H1 _ _ Hin) as (cl & Hcl & _).
  destruct (clade_at_deref _ _ _ Hcl) as [fs Hd].
  exists fs, cl. split; [exact Hd|].
  apply get_normalized_counts_total; [exact Hl|].
  pose proof (throughout_clade_at _ _ _ _ Hck Hcl) as Hth.
  apply throughout_inv in Hth. apply Hth.
Qed.

Lemma clade_profiles_never_raises_witness :
  exists d, clade_profiles self_ext_tree (Some "s__"%string) = Ok d.
Proof.
  assert (Ha : exists s,
             add_reads self_ext_tree0 "m1" 5 false false false false
             = Ok (s, self_ext_tree)) by (vm_compute; eexists; reflexivity).
  destruct Ha as [s Ha].
  apply (clade_profiles_never_raises self_ext_db self_ext_tree0 self_ext_tree).
  - vm_compute. reflexivity.
  - vm_compute. reflexivity.
  - eapply many_more; [apply many_none|].
    eapply run_add_reads; [|exact Ha]. lia.
Defined.

(** ** The table of one rank *)



Section RankTable.

Variable T : TaxTree.
Variable lev : string.
Hypothesis lev_given : lev <> EmptyString.




End RankTable.




(** ** [relative_abundances] raises nothing on a consistent database *)

Lemma ranked_lettered :
  forall c d, ranked d c = true -> Forall (throughout lettered) (children c).
Proof.
  induction c as [c IH] using TaxClade_forall_ind.
  intros d H. rewrite ranked_unfold in H. rewrite forallb_forall in H.
  rewrite Forall_forall in *. intros ch Hin.
  specialize (H ch Hin). apply andb_true_iff in H. destruct H as [Hl Hr].
  constructor; [exists d; exact Hl|].
  apply (IH ch Hin (S d) Hr).
Qed.

Lemma skeleton_throughout (P : TaxClade -> Prop) :
  (forall c c', name c = name c' -> P c -> P c') ->
  forall c c', same_skeleton c c' -> throughout P c -> throughout P c'.
Proof.
  intros HP. induction c as [c IH] using TaxClade_forall_ind.
  intros c' Hs Hth. inversion Hs as [? ? Hn Hcs]; subst.
  apply throughout_inv in Hth. destruct Hth as [Hc Hall].
  constructor; [eapply HP; eauto|].
  clear Hc Hs Hn. induction Hcs as [|x y l l' Hxy _ IHl]; constructor.
  - apply (Forall_inv IH); [exact Hxy | exact (Forall_inv Hall)].
  - apply IHl; [exact (Forall_inv_tail IH) | exact (Forall_inv_tail Hall)].
Qed.

Lemma skeleton_below (P : TaxClade -> Prop) (c c' : TaxClade) :
  (forall c c', name c = name c' -> P c -> P c') ->
  same_skeleton c c' ->
  Forall (throughout P) (children c) -> Forall (throughout P) (children c').
Proof.
  intros HP Hs Hall. inversion Hs as [? ? _ Hcs]; subst.
  induction Hcs as [|x y l l' Hxy _ IHl]; constructor.
  - eapply skeleton_throughout; [exact HP | exact Hxy | exact (Forall_inv Hall)].
  - apply IHl. exact (Forall_inv_tail Hall).
Qed.

Lemma lettered_name (c c' : TaxClade) : name c = name c' -> lettered c -> lettered c'.
Proof. unfold lettered. intros <- H. exact H. Qed.

Lemma TaxTree_init_lettered (mpa_pkl : MpaPkl) (T : TaxTree) :
  valid_taxonomy (taxonomy mpa_pkl) = true ->
  TaxTree_init mpa_pkl = Ok T ->
  Forall (throughout lettered) (children (root T)).
Proof.
  intros Hv H. unfold TaxTree_init in H. inv_bind H.
  destruct (init_taxonomy_ranked _ _ _ Ha Hv eq_refl) as [Hr1 _].
  destruct (init_markers_ranked _ _ _ H Hr1) as [Hr2 _].
  eapply ranked_lettered; eauto.
Qed.

Lemma subcl_ok_set_children (c : TaxClade) (cs : list TaxClade) :
  List.length cs = List.length (children c) ->
  (forall s, children_sum (children c) = Some s -> children_sum cs = Some s) ->
  subcl_ok c -> subcl_ok (set_children c cs).
Proof. intros _ _ H. exact H. Qed.

Lemma clade_abundance_subcl_ok T cfg fathers self (sum_ab v : Q) (self' : TaxClade) :
  clade_abundance T cfg fathers self sum_ab = Ok (v, self') ->
  subcl_ok self -> subcl_ok self'.
Proof.
  unfold clade_abundance. intros H Hok.
  inv_bind H. rename a into rat_nreads. inv_bind H. rename a into strain.
  destruct (strain && too_few_nonzero rat_nreads).
  - injection H as _ <-. exact Hok.
  - inv_bind H. inv_bind H. rename a0 into sub. injection H as _ <-.
    unfold subcl_ok. simpl. intros -> ch Hch.
    unfold subcl_uncl_of in Ha2. destruct (children self); [|discriminate].
    rewrite Hch in Ha2. cbn [bind] in Ha2. apply Ok_inj in Ha2.
    apply negb_true_iff, orb_false_iff in Ha2. destruct Ha2 as [H1 H2].
    split; intros ->; discriminate.
Qed.

Lemma compute_abundance_subcl_ok T cfg :
  forall self fathers v self',
    throughout strain_leaf self ->
    throughout subcl_ok self ->
    compute_abundance T cfg fathers self = Ok (v, self') ->
    throughout subcl_ok self'.
Proof.
  induction self as [self IH] using TaxClade_forall_ind.
  intros fathers v self' Hleaf Hok H.
  destruct (abundance self) as [a|] eqn:E.
  - rewrite (compute_abundance_cached _ _ _ _ _ E) in H.
    apply Ok_inj in H. injection H as _ <-. exact Hok.
  - rewrite (compute_abundance_uncached _ _ _ _ E) in H.
    inv_bind H. rename a into rs.
    pose proof (clade_abundance_shape _ _ _ _ _ _ _ H) as Hshape.
    destruct Hshape as (_ & Hc & _).
    apply throughout_inv in Hleaf. destruct Hleaf as [_ Hleaves].
    apply throughout_inv in Hok. destruct Hok as [Hself Hoks].
    constructor.
    + eapply clade_abundance_subcl_ok; [exact H|]. exact Hself.
    + rewrite Hc. simpl. eapply mapM_Forall_snd; [|exact Ha].
      rewrite Forall_forall in *. intros x Hx [vy cy] Hy. simpl.
      eapply IH; eauto.
Qed.

Lemma children_sum_settled (cs : list TaxClade) (s : Q) :
  children_sum cs = Some s -> Forall settled cs.
Proof.
  revert s. induction cs as [|c cs IH]; intros s H; [constructor|].
  simpl in H. destruct (abundance c) as [a|] eqn:E; [|discriminate].
  destruct (children_sum cs) as [s'|]; [|discriminate].
  constructor; [unfold settled; congruence | eapply IH; reflexivity].
Qed.

Lemma monotone_settled :
  forall c, throughout monotone c -> settled c -> throughout settled c.
Proof.
  induction c as [c IH] using TaxClade_forall_ind.
  intros Hm Hs. apply throughout_inv in Hm. destruct Hm as [Hc Hcs].
  constructor; [exact Hs|].
  unfold settled in Hs. destruct (abundance c) as [a|] eqn:E; [|congruence].
  destruct (Hc a E) as (s & Hsum & _).
  pose proof (children_sum_settled _ _ Hsum) as Hall.
  rewrite Forall_forall in *. intros x Hx. apply IH; auto.
Qed.

(** The entries of [get_all_abundances] carry a value. *)
Definition entry_ok (e : string * option Q) : Prop := snd e <> None.

Lemma tax_units_next (d : nat) (nm : string) (ch : ascii) :
  letter_ok d nm = true ->
  Str.first nm = Ok ch ->
  ch <> "s"%char -> ch <> "t"%char ->
  exists cind u, str_find tax_units ch = Ok cind /\ str_at tax_units (cind + 1) = Ok u.
Proof.
  unfold letter_ok. intros Hl Hch Hs Ht. rewrite Hch in Hl.
  do 8 (destruct d as [|d];
        [simpl in Hl; apply Ascii.eqb_eq in Hl; subst ch;
         try contradiction; do 2 eexists; split; reflexivity|]).
  simpl in Hl. destruct d; discriminate.
Qed.

Lemma get_all_abundances_total :
  forall c,
    throughout lettered c ->
    throughout conserved c ->
    throughout subcl_ok c ->
    exists entries,
      get_all_abundances c = Ok entries
      /\ (throughout settled c -> Forall entry_ok entries).
Proof.
  induction c as [c IH] using TaxClade_forall_ind.
  intros Hlet Hcons Hsub.
  apply throughout_inv in Hlet. destruct Hlet as [[d Hd] Hlets].
  apply throughout_inv in Hcons. destruct Hcons as [[Hzero _] Hconss].
  apply throughout_inv in Hsub. destruct Hsub as [Hsubc Hsubs].
  assert (Hsubsok : exists subs,
             mapM get_all_abundances (children c) = Ok subs
             /\ (Forall (throughout settled) (children c) ->
                 Forall entry_ok (List.concat subs))).
  { clear - IH Hlets Hconss Hsubs.
    induction IH as [|x cs Hx _ IHcs].
    - exists []. split; [reflexivity | constructor].
    - destruct (Hx (Forall_inv Hlets) (Forall_inv Hconss) (Forall_inv Hsubs))
        as (e & He & Hok).
      destruct (IHcs (Forall_inv_tail Hlets) (Forall_inv_tail Hconss)
                     (Forall_inv_tail Hsubs)) as (subs & Hs & Hoks).
      exists (e :: subs). split.
      + cbn [mapM]. rewrite He. cbn [bind]. rewrite Hs. reflexivity.
      + intros Hall. simpl. apply Forall_app. split.
        * apply Hok. exact (Forall_inv Hall).
        * apply Hoks. exact (Forall_inv_tail Hall). }
  destruct Hsubsok as (subs & Hsubsm & Hsubsok).
  assert (Hfirst : exists ch, Str.first (name c) = Ok ch).
  { unfold letter_ok in Hd. destruct (Str.first (name c)) as [ch|]; [|discriminate].
    eexists. reflexivity. }
  destruct Hfirst as [ch Hch].
  destruct c as [nm cs m u sb ab ua r]. cbn [name children abundance uncl_abundance
    subcl_uncl] in *.
  cbn [get_all_abundances name children abundance uncl_abundance subcl_uncl].
  (* the entry of the unclassified share *)
  assert (H1 : exists ret1,
             (if Qltb 0 ua
              then c0 <- index cs (Some 0%Z) ;;
                   Ok ([(nm, ab)]
                       ++ [((Str.take 3 (name c0) ++ Str.drop 3 nm ++ "_unclassified")%string,
                            Some ua)])
              else Ok [(nm, ab)]) = Ok ret1
             /\ (ab <> None -> Forall entry_ok ret1)).
  { destruct (Qltb 0 ua) eqn:E.
    - destruct cs as [|c0 cs'].
      + exfalso. apply Qltb_true in E.
        assert (Hz : (ua == 0)%Q) by (apply Hzero; right; reflexivity).
        rewrite Hz in E. apply (Qlt_irrefl 0). exact E.
      + eexists. split; [reflexivity|].
        intros Hab. repeat constructor; [exact Hab | discriminate].
    - eexists. split; [reflexivity|]. intros Hab. repeat constructor. exact Hab. }
  destruct H1 as (ret1 & -> & Hret1). cbn [bind].
  (* the entry of a clade that ends above the species *)
  assert (H2 : exists ret2,
             (if sb
              then c1 <- Str.first nm ;;
                   if negb (Ascii.eqb c1 "s")
                   then cind <- str_find tax_units c1 ;;
                        u0 <- str_at tax_units (cind + 1) ;;
                        Ok (ret1
                            ++ [(String u0 (Str.drop 1 nm ++ "_unclassified")%string, ab)])
                   else Ok ret1
              else Ok ret1) = Ok ret2
             /\ (ab <> None -> Forall entry_ok ret2)).
  { destruct sb.
    - rewrite Hch. cbn [bind].
      destruct (Hsubc eq_refl ch Hch) as [Hs Ht].
      destruct (Ascii.eqb_spec ch "s") as [->|_]; [contradiction|]. cbn [negb].
      destruct (tax_units_next d nm ch Hd Hch Hs Ht) as (cind & u0 & -> & Hu).
      cbn [bind]. rewrite Hu. cbn [bind]. eexists. split; [reflexivity|].
      intros Hab. apply Forall_app. split; [apply Hret1; exact Hab|].
      repeat constructor. exact Hab.
    - eexists. split; [reflexivity | exact Hret1]. }
  destruct H2 as (ret2 & -> & Hret2). cbn [bind].
  rewrite Hsubsm. cbn [bind]. eexists. split; [reflexivity|].
  intros Hset. apply throughout_inv in Hset. destruct Hset as [Hself Hsets].
  apply Forall_app. split; [apply Hret2; exact Hself | apply Hsubsok; exact Hsets].
Qed.

Lemma many_app {A : Type} (R : A -> A -> Prop) (x y z : A) :
  many R x y -> many R y z -> many R x z.
Proof.
  intros Hxy Hyz. induction Hyz as [|y z w _ IH Hzw]; [exact Hxy|].
  eapply many_more; [apply IH; exact Hxy | exact Hzw].
Qed.

Section Consistent.

Variable mpa_pkl : MpaPkl.
Variable T0 : TaxTree.
Hypothesis db_valid : valid_taxonomy (taxonomy mpa_pkl) = true.
Hypothesis db_positive : positive_lengths mpa_pkl = true.
Hypothesis db_built : TaxTree_init mpa_pkl = Ok T0.
Hypothesis db_exts : exts_known T0 = true.

Lemma built_tree_invariants :
  throughout strain_leaf (root T0)
  /\ throughout monotone (root T0)
  /\ throughout conserved (root T0)
  /\ throughout subcl_ok (root T0).
Proof.
  assert (Hb : throughout blank (root T0)).
  { pose proof db_built as H. unfold TaxTree_init in H. inv_bind H.
    eapply init_markers_blank; [exact H|].
    eapply (init_taxonomy_throughout blank blank_set_children blank_init); [exact Ha|].
    simpl. constructor; [apply blank_init | constructor]. }
  split; [eapply TaxTree_init_strain_leaves; eauto|].
  split; [|split]; (eapply throughout_impl; [|exact Hb]).
  - intros c (_ & Hab & _) a Ha. congruence.
  - apply fresh_conserved.
  - intros c (_ & _ & _ & Hs & _) Hsub. congruence.
Qed.

Lemma runs_tree_invariants (T : TaxTree) :
  many run T0 T ->
  throughout strain_leaf (root T)
  /\ throughout monotone (root T)
  /\ throughout conserved (root T)
  /\ throughout subcl_ok (root T)
  /\ Forall (throughout lettered) (children (root T)).
Proof.
  intros Hruns.
  assert (Hlet : Forall (throughout lettered) (children (root T))).
  { eapply (skeleton_below lettered); [apply lettered_name | |].
    - apply steps_skeleton, runs_steps. exact Hruns.
    - eapply TaxTree_init_lettered; eauto. }
  assert (Hkeep : forall Ta Tb,
             many run Ta Tb ->
             throughout strain_leaf (root Ta)
             /\ throughout monotone (root Ta)
             /\ throughout conserved (root Ta)
             /\ throughout subcl_ok (root Ta) ->
             throughout strain_leaf (root Tb)
             /\ throughout monotone (root Tb)
             /\ throughout conserved (root Tb)
             /\ throughout subcl_ok (root Tb)).
  { clear. intros Ta Tb Hruns. induction Hruns as [|Ta T1 T2 _ IH Hr]; [auto|].
    intros Hinit. destruct (IH Hinit) as (H1 & H2 & H3 & H4).
    pose proof (run_step _ _ Hr) as Hs.
    split; [eapply step_strain_leaves; eauto|].
    split; [eapply step_monotone; eauto|].
    split.
    + apply (sum_invariant_step conserved conserved_set_children
               (fun c d Hc => Hc)
               (fun T' cfg => compute_abundance_conserved T' cfg) T1 T2);
        assumption.
    + apply (sum_invariant_step subcl_ok subcl_ok_set_children
               (fun c d Hc => Hc)
               (fun T' cfg => compute_abundance_subcl_ok T' cfg) T1 T2);
        assumption. }
  pose proof (Hkeep T0 T Hruns built_tree_invariants) as H4.
  destruct H4 as (H1 & H2 & H3 & H4). auto 10.
Qed.

Lemma kingdom_clades_total (T : TaxTree) (items : list (string * ref)) :
  (forall k v, In (k, v) items -> exists fs cl, deref T v = Ok (fs, cl)) ->
  exists vs,
    kingdom_clades T items = Ok vs
    /\ forall v, In v vs ->
                 exists k, In (k, v) items /\ Str.startswith k "k__" = true.
Proof.
  induction items as [|[k v] items IH]; intros Hall; cbn [kingdom_clades].
  - exists []. split; [reflexivity | intros v []].
  - destruct IH as (vs & Hvs & Hin).
    { intros k0 v0 H0. apply (Hall k0 v0). right. exact H0. }
    assert (Hin' : forall v0, In v0 vs ->
               exists k0, In (k0, v0) ((k, v) :: items)
                          /\ Str.startswith k0 "k__" = true).
    { intros v0 H0. destruct (Hin v0 H0) as (k0 & H1 & H2).
      exists k0. split; [right; exact H1 | exact H2]. }
    destruct (Str.startswith k "k__") eqn:Ek.
    + destruct (Hall k v (or_introl eq_refl)) as (fs & cl & ->). cbn [bind].
      rewrite Hvs. cbn [bind]. eexists. split; [reflexivity|].
      destruct (uncl cl); [exact Hin'|].
      intros v0 [<- | H0]; [|apply Hin'; exact H0].
      exists k. split; [left; reflexivity | exact Ek].
    + exists vs. split; [exact Hvs | exact Hin'].
Qed.

Variable cfg : Config.
Hypothesis quantile_nonneg : (0 <= quantile cfg)%Q.
Hypothesis quantile_below_half : (quantile cfg < 1 # 2)%Q.

Lemma compute_kingdoms_total (vs : list ref) :
  forall T tot_ab,
    many run T0 T ->
    (forall v, In v vs -> exists cl, clade_at (root T) v = Some cl) ->
    exists tot_ab' T',
      compute_kingdoms T cfg vs tot_ab = Ok (tot_ab', T')
      /\ many run T T'
      /\ forall v, In v vs ->
                   exists cl, clade_at (root T') v = Some cl /\ settled cl.
Proof.
  induction vs as [|v vs IH]; intros T tot_ab Hruns Hall; cbn [compute_kingdoms].
  - do 2 eexists. split; [reflexivity|]. split; [apply many_none | intros v []].
  - destruct (Hall v (or_introl eq_refl)) as [cl Hcl].
    destruct (compute_abundance_at_total mpa_pkl T0 T cfg v cl db_valid db_positive
                db_built db_exts Hruns quantile_nonneg quantile_below_half Hcl)
      as (a & T1 & Hc).
    rewrite Hc. cbn [bind].
    assert (Hr : run T T1) by (eapply run_compute; exact Hc).
    assert (Hruns1 : many run T0 T1) by (eapply many_more; eauto).
    pose proof (step_skeleton _ _ (run_step _ _ Hr)) as [Hsk _].
    destruct (IH T1 (tot_ab + a)%Q Hruns1) as (tot' & T' & Hk & Hruns' & Hset).
    { intros v0 H0. destruct (Hall v0 (or_intror H0)) as [cl0 Hcl0].
      destruct (skeleton_clade_at _ _ _ _ Hsk Hcl0) as (cl1 & Hcl1 & _). eauto. }
    exists tot', T'. split; [exact Hk|]. split; [eapply many_first; eauto|].
    intros v0 [<- | H0]; [|apply Hset; exact H0].
    destruct (compute_abundance_at_stored _ _ _ _ _ Hc) as (cl1 & Hcl1 & Hab1).
    pose proof (steps_keep_results _ _ (runs_steps _ _ Hruns')) as Hkeep.
    destruct (keeps_results_clade_at _ _ _ _ Hkeep Hcl1) as (cl2 & Hcl2 & Hk2).
    exists cl2. split; [exact Hcl2|].
    inversion Hk2 as [? ? _ Hab _]; subst. unfold settled.
    rewrite (Hab a Hab1). discriminate.
Qed.

Variable lev : string.
Hypothesis lev_given : lev <> EmptyString.

Lemma collect_entries_total (T : TaxTree) (entries : list (string * option Q)) :
  forall acc,
    exists d,
      collect_entries T (Some lev) entries acc = Ok d
      /\ (Forall entry_ok entries -> Forall entry_ok acc -> Forall entry_ok d).
Proof.
  induction entries as [|[cl ab] entries IH]; intros acc; cbn [collect_entries].
  - exists acc. split; [reflexivity | auto].
  - unfold no_tax_lev.
    destruct (String.eqb_spec lev EmptyString) as [E|_]; [contradiction|].
    destruct (negb (Str.startswith cl lev)).
    + destruct (IH acc) as (d & Hd & Hok). exists d. split; [exact Hd|].
      intros He Ha. apply Hok; [exact (Forall_inv_tail He) | exact Ha].
    + destruct (IH (dict_set acc cl ab)) as (d & Hd & Hok). exists d.
      split; [exact Hd|]. intros He Ha.
      apply Hok; [exact (Forall_inv_tail He)|].
      apply Forall_dict_set; [|exact Ha].
      intros k'. exact (Forall_inv He).
Qed.

Lemma collect_kingdoms_total (T : TaxTree) (vs : list ref) :
  (forall v, In v vs ->
             exists fs cl entries,
               deref T v = Ok (fs, cl)
               /\ get_all_abundances cl = Ok entries
               /\ Forall entry_ok entries) ->
  forall acc,
    Forall entry_ok acc ->
    exists d, collect_kingdoms T (Some lev) vs acc = Ok d /\ Forall entry_ok d.
Proof.
  induction vs as [|v vs IH]; intros Hall acc Hacc; cbn [collect_kingdoms].
  - exists acc. split; [reflexivity | exact Hacc].
  - destruct (Hall v (or_introl eq_refl)) as (fs & cl & entries & Hd & He & Hok).
    rewrite Hd. cbn [bind]. rewrite He. cbn [bind].
    destruct (collect_entries_total T entries acc) as (d1 & Hc1 & Hd1).
    rewrite Hc1. cbn [bind].
    apply IH; [|apply Hd1; assumption].
    intros v0 H0. apply Hall. right. exact H0.
Qed.

Lemma normalize_total (tot_ab : Q) (cl2ab : dict (option Q)) :
  Forall entry_ok cl2ab ->
  exists ret_d,
    mapM (fun kv => x <- normalize tot_ab (snd kv) ;; Ok (fst kv, x)) cl2ab = Ok ret_d.
Proof.
  intros Hok. apply mapM_total. eapply Forall_impl; [|exact Hok].
  intros [k [x|]] Hx; [|exfalso; apply Hx; reflexivity]. simpl.
  unfold normalize, fdiv. destruct (Qeq_bool tot_ab 0); cbn [bind]; eexists; reflexivity.
Qed.

Lemma relative_abundances_total (T : TaxTree) :
  many run T0 T ->
  exists d T', relative_abundances T cfg (Some lev) = Ok (d, T') /\ many run T0 T'.
Proof.
  intros Hruns. unfold relative_abundances.
  destruct (runs_counts_known _ _ _ db_built Hruns) as (Hrefs & _ & _).
  destruct (runs_indexes _ _ Hruns) as (Hac & _).
  assert (Hnd : NoDup (dict_keys (all_clades T)))
    by (rewrite Hac; eapply TaxTree_init_keys; eauto).
  destruct (kingdom_clades_total T (all_clades T)) as (vs & -> & Hvs).
  { intros k v Hin. apply (dict_get_unique _ _ _ Hnd) in Hin.
    destruct Hrefs as (H1 & _). destruct (H1 _ _ Hin) as (cl & Hcl & _).
    destruct (clade_at_deref _ _ _ Hcl) as [fs Hd]. eauto. }
  cbn [bind].
  assert (Hkingdom : forall v, In v vs ->
             exists k cl, dict_get (all_clades T) k = Some v
                          /\ Str.startswith k "k__" = true
                          /\ clade_at (root T) v = Some cl /\ name cl = k).
  { intros v Hv. destruct (Hvs v Hv) as (k & Hin & Hk).
    apply (dict_get_unique _ _ _ Hnd) in Hin.
    destruct Hrefs as (H1 & _). destruct (H1 _ _ Hin) as (cl & Hcl & Hn).
    exists k, cl. auto. }
  destruct (compute_kingdoms_total vs T 0%Q Hruns) as (tot & T' & -> & Hruns' & Hset).
  { intros v Hv. destruct (Hkingdom v Hv) as (k & cl & _ & _ & Hcl & _). eauto. }
  cbn [bind].
  assert (Hruns0 : many run T0 T') by (eapply many_app; eauto).
  destruct (runs_tree_invariants T' Hruns0) as (_ & Hmono & Hcons & Hsub & Hlet).
  destruct (runs_named _ _ _ db_valid db_built Hruns0) as [_ Hroot].
  pose proof (steps_skeleton _ _ (runs_steps _ _ Hruns')) as Hsk.
  destruct (collect_kingdoms_total T' vs) with (acc := @nil (string * option Q))
    as (cl2ab & -> & Hok).
  { intros v Hv. destruct (Hset v Hv) as (cl & Hcl & Hs).
    destruct (Hkingdom v Hv) as (k & cl0 & _ & Hk & Hcl0 & Hn0).
    destruct (clade_at_deref _ _ _ Hcl) as [fs Hd].
    assert (Hname : name cl = k).
    { destruct (skeleton_clade_at _ _ _ _ Hsk Hcl0) as (cl1 & Hcl1 & Hs1).
      rewrite Hcl in Hcl1. injection Hcl1 as <-.
      rewrite (same_skeleton_name _ _ Hs1). exact Hn0. }
    assert (Hletc : throughout lettered cl).
    { destruct v as [|nm q].
      - rewrite clade_at_nil in Hcl. injection Hcl as <-.
        rewrite Hroot in Hname. rewrite <- Hname in Hk.
        vm_compute in Hk. discriminate Hk.
      - rewrite clade_at_cons in Hcl.
        destruct (find_child (children (root T')) nm) as [x|] eqn:Ex; [|discriminate].
        apply find_child_name in Ex. destruct Ex as [_ Hx].
        rewrite Forall_forall in Hlet.
        eapply throughout_clade_at; [apply Hlet; exact Hx | exact Hcl]. }
    destruct (get_all_abundances_total cl Hletc) as (entries & He & Hoke).
    - eapply throughout_clade_at; eauto.
    - eapply throughout_clade_at; eauto.
    - exists fs, cl, entries. split; [exact Hd|]. split; [exact He|].
      apply Hoke. apply monotone_settled; [|exact Hs].
      eapply throughout_clade_at; eauto. }
  { constructor. }
  cbn [bind].
  destruct (normalize_total tot cl2ab Hok) as (ret_d & ->). cbn [bind].
  unfold no_tax_lev.
  destruct (String.eqb_spec lev EmptyString) as [E|_]; [contradiction|].
  do 2 eexists. split; [reflexivity | exact Hruns0].
Qed.

End Consistent.

(** X23.  On a consistent database the table of a rank is always
    produced.  When the taxonomy is valid, every marker has a positive
    length and every taxon that a marker names as related is one of
    [taxa2clades], then on the tree built by [TaxTree.__init__], while
    numbers of reads are recorded with [add_reads] and abundances are
    computed, [relative_abundances] called for a rank raises nothing, in
    any of the seven statistic modes, with either setting of the toggle
    and for any quantile in [0, 1/2): every kingdom is computed, every
    entry gathered carries a value, and the division by the total is
    guarded. *)
Theorem relative_abundances_never_raises
    (mpa_pkl : MpaPkl) (T0 T : TaxTree) (cfg : Config) (lev : string) :
  valid_taxonomy (taxonomy mpa_pkl) = true ->
  positive_lengths mpa_pkl = true ->
  TaxTree_init mpa_pkl = Ok T0 ->
  exts_known T0 = true ->
  many run T0 T ->
  (0 <= quantile cfg)%Q -> (quantile cfg < 1 # 2)%Q ->
  lev <> EmptyString ->
  exists d T', relative_abundances T cfg (Some lev) = Ok (d, T') /\ many run T0 T'.
Proof.
  intros Hv Hpos Hinit Hknown Hruns Hq0 Hq1 Hlev.
  exact (relative_abundances_total mpa_pkl T0 Hv Hpos Hinit Hknown cfg Hq0 Hq1
           lev Hlev T Hruns).
Qed.

Lemma relative_abundances_never_raises_witness :
  exists d T',
    relative_abundances self_ext_tree (strains_config tavg_g) (Some "s__"%string)
    = Ok (d, T')
    /\ many run self_ext_tree0 T'.
Proof.
  assert (Ha : exists s,
             add_reads self_ext_tree0 "m1" 5 false false false false
             = Ok (s, self_ext_tree)) by (vm_compute; eexists; reflexivity).
  destruct Ha as [s Ha].
  apply (relative_abundances_never_raises self_ext_db self_ext_tree0 self_ext_tree
           (strains_config tavg_g) "s__").
  - vm_compute. reflexivity.
  - vm_compute. reflexivity.
  - vm_compute. reflexivity.
  - vm_compute. reflexivity.
  - eapply many_more; [apply many_none|].
    eapply run_add_reads; [|exact Ha]. lia.
  - vm_compute. discriminate.
  - vm_compute. reflexivity.
  - discriminate.
Defined.
